(** * Structured indoor modeling: panorama transforms and door-detection geometry

    A shallow embedding of [floorplan/panorama.cc] and
    [segmentation/door_detection.cc], with the properties of the
    specification stated and proved on it.

    Numeric model.  A C++ [int] is a [Z]; where the source computes in [int]
    a value that can leave its range, the model says so.  A [double] or
    [float] is the rational number it denotes ([Q]), and equality of computed
    numbers is [Qeq] ([==]).  The arithmetic of [Project], of
    [ComputeAverageDistance], of [BlurField] and of the signatures in the
    module [Rounded] rounds every result to nearest, ties to even, in the
    format of the source: there a property depends on the rounding.
    Elsewhere the operators are the exact field operations, which tells what
    the code reads, writes and compares.  NaN and the infinities are outside
    the model.  The functions of libm ([atan2], [sqrt], [exp]) are parameters
    of the sections that use them, constrained only by what the proofs need.
    A read outside a [std::vector] or a [cv::Mat] is undefined in C++ and is
    a distinguished outcome here, as is [exit (1)]. *)

From Stdlib Require Import ZArith QArith Qround Qabs Qpower Lia Lqa List Bool Sorted Permutation.
Import ListNotations.

Open Scope Q_scope.

(** ** Outcomes of fallible code *)

Inductive outcome (A : Type) : Type :=
| Ok (a : A)        (* normal return *)
| Fatal             (* the reference prints a message and calls exit (1) *)
| OutOfRange        (* a read or write outside a container, or an int out of range *)
| OutOfFuel.        (* the bound given to the model of a loop was too small *)

Arguments Ok {A} a.
Arguments Fatal {A}.
Arguments OutOfRange {A}.
Arguments OutOfFuel {A}.

Definition bind {A B : Type} (m : outcome A) (k : A -> outcome B) : outcome B :=
  match m with
  | Ok a => k a
  | Fatal => Fatal
  | OutOfRange => OutOfRange
  | OutOfFuel => OutOfFuel
  end.

Notation "x <- m ;; k" := (bind m (fun x => k))
  (at level 61, m at next level, right associativity).

Definition of_option {A : Type} (o : option A) : outcome A :=
  match o with
  | Some a => Ok a
  | None => OutOfRange
  end.

(** [v[i]] for a C++ index [i : int]. *)
Definition zth {A : Type} (l : list A) (i : Z) : option A :=
  if (i <? 0)%Z then None else nth_error l (Z.to_nat i).

Definition zlen {A : Type} (l : list A) : Z := Z.of_nat (length l).

(** [v.at(i) = a] *)
Fixpoint list_set {A : Type} (l : list A) (n : nat) (a : A) : option (list A) :=
  match l, n with
  | [], _ => None
  | _ :: l', O => Some (a :: l')
  | b :: l', S n' => option_map (cons b) (list_set l' n' a)
  end.

Definition zset {A : Type} (l : list A) (i : Z) (a : A) : option (list A) :=
  if (i <? 0)%Z then None else list_set l (Z.to_nat i) a.

(** [lo, lo + 1, ..., lo + n - 1]: the values a [for] loop counter takes. *)
Fixpoint zrange (lo : Z) (n : nat) : list Z :=
  match n with
  | O => []
  | S n' => lo :: zrange (lo + 1) n'
  end.

(** [for (int i = lo; i < hi; ++i)] *)
Definition upto (lo hi : Z) : list Z := zrange lo (Z.to_nat (hi - lo)).

(** A loop body run over the values of its counter, threading the state. *)
Fixpoint for_each {A S : Type} (l : list A) (body : A -> S -> outcome S) (s : S)
  : outcome S :=
  match l with
  | [] => Ok s
  | a :: l' => s' <- body a s ;; for_each l' body s'
  end.

(** [a / b] on [int]s: the quotient is truncated toward zero; a zero divisor
    is undefined, as an access out of range is. *)
Definition idiv (a b : Z) : outcome Z :=
  if (b =? 0)%Z then OutOfRange else Ok (Z.quot a b).

(** [v.clear (); v.resize (n, a)]: a negative [n] makes [resize] throw, as
    [at] does out of range. *)
Definition resized {A : Type} (n : Z) (a : A) : outcome (list A) :=
  if (n <? 0)%Z then OutOfRange else Ok (repeat a (Z.to_nat n)).

(** [numeric_limits<float>::max()] *)
Definition FLT_MAX : Q := inject_Z 340282346638528859811704183484516925440.

(** [a < b], [a <= b], [a == b] on doubles, as booleans *)
Definition fltb (a b : Q) : bool := if Qlt_le_dec a b then true else false.
Definition fleb (a b : Q) : bool := if Qlt_le_dec b a then false else true.
Definition feqb (a b : Q) : bool := Qeq_bool a b.

(** [std::min] and [std::max] as <algorithm> defines them *)
Definition fmin (a b : Q) : Q := if fltb b a then b else a.
Definition fmax (a b : Q) : Q := if fltb a b then b else a.

(** ** Rounding to a binary floating-point format *)

(** [prec] significant bits; [emin] is the exponent of the least normal
    number. *)
Record format := mkFormat { prec : Z; emin : Z }.

(** [float] *)
Definition binary32 : format := mkFormat 24 (-126).
(** [double] *)
Definition binary64 : format := mkFormat 53 (-1022).

Definition pow2 (e : Z) : Q := 2 ^ e.

(** The exponent of [q]: [pow2 e <= |q| < pow2 (e + 1)], for [q] other than
    0. *)
Definition ilog2 (q : Q) : Z :=
  let e0 := (Z.log2 (Z.abs (Qnum q)) - Z.log2 (Zpos (Qden q)))%Z in
  if Qle_bool (pow2 e0) (Qabs q) then e0 else (e0 - 1)%Z.

(** The nearest integer, the even one of two that are as near. *)
Definition rne (x : Q) : Z :=
  let f := Qfloor x in
  match Qcompare (x - inject_Z f) (1 # 2) with
  | Lt => f
  | Gt => (f + 1)%Z
  | Eq => if Z.even f then f else (f + 1)%Z
  end.

(** The exponent of the unit in the last place of [q]. *)
Definition ulp_exp (f : format) (q : Q) : Z :=
  (Z.max (ilog2 q) (emin f) - prec f + 1)%Z.

(** Rounding to nearest, ties to even, with gradual underflow.  A result
    beyond the largest finite number is outside the model. *)
Definition rnd (f : format) (q : Q) : Q :=
  if Qeq_bool q 0 then 0
  else let s := pow2 (ulp_exp f q) in inject_Z (rne (q / s)) * s.

Definition single : Q -> Q := rnd binary32.
Definition double : Q -> Q := rnd binary64.

(** * floorplan/panorama.cc *)

Module Panorama.

Record Vector2d := V2 { px : Q; py : Q }.
Record Vector3d := V3 { c0 : Q; c1 : Q; c2 : Q }.
Record Vector4d := V4 { h0 : Q; h1 : Q; h2 : Q; h3 : Q }.
Record Matrix4d := M4 { r0 : Vector4d; r1 : Vector4d; r2 : Vector4d; r3 : Vector4d }.

(** cv::Vec3b, three unsigned chars *)
Record Vec3b := RGB { ch0 : Z; ch1 : Z; ch2 : Z }.

Definition veq2 (a b : Vector2d) : Prop := px a == px b /\ py a == py b.
Definition veq3 (a b : Vector3d) : Prop :=
  c0 a == c0 b /\ c1 a == c1 b /\ c2 a == c2 b.
Definition veq4 (a b : Vector4d) : Prop :=
  h0 a == h0 b /\ h1 a == h1 b /\ h2 a == h2 b /\ h3 a == h3 b.
Definition meq (a b : Matrix4d) : Prop :=
  veq4 (r0 a) (r0 b) /\ veq4 (r1 a) (r1 b) /\
  veq4 (r2 a) (r2 b) /\ veq4 (r3 a) (r3 b).

Definition dot4 (a b : Vector4d) : Q :=
  h0 a * h0 b + h1 a * h1 b + h2 a * h2 b + h3 a * h3 b.

(** Matrix4d * Vector4d *)
Definition mul_mv (m : Matrix4d) (v : Vector4d) : Vector4d :=
  V4 (dot4 (r0 m) v) (dot4 (r1 m) v) (dot4 (r2 m) v) (dot4 (r3 m) v).

Definition col (m : Matrix4d) (get : Vector4d -> Q) : Vector4d :=
  V4 (get (r0 m)) (get (r1 m)) (get (r2 m)) (get (r3 m)).

(** Matrix4d * Matrix4d *)
Definition mul_mm (a b : Matrix4d) : Matrix4d :=
  let row r := V4 (dot4 r (col b h0)) (dot4 r (col b h1))
                  (dot4 r (col b h2)) (dot4 r (col b h3)) in
  M4 (row (r0 a)) (row (r1 a)) (row (r2 a)) (row (r3 a)).

Definition identity : Matrix4d :=
  M4 (V4 1 0 0 0) (V4 0 1 0 0) (V4 0 0 1 0) (V4 0 0 0 1).

Record Panorama := mkPanorama {
  rgb_image : list (list Vec3b);     (* rows of pixels *)
  width : Z;
  height : Z;
  depth_image : list Q;
  depth_width : Z;
  depth_height : Z;
  local_to_global : Matrix4d;
  global_to_local : Matrix4d;
  center : Vector4d;
  phi_range : Q;
  phi_per_pixel : Q;
  phi_per_depth_pixel : Q;
  average_distance : Q
}.

(** [InitCameraParameters]: [file] holds the sixteen numbers read from the
    transformation file row by row and [phi] the number that follows them. *)
Definition InitCameraParameters (file : Matrix4d) (phi : Q) (p : Panorama)
  : Panorama :=
  let l2g := file in
  let cen := col l2g h3 in
  (* rotation = local_to_global.block(0, 0, 3, 3); rt k = column k of it *)
  let rt (get : Vector4d -> Q) := V3 (get (r0 l2g)) (get (r1 l2g)) (get (r2 l2g)) in
  let t := V3 (h3 (r0 l2g)) (h3 (r1 l2g)) (h3 (r2 l2g)) in
  let d3 (a b : Vector3d) := c0 a * c0 b + c1 a * c1 b + c2 a * c2 b in
  let grow (get : Vector4d -> Q) :=
    V4 (c0 (rt get)) (c1 (rt get)) (c2 (rt get)) (- d3 (rt get) t) in
  let g2l := M4 (grow h0) (grow h1) (grow h2) (V4 0 0 0 1) in
  mkPanorama (rgb_image p) (width p) (height p)
             (depth_image p) (depth_width p) (depth_height p)
             l2g g2l cen phi
             (phi_per_pixel p) (phi_per_depth_pixel p) (average_distance p).

Definition GlobalToLocal (p : Panorama) (global : Vector3d) : Vector3d :=
  let global4 := V4 (c0 global) (c1 global) (c2 global) 1 in
  let local4 := mul_mv (global_to_local p) global4 in
  V3 (h0 local4) (h1 local4) (h2 local4).

Definition LocalToGlobal (p : Panorama) (local : Vector3d) : Vector3d :=
  let local4 := V4 (c0 local) (c1 local) (c2 local) 1 in
  let global4 := mul_mv (local_to_global p) local4 in
  V3 (h0 global4) (h1 global4) (h2 local4).

Definition RGBToDepth (p : Panorama) (pixel : Vector2d) : Vector2d :=
  V2 (px pixel * inject_Z (depth_width p) / inject_Z (width p))
     (py pixel * inject_Z (depth_height p) / inject_Z (height p)).

Definition DepthToRGB (p : Panorama) (depth_pixel : Vector2d) : Vector2d :=
  V2 (px depth_pixel * inject_Z (width p) / inject_Z (depth_width p))
     (py depth_pixel * inject_Z (height p) / inject_Z (depth_height p)).

Definition IsInsideRGB (p : Panorama) (pixel : Vector2d) : bool :=
  if fltb (px pixel) 0 || fleb (inject_Z (width p)) (px pixel) ||
     fltb (py pixel) 0 || fleb (inject_Z (height p - 1)) (py pixel)
  then false else true.

Definition IsInsideDepth (p : Panorama) (depth_pixel : Vector2d) : bool :=
  if fltb (px depth_pixel) 0 || fleb (inject_Z (depth_width p)) (px depth_pixel) ||
     fltb (py depth_pixel) 0 || fleb (inject_Z (depth_height p - 1)) (py depth_pixel)
  then false else true.

(** [rgb_image.at<cv::Vec3b>(v, u)] *)
Definition at_rgb (p : Panorama) (v u : Z) : outcome Vec3b :=
  row <- of_option (zth (rgb_image p) v) ;;
  of_option (zth row u).

Definition GetRGB (p : Panorama) (pixel : Vector2d) : outcome Vector3d :=
  if negb (IsInsideRGB p pixel) then Fatal else
  (* Bilinear interpolation. *)
  let u0 := Qfloor (px pixel) in
  let v0 := Qfloor (py pixel) in
  let u1 := (u0 + 1)%Z in
  let v1 := (v0 + 1)%Z in
  let weight00 := (inject_Z u1 - px pixel) * (inject_Z v1 - py pixel) in
  let weight01 := (px pixel - inject_Z u0) * (inject_Z v1 - py pixel) in
  let weight10 := (inject_Z u1 - px pixel) * (py pixel - inject_Z v0) in
  let weight11 := (px pixel - inject_Z u0) * (py pixel - inject_Z v0) in
  let u1_corrected := Z.rem u1 (width p) in
  color00 <- at_rgb p v0 u0 ;;
  color01 <- at_rgb p v0 u1_corrected ;;
  color10 <- at_rgb p v1 u0 ;;
  color11 <- at_rgb p v1 u1_corrected ;;
  let mix (ch : Vec3b -> Z) :=
    weight00 * inject_Z (ch color00) + weight01 * inject_Z (ch color01) +
    weight10 * inject_Z (ch color10) + weight11 * inject_Z (ch color11) in
  Ok (V3 (mix ch0) (mix ch1) (mix ch2)).

Definition GetDepth (p : Panorama) (depth_pixel : Vector2d) : outcome Q :=
  if negb (IsInsideDepth p depth_pixel) then Fatal else
  let u0 := Qfloor (px depth_pixel) in
  let v0 := Qfloor (py depth_pixel) in
  let u1 := (u0 + 1)%Z in
  let v1 := (v0 + 1)%Z in
  let weight00 := (inject_Z u1 - px depth_pixel) * (inject_Z v1 - py depth_pixel) in
  let weight01 := (px depth_pixel - inject_Z u0) * (inject_Z v1 - py depth_pixel) in
  let weight10 := (inject_Z u1 - px depth_pixel) * (py depth_pixel - inject_Z v0) in
  let weight11 := (px depth_pixel - inject_Z u0) * (py depth_pixel - inject_Z v0) in
  let u1_corrected := Z.rem u1 (depth_width p) in
  let dw := depth_width p in
  d00 <- of_option (zth (depth_image p) (v0 * dw + u0)) ;;
  d01 <- of_option (zth (depth_image p) (v0 * dw + u1_corrected)) ;;
  d10 <- of_option (zth (depth_image p) (v1 * dw + u0)) ;;
  d11 <- of_option (zth (depth_image p) (v1 * dw + u1_corrected)) ;;
  Ok (weight00 * d00 + weight01 * d01 + weight10 * d10 + weight11 * d11).

(** [M_PI] of <cmath>: the double nearest to pi *)
Definition M_PI : Q := 884279719003555 # 281474976710656.

Section Projection.

(** libm *)
Variable atan2 : Q -> Q -> Q.
Variable sqrt : Q -> Q.
Variable sin cos : Q -> Q.

(** The azimuth of [Project], before it is turned into a ratio.  Every
    operation of [Project] is one of [double], rounded to nearest: the sum
    [theta + 2 * M_PI] can round up to [2 * M_PI] itself, which is how the
    ratio below reaches 1. *)
Definition azimuth (local : Vector3d) : Q :=
  let theta := - atan2 (c1 local) (c0 local) in
  if fltb theta 0 then double (theta + 2 * M_PI) else theta.

Definition theta_ratio_of (theta : Q) : Q :=
  let theta_ratio := fmax 0 (fmin 1 (double (theta / (2 * M_PI)))) in
  if feqb theta_ratio 1 then 0 else theta_ratio.

Definition Project (p : Panorama) (global : Vector3d) : Vector2d :=
  let local := GlobalToLocal p global in
  (* x coordinate. *)
  let theta := azimuth local in
  let theta_ratio := theta_ratio_of theta in
  let uv0 := double (theta_ratio * inject_Z (width p)) in
  let depth := sqrt (double (double (c0 local * c0 local) +
                             double (c1 local * c1 local))) in
  let phi := atan2 (c2 local) depth in
  let pixel_offset_from_center := double (phi / phi_per_pixel p) in
  let uv1 := double (inject_Z (height p) / 2 - pixel_offset_from_center) in
  V2 uv0 uv1.

Definition Unproject (p : Panorama) (pixel : Vector2d) (distance : Q)
  : Vector3d :=
  let theta := - 2 * M_PI * px pixel / inject_Z (width p) in
  let phi := (inject_Z (height p) / 2 - py pixel) * phi_per_pixel p in
  let l2 := distance * sin phi in
  let l0 := distance * cos phi * cos theta in
  let l1 := distance * cos phi * sin theta in
  LocalToGlobal p (V3 l0 l1 l2).

End Projection.

End Panorama.

(** * segmentation/door_detection.cc *)

Module DoorDetection.

(** ** Constants of the anonymous namespace *)

Definition kInvalidScore : Q := FLT_MAX.
Definition kGoodFreeSpaceEvidence : Q := 100.
Definition kMarginFromBoundaryForVisibility : Q := 5.
Definition kVisibilityMargin : Z := 10.
Definition kInitialClusterNum : Z := 20.
Definition kMergeThreshold : Q := 1 # 2.

(** ** Weighted visibility and its distance *)

(** [vector<pair<int, float> >]: (boundary index, weight) *)
Definition signature := list (Z * Q).

(** The loop of [VisibilityDistance].  The two arguments are what is left of
    [lhs] from [lhs_index] on and of [rhs] from [rhs_index] on; the branches
    are those of the source, in its order. *)
Fixpoint vd_loop (lhs : signature) : signature -> Q -> Q :=
  fix vd_rhs (rhs : signature) (distance : Q) {struct rhs} : Q :=
    match lhs, rhs with
    | [], [] => distance
    | [], r :: rhs' => vd_rhs rhs' (distance + snd r)
    | l :: lhs', [] => vd_loop lhs' [] (distance + snd l)
    | l :: lhs', r :: rhs' =>
        if (fst l =? fst r)%Z then vd_loop lhs' rhs' distance
        else if (fst l <? fst r)%Z then vd_loop lhs' rhs (distance + snd l)
        else vd_rhs rhs' (distance + snd r)
    end.

Definition VisibilityDistance (lhs rhs : signature) : Q :=
  vd_loop lhs rhs 0 / 2.

(** The second and third loops of [AssociateWeightToVisibility] for one
    pixel: [entries] holds (boundary index, distance to that boundary point). *)
Definition normalize_weights (entries : signature) : signature :=
  let weighted := map (fun e => (fst e, 1 / (snd e + 1))) entries in
  let weight_sum := fold_left (fun acc e => acc + snd e) weighted 0 in
  map (fun e => (fst e, snd e / weight_sum)) weighted.

(** ** Clustering *)

Definition signatures := list signature.

Definition IdentifyClosestCenterIndex (weighted_visibility : signatures)
  (index : Z) (centers : list Z) : outcome Z :=
  let kInvalid := (-1)%Z in
  r <- for_each (combine (upto 0 (zlen centers)) centers)
         (fun ic (st : Z * Q) =>
            let '(closest_index, closest_distance) := st in
            a <- of_option (zth weighted_visibility index) ;;
            b <- of_option (zth weighted_visibility (snd ic)) ;;
            let distance := VisibilityDistance a b in
            if fltb distance closest_distance
            then Ok (fst ic, distance)
            else Ok st)
         (kInvalid, FLT_MAX) ;;
  if (fst r =? kInvalid)%Z then Fatal else Ok (fst r).

(** [min_element (v.begin (), v.end ()) - v.begin ()]: the first smallest. *)
Fixpoint min_index_from (best : Q) (best_i : Z) (i : Z) (l : list Q) : Z :=
  match l with
  | [] => best_i
  | a :: l' =>
      if fltb a best then min_index_from a i (i + 1) l'
      else min_index_from best best_i (i + 1) l'
  end.

Definition min_element_index (l : list Q) : Z :=
  match l with
  | [] => 0%Z
  | a :: l' => min_index_from a 0 1 l'
  end.

(** [distances[i] += v] *)
Definition add_at (distances : list Q) (i : Z) (v : Q) : outcome (list Q) :=
  old <- of_option (zth distances i) ;;
  of_option (zset distances i (old + v)).

(** The sum of squared distances to the other members, for one cluster. *)
Definition squared_distance_sums (weighted_visibility : signatures)
  (cluster : list Z) : outcome (list Q) :=
  let n := zlen cluster in
  for_each (upto 0 n)
    (fun i distances =>
       for_each (upto (i + 1) n)
         (fun j distances =>
            ci <- of_option (zth cluster i) ;;
            cj <- of_option (zth cluster j) ;;
            a <- of_option (zth weighted_visibility ci) ;;
            b <- of_option (zth weighted_visibility cj) ;;
            let distance := VisibilityDistance a b in
            distances <- add_at distances i (distance * distance) ;;
            add_at distances j (distance * distance))
         distances)
    (repeat 0 (length cluster)).

Definition UpdateCenters (weighted_visibility : signatures)
  (clusters : list (list Z)) : outcome (list Z) :=
  for_each clusters
    (fun cluster centers =>
       match cluster with
       | [] => Ok (centers ++ [0%Z])          (* left as resize made it *)
       | _ =>
           distances <- squared_distance_sums weighted_visibility cluster ;;
           c <- of_option (zth cluster (min_element_index distances)) ;;
           Ok (centers ++ [c])
       end)
    [].

(** One assignment pass of [Cluster]: every element with a signature goes to
    the cluster of its closest center. *)
Definition assign (weighted_visibility : signatures) (centers : list Z)
  : outcome (list (list Z)) :=
  for_each (combine (upto 0 (zlen weighted_visibility)) weighted_visibility)
    (fun iw clusters =>
       match snd iw with
       | [] => Ok clusters
       | _ =>
           c <- IdentifyClosestCenterIndex weighted_visibility (fst iw) centers ;;
           members <- of_option (zth clusters c) ;;
           of_option (zset clusters c (members ++ [fst iw]))
       end)
    (repeat [] (length centers)).

Definition Cluster (weighted_visibility : signatures)
  (centers : list Z) (clusters : list (list Z))
  : outcome (list Z * list (list Z)) :=
  let kTimes := 10%nat in
  for_each (repeat tt kTimes)
    (fun _ (st : list Z * list (list Z)) =>
       clusters <- assign weighted_visibility (fst st) ;;
       centers <- UpdateCenters weighted_visibility clusters ;;
       Ok (centers, clusters))
    (centers, repeat [] (length centers)).

(** *** Merge *)

Definition matrix := list (list Q).

Definition mget (m : matrix) (i j : Z) : outcome Q :=
  row <- of_option (zth m i) ;; of_option (zth row j).

Definition mset (m : matrix) (i j : Z) (v : Q) : outcome matrix :=
  row <- of_option (zth m i) ;;
  row' <- of_option (zset row j v) ;;
  of_option (zset m i row').

(** The distance matrix between the centers: the upper triangle holds the
    visibility distances, the rest [numeric_limits<float>::max()]. *)
Definition center_distances (weighted_visibility : signatures)
  (centers : list Z) : outcome matrix :=
  let n := zlen centers in
  for_each (upto 0 n)
    (fun i distances =>
       for_each (upto (i + 1) n)
         (fun j distances =>
            ci <- of_option (zth centers i) ;;
            cj <- of_option (zth centers j) ;;
            a <- of_option (zth weighted_visibility ci) ;;
            b <- of_option (zth weighted_visibility cj) ;;
            mset distances i j (VisibilityDistance a b))
         distances)
    (repeat (repeat FLT_MAX (length centers)) (length centers)).

(** Find the pair with the closest distance. *)
Definition closest (n : Z) (distances : matrix) : outcome ((Z * Z) * Q) :=
  for_each (upto 0 n)
    (fun i st =>
       for_each (upto (i + 1) n)
         (fun j (st : (Z * Z) * Q) =>
            dij <- mget distances i j ;;
            if fltb dij (snd st) then Ok ((i, j), dij) else Ok st)
         st)
    ((0, 0)%Z, FLT_MAX).

(** Avoid merging these 2 clusters any more. *)
Definition invalidate (n : Z) (closest_pair : Z * Z) (distances : matrix)
  : outcome matrix :=
  for_each (upto 0 n)
    (fun i distances =>
       distances <- mset distances (fst closest_pair) i FLT_MAX ;;
       distances <- mset distances (snd closest_pair) i FLT_MAX ;;
       distances <- mset distances i (fst closest_pair) FLT_MAX ;;
       mset distances i (snd closest_pair) FLT_MAX)
    distances.

(** The [while (true)] loop of [Merge]; [fuel] bounds its iterations. *)
Fixpoint merge_loop (fuel : nat) (n : Z) (threshold : Q) (distances : matrix)
  (pairs_to_merge : list (Z * Z)) : outcome (list (Z * Z)) :=
  match fuel with
  | O => OutOfFuel
  | S fuel' =>
      c <- closest n distances ;;
      let '(closest_pair, closest_distance) := c in
      if fltb closest_distance threshold then
        distances <- invalidate n closest_pair distances ;;
        merge_loop fuel' n threshold distances (pairs_to_merge ++ [closest_pair])
      else Ok pairs_to_merge
  end.

(** The pairs [Merge] decides to merge.  Every round but the last rules out
    two more centers, so the number of centers bounds the rounds. *)
Definition pairs_to_merge (weighted_visibility : signatures) (threshold : Q)
  (centers : list Z) : outcome (list (Z * Z)) :=
  distances <- center_distances weighted_visibility centers ;;
  merge_loop (S (length centers)) (zlen centers) threshold distances [].

(** [sort (erase_ids.rbegin (), erase_ids.rend ())]: descending order *)
Fixpoint insert_desc (x : Z) (l : list Z) : list Z :=
  match l with
  | [] => [x]
  | y :: l' => if (y <? x)%Z then x :: l else y :: insert_desc x l'
  end.

Definition sort_desc (l : list Z) : list Z := fold_right insert_desc [] l.

(** [v.erase (v.begin () + i)] *)
Definition zerase {A : Type} (l : list A) (i : Z) : outcome (list A) :=
  if (i <? 0)%Z || (zlen l <=? i)%Z then OutOfRange
  else Ok (firstn (Z.to_nat i) l ++ skipn (S (Z.to_nat i)) l).

Definition Merge (weighted_visibility : signatures) (threshold : Q)
  (centers : list Z) (clusters : list (list Z))
  : outcome (bool * list Z * list (list Z)) :=
  pairs <- pairs_to_merge weighted_visibility threshold centers ;;
  match pairs with
  | [] => Ok (false, centers, clusters)
  | _ =>
      (* Update clusters. *)
      clusters <- for_each pairs
        (fun pr clusters =>
           cluster0 <- of_option (zth clusters (fst pr)) ;;
           cluster1 <- of_option (zth clusters (snd pr)) ;;
           of_option (zset clusters (fst pr) (cluster0 ++ cluster1)))
        clusters ;;
      let erase_ids := sort_desc (map snd pairs) in
      clusters <- for_each erase_ids (fun i clusters => zerase clusters i) clusters ;;
      (* Update centers. *)
      centers <- UpdateCenters weighted_visibility clusters ;;
      Ok (true, centers, clusters)
  end.

Definition ClusterMerge (weighted_visibility : signatures)
  (centers : list Z) (clusters : list (list Z))
  : outcome (list Z * list (list Z)) :=
  let kTimes := 5%nat in
  let fix rounds (t : nat) (centers : list Z) (clusters : list (list Z)) :=
    match t with
    | O => Ok (centers, clusters)
    | S t' =>
        cc <- Cluster weighted_visibility centers clusters ;;
        m <- Merge weighted_visibility kMergeThreshold (fst cc) (snd cc) ;;
        let '(merged, centers, clusters) := m in
        if negb merged then Ok (centers, clusters)
        else rounds t' centers clusters
    end in
  cc <- rounds kTimes centers clusters ;;
  (* Last one should be Cluster instead of Merge. *)
  Cluster weighted_visibility (fst cc) (snd cc).

(** ** Frames, sweeps and the free-space mask *)

Record Vector3f := V3f { vx : Q; vy : Q; vz : Q }.

Definition dot (a b : Vector3f) : Q := vx a * vx b + vy a * vy b + vz a * vz b.
Definition sub (a b : Vector3f) : Vector3f :=
  V3f (vx a - vx b) (vy a - vy b) (vz a - vz b).

(** [Vector2f] *)
Record Vector2f := V2f { ux : Q; uy : Q }.

Definition add2 (a b : Vector2f) : Vector2f := V2f (ux a + ux b) (uy a + uy b).
Definition sub2 (a b : Vector2f) : Vector2f := V2f (ux a - ux b) (uy a - uy b).
Definition scale2 (s : Q) (a : Vector2f) : Vector2f := V2f (s * ux a) (s * uy a).
Definition div2 (a : Vector2f) (s : Q) : Vector2f := V2f (ux a / s) (uy a / s).

(** [Vector2f (p.first, p.second)] *)
Definition of_pixel (p : Z * Z) : Vector2f := V2f (inject_Z (fst p)) (inject_Z (snd p)).

(** An array of three, indexed by the axis [a = 0, 1, 2]. *)
Definition triple (A : Type) : Type := (A * A * A)%type.

Definition map3 {A B : Type} (f : A -> B) (t : triple A) : triple B :=
  let '(a, b, c) := t in (f a, f b, f c).

Definition seq3 {A : Type} (t : triple (outcome A)) : outcome (triple A) :=
  let '(a, b, c) := t in
  a <- a ;; b <- b ;; c <- c ;; Ok (a, b, c).

Record OnePoint := mkPoint { position : Vector3f; normal : Vector3f; weight : Q }.
Record Sweep := mkSweep { center : Vector3f; points : list OnePoint }.

Record Frame := mkFrame {
  axes : triple Vector3f;
  ranges : triple (Q * Q);        (* ranges[a][0], ranges[a][1] *)
  unit : Q;
  size : triple Z
}.

Definition size0 (frame : Frame) : Z := fst (fst (size frame)).
Definition size1 (frame : Frame) : Z := snd (fst (size frame)).

Definition SetMask (frame : Frame) (free_space_evidence : list Q)
  : outcome (list bool) :=
  for_each (upto 0 (size1 frame))
    (fun y mask =>
       for_each (upto 0 (size0 frame))
         (fun x mask =>
            if (y =? 0)%Z || (y =? size1 frame - 1)%Z ||
               (x =? 0)%Z || (x =? size0 frame - 1)%Z
            then Ok mask
            else
              let index := (y * size0 frame + x)%Z in
              e <- of_option (zth free_space_evidence index) ;;
              if fltb kGoodFreeSpaceEvidence e
              then of_option (zset mask index true)
              else Ok mask)
         mask)
    (repeat false (length free_space_evidence)).

(** The test shared by [SetDistanceToBoundary] and [FindBoundary]: the cell
    is in the mask and one of its four neighbours is not.  [&&] and [||]
    read no more of the mask than they need. *)
Definition on_boundary (mask : list bool) (width index : Z) : outcome bool :=
  m <- of_option (zth mask index) ;;
  if negb m then Ok false else
  l <- of_option (zth mask (index - 1)) ;;
  if negb l then Ok true else
  r <- of_option (zth mask (index + 1)) ;;
  if negb r then Ok true else
  u <- of_option (zth mask (index - width)) ;;
  if negb u then Ok true else
  d <- of_option (zth mask (index + width)) ;;
  Ok (negb d).

Definition FindBoundary (width height : Z) (mask : list bool)
  : outcome (list (Z * Z)) :=
  for_each (upto 1 (height - 1))
    (fun y boundary =>
       for_each (upto 1 (width - 1))
         (fun x boundary =>
            b <- on_boundary mask width (y * width + x) ;;
            if b then Ok (boundary ++ [(x, y)]) else Ok boundary)
         boundary)
    [].

(** ** Distance to the boundary *)

(** [pair<float, pair<int, int> >], an entry of the priority queue *)
Definition node : Type := (Q * (Z * Z))%type.

(** [operator<] of [std::pair] *)
Definition pair_lt (a b : Z * Z) : bool :=
  (fst a <? fst b)%Z || (negb (fst b <? fst a)%Z && (snd a <? snd b)%Z).

Definition node_lt (a b : node) : bool :=
  fltb (fst a) (fst b) || (negb (fltb (fst b) (fst a)) && pair_lt (snd a) (snd b)).

(** [priority_queue]: [top] is a greatest entry and [pop] removes it. *)
Fixpoint top_pop (water_front : list node) : option (node * list node) :=
  match water_front with
  | [] => None
  | a :: rest =>
      match top_pop rest with
      | None => Some (a, [])
      | Some (m, rest') =>
          if node_lt a m then Some (m, a :: rest') else Some (a, rest)
      end
  end.

(** The offsets [-1, 0, 1] of the two inner loops, [j] outside and [i] inside,
    without [(0, 0)]. *)
Definition neighbour_offsets : list (Z * Z) :=
  filter (fun ij => negb ((fst ij =? 0)%Z && (snd ij =? 0)%Z))
         (flat_map (fun j => map (fun i => (i, j)) (upto (-1) 2)) (upto (-1) 2)).

Section Distance.

(** libm *)
Variable sqrt : Q -> Q.

Definition norm2 (v : Vector2f) : Q := sqrt (ux v * ux v + uy v * uy v).

(** [sqrt (i * i + j * j)] *)
Definition step_norm (i j : Z) : Q := sqrt (inject_Z (i * i + j * j)).

Definition front : Type := (list Q * list node)%type.

(** The body of the two inner loops of [SetDistanceToBoundary]. *)
Definition relax (width : Z) (mask : list bool) (current_score : Q)
  (x y : Z) (ij : Z * Z) (st : front) : outcome front :=
  let '(distance_to_boundary, water_front) := st in
  let '(i, j) := ij in
  let ytmp := (y + j)%Z in
  let xtmp := (x + i)%Z in
  let new_index := (ytmp * width + xtmp)%Z in
  m <- of_option (zth mask new_index) ;;
  if negb m then Ok st else
  let new_score := current_score + step_norm i j in
  old <- of_option (zth distance_to_boundary new_index) ;;
  if fltb new_score old then
    d <- of_option (zset distance_to_boundary new_index new_score) ;;
    Ok (d, (- new_score, (xtmp, ytmp)) :: water_front)
  else Ok st.

(** [while (!water_front.empty ())]; [fuel] bounds the iterations. *)
Fixpoint propagate (fuel : nat) (width : Z) (mask : list bool) (st : front)
  : outcome (list Q) :=
  match top_pop (snd st) with
  | None => Ok (fst st)
  | Some (node, rest) =>
      match fuel with
      | O => OutOfFuel
      | S fuel' =>
          let current_score := - fst node in
          let x := fst (snd node) in
          let y := snd (snd node) in
          st' <- for_each neighbour_offsets
                   (relax width mask current_score x y) (fst st, rest) ;;
          propagate fuel' width mask st'
      end
  end.

(** The first pair of loops: the cells next to the outside start at 0. *)
Definition seed_front (width height : Z) (mask : list bool) : outcome front :=
  for_each (upto 1 (height - 1))
    (fun y st =>
       for_each (upto 1 (width - 1))
         (fun x (st : front) =>
            let index := (y * width + x)%Z in
            b <- on_boundary mask width index ;;
            if b then
              d <- of_option (zset (fst st) index 0) ;;
              Ok (d, (0, (x, y)) :: snd st)
            else Ok st)
         st)
    (repeat FLT_MAX (Z.to_nat (width * height)), []).

Definition SetDistanceToBoundary (fuel : nat) (frame : Frame) (mask : list bool)
  : outcome (list Q) :=
  let width := size0 frame in
  let height := size1 frame in
  st <- seed_front width height mask ;;
  propagate fuel width mask st.

(** ** Weights of the visible boundary points *)

(** One pixel of [AssociateWeightToVisibility]; [vis] lists the indexes of
    the boundary points it sees. *)
Definition weigh_pixel (boundary : list (Z * Z)) (x y : Z) (vis : list Z)
  : outcome signature :=
  entries <- for_each vis
    (fun b entries =>
       target <- of_option (zth boundary b) ;;
       let pos0 := of_pixel (x, y) in
       let pos1 := of_pixel target in
       let distance := norm2 (sub2 pos0 pos1) in
       Ok (entries ++ [(b, distance)]))
    [] ;;
  Ok (normalize_weights entries).

Definition AssociateWeightToVisibility (width height subsample : Z)
  (boundary : list (Z * Z)) (visibility : list (list Z)) : outcome signatures :=
  (* Weight is inversely proportional to the distance. *)
  let weighted_visibility : signatures := repeat [] (length visibility) in
  subsampled_width <- idiv width subsample ;;
  subsampled_height <- idiv height subsample ;;
  st <- for_each (upto 0 subsampled_height)
    (fun subsampled_y st =>
       let y := (subsampled_y * subsample)%Z in
       for_each (upto 0 subsampled_width)
         (fun subsampled_x (st : signatures * Z) =>
            let '(weighted_visibility, visibility_index) := st in
            let x := (subsampled_x * subsample)%Z in
            vis <- of_option (zth visibility visibility_index) ;;
            match vis with
            | [] => Ok (weighted_visibility, (visibility_index + 1)%Z)
            | _ =>
                weights <- weigh_pixel boundary x y vis ;;
                weighted_visibility <-
                  of_option (zset weighted_visibility visibility_index weights) ;;
                Ok (weighted_visibility, (visibility_index + 1)%Z)
            end)
         st)
    (weighted_visibility, 0%Z) ;;
  Ok (fst st).

(** ** Average distance of the points to their scan centers *)


End Distance.

(** ** Weights and distance in single precision *)

(** The weights and the distance above with the rounding of the source: the
    weights and the running sums are [float], the quotient [1.0 / (d + 1.0)]
    and the final [distance / 2.0] are [double] stored into a [float]. *)
Module Rounded.

Section Distance.

(** libm *)
Variable sqrt : Q -> Q.

(** [Vector2f (x, y)], [pos0 - pos1] and [norm ()] *)
Definition of_pixel (p : Z * Z) : Vector2f :=
  V2f (single (inject_Z (fst p))) (single (inject_Z (snd p))).
Definition sub2 (a b : Vector2f) : Vector2f :=
  V2f (single (ux a - ux b)) (single (uy a - uy b)).
Definition norm2 (v : Vector2f) : Q :=
  single (sqrt (single (single (ux v * ux v) + single (uy v * uy v)))).

Definition normalize_weights (entries : signature) : signature :=
  let weighted :=
    map (fun e => (fst e, single (double (1 / double (snd e + 1))))) entries in
  let weight_sum := fold_left (fun acc e => single (acc + snd e)) weighted 0 in
  map (fun e => (fst e, single (snd e / weight_sum))) weighted.

Definition weigh_pixel (boundary : list (Z * Z)) (x y : Z) (vis : list Z)
  : outcome signature :=
  entries <- for_each vis
    (fun b entries =>
       target <- of_option (zth boundary b) ;;
       let pos0 := of_pixel (x, y) in
       let pos1 := of_pixel target in
       let distance := norm2 (sub2 pos0 pos1) in
       Ok (entries ++ [(b, distance)]))
    [] ;;
  Ok (normalize_weights entries).

End Distance.

Fixpoint vd_loop (lhs : signature) : signature -> Q -> Q :=
  fix vd_rhs (rhs : signature) (distance : Q) {struct rhs} : Q :=
    match lhs, rhs with
    | [], [] => distance
    | [], r :: rhs' => vd_rhs rhs' (single (distance + snd r))
    | l :: lhs', [] => vd_loop lhs' [] (single (distance + snd l))
    | l :: lhs', r :: rhs' =>
        if (fst l =? fst r)%Z then vd_loop lhs' rhs' distance
        else if (fst l <? fst r)%Z then vd_loop lhs' rhs (single (distance + snd l))
        else vd_rhs rhs' (single (distance + snd r))
    end.

Definition VisibilityDistance (lhs rhs : signature) : Q :=
  (* By dividing by 2, the maximum distance is 1.0. *)
  single (double (vd_loop lhs rhs 0 / 2)).

End Rounded.

(** ** The frame of the floor plan *)

(** [std::sort] on doubles *)
Fixpoint insert_sorted (x : Q) (l : list Q) : list Q :=
  match l with
  | [] => [x]
  | y :: l' => if fleb x y then x :: l else y :: insert_sorted x l'
  end.

Definition sort (l : list Q) : list Q := fold_right insert_sorted [] l.

(** [round] of <cmath>: to the nearest integer, halves away from zero *)
Definition round (q : Q) : Z :=
  if fltb q 0 then Qceiling (q - (1 # 2)) else Qfloor (q + (1 # 2)).

Definition histogram (sweeps : list Sweep) (axis : Vector3f) : list Q :=
  flat_map (fun sweep => map (fun point => dot (position point) axis) (points sweep))
           sweeps.

(** The body of the second loop of [SetRanges] for one axis.  The histogram
    is sorted when [nth_element] is called, and the model reads the two
    positions in the sorted histogram.  The standard lets the second call
    reorder what is before [pos_95], [pos_5] included; the library of GCC
    leaves the value at [pos_5] in place for a histogram of 100 values or
    more, and it is this that the model follows. *)
Definition axis_range (histogram_a : list Q) : outcome (Q * Q) :=
  let sorted := sort histogram_a in
  let n := zlen sorted in
  pos_5 <- of_option (zth sorted (n * 1 / 100)) ;;
  pos_95 <- of_option (zth sorted (n * 99 / 100)) ;;
  let diff := pos_95 - pos_5 in
  (* Allow a margin of 5 percents. *)
  let margin := diff * 5 / 100 in
  Ok (pos_5 - margin, pos_95 + margin).

(** [static_cast<int> (round (num / den))]: the quotient by 0 is an infinity
    or NaN, and the conversion of a double outside the range of [int]
    is undefined. *)
Definition to_int (num den : Q) : outcome Z :=
  if feqb den 0 then OutOfRange else
  let r := round (num / den) in
  if (-2147483648 <=? r)%Z && (r <=? 2147483647)%Z then Ok r else OutOfRange.

Definition SetRanges (sweeps : list Sweep) (average_distance : Q) (frame : Frame)
  : outcome Frame :=
  rs <- seq3 (map3 (fun axis => axis_range (histogram sweeps axis)) (axes frame)) ;;
  let '(rg0, rg1, rg2) := rs in
  (* Initial guess of unit. *)
  let unit := average_distance / 50 in
  (* Compute resolution. *)
  width <- to_int (snd rg0 - fst rg0) unit ;;
  height <- to_int (snd rg1 - fst rg1) unit ;;
  let kMaxResolution := 600%Z in
  let max_current_resolution := Z.max width height in
  let unit :=
    if (kMaxResolution <? max_current_resolution)%Z
    then unit * inject_Z (Z.quot max_current_resolution kMaxResolution)
    else unit in
  size <- seq3 (map3 (fun rg : Q * Q => to_int (snd rg - fst rg) unit) rs) ;;
  Ok (mkFrame (axes frame) rs unit size).

Definition ComputeFrame (sweeps : list Sweep) (average_distance : Q)
  (frame : Frame) : outcome Frame :=
  SetRanges sweeps average_distance
    (mkFrame (V3f 1 0 0, V3f 0 1 0, V3f 0 0 1) (ranges frame) (unit frame)
             (size frame)).

(** ** Blurring a field inside the mask *)

Section Blur.

(** libm *)
Variable exp : Q -> Q.

Definition half_size_of (sigma : Q) : Z := Qceiling (2 * sigma).

(** [2 * sigma * sigma], a [double] *)
Definition sigma2_of (sigma : Q) : Q := double (2 * sigma * sigma).

(** The kernel table of [BlurField], of [float]s.  The product [size * size]
    is one of [int], undefined when it overflows.  When [sigma2] is 0 the
    code divides by zero and the table holds NaN, which the model does not
    have: what is proved of the table assumes that [sigma2] is not 0. *)
Definition make_kernel (sigma : Q) : outcome (list Q) :=
  let sigma2 := sigma2_of sigma in
  let half_size := half_size_of sigma in
  let size := (2 * half_size + 1)%Z in
  if (2147483647 <? size * size)%Z then OutOfRange else
  for_each (upto (- half_size) (half_size + 1))
    (fun y kernel =>
       for_each (upto (- half_size) (half_size + 1))
         (fun x kernel =>
            of_option
              (zset kernel ((y + half_size) * size + (x + half_size))%Z
                    (single (exp (double (- inject_Z (x * x + y * y) / sigma2))))))
         kernel)
    (repeat 0 (Z.to_nat (size * size))).

(** [numer] and [denom] of the cell [(x, y)]. *)
Definition cell_sums (width height : Z) (mask : list bool) (half_size : Z)
  (kernel old_field : list Q) (x y : Z) : outcome (Q * Q) :=
  let size := (2 * half_size + 1)%Z in
  for_each (upto (- half_size) (half_size + 1))
    (fun j nd =>
       let ytmp := (y + j)%Z in
       if (ytmp <? 0)%Z || (height <=? ytmp)%Z then Ok nd else
       for_each (upto (- half_size) (half_size + 1))
         (fun i (nd : Q * Q) =>
            let xtmp := (x + i)%Z in
            if (xtmp <? 0)%Z || (width <=? xtmp)%Z then Ok nd else
            let index_tmp := (ytmp * width + xtmp)%Z in
            m <- of_option (zth mask index_tmp) ;;
            if negb m then Ok nd else
            let kernel_index := ((j + half_size) * size + (i + half_size))%Z in
            f <- of_option (zth old_field index_tmp) ;;
            k <- of_option (zth kernel kernel_index) ;;
            Ok (single (fst nd + single (f * k)), single (snd nd + k)))
         nd)
    (0, 0).

Definition BlurField (width height : Z) (mask : list bool) (sigma : Q)
  (field : list Q) : outcome (list Q) :=
  let half_size := half_size_of sigma in
  kernel <- make_kernel sigma ;;
  let old_field := field in
  for_each (upto 0 height)
    (fun y field =>
       for_each (upto 0 width)
         (fun x field =>
            let index := (y * width + x)%Z in
            m <- of_option (zth mask index) ;;
            if negb m then Ok field else
            nd <- cell_sums width height mask half_size kernel old_field x y ;;
            let '(numer, denom) := nd in
            if feqb denom 0 then Fatal
            else of_option (zset field index (single (numer / denom))))
         field)
    field.

End Blur.

(** ** The mask and the visibility of the boundary *)

Definition CountMask (mask : list bool) : Z :=
  fold_left (fun count (bit : bool) => if bit then (count + 1)%Z else count)
            mask 0%Z.

Section Visibility.

(** libm *)
Variable sqrt : Q -> Q.

(** The loop of [IsVisible] over the steps [i] that are left: the first
    sample outside the mask ends it. *)
Fixpoint sight (width height : Z) (mask : list bool) (start step : Vector2f)
  (steps : list Z) : outcome bool :=
  match steps with
  | [] => Ok true
  | i :: steps' =>
      let position := add2 start (scale2 (inject_Z i) step) in
      let x := round (ux position) in
      let y := round (uy position) in
      if (x <? 0)%Z || (width <=? x)%Z || (y <? 0)%Z || (height <=? y)%Z
      then Fatal
      else
        m <- of_option (zth mask (y * width + x)) ;;
        if negb m then Ok false
        else sight width height mask start step steps'
  end.

Definition IsVisible (width height : Z) (mask : list bool)
  (source target : Z * Z) : outcome bool :=
  (* Skip first kMargin pixels to avoid noisy boundary. *)
  let step := sub2 (of_pixel target) (of_pixel source) in
  let num_steps := (Qfloor (norm2 sqrt step) * 2 + 1)%Z in
  let step := div2 step (inject_Z num_steps) in
  let start := of_pixel source in
  sight width height mask start step (upto kVisibilityMargin num_steps).

Definition ComputeVisibility (width height subsample : Z)
  (boundary : list (Z * Z)) (mask : list bool) (distance_to_boundary : list Q)
  : outcome (list (list Z)) :=
  subsampled_width <- idiv width subsample ;;
  subsampled_height <- idiv height subsample ;;
  visibility <- resized (subsampled_width * subsampled_height) [] ;;
  st <- for_each (upto 0 subsampled_height)
    (fun subsampled_y st =>
       let y := (subsampled_y * subsample)%Z in
       for_each (upto 0 subsampled_width)
         (fun subsampled_x (st : list (list Z) * Z) =>
            let '(visibility, visibility_index) := st in
            let x := (subsampled_x * subsample)%Z in
            (* Compute visibility only for a pixel inside a mask. *)
            m <- of_option (zth mask (y * width + x)) ;;
            if negb m then Ok (visibility, (visibility_index + 1)%Z) else
            d <- of_option (zth distance_to_boundary (y * width + x)) ;;
            if fltb d kMarginFromBoundaryForVisibility
            then Ok (visibility, (visibility_index + 1)%Z) else
            (* Test against all the boundary points. *)
            visibility <- for_each (upto 0 (zlen boundary))
              (fun b visibility =>
                 target <- of_option (zth boundary b) ;;
                 visible <- IsVisible width height mask (x, y) target ;;
                 if visible then
                   seen <- of_option (zth visibility visibility_index) ;;
                   of_option (zset visibility visibility_index (seen ++ [b]))
                 else Ok visibility)
              visibility ;;
            Ok (visibility, (visibility_index + 1)%Z))
         st)
    (visibility, 0%Z) ;;
  Ok (fst st).

End Visibility.

End DoorDetection.

(** * Properties *)

(** ** Comparisons and containers *)

(** Closed comparisons of rationals, by evaluation. *)
Ltac qeval :=
  repeat split; vm_compute; first [ reflexivity | discriminate ].

Lemma fltb_true (a b : Q) : fltb a b = true <-> a < b.
Proof.
  unfold fltb. destruct (Qlt_le_dec a b) as [H | H]; split; intro H'; auto.
  - discriminate.
  - exfalso. apply (Qlt_not_le _ _ H'), H.
Qed.

Lemma fltb_false (a b : Q) : fltb a b = false <-> b <= a.
Proof.
  unfold fltb. destruct (Qlt_le_dec a b) as [H | H]; split; intro H'; auto.
  - discriminate.
  - exfalso. apply (Qlt_not_le _ _ H), H'.
Qed.

Lemma fleb_true (a b : Q) : fleb a b = true <-> a <= b.
Proof.
  unfold fleb. destruct (Qlt_le_dec b a) as [H | H]; split; intro H'; auto.
  - discriminate.
  - exfalso. apply (Qlt_not_le _ _ H), H'.
Qed.

Lemma fleb_false (a b : Q) : fleb a b = false <-> b < a.
Proof.
  unfold fleb. destruct (Qlt_le_dec b a) as [H | H]; split; intro H'; auto.
  - discriminate.
  - exfalso. apply (Qlt_not_le _ _ H'), H.
Qed.

Lemma feqb_true (a b : Q) : feqb a b = true <-> a == b.
Proof. apply Qeq_bool_iff. Qed.

Lemma feqb_false (a b : Q) : feqb a b = false <-> ~ a == b.
Proof.
  unfold feqb. split; intro H.
  - intro E. apply Qeq_bool_iff in E. congruence.
  - destruct (Qeq_bool a b) eqn:E; auto. apply Qeq_bool_iff in E. contradiction.
Qed.

Lemma zth_Some_range {A : Type} (l : list A) (i : Z) (a : A) :
  zth l i = Some a -> (0 <= i < zlen l)%Z.
Proof.
  unfold zth, zlen. destruct (Z.ltb_spec i 0); [discriminate |].
  intro H'. assert (Hn : nth_error l (Z.to_nat i) <> None) by congruence.
  apply nth_error_Some in Hn. lia.
Qed.

Lemma zth_in_range {A : Type} (l : list A) (i : Z) :
  (0 <= i < zlen l)%Z -> exists a, zth l i = Some a.
Proof.
  unfold zth, zlen. intro H. destruct (Z.ltb_spec i 0); [lia |].
  destruct (nth_error l (Z.to_nat i)) eqn:E; [eauto |].
  apply nth_error_None in E. lia.
Qed.

Lemma zth_In {A : Type} (l : list A) (i : Z) (a : A) :
  zth l i = Some a -> In a l.
Proof.
  unfold zth. destruct (i <? 0)%Z; [discriminate |]. apply nth_error_In.
Qed.

Lemma list_set_spec {A : Type} (l : list A) (n : nat) (a : A) :
  (n < length l)%nat ->
  exists l', list_set l n a = Some l' /\ length l' = length l /\
             nth_error l' n = Some a /\
             forall m, m <> n -> nth_error l' m = nth_error l m.
Proof.
  revert n. induction l as [| b l IH]; intros n Hn; [cbn in Hn; lia |].
  destruct n as [| n].
  - exists (a :: l). repeat split. intros [| m] Hm; [congruence | reflexivity].
  - destruct (IH n) as (l' & E & Hlen & Hsame & Hother); [cbn in Hn; lia |].
    exists (b :: l'). cbn [list_set]. rewrite E. repeat split.
    + cbn. now rewrite Hlen.
    + exact Hsame.
    + intros [| m] Hm; [reflexivity |]. cbn. apply Hother. congruence.
Qed.

Lemma list_set_None {A : Type} (l : list A) (n : nat) (a : A) :
  (length l <= n)%nat -> list_set l n a = None.
Proof.
  revert n. induction l as [| b l IH]; intros n Hn; [reflexivity |].
  destruct n as [| n]; [cbn in Hn; lia |].
  cbn [list_set]. rewrite IH; [reflexivity | cbn in Hn; lia].
Qed.

Lemma zset_spec {A : Type} (l : list A) (i : Z) (a : A) :
  (0 <= i < zlen l)%Z ->
  exists l', zset l i a = Some l' /\ zlen l' = zlen l /\
             zth l' i = Some a /\
             forall j, j <> i -> zth l' j = zth l j.
Proof.
  unfold zset, zth, zlen. intro Hi.
  destruct (Z.ltb_spec i 0); [lia |].
  destruct (list_set_spec l (Z.to_nat i) a) as (l' & E & Hlen & Hsame & Hother);
    [lia |].
  exists l'. split; [exact E |]. split; [now rewrite Hlen |].
  split; [exact Hsame |].
  intros j Hj. destruct (Z.ltb_spec j 0); [reflexivity |].
  apply Hother. lia.
Qed.

Lemma zset_Some_range {A : Type} (l l' : list A) (i : Z) (a : A) :
  zset l i a = Some l' -> (0 <= i < zlen l)%Z.
Proof.
  unfold zset, zlen. destruct (Z.ltb_spec i 0); [discriminate |].
  intro E. destruct (Nat.lt_ge_cases (Z.to_nat i) (length l)) as [Hlt | Hge]; [lia |].
  rewrite (list_set_None l _ a Hge) in E. discriminate.
Qed.

Lemma zset_Some_spec {A : Type} (l l' : list A) (i : Z) (a : A) :
  zset l i a = Some l' ->
  (0 <= i < zlen l)%Z /\ zlen l' = zlen l /\ zth l' i = Some a /\
  forall j, j <> i -> zth l' j = zth l j.
Proof.
  intro E. pose proof (zset_Some_range _ _ _ _ E) as Hi.
  destruct (zset_spec l i a Hi) as (l'' & E' & H). 
  rewrite E in E'. injection E' as <-. split; [exact Hi | exact H].
Qed.

Lemma zth_repeat {A : Type} (a : A) (n : nat) (i : Z) :
  (0 <= i < Z.of_nat n)%Z -> zth (repeat a n) i = Some a.
Proof.
  intro Hi. destruct (zth_in_range (repeat a n) i) as [b Hb].
  - unfold zlen. rewrite repeat_length. exact Hi.
  - rewrite Hb. f_equal. apply zth_In in Hb. now apply repeat_spec in Hb.
Qed.

Lemma zlen_repeat {A : Type} (a : A) (n : nat) : zlen (repeat a n) = Z.of_nat n.
Proof. unfold zlen. now rewrite repeat_length. Qed.

Lemma In_zrange (n : nat) : forall lo x,
  In x (zrange lo n) <-> (lo <= x < lo + Z.of_nat n)%Z.
Proof.
  induction n as [| n IH]; intros lo x; cbn [zrange In].
  - lia.
  - rewrite IH. lia.
Qed.

Lemma length_zrange (n : nat) : forall lo, length (zrange lo n) = n.
Proof. induction n as [| n IH]; intro lo; cbn; [reflexivity | now rewrite IH]. Qed.

Lemma In_upto (lo hi x : Z) : In x (upto lo hi) <-> (lo <= x < hi)%Z.
Proof. unfold upto. rewrite In_zrange. lia. Qed.

Lemma zrange_app (n m : nat) : forall lo,
  zrange lo (n + m) = zrange lo n ++ zrange (lo + Z.of_nat n) m.
Proof.
  induction n as [| n IH]; intro lo.
  - cbn. f_equal. lia.
  - cbn [zrange Nat.add app]. rewrite IH. do 3 f_equal. lia.
Qed.

(** The part of a counter's values that comes before [x]. *)
Lemma upto_split (lo hi x : Z) :
  (lo <= x < hi)%Z -> upto lo hi = upto lo x ++ x :: upto (x + 1) hi.
Proof.
  intro H. unfold upto.
  replace (Z.to_nat (hi - lo)) with (Z.to_nat (x - lo) + S (Z.to_nat (hi - (x + 1))))%nat
    by lia.
  rewrite zrange_app. cbn [zrange].
  replace (lo + Z.of_nat (Z.to_nat (x - lo)))%Z with x by lia. reflexivity.
Qed.

Lemma zrange_prefix (pre post : list Z) (x : Z) : forall lo n,
  zrange lo n = pre ++ x :: post ->
  x = (lo + Z.of_nat (length pre))%Z /\ pre = zrange lo (length pre).
Proof.
  induction pre as [| a pre IH]; intros lo n E.
  - destruct n as [| n]; [discriminate |]. cbn in E. injection E as E _.
    split; [cbn; lia | reflexivity].
  - destruct n as [| n]; [discriminate |]. cbn in E. injection E as Ea E.
    destruct (IH _ _ E) as [Hx Hpre]. split.
    + cbn [length]. lia.
    + cbn [length zrange]. rewrite <- Hpre. now subst a.
Qed.

Lemma upto_prefix (lo hi : Z) (pre post : list Z) (x : Z) :
  upto lo hi = pre ++ x :: post -> pre = upto lo x /\ (lo <= x < hi)%Z.
Proof.
  intro E.
  assert (Hx : (lo <= x < hi)%Z).
  { apply In_upto. rewrite E. apply in_or_app. right. left. reflexivity. }
  split; [| exact Hx].
  destruct (zrange_prefix _ _ _ _ _ E) as [Ex Hpre].
  unfold upto. replace (Z.to_nat (x - lo)) with (length pre) by lia. exact Hpre.
Qed.

(** *** Loops *)

Lemma for_each_app {A S : Type} (l1 l2 : list A) (body : A -> S -> outcome S) (s : S) :
  for_each (l1 ++ l2) body s = (s' <- for_each l1 body s ;; for_each l2 body s').
Proof.
  revert s. induction l1 as [| a l1 IH]; intro s; [reflexivity |].
  cbn [app for_each]. destruct (body a s); cbn [bind]; auto.
Qed.

(** A loop whose body keeps an invariant that may depend on the values the
    counter has taken so far. *)
Lemma for_each_prefix_inv {A S : Type} (P : list A -> S -> Prop)
  (l : list A) (body : A -> S -> outcome S) (s : S) :
  P [] s ->
  (forall pre a post s, l = pre ++ a :: post -> P pre s ->
     exists s', body a s = Ok s' /\ P (pre ++ [a]) s') ->
  exists s', for_each l body s = Ok s' /\ P l s'.
Proof.
  intros H0 Hstep.
  assert (G : forall post pre s, l = pre ++ post -> P pre s ->
                exists s', for_each post body s = Ok s' /\ P l s').
  { induction post as [| a post IH]; intros pre s0 E Hp.
    - rewrite app_nil_r in E. subst pre. exists s0. split; [reflexivity | exact Hp].
    - destruct (Hstep pre a post s0 E Hp) as (s1 & E1 & Hp1).
      cbn [for_each]. rewrite E1. cbn [bind].
      apply (IH (pre ++ [a])); [| exact Hp1].
      rewrite <- app_assoc. exact E. }
  apply (G l [] s); [reflexivity | exact H0].
Qed.

Lemma for_each_inv {A S : Type} (P : S -> Prop)
  (l : list A) (body : A -> S -> outcome S) (s : S) :
  P s ->
  (forall a s, In a l -> P s -> exists s', body a s = Ok s' /\ P s') ->
  exists s', for_each l body s = Ok s' /\ P s'.
Proof.
  intros H0 Hstep.
  apply (for_each_prefix_inv (fun _ => P)); [exact H0 |].
  intros pre a post s0 E Hp. apply Hstep; [| exact Hp].
  rewrite E. apply in_or_app. right. left. reflexivity.
Qed.

(** What a loop that returned has established, from what its body does
    when it returns. *)
Lemma for_each_Ok_inv {A S : Type} (P : list A -> S -> Prop)
  (l : list A) (body : A -> S -> outcome S) (s s' : S) :
  for_each l body s = Ok s' ->
  P [] s ->
  (forall pre a post s s', l = pre ++ a :: post -> P pre s ->
     body a s = Ok s' -> P (pre ++ [a]) s') ->
  P l s'.
Proof.
  intros E H0 Hstep.
  assert (G : forall post pre s, l = pre ++ post -> P pre s ->
                for_each post body s = Ok s' -> P l s').
  { induction post as [| a post IH]; intros pre s0 El Hp Ef.
    - rewrite app_nil_r in El. subst pre. cbn in Ef. now injection Ef as <-.
    - cbn [for_each] in Ef. destruct (body a s0) as [s1 | | |] eqn:E1;
        cbn [bind] in Ef; try discriminate.
      apply (IH (pre ++ [a]) s1); [now rewrite <- app_assoc | | exact Ef].
      eapply Hstep; eauto. }
  apply (G l [] s); auto.
Qed.

(** Bring up the invariant rule for the loop the goal runs. *)
Ltac loop_prefix_inv P H :=
  cbv beta;
  match goal with
  | |- context [for_each ?l ?body ?s] =>
      pose proof (for_each_prefix_inv P l body s) as H
  end.

Ltac loop_inv P H :=
  cbv beta;
  match goal with
  | |- context [for_each ?l ?body ?s] =>
      pose proof (for_each_inv P l body s) as H
  end.

(** ** Rounding *)

(** *** Powers of 2 *)

Lemma pow2_pos (e : Z) : 0 < pow2 e.
Proof. apply Qpower_0_lt. reflexivity. Qed.

Lemma pow2_add (a b : Z) : pow2 (a + b) == pow2 a * pow2 b.
Proof. apply Qpower_plus. discriminate. Qed.

Lemma pow2_le (a b : Z) : (a <= b)%Z -> pow2 a <= pow2 b.
Proof. intro H. apply Qpower_le_compat_l; [exact H | discriminate]. Qed.

Lemma pow2_lt (a b : Z) : (a < b)%Z -> pow2 a < pow2 b.
Proof. intro H. apply Qpower_lt_compat_l; [exact H | reflexivity]. Qed.

Lemma pow2_lt_inv (a b : Z) : pow2 a < pow2 b -> (a < b)%Z.
Proof.
  intro H. destruct (Z_lt_le_dec a b) as [Hlt | Hge]; [exact Hlt |].
  apply pow2_le in Hge. lra.
Qed.

Lemma pow2_Z (n : Z) : (0 <= n)%Z -> pow2 n == inject_Z (2 ^ n).
Proof. intro H. unfold pow2. now rewrite Zpower_Qpower. Qed.

Lemma pow2_0 : pow2 0 == 1.
Proof. reflexivity. Qed.

Lemma pow2_succ (a : Z) : pow2 (a + 1) == 2 * pow2 a.
Proof. rewrite pow2_add. change (pow2 1) with 2. ring. Qed.

(** *** The exponent *)

Lemma Qabs_Qmake (q : Q) :
  Qabs q == inject_Z (Z.abs (Qnum q)) / inject_Z (Zpos (Qden q)).
Proof.
  destruct q as [n d]. unfold Qabs. cbn [Qnum Qden].
  rewrite (Qmake_Qdiv (Z.abs n) d). reflexivity.
Qed.

Lemma ilog2_spec (q : Q) :
  ~ q == 0 -> pow2 (ilog2 q) <= Qabs q /\ Qabs q < pow2 (ilog2 q + 1).
Proof.
  intro Hq. unfold ilog2.
  set (n := Z.abs (Qnum q)). set (d := Zpos (Qden q)).
  assert (Hn : (0 < n)%Z).
  { unfold n. destruct q as [[| p | p] dd]; cbn; try lia. exfalso. apply Hq. reflexivity. }
  assert (Hd : (0 < d)%Z) by (unfold d; lia).
  destruct (Z.log2_spec n Hn) as [Ha1 Ha2]. destruct (Z.log2_spec d Hd) as [Hb1 Hb2].
  set (a := Z.log2 n) in *. set (b := Z.log2 d) in *.
  assert (Ha0 : (0 <= a)%Z) by apply Z.log2_nonneg.
  assert (Hb0 : (0 <= b)%Z) by apply Z.log2_nonneg.
  assert (Eabs : Qabs q == inject_Z n / inject_Z d) by apply Qabs_Qmake.
  assert (HdQ : 0 < inject_Z d) by (change 0 with (inject_Z 0); now rewrite <- Zlt_Qlt).
  assert (Pa1 : pow2 a <= inject_Z n) by (rewrite pow2_Z by lia; now rewrite <- Zle_Qle).
  assert (Pa2 : inject_Z n < pow2 (a + 1)).
  { rewrite pow2_Z by lia. rewrite <- Zlt_Qlt. replace (a + 1)%Z with (Z.succ a) by lia.
    exact Ha2. }
  assert (Pb1 : pow2 b <= inject_Z d) by (rewrite pow2_Z by lia; now rewrite <- Zle_Qle).
  assert (Pb2 : inject_Z d < pow2 (b + 1)).
  { rewrite pow2_Z by lia. rewrite <- Zlt_Qlt. replace (b + 1)%Z with (Z.succ b) by lia.
    exact Hb2. }
  pose proof (pow2_pos b) as Pb. pose proof (pow2_pos (a - b)) as Pab.
  pose proof (pow2_pos (a - b - 1)) as Pab1.
  assert (Eab : pow2 a == pow2 (a - b) * pow2 b).
  { rewrite <- pow2_add. now replace (a - b + b)%Z with a by lia. }
  assert (Eab1 : pow2 (a - b) == 2 * pow2 (a - b - 1)).
  { rewrite <- pow2_succ. now replace (a - b - 1 + 1)%Z with (a - b)%Z by lia. }
  assert (Eab2 : pow2 (a - b + 1) == 2 * pow2 (a - b)) by apply pow2_succ.
  rewrite pow2_succ in Pa2, Pb2.
  (* the quotient lies between pow2 (a - b - 1) and pow2 (a - b + 1) *)
  assert (Hlow : pow2 (a - b - 1) <= Qabs q).
  { rewrite Eabs. apply Qle_shift_div_l; [exact HdQ |]. nra. }
  assert (Hup : Qabs q < pow2 (a - b + 1)).
  { rewrite Eabs. apply Qlt_shift_div_r; [exact HdQ |]. nra. }
  destruct (Qle_bool (pow2 (a - b)) (Qabs q)) eqn:E.
  - apply Qle_bool_iff in E. split; [exact E | exact Hup].
  - assert (Hlt : Qabs q < pow2 (a - b)).
    { apply Qnot_le_lt. intro H. apply Qle_bool_iff in H. congruence. }
    split; [exact Hlow |]. now replace (a - b - 1 + 1)%Z with (a - b)%Z by lia.
Qed.

Lemma ilog2_unique (q : Q) (e : Z) :
  pow2 e <= Qabs q -> Qabs q < pow2 (e + 1) -> ilog2 q = e.
Proof.
  intros H1 H2.
  assert (Hq : ~ q == 0).
  { intro E. rewrite E in H1. pose proof (pow2_pos e). cbn in H1. lra. }
  destruct (ilog2_spec q Hq) as [S1 S2].
  assert (e < ilog2 q + 1)%Z by (apply pow2_lt_inv; lra).
  assert (ilog2 q < e + 1)%Z by (apply pow2_lt_inv; lra).
  lia.
Qed.

Lemma ilog2_comp (x y : Q) : ~ x == 0 -> x == y -> ilog2 x = ilog2 y.
Proof.
  intros Hx E. symmetry. destruct (ilog2_spec x Hx) as [S1 S2].
  apply ilog2_unique; rewrite <- E; assumption.
Qed.

Lemma ilog2_le (x y : Q) :
  ~ x == 0 -> Qabs x <= Qabs y -> (ilog2 x <= ilog2 y)%Z.
Proof.
  intros Hx Hle.
  assert (Hy : ~ y == 0).
  { intro E. rewrite E in Hle. change (Qabs 0) with 0 in Hle.
    apply Qabs_Qle_condition in Hle. apply Hx. lra. }
  destruct (ilog2_spec x Hx) as [X1 X2]. destruct (ilog2_spec y Hy) as [Y1 Y2].
  assert (ilog2 x < ilog2 y + 1)%Z by (apply pow2_lt_inv; lra). lia.
Qed.

(** *** The nearest integer *)

Lemma rne_comp (x y : Q) : x == y -> rne x = rne y.
Proof.
  intro E. unfold rne. rewrite <- (Qfloor_comp _ _ E).
  assert (Ec : (x - inject_Z (Qfloor x) ?= 1 # 2) = (y - inject_Z (Qfloor x) ?= 1 # 2)).
  { apply Qcompare_comp; [| reflexivity].
    unfold Qminus. apply Qplus_comp; [exact E | reflexivity]. }
  now rewrite Ec.
Qed.

Lemma rne_Z (k : Z) : rne (inject_Z k) = k.
Proof.
  unfold rne. rewrite Qfloor_Z.
  assert (E : (inject_Z k - inject_Z k ?= 1 # 2) = Lt).
  { apply (proj1 (Qlt_alt _ _)). setoid_replace (inject_Z k - inject_Z k) with 0 by ring.
    reflexivity. }
  now rewrite E.
Qed.

Lemma rne_bounds (x : Q) :
  (Qfloor x <= rne x <= Qfloor x + 1)%Z /\
  Qabs (inject_Z (rne x) - x) <= 1 # 2.
Proof.
  unfold rne. pose proof (Qfloor_le x) as H1. pose proof (Qlt_floor x) as H2.
  rewrite inject_Z_plus in H2. change (inject_Z 1) with 1 in H2.
  destruct (Qcompare_spec (x - inject_Z (Qfloor x)) (1 # 2)) as [E | E | E].
  - destruct (Z.even (Qfloor x)); (split; [lia |]); apply Qabs_Qle_condition;
      rewrite ?inject_Z_plus; change (inject_Z 1) with 1; split; lra.
  - split; [lia |]. apply Qabs_Qle_condition. split; lra.
  - split; [lia |]. apply Qabs_Qle_condition.
    rewrite inject_Z_plus. change (inject_Z 1) with 1. split; lra.
Qed.

Lemma rne_mono (x y : Q) : x <= y -> (rne x <= rne y)%Z.
Proof.
  intro H. pose proof (Qfloor_resp_le _ _ H) as Hf.
  destruct (Z.eq_dec (Qfloor x) (Qfloor y)) as [E | Hne].
  - unfold rne. rewrite <- E.
    destruct (Qcompare_spec (x - inject_Z (Qfloor x)) (1 # 2)) as [Ex | Ex | Ex];
      destruct (Qcompare_spec (y - inject_Z (Qfloor x)) (1 # 2)) as [Ey | Ey | Ey];
      try lia; try lra; destruct (Z.even (Qfloor x)); lia.
  - pose proof (proj1 (rne_bounds x)). pose proof (proj1 (rne_bounds y)). lia.
Qed.

(** *** Rounding *)

Lemma rnd_0 (f : format) : rnd f 0 = 0.
Proof. reflexivity. Qed.

Lemma rnd_comp (f : format) (x y : Q) : x == y -> rnd f x = rnd f y.
Proof.
  intro E. unfold rnd.
  destruct (Qeq_bool x 0) eqn:Ex.
  - apply Qeq_bool_iff in Ex. rewrite E in Ex. apply Qeq_bool_iff in Ex. now rewrite Ex.
  - assert (Hx : ~ x == 0) by (intro H; apply Qeq_bool_iff in H; congruence).
    assert (Ey : Qeq_bool y 0 = false).
    { destruct (Qeq_bool y 0) eqn:Ey; [| reflexivity].
      apply Qeq_bool_iff in Ey. rewrite <- E in Ey. contradiction. }
    rewrite Ey. unfold ulp_exp. rewrite <- (ilog2_comp x y Hx E).
    set (s := pow2 _). rewrite (rne_comp (x / s) (y / s)); [reflexivity |].
    now rewrite E.
Qed.

#[global] Instance rnd_proper (f : format) : Proper (Qeq ==> Qeq) (rnd f).
Proof. intros x y E. now rewrite (rnd_comp f x y E). Qed.

Lemma rnd_scaled (f : format) (q : Q) :
  ~ q == 0 -> rnd f q = inject_Z (rne (q / pow2 (ulp_exp f q))) * pow2 (ulp_exp f q).
Proof.
  intro Hq. unfold rnd. destruct (Qeq_bool q 0) eqn:E; [| reflexivity].
  apply Qeq_bool_iff in E. contradiction.
Qed.

Lemma rnd_nonneg (f : format) (q : Q) : 0 <= q -> 0 <= rnd f q.
Proof.
  intro H. destruct (Qeq_dec q 0) as [E | Hq].
  - rewrite (rnd_comp f q 0 E). apply Qle_refl.
  - rewrite (rnd_scaled f q Hq). pose proof (pow2_pos (ulp_exp f q)) as Hs.
    set (s := pow2 (ulp_exp f q)) in *. clearbody s.
    apply Qmult_le_0_compat; [| lra].
    change 0 with (inject_Z 0). rewrite <- Zle_Qle. rewrite <- (rne_Z 0).
    apply rne_mono. change (inject_Z 0) with 0. apply Qle_shift_div_l; lra.
Qed.

Lemma rnd_nonpos (f : format) (q : Q) : q <= 0 -> rnd f q <= 0.
Proof.
  intro H. destruct (Qeq_dec q 0) as [E | Hq].
  - rewrite (rnd_comp f q 0 E). apply Qle_refl.
  - rewrite (rnd_scaled f q Hq). pose proof (pow2_pos (ulp_exp f q)) as Hs.
    set (s := pow2 (ulp_exp f q)) in *. clearbody s.
    assert (Hk : inject_Z (rne (q / s)) <= 0).
    { change 0 with (inject_Z 0). rewrite <- Zle_Qle. rewrite <- (rne_Z 0).
      apply rne_mono. change (inject_Z 0) with 0. apply Qle_shift_div_r; lra. }
    nra.
Qed.

Lemma Qabs_pos_eq (x : Q) : 0 <= x -> Qabs x == x.
Proof. apply Qabs_pos. Qed.

(** The scale of [q] and the two ends of its binade. *)
Lemma scale_ends (f : format) (u : Z) :
  (0 < prec f)%Z ->
  pow2 (u + 1) == inject_Z (2 ^ prec f) * pow2 (u - prec f + 1) /\
  pow2 u == inject_Z (2 ^ (prec f - 1)) * pow2 (u - prec f + 1).
Proof.
  intro Hp. split.
  - rewrite <- pow2_Z by lia. rewrite <- pow2_add. apply Qpower_comp; [reflexivity | lia].
  - rewrite <- pow2_Z by lia. rewrite <- pow2_add. apply Qpower_comp; [reflexivity | lia].
Qed.

Lemma rnd_upper (f : format) (x : Q) :
  (0 < prec f)%Z -> 0 < x ->
  rnd f x <= pow2 (Z.max (ilog2 x) (emin f) + 1).
Proof.
  intros Hp Hx.
  assert (Hq : ~ x == 0) by (intro E; rewrite E in Hx; discriminate).
  rewrite (rnd_scaled f x Hq). unfold ulp_exp.
  set (u := Z.max (ilog2 x) (emin f)).
  destruct (scale_ends f u Hp) as [Eup _].
  destruct (ilog2_spec x Hq) as [_ S2]. rewrite Qabs_pos_eq in S2 by lra.
  assert (Hle : pow2 (ilog2 x + 1) <= pow2 (u + 1)) by (apply pow2_le; unfold u; lia).
  pose proof (pow2_pos (u - prec f + 1)) as Hs.
  rewrite Eup in *. clear Eup.
  set (s := pow2 (u - prec f + 1)) in *. set (top := pow2 (ilog2 x + 1)) in *.
  clearbody s top.
  assert (Hk : (rne (x / s) <= 2 ^ prec f)%Z).
  { rewrite <- (rne_Z (2 ^ prec f)). apply rne_mono.
    apply Qle_shift_div_r; [exact Hs | lra]. }
  rewrite Zle_Qle in Hk. nra.
Qed.

Lemma rnd_lower (f : format) (x : Q) :
  (0 < prec f)%Z -> 0 < x -> (emin f <= ilog2 x)%Z ->
  pow2 (ilog2 x) <= rnd f x.
Proof.
  intros Hp Hx He.
  assert (Hq : ~ x == 0) by (intro E; rewrite E in Hx; discriminate).
  rewrite (rnd_scaled f x Hq). unfold ulp_exp.
  replace (Z.max (ilog2 x) (emin f)) with (ilog2 x) by lia.
  destruct (scale_ends f (ilog2 x) Hp) as [_ Elow].
  destruct (ilog2_spec x Hq) as [S1 _]. rewrite Qabs_pos_eq in S1 by lra.
  pose proof (pow2_pos (ilog2 x - prec f + 1)) as Hs.
  rewrite Elow in *. clear Elow.
  set (s := pow2 (ilog2 x - prec f + 1)) in *. clearbody s.
  assert (Hk : (2 ^ (prec f - 1) <= rne (x / s))%Z).
  { rewrite <- (rne_Z (2 ^ (prec f - 1))) at 1. apply rne_mono.
    apply Qle_shift_div_l; [exact Hs | lra]. }
  rewrite Zle_Qle in Hk. nra.
Qed.

(** Rounding keeps the order of what is not negative. *)
Lemma rnd_mono (f : format) (x y : Q) :
  (0 < prec f)%Z -> 0 <= x -> x <= y -> rnd f x <= rnd f y.
Proof.
  intros Hp Hx Hxy.
  destruct (Qeq_dec x 0) as [Ex | Hx0].
  { rewrite (rnd_comp f x 0 Ex), rnd_0. apply rnd_nonneg. lra. }
  assert (Hxpos : 0 < x) by (destruct (Qlt_le_dec 0 x); [assumption | exfalso; apply Hx0; lra]).
  assert (Hy0 : ~ y == 0) by (intro E; rewrite E in Hxy; lra).
  assert (Hle : (ilog2 x <= ilog2 y)%Z).
  { apply ilog2_le; [exact Hx0 |]. rewrite !Qabs_pos_eq by lra. exact Hxy. }
  set (ux := Z.max (ilog2 x) (emin f)). set (uy := Z.max (ilog2 y) (emin f)).
  destruct (Z.eq_dec ux uy) as [E | Hne].
  - rewrite (rnd_scaled f x Hx0), (rnd_scaled f y Hy0). unfold ulp_exp.
    fold ux uy. rewrite <- E.
    pose proof (pow2_pos (ux - prec f + 1)) as Hs.
    set (s := pow2 (ux - prec f + 1)) in *. clearbody s.
    assert (Hk : (rne (x / s) <= rne (y / s))%Z).
    { apply rne_mono. apply Qle_shift_div_l; [exact Hs |].
      setoid_replace (x / s * s) with x by (field; lra). exact Hxy. }
    rewrite Zle_Qle in Hk. nra.
  - assert (Hlt : (ux < uy)%Z) by (unfold ux, uy in *; lia).
    assert (Hey : uy = ilog2 y) by (unfold ux, uy in *; lia).
    apply Qle_trans with (pow2 (ux + 1)); [apply rnd_upper; assumption |].
    apply Qle_trans with (pow2 (ilog2 y)); [apply pow2_le; lia |].
    apply rnd_lower; [exact Hp | lra | unfold uy in Hey; lia].
Qed.

(** A number with at most [prec] significant bits, no finer than the least
    subnormal number, is not changed. *)
Lemma rnd_exact (f : format) (q : Q) (m k : Z) :
  (0 < prec f)%Z -> q == inject_Z m * pow2 k ->
  (Z.abs m < 2 ^ prec f)%Z -> (emin f - prec f + 1 <= k)%Z ->
  rnd f q == q.
Proof.
  intros Hp Eq Hm Hk.
  destruct (Qeq_dec q 0) as [E0 | Hq].
  { rewrite (rnd_comp f q 0 E0), rnd_0. now rewrite E0. }
  rewrite (rnd_scaled f q Hq).
  set (ue := ulp_exp f q).
  assert (Hue : (ue <= k)%Z).
  { destruct (ilog2_spec q Hq) as [S1 _].
    assert (Hlt : Qabs q < pow2 (prec f + k)).
    { rewrite pow2_add, pow2_Z by lia. pose proof (pow2_pos k) as Pk.
      assert (B1 : - inject_Z (2 ^ prec f) < inject_Z m).
      { rewrite <- inject_Z_opp, <- Zlt_Qlt. lia. }
      assert (B2 : inject_Z m < inject_Z (2 ^ prec f)) by (rewrite <- Zlt_Qlt; lia).
      set (P := inject_Z (2 ^ prec f)) in *. set (s := pow2 k) in *.
      set (M := inject_Z m) in *. clearbody P s M.
      apply Qabs_Qlt_condition. rewrite Eq. split; nra. }
    assert (ilog2 q < prec f + k)%Z by (apply pow2_lt_inv; lra).
    unfold ue, ulp_exp. lia. }
  assert (Ek : pow2 k == inject_Z (2 ^ (k - ue)) * pow2 ue).
  { rewrite <- pow2_Z by lia. rewrite <- pow2_add. apply Qpower_comp; [reflexivity | lia]. }
  pose proof (pow2_pos ue) as Hs.
  assert (Equot : q / pow2 ue == inject_Z (m * 2 ^ (k - ue))).
  { rewrite Eq, Ek, inject_Z_mult. field. lra. }
  rewrite (rne_comp _ _ Equot), rne_Z, Eq, Ek, inject_Z_mult. ring.
Qed.

Lemma pow2_half_Z (p : Z) : (0 < p)%Z -> (2 ^ p = 2 ^ (p - 1) * 2)%Z.
Proof.
  intro Hp. replace p with (Z.succ (p - 1)) at 1 by lia.
  rewrite Z.pow_succ_r by lia. ring.
Qed.

Lemma rnd_Z (f : format) (n : Z) :
  (0 < prec f)%Z -> (emin f - prec f + 1 <= 0)%Z -> (Z.abs n <= 2 ^ prec f)%Z ->
  rnd f (inject_Z n) == inject_Z n.
Proof.
  intros Hp He Hn. pose proof (pow2_half_Z (prec f) Hp) as Hpow.
  assert (Hpos : (0 < 2 ^ (prec f - 1))%Z) by (apply Z.pow_pos_nonneg; lia).
  destruct (Z.eq_dec (Z.abs n) (2 ^ prec f)) as [E | Hne].
  - apply (rnd_exact f _ (Z.sgn n * 2 ^ (prec f - 1)) 1 Hp).
    + change (pow2 1) with 2. rewrite <- (inject_Z_mult _ 2).
      assert (En : n = (Z.sgn n * 2 ^ (prec f - 1) * 2)%Z).
      { destruct n; cbn [Z.sgn Z.abs] in *; lia. }
      rewrite <- En. reflexivity.
    + rewrite Z.abs_mul. destruct n; cbn [Z.sgn Z.abs] in *; lia.
    + lia.
  - apply (rnd_exact f _ n 0 Hp); [rewrite pow2_0; ring | lia | lia].
Qed.

(** The error is at most half a unit in the last place: for a normal number,
    at most [pow2 (- prec)] of it. *)
Lemma rnd_error (f : format) (x : Q) :
  (0 < prec f)%Z -> 0 < x -> (emin f <= ilog2 x)%Z ->
  Qabs (rnd f x - x) <= x * pow2 (- prec f).
Proof.
  intros Hp Hx He.
  assert (Hq : ~ x == 0) by (intro E; rewrite E in Hx; discriminate).
  rewrite (rnd_scaled f x Hq). unfold ulp_exp.
  replace (Z.max (ilog2 x) (emin f)) with (ilog2 x) by lia.
  destruct (ilog2_spec x Hq) as [S1 _]. rewrite Qabs_pos_eq in S1 by lra.
  assert (Es : pow2 (ilog2 x - prec f + 1) == 2 * (pow2 (ilog2 x) * pow2 (- prec f))).
  { rewrite <- pow2_add, <- pow2_succ. apply Qpower_comp; [reflexivity | lia]. }
  pose proof (pow2_pos (ilog2 x)) as Pe. pose proof (pow2_pos (- prec f)) as Pp.
  pose proof (pow2_pos (ilog2 x - prec f + 1)) as Ps.
  pose proof (proj2 (rne_bounds (x / pow2 (ilog2 x - prec f + 1)))) as Hnear.
  set (s := pow2 (ilog2 x - prec f + 1)) in *. set (k := inject_Z (rne (x / s))) in *.
  set (E := pow2 (ilog2 x)) in *. set (U := pow2 (- prec f)) in *.
  clearbody s k E U.
  apply Qabs_Qle_condition in Hnear. destruct Hnear as [N1 N2].
  assert (Ex : x / s * s == x) by (field; lra).
  apply Qabs_Qle_condition. split; nra.
Qed.

(** Below 1 the largest number of the format is [1 - pow2 (- prec)]. *)
Lemma rnd_below_1 (f : format) (x : Q) :
  (0 < prec f)%Z -> (emin f <= -1)%Z ->
  rnd f x < 1 -> rnd f x <= 1 - pow2 (- prec f).
Proof.
  intros Hp He Hlt.
  assert (Hu : pow2 (- prec f) <= 1 # 2).
  { change (1 # 2) with (pow2 (-1)). apply pow2_le. lia. }
  assert (E1 : rnd f 1 == 1).
  { apply (rnd_Z f 1 Hp); [lia |]. cbn [Z.abs].
    assert (2 ^ 1 <= 2 ^ prec f)%Z by (apply Z.pow_le_mono_r; lia). lia. }
  assert (Eh : rnd f (1 # 2) == 1 # 2).
  { apply (rnd_exact f _ 1 (-1) Hp); [reflexivity | | lia]. cbn [Z.abs].
    assert (2 ^ 1 <= 2 ^ prec f)%Z by (apply Z.pow_le_mono_r; lia). lia. }
  destruct (Qlt_le_dec x (1 # 2)) as [Hsmall | Hhalf].
  - destruct (Qlt_le_dec x 0) as [Hneg | Hpos].
    + pose proof (rnd_nonpos f x ltac:(lra)). lra.
    + pose proof (rnd_mono f x (1 # 2) Hp Hpos ltac:(lra)). lra.
  - destruct (Qlt_le_dec x 1) as [Hx1 | Hge].
    2:{ pose proof (rnd_mono f 1 x Hp ltac:(lra) Hge). lra. }
    assert (Hq : ~ x == 0) by (intro E; lra).
    assert (El : ilog2 x = (-1)%Z).
    { apply ilog2_unique; rewrite Qabs_pos_eq by lra; [exact Hhalf | exact Hx1]. }
    rewrite (rnd_scaled f x Hq) in *. unfold ulp_exp in *. rewrite El in *.
    replace (Z.max (-1) (emin f) - prec f + 1)%Z with (- prec f)%Z in * by lia.
    assert (Es : 1 == inject_Z (2 ^ prec f) * pow2 (- prec f)).
    { rewrite <- pow2_Z by lia. rewrite <- pow2_add.
      replace (prec f + - prec f)%Z with 0%Z by lia. reflexivity. }
    pose proof (pow2_pos (- prec f)) as Ps.
    set (s := pow2 (- prec f)) in *. clearbody s.
    assert (Hk : (rne (x / s) < 2 ^ prec f)%Z).
    { rewrite Zlt_Qlt. apply Qmult_lt_r with s; [exact Ps |]. rewrite <- Es. exact Hlt. }
    assert (Hk' : inject_Z (rne (x / s)) <= inject_Z (2 ^ prec f) - 1).
    { assert (H : (rne (x / s) <= 2 ^ prec f + -1)%Z) by lia.
      rewrite Zle_Qle, inject_Z_plus in H. change (inject_Z (-1)) with (-1) in H. lra. }
    nra.
Qed.

(** ** Panorama *)

Module PanoramaFacts.
Import Panorama.

(** The matrix half of the inverse property does hold: for a rotation block
    with orthonormal columns and the canonical last row, the matrix that
    [InitCameraParameters] stores in [global_to_local] is a left inverse of
    [local_to_global]. *)
Lemma global_to_local_inverse (file : Matrix4d) (phi : Q) (p0 : Panorama) :
  let a := r0 file in let b := r1 file in let c := r2 file in
  h0 a * h0 a + h0 b * h0 b + h0 c * h0 c == 1 ->
  h1 a * h1 a + h1 b * h1 b + h1 c * h1 c == 1 ->
  h2 a * h2 a + h2 b * h2 b + h2 c * h2 c == 1 ->
  h0 a * h1 a + h0 b * h1 b + h0 c * h1 c == 0 ->
  h0 a * h2 a + h0 b * h2 b + h0 c * h2 c == 0 ->
  h1 a * h2 a + h1 b * h2 b + h1 c * h2 c == 0 ->
  veq4 (r3 file) (V4 0 0 0 1) ->
  let p := InitCameraParameters file phi p0 in
  meq (mul_mm (global_to_local p) (local_to_global p)) identity.
Proof.
  destruct file as [[a0 a1 a2 a3] [b0 b1 b2 b3] [c0' c1' c2' c3'] [d0 d1 d2 d3]].
  cbn [r0 r1 r2 r3 h0 h1 h2 h3].
  intros H00 H11 H22 H01 H02 H12 (Hd0 & Hd1 & Hd2 & Hd3).
  cbn [h0 h1 h2 h3] in Hd0, Hd1, Hd2, Hd3.
  unfold meq, veq4, mul_mm, dot4, col, identity, InitCameraParameters.
  cbn [r0 r1 r2 r3 h0 h1 h2 h3 c0 c1 c2 global_to_local local_to_global].
  rewrite Hd0, Hd1, Hd2, Hd3.
  repeat split; first [ ring | lra ].
Qed.

(** A rotation by a quarter turn about the vertical axis followed by the
    translation (1, 2, 3). *)
Definition quarter_turn : Matrix4d :=
  M4 (V4 0 (-1) 0 1) (V4 1 0 0 2) (V4 0 0 1 3) (V4 0 0 0 1).

Definition blank : Panorama :=
  mkPanorama [] 0 0 [] 0 0 identity identity (V4 0 0 0 0) 0 0 0 0.

Definition turned : Panorama := InitCameraParameters quarter_turn 0 blank.

(** C1 (the code at the failing input).  For the panorama whose transform
    is a quarter turn and the translation (1, 2, 3), [LocalToGlobal] sends the
    local point (1, 1, 1) to (0, 3, 1): the third coordinate is the one of the
    local point, where the product with [local_to_global] has 4.  Neither
    composition with [GlobalToLocal] gives the point back. *)
Theorem LocalToGlobal_keeps_local_z :
  let x := V3 1 1 1 in
  veq4 (mul_mv (local_to_global turned) (V4 1 1 1 1)) (V4 0 3 4 1) /\
  veq3 (LocalToGlobal turned x) (V3 0 3 1) /\
  veq3 (GlobalToLocal turned (LocalToGlobal turned x)) (V3 1 1 (-2)) /\
  veq3 (LocalToGlobal turned (GlobalToLocal turned x)) (V3 1 1 (-2)) /\
  ~ veq3 (GlobalToLocal turned (LocalToGlobal turned x)) x /\
  ~ veq3 (LocalToGlobal turned (GlobalToLocal turned x)) x.
Proof.
  cbv zeta. repeat split; try reflexivity.
  - intros (_ & _ & H). vm_compute in H. discriminate.
  - intros (_ & _ & H). vm_compute in H. discriminate.
Qed.

(** *** Project *)

(** The quotient that [Project] clamps, a [double]. *)
Definition ratio (theta : Q) : Q := double (theta / (2 * M_PI)).

(** The three branches of the clamp and of the test that follows it. *)
Lemma theta_ratio_cases (theta : Q) :
  (1 <= ratio theta /\ theta_ratio_of theta = 0) \/
  (ratio theta <= 0 /\ theta_ratio_of theta = 0) \/
  ((0 < ratio theta /\ ratio theta < 1) /\ theta_ratio_of theta = ratio theta).
Proof.
  unfold theta_ratio_of, fmax, fmin. fold (ratio theta).
  set (t := ratio theta).
  destruct (fltb t 1) eqn:E1.
  - apply fltb_true in E1. right.
    destruct (fltb 0 t) eqn:E2.
    + apply fltb_true in E2. right.
      destruct (feqb t 1) eqn:E3; [apply feqb_true in E3; lra |].
      split; [split; assumption | reflexivity].
    + apply fltb_false in E2. left. split; [exact E2 | reflexivity].
  - apply fltb_false in E1. left. split; [exact E1 | reflexivity].
Qed.

(** A double below 1 is at most the double before 1: the ratio that is
    multiplied by the width is in [0, 1 - 2^-53]. *)
Lemma theta_ratio_range (theta : Q) :
  0 <= theta_ratio_of theta /\ theta_ratio_of theta <= 1 - pow2 (-53).
Proof.
  assert (Hp : 0 < pow2 (-53)) by apply pow2_pos.
  assert (Hq : pow2 (-53) < 1) by (rewrite <- pow2_0; apply pow2_lt; lia).
  destruct (theta_ratio_cases theta) as [[_ ->] | [[_ ->] | [[H0 H1] ->]]];
    try (split; lra).
  split; [lra |].
  apply (rnd_below_1 binary64); [reflexivity | cbn; lia | exact H1].
Qed.

(** The product of such a ratio and a width, rounded, is still below the
    width. *)
Lemma column_below_width (r : Q) (w : Z) :
  (0 < w)%Z -> 0 <= r -> r <= 1 - pow2 (-53) ->
  0 <= double (r * inject_Z w) /\ double (r * inject_Z w) < inject_Z w.
Proof.
  intros Hw H0 H1.
  assert (HW : 1 <= inject_Z w).
  { change 1 with (inject_Z 1). rewrite <- Zle_Qle. lia. }
  assert (Hp : 0 < pow2 (-53)) by apply pow2_pos.
  assert (Hq : pow2 (-53) < 1 # 2).
  { setoid_replace (1 # 2) with (pow2 (-1)) by reflexivity. apply pow2_lt. lia. }
  split.
  { apply rnd_nonneg. apply Qmult_le_0_compat; lra. }
  set (y := (1 - pow2 (-53)) * inject_Z w).
  assert (Hy : 1 # 2 <= y).
  { unfold y. set (e := pow2 (-53)) in *. clearbody e. nra. }
  assert (Hle : double (r * inject_Z w) <= double y).
  { apply rnd_mono; [reflexivity | apply Qmult_le_0_compat; lra |].
    unfold y. apply Qmult_le_compat_r; lra. }
  assert (Herr : Qabs (double y - y) <= y * pow2 (- 53)).
  { apply (rnd_error binary64); [reflexivity | lra |].
    change (emin binary64) with (-1022)%Z.
    assert (Hl : (ilog2 (1 # 2) <= ilog2 y)%Z).
    { apply ilog2_le; [discriminate |].
      rewrite (Qabs_pos_eq y) by lra. exact Hy. }
    replace (ilog2 (1 # 2)) with (-1)%Z in Hl by reflexivity. lia. }
  apply Qabs_Qle_condition in Herr. destruct Herr as [_ Herr].
  unfold y in *. clear y.
  set (d := double ((1 - pow2 (-53)) * inject_Z w)) in *.
  set (c := double (r * inject_Z w)) in *.
  set (e := pow2 (-53)) in *. clearbody d c e.
  nra.
Qed.

(** C8.  Whatever [atan2] returns and for every positive [width], the ratio
    that [Project] multiplies by the width is the double quotient of the
    azimuth by [2 * M_PI] when that is strictly between 0 and 1, and 0
    otherwise: a quotient of 1 or more, clamped to 1, is forced to 0.  The
    ratio being a double below 1, the rounded product is a horizontal pixel
    coordinate in [0, width), and it is 0 at the seam. *)
Theorem Project_column_in_range (atan2 : Q -> Q -> Q) (sqrt : Q -> Q)
  (p : Panorama) (global : Vector3d) :
  (0 < width p)%Z ->
  let r := ratio (azimuth atan2 (GlobalToLocal p global)) in
  let u := px (Project atan2 sqrt p global) in
  (0 <= u /\ u < inject_Z (width p)) /\
  (1 <= r -> u == 0) /\
  (r <= 0 -> u == 0) /\
  (0 < r -> r < 1 -> u == double (r * inject_Z (width p))).
Proof.
  intros Hw r u. subst r u. unfold Project. cbn [px].
  set (theta := azimuth _ _).
  destruct (theta_ratio_range theta) as [H0 H1].
  split; [now apply column_below_width |].
  assert (Z0 : double (0 * inject_Z (width p)) == 0).
  { unfold double. rewrite (rnd_comp binary64 (0 * inject_Z (width p)) 0) by ring.
    rewrite rnd_0. reflexivity. }
  destruct (theta_ratio_cases theta) as [[Hr ->] | [[Hr ->] | [[Hr0 Hr1] ->]]].
  - repeat split; intros; try exact Z0; lra.
  - repeat split; intros; try exact Z0; lra.
  - repeat split; intros; try reflexivity; lra.
Qed.

(** [atan2] on the y axis, and elsewhere its first-order value [y / x], which
    is the double nearest to [atan2 (y, x)] when [y / x] is as small as
    [2^-52]. *)
Definition atan2_stub (y x : Q) : Q :=
  if feqb x 0 then (if fltb y 0 then - M_PI / 2 else M_PI / 2) else y / x.

(** A panorama of 8 columns whose local frame is the global one. *)
Definition eight_columns : Panorama :=
  mkPanorama [] 8 4 [] 0 0 identity identity (V4 0 0 0 1) 1 (1 # 4) 0 0.

(** A quarter turn is a quarter of the width. *)
Example Project_quarter_turn :
  px (Project atan2_stub (fun q => q) eight_columns (V3 0 (-1) 0)) == 2.
Proof. vm_compute. reflexivity. Qed.

(** Just before the seam the azimuth [2 * M_PI - 2^-52] is rounded to
    [2 * M_PI]: the quotient is 1 and the column is 0, where the exact
    quotient, below 1, would give a column just below 8. *)
Example Project_seam_by_rounding :
  let local := V3 1 (pow2 (-52)) 0 in
  - atan2_stub (c1 local) (c0 local) + 2 * M_PI < 2 * M_PI /\
  azimuth atan2_stub local == 2 * M_PI /\
  ratio (azimuth atan2_stub local) == 1 /\
  px (Project atan2_stub (fun q => q) eight_columns local) == 0.
Proof. vm_compute. repeat split; discriminate. Qed.

Lemma Project_column_in_range_witness :
  let u := px (Project atan2_stub (fun q => q) eight_columns (V3 1 (pow2 (-52)) 0)) in
  (0 <= u /\ u < 8) /\ u == 0.
Proof.
  destruct (Project_column_in_range atan2_stub (fun q => q) eight_columns
              (V3 1 (pow2 (-52)) 0) eq_refl) as (Hr & Hs & _).
  split; [exact Hr |]. apply Hs. vm_compute. discriminate.
Defined.

(** *** GetRGB *)

(** The pixel domain of [GetRGB]. *)
Definition inside_rgb (p : Panorama) (pixel : Vector2d) : Prop :=
  (0 <= px pixel /\ px pixel < inject_Z (width p)) /\
  (0 <= py pixel /\ py pixel < inject_Z (height p - 1)).

(** The raster has [height] rows of [width] pixels, as [Init] leaves it. *)
Definition image_ok (p : Panorama) : Prop :=
  zlen (rgb_image p) = height p /\
  Forall (fun row => zlen row = width p) (rgb_image p).

(** The blend of four texels with the fractional offsets [fx] and [fy]. *)
Definition bilinear (fx fy : Q) (c00 c01 c10 c11 : Vec3b) : Vector3d :=
  let mix (ch : Vec3b -> Z) :=
    (1 - fx) * (1 - fy) * inject_Z (ch c00) + fx * (1 - fy) * inject_Z (ch c01) +
    (1 - fx) * fy * inject_Z (ch c10) + fx * fy * inject_Z (ch c11) in
  V3 (mix ch0) (mix ch1) (mix ch2).

Lemma IsInsideRGB_spec (p : Panorama) (pixel : Vector2d) :
  IsInsideRGB p pixel = true <-> inside_rgb p pixel.
Proof.
  unfold IsInsideRGB, inside_rgb.
  destruct (fltb (px pixel) 0) eqn:E1; cbn [orb].
  { apply fltb_true in E1. split; [discriminate | intros [[H _] _]; lra]. }
  destruct (fleb (inject_Z (width p)) (px pixel)) eqn:E2; cbn [orb].
  { apply fleb_true in E2. split; [discriminate | intros [[_ H] _]; lra]. }
  destruct (fltb (py pixel) 0) eqn:E3; cbn [orb].
  { apply fltb_true in E3. split; [discriminate | intros [_ [H _]]; lra]. }
  destruct (fleb (inject_Z (height p - 1)) (py pixel)) eqn:E4.
  { apply fleb_true in E4. split; [discriminate | intros [_ [_ H]]; lra]. }
  apply fltb_false in E1, E3. apply fleb_false in E2, E4.
  split; [intros _ | reflexivity]. repeat split; assumption.
Qed.

Lemma Qfloor_range (x : Q) (n : Z) :
  0 <= x -> x < inject_Z n -> (0 <= Qfloor x < n)%Z.
Proof.
  intros H0 Hn. split.
  - change 0%Z with (Qfloor 0). apply Qfloor_resp_le, H0.
  - rewrite Zlt_Qlt. apply Qle_lt_trans with x; [apply Qfloor_le | exact Hn].
Qed.

Lemma at_rgb_in_range (p : Panorama) (v u : Z) :
  image_ok p -> (0 <= v < height p)%Z -> (0 <= u < width p)%Z ->
  exists c, at_rgb p v u = Ok c.
Proof.
  intros [Hh Hw] Hv Hu. unfold at_rgb.
  destruct (zth_in_range (rgb_image p) v) as [row Hrow]; [lia |].
  rewrite Hrow. cbn [of_option bind].
  rewrite Forall_forall in Hw. specialize (Hw row (zth_In _ _ _ Hrow)).
  destruct (zth_in_range row u) as [c Hc]; [lia |].
  rewrite Hc. cbn [of_option]. eauto.
Qed.

(** C5.  [GetRGB] exits exactly outside [0, width) x [0, height - 1).
    Inside, the four texels it reads exist, the lower row [v0 + 1] being a
    row of the raster and the right column being [(u0 + 1) mod width], and
    the result is their bilinear blend; from [width - 1] on, the two columns
    are the last one and column 0. *)
Theorem GetRGB_bilinear_wraps (p : Panorama) (pixel : Vector2d) :
  image_ok p ->
  let u0 := Qfloor (px pixel) in
  let v0 := Qfloor (py pixel) in
  let right := ((u0 + 1) mod width p)%Z in
  (GetRGB p pixel = Fatal <-> ~ inside_rgb p pixel) /\
  (inside_rgb p pixel ->
   (0 <= v0 /\ v0 + 1 <= height p - 1)%Z /\
   (0 <= u0 < width p /\ 0 <= right < width p)%Z /\
   exists c00 c01 c10 c11 rgb,
     at_rgb p v0 u0 = Ok c00 /\ at_rgb p v0 right = Ok c01 /\
     at_rgb p (v0 + 1) u0 = Ok c10 /\ at_rgb p (v0 + 1) right = Ok c11 /\
     GetRGB p pixel = Ok rgb /\
     veq3 rgb (bilinear (px pixel - inject_Z u0) (py pixel - inject_Z v0)
                        c00 c01 c10 c11)) /\
  (inside_rgb p pixel -> inject_Z (width p - 1) <= px pixel ->
   u0 = (width p - 1)%Z /\ right = 0%Z).
Proof.
  intros Himg u0 v0 right.
  assert (Hin : inside_rgb p pixel ->
                (0 <= u0 < width p)%Z /\ (0 <= v0 < height p - 1)%Z).
  { intros [[Hx0 Hx1] [Hy0 Hy1]]. split; apply Qfloor_range; assumption. }
  assert (Hmain : inside_rgb p pixel ->
    (0 <= v0 /\ v0 + 1 <= height p - 1)%Z /\
    (0 <= u0 < width p /\ 0 <= right < width p)%Z /\
    exists c00 c01 c10 c11 rgb,
      at_rgb p v0 u0 = Ok c00 /\ at_rgb p v0 right = Ok c01 /\
      at_rgb p (v0 + 1) u0 = Ok c10 /\ at_rgb p (v0 + 1) right = Ok c11 /\
      GetRGB p pixel = Ok rgb /\
      veq3 rgb (bilinear (px pixel - inject_Z u0) (py pixel - inject_Z v0)
                         c00 c01 c10 c11)).
  { intro Hi. destruct (Hin Hi) as [Hu Hv].
    assert (Hr : (0 <= right < width p)%Z) by (apply Z.mod_pos_bound; lia).
    split; [lia |]. split; [lia |].
    destruct (at_rgb_in_range p v0 u0 Himg) as [c00 H00]; [lia | lia |].
    destruct (at_rgb_in_range p v0 right Himg) as [c01 H01]; [lia | lia |].
    destruct (at_rgb_in_range p (v0 + 1) u0 Himg) as [c10 H10]; [lia | lia |].
    destruct (at_rgb_in_range p (v0 + 1) right Himg) as [c11 H11]; [lia | lia |].
    exists c00, c01, c10, c11.
    unfold GetRGB. apply IsInsideRGB_spec in Hi. rewrite Hi. cbn [negb].
    fold u0 v0.
    replace (Z.rem (u0 + 1) (width p)) with right
      by (symmetry; apply Z.rem_mod_nonneg; lia).
    rewrite H00, H01, H10, H11. cbn [bind].
    eexists. repeat split; try reflexivity;
      unfold bilinear; cbn [c0 c1 c2];
      rewrite !inject_Z_plus; change (inject_Z 1) with 1; ring. }
  split; [| split].
  - split.
    + intros HF Hi. destruct (Hmain Hi) as (_ & _ & c00 & c01 & c10 & c11 & rgb & H).
      destruct H as (_ & _ & _ & _ & HG & _). congruence.
    + intro Hn. unfold GetRGB.
      destruct (IsInsideRGB p pixel) eqn:E; [| reflexivity].
      apply IsInsideRGB_spec in E. contradiction.
  - exact Hmain.
  - intros Hi Hlast. destruct (Hin Hi) as [Hu Hv].
    assert (Hge : (width p - 1 <= u0)%Z).
    { rewrite <- (Qfloor_Z (width p - 1)). apply Qfloor_resp_le, Hlast. }
    assert (Eu : u0 = (width p - 1)%Z) by lia.
    split; [exact Eu |]. unfold right. rewrite Eu.
    replace (width p - 1 + 1)%Z with (width p) by lia.
    apply Z.mod_same. lia.
Qed.

(** A raster of two rows and two columns and a pixel of its last column. *)
Definition two_by_two : Panorama :=
  mkPanorama [[RGB 10 20 30; RGB 40 50 60]; [RGB 70 80 90; RGB 100 110 120]]
             2 2 [] 0 0 identity identity (V4 0 0 0 0) 0 0 0 0.

Example GetRGB_last_column :
  exists rgb, GetRGB two_by_two (V2 (3 # 2) (1 # 2)) = Ok rgb /\
              veq3 rgb (V3 55 65 75).
Proof. eexists. split; [reflexivity |]. repeat split; reflexivity. Qed.

Lemma GetRGB_bilinear_wraps_witness :
  image_ok two_by_two /\ inside_rgb two_by_two (V2 (3 # 2) (1 # 2)) /\
  Qfloor (3 # 2) = 1%Z /\ ((Qfloor (3 # 2) + 1) mod 2 = 0)%Z.
Proof.
  assert (Himg : image_ok two_by_two).
  { split; [reflexivity |]. repeat constructor. }
  assert (Hin : inside_rgb two_by_two (V2 (3 # 2) (1 # 2))).
  { unfold inside_rgb. qeval. }
  split; [exact Himg |]. split; [exact Hin |].
  apply (proj2 (proj2 (GetRGB_bilinear_wraps two_by_two (V2 (3 # 2) (1 # 2)) Himg))).
  - exact Hin.
  - qeval.
Defined.

End PanoramaFacts.

(** ** The camera frame, the depth image and the colors *)

Module CameraFacts.
Import Panorama PanoramaFacts.

(** X1.  The camera center, the translation column that [InitCameraParameters]
    copies out of the file, is the origin of the local frame, whatever the
    matrix of the file. *)
Theorem GlobalToLocal_center (file : Matrix4d) (phi : Q) (p0 : Panorama) :
  let p := InitCameraParameters file phi p0 in
  veq3 (GlobalToLocal p (V3 (h0 (center p)) (h1 (center p)) (h2 (center p))))
       (V3 0 0 0).
Proof.
  destruct file as [[a0 a1 a2 a3] [b0 b1 b2 b3] [c0' c1' c2' c3'] [d0 d1 d2 d3]].
  cbv zeta. unfold veq3, GlobalToLocal, InitCameraParameters, mul_mv, dot4, col.
  cbn [r0 r1 r2 r3 h0 h1 h2 h3 c0 c1 c2 global_to_local center].
  repeat split; ring.
Qed.

(** A rigid transform: the rotation block has orthonormal columns and the
    last row is (0, 0, 0, 1). *)
Definition rigid (m : Matrix4d) : Prop :=
  let a := r0 m in let b := r1 m in let c := r2 m in
  h0 a * h0 a + h0 b * h0 b + h0 c * h0 c == 1 /\
  h1 a * h1 a + h1 b * h1 b + h1 c * h1 c == 1 /\
  h2 a * h2 a + h2 b * h2 b + h2 c * h2 c == 1 /\
  h0 a * h1 a + h0 b * h1 b + h0 c * h1 c == 0 /\
  h0 a * h2 a + h0 b * h2 b + h0 c * h2 c == 0 /\
  h1 a * h2 a + h1 b * h2 b + h1 c * h2 c == 0 /\
  veq4 (r3 m) (V4 0 0 0 1).

(** X2.  An upright panorama at height 0: the third row of the transform is
    (0, 0, 1, 0).  There the third coordinate that [LocalToGlobal] copies from
    its argument is the one of the product, and [GlobalToLocal] takes the
    result back to the local point. *)
Theorem GlobalToLocal_LocalToGlobal_upright (file : Matrix4d) (phi : Q)
  (p0 : Panorama) (local : Vector3d) :
  rigid file -> veq4 (r2 file) (V4 0 0 1 0) ->
  let p := InitCameraParameters file phi p0 in
  veq3 (GlobalToLocal p (LocalToGlobal p local)) local.
Proof.
  destruct file as [[a0 a1 a2 a3] [b0 b1 b2 b3] [c0' c1' c2' c3'] [d0 d1 d2 d3]].
  destruct local as [x y z].
  unfold rigid, veq4. cbn [r0 r1 r2 r3 h0 h1 h2 h3].
  intros (H00 & H11 & H22 & H01 & H02 & H12 & _) (Hc0 & Hc1 & Hc2 & Hc3).
  rewrite Hc0 in H00, H01, H02. rewrite Hc1 in H11, H01, H12.
  rewrite Hc2 in H22, H02, H12.
  cbv zeta. unfold veq3, GlobalToLocal, LocalToGlobal, InitCameraParameters,
    mul_mv, dot4, col.
  cbn [r0 r1 r2 r3 h0 h1 h2 h3 c0 c1 c2 global_to_local local_to_global].
  rewrite Hc0, Hc1, Hc2, Hc3.
  repeat split.
  - transitivity ((a0 * a0 + b0 * b0 + 0 * 0) * x
       + (a0 * a1 + b0 * b1 + 0 * 0) * y + (a0 * a2 + b0 * b2 + 0 * 1) * z);
      [ring | rewrite H00, H01, H02; ring].
  - transitivity ((a0 * a1 + b0 * b1 + 0 * 0) * x
       + (a1 * a1 + b1 * b1 + 0 * 0) * y + (a1 * a2 + b1 * b2 + 0 * 1) * z);
      [ring | rewrite H11, H01, H12; ring].
  - transitivity ((a0 * a2 + b0 * b2 + 0 * 1) * x
       + (a1 * a2 + b1 * b2 + 0 * 1) * y + (a2 * a2 + b2 * b2 + 1 * 1) * z);
      [ring | rewrite H22, H02, H12; ring].
Qed.

(** A quarter turn about the vertical axis and the translation (1, 2, 0). *)
Definition level_turn : Matrix4d :=
  M4 (V4 0 (-1) 0 1) (V4 1 0 0 2) (V4 0 0 1 0) (V4 0 0 0 1).

Lemma rigid_level_turn : rigid level_turn.
Proof. unfold rigid, veq4. qeval. Qed.

Lemma GlobalToLocal_LocalToGlobal_upright_witness :
  let p := InitCameraParameters level_turn 0 blank in
  veq3 (GlobalToLocal p (LocalToGlobal p (V3 1 1 1))) (V3 1 1 1).
Proof.
  apply (GlobalToLocal_LocalToGlobal_upright level_turn 0 blank (V3 1 1 1)).
  - exact rigid_level_turn.
  - unfold veq4. qeval.
Defined.

End CameraFacts.

Module DepthFacts.
Import Panorama PanoramaFacts.

(** The pixel domain of [GetDepth]. *)
Definition inside_depth (p : Panorama) (pixel : Vector2d) : Prop :=
  (0 <= px pixel /\ px pixel < inject_Z (depth_width p)) /\
  (0 <= py pixel /\ py pixel < inject_Z (depth_height p - 1)).

(** The depth image has [depth_width * depth_height] samples, as
    [InitDepthImage] leaves it. *)
Definition depth_ok (p : Panorama) : Prop :=
  zlen (depth_image p) = (depth_width p * depth_height p)%Z.

(** [depth_image[v * depth_width + u]] *)
Definition at_depth (p : Panorama) (v u : Z) : option Q :=
  zth (depth_image p) (v * depth_width p + u).

Definition blend (fx fy d00 d01 d10 d11 : Q) : Q :=
  (1 - fx) * (1 - fy) * d00 + fx * (1 - fy) * d01 +
  (1 - fx) * fy * d10 + fx * fy * d11.

Lemma IsInsideDepth_spec (p : Panorama) (pixel : Vector2d) :
  IsInsideDepth p pixel = true <-> inside_depth p pixel.
Proof.
  unfold IsInsideDepth, inside_depth.
  destruct (fltb (px pixel) 0) eqn:E1; cbn [orb].
  { apply fltb_true in E1. split; [discriminate | intros [[H _] _]; lra]. }
  destruct (fleb (inject_Z (depth_width p)) (px pixel)) eqn:E2; cbn [orb].
  { apply fleb_true in E2. split; [discriminate | intros [[_ H] _]; lra]. }
  destruct (fltb (py pixel) 0) eqn:E3; cbn [orb].
  { apply fltb_true in E3. split; [discriminate | intros [_ [H _]]; lra]. }
  destruct (fleb (inject_Z (depth_height p - 1)) (py pixel)) eqn:E4.
  { apply fleb_true in E4. split; [discriminate | intros [_ [_ H]]; lra]. }
  apply fltb_false in E1, E3. apply fleb_false in E2, E4.
  split; [intros _ | reflexivity]. repeat split; assumption.
Qed.

Lemma at_depth_in_range (p : Panorama) (v u : Z) :
  depth_ok p -> (0 <= v < depth_height p)%Z -> (0 <= u < depth_width p)%Z ->
  exists d, at_depth p v u = Some d.
Proof.
  intros Hok Hv Hu. apply zth_in_range. rewrite Hok. nia.
Qed.

(** The fractional offsets of a pixel in its cell. *)
Lemma Qfloor_offset (x : Q) :
  0 <= x - inject_Z (Qfloor x) /\ x - inject_Z (Qfloor x) < 1.
Proof.
  pose proof (Qfloor_le x). pose proof (Qlt_floor x) as H1.
  rewrite inject_Z_plus in H1. change (inject_Z 1) with 1 in H1. lra.
Qed.

(** What a call of [GetDepth] that returns has read and computed. *)
Lemma GetDepth_Ok (p : Panorama) (pixel : Vector2d) (d : Q) :
  GetDepth p pixel = Ok d ->
  let u0 := Qfloor (px pixel) in
  let v0 := Qfloor (py pixel) in
  let right := Z.rem (u0 + 1) (depth_width p) in
  inside_depth p pixel /\
  exists d00 d01 d10 d11,
    at_depth p v0 u0 = Some d00 /\ at_depth p v0 right = Some d01 /\
    at_depth p (v0 + 1) u0 = Some d10 /\ at_depth p (v0 + 1) right = Some d11 /\
    d == blend (px pixel - inject_Z u0) (py pixel - inject_Z v0) d00 d01 d10 d11.
Proof.
  intros E u0 v0 right. unfold GetDepth in E.
  destruct (IsInsideDepth p pixel) eqn:Ei; cbn [negb] in E; [| discriminate].
  split; [now apply IsInsideDepth_spec |].
  fold u0 v0 in E. cbv zeta in E. fold right in E. unfold at_depth.
  destruct (zth (depth_image p) (v0 * depth_width p + u0)) as [d00 |];
    cbn [of_option bind] in E; [| discriminate].
  destruct (zth (depth_image p) (v0 * depth_width p + right)) as [d01 |];
    cbn [of_option bind] in E; [| discriminate].
  destruct (zth (depth_image p) ((v0 + 1) * depth_width p + u0)) as [d10 |];
    cbn [of_option bind] in E; [| discriminate].
  destruct (zth (depth_image p) ((v0 + 1) * depth_width p + right)) as [d11 |];
    cbn [of_option bind] in E; [| discriminate].
  exists d00, d01, d10, d11. repeat split.
  injection E as <-. unfold blend.
  rewrite !inject_Z_plus. change (inject_Z 1) with 1. ring.
Qed.

(** Inside its domain [GetDepth] reads four samples that exist and blends
    them. *)
Lemma GetDepth_inside (p : Panorama) (pixel : Vector2d) :
  depth_ok p -> inside_depth p pixel ->
  let u0 := Qfloor (px pixel) in
  let v0 := Qfloor (py pixel) in
  let right := ((u0 + 1) mod depth_width p)%Z in
  ((0 <= u0 < depth_width p)%Z /\ (0 <= v0 < depth_height p - 1)%Z) /\
  exists d00 d01 d10 d11 d,
    at_depth p v0 u0 = Some d00 /\ at_depth p v0 right = Some d01 /\
    at_depth p (v0 + 1) u0 = Some d10 /\ at_depth p (v0 + 1) right = Some d11 /\
    GetDepth p pixel = Ok d /\
    d == blend (px pixel - inject_Z u0) (py pixel - inject_Z v0) d00 d01 d10 d11.
Proof.
  intros Hok Hi u0 v0 right.
  assert (Hin : (0 <= u0 < depth_width p)%Z /\ (0 <= v0 < depth_height p - 1)%Z).
  { destruct Hi as [[Hx0 Hx1] [Hy0 Hy1]]. split; apply Qfloor_range; assumption. }
  split; [exact Hin |]. destruct Hin as [Hu Hv].
  assert (Hr : (0 <= right < depth_width p)%Z) by (apply Z.mod_pos_bound; lia).
  destruct (at_depth_in_range p v0 u0 Hok) as [d00 H00]; [lia | lia |].
  destruct (at_depth_in_range p v0 right Hok) as [d01 H01]; [lia | lia |].
  destruct (at_depth_in_range p (v0 + 1) u0 Hok) as [d10 H10]; [lia | lia |].
  destruct (at_depth_in_range p (v0 + 1) right Hok) as [d11 H11]; [lia | lia |].
  exists d00, d01, d10, d11.
  unfold GetDepth. apply IsInsideDepth_spec in Hi. rewrite Hi. cbn [negb].
  fold u0 v0. cbv zeta.
  replace (Z.rem (u0 + 1) (depth_width p)) with right
    by (symmetry; apply Z.rem_mod_nonneg; lia).
  pose proof H00 as R00. pose proof H01 as R01.
  pose proof H10 as R10. pose proof H11 as R11.
  unfold at_depth in R00, R01, R10, R11.
  rewrite R00, R01, R10, R11. cbn [of_option bind].
  eexists. repeat split; try eassumption; try reflexivity.
  unfold blend. rewrite !inject_Z_plus. change (inject_Z 1) with 1. ring.
Qed.

(** X3.  [GetDepth] exits exactly outside its domain, 0 <= x < depth_width and
    0 <= y < depth_height - 1.  Inside, the four samples it reads exist, the
    right column being [(u0 + 1) mod depth_width], which is column 0 from
    [depth_width - 1] on, and the result is their bilinear blend. *)
Theorem GetDepth_bilinear_wraps (p : Panorama) (pixel : Vector2d) :
  depth_ok p ->
  let u0 := Qfloor (px pixel) in
  let v0 := Qfloor (py pixel) in
  let right := ((u0 + 1) mod depth_width p)%Z in
  (GetDepth p pixel = Fatal <-> ~ inside_depth p pixel) /\
  (inside_depth p pixel ->
   exists d00 d01 d10 d11 d,
     at_depth p v0 u0 = Some d00 /\ at_depth p v0 right = Some d01 /\
     at_depth p (v0 + 1) u0 = Some d10 /\ at_depth p (v0 + 1) right = Some d11 /\
     GetDepth p pixel = Ok d /\
     d == blend (px pixel - inject_Z u0) (py pixel - inject_Z v0) d00 d01 d10 d11) /\
  (inside_depth p pixel -> inject_Z (depth_width p - 1) <= px pixel -> right = 0%Z).
Proof.
  intros Hok u0 v0 right. split; [| split].
  - split.
    + intros HF Hi.
      destruct (GetDepth_inside p pixel Hok Hi) as (_ & ? & ? & ? & ? & ? & H).
      destruct H as (_ & _ & _ & _ & HG & _). congruence.
    + intro Hn. unfold GetDepth.
      destruct (IsInsideDepth p pixel) eqn:E; [| reflexivity].
      apply IsInsideDepth_spec in E. contradiction.
  - intro Hi. exact (proj2 (GetDepth_inside p pixel Hok Hi)).
  - intros Hi Hlast. destruct (GetDepth_inside p pixel Hok Hi) as ([Hu Hv] & _).
    assert (Hge : (depth_width p - 1 <= u0)%Z).
    { rewrite <- (Qfloor_Z (depth_width p - 1)). apply Qfloor_resp_le, Hlast. }
    unfold right. replace (u0 + 1)%Z with (depth_width p) by (unfold u0 in *; lia).
    apply Z.mod_same. lia.
Qed.

(** A convex blend stays between the bounds of what it blends. *)
Lemma blend_between (fx fy d00 d01 d10 d11 lo hi : Q) :
  0 <= fx <= 1 -> 0 <= fy <= 1 ->
  lo <= d00 <= hi -> lo <= d01 <= hi -> lo <= d10 <= hi -> lo <= d11 <= hi ->
  lo <= blend fx fy d00 d01 d10 d11 <= hi.
Proof.
  intros Hx Hy H00 H01 H10 H11. unfold blend.
  assert (W00 : 0 <= (1 - fx) * (1 - fy)) by (apply Qmult_le_0_compat; lra).
  assert (W01 : 0 <= fx * (1 - fy)) by (apply Qmult_le_0_compat; lra).
  assert (W10 : 0 <= (1 - fx) * fy) by (apply Qmult_le_0_compat; lra).
  assert (W11 : 0 <= fx * fy) by (apply Qmult_le_0_compat; lra).
  assert (L : forall w d, 0 <= w -> lo <= d <= hi -> w * lo <= w * d /\ w * d <= w * hi).
  { intros w d Hw Hd. split; (rewrite (Qmult_comm w), (Qmult_comm w _);
      apply Qmult_le_compat_r; [lra | exact Hw]). }
  pose proof (L _ _ W00 H00). pose proof (L _ _ W01 H01).
  pose proof (L _ _ W10 H10). pose proof (L _ _ W11 H11).
  split; lra.
Qed.

(** X5.  At a pixel with whole coordinates [GetDepth] returns the stored
    sample. *)
Theorem GetDepth_on_grid (p : Panorama) (u v : Z) :
  depth_ok p -> (0 <= u < depth_width p)%Z -> (0 <= v < depth_height p - 1)%Z ->
  exists d s, GetDepth p (V2 (inject_Z u) (inject_Z v)) = Ok d /\
              at_depth p v u = Some s /\ d == s.
Proof.
  intros Hok Hu Hv.
  assert (Hi : inside_depth p (V2 (inject_Z u) (inject_Z v))).
  { assert (H0 : forall z, (0 <= z)%Z -> 0 <= inject_Z z).
    { intros z Hz. change 0 with (inject_Z 0). now rewrite <- Zle_Qle. }
    unfold inside_depth. cbn [px py].
    repeat split; [apply H0 | rewrite <- Zlt_Qlt | apply H0 | rewrite <- Zlt_Qlt]; lia. }
  destruct (GetDepth_inside p (V2 (inject_Z u) (inject_Z v)) Hok Hi)
    as (_ & d00 & d01 & d10 & d11 & d & H00 & _ & _ & _ & E & Hd).
  cbn [px py] in H00, Hd. rewrite !Qfloor_Z in H00, Hd.
  exists d, d00. split; [exact E |]. split; [exact H00 |].
  rewrite Hd. unfold blend. ring.
Qed.

(** *** Colors *)

(** What a call of [GetRGB] that returns has read and computed. *)
Lemma GetRGB_Ok (p : Panorama) (pixel : Vector2d) (rgb : Vector3d) :
  GetRGB p pixel = Ok rgb ->
  inside_rgb p pixel /\
  exists v0 u0 u1 c00 c01 c10 c11,
    at_rgb p v0 u0 = Ok c00 /\ at_rgb p v0 u1 = Ok c01 /\
    at_rgb p (v0 + 1) u0 = Ok c10 /\ at_rgb p (v0 + 1) u1 = Ok c11 /\
    veq3 rgb (bilinear (px pixel - inject_Z (Qfloor (px pixel)))
                       (py pixel - inject_Z (Qfloor (py pixel)))
                       c00 c01 c10 c11).
Proof.
  intro E. unfold GetRGB in E.
  destruct (IsInsideRGB p pixel) eqn:Ei; cbn [negb] in E; [| discriminate].
  split; [now apply IsInsideRGB_spec |].
  cbv zeta in E.
  exists (Qfloor (py pixel)), (Qfloor (px pixel)),
         (Z.rem (Qfloor (px pixel) + 1) (width p)).
  destruct (at_rgb p (Qfloor (py pixel)) (Qfloor (px pixel))) as [c00 | | |];
    cbn [bind] in E; try discriminate.
  destruct (at_rgb p (Qfloor (py pixel)) (Z.rem (Qfloor (px pixel) + 1) (width p)))
    as [c01 | | |]; cbn [bind] in E; try discriminate.
  destruct (at_rgb p (Qfloor (py pixel) + 1) (Qfloor (px pixel))) as [c10 | | |];
    cbn [bind] in E; try discriminate.
  destruct (at_rgb p (Qfloor (py pixel) + 1) (Z.rem (Qfloor (px pixel) + 1) (width p)))
    as [c11 | | |]; cbn [bind] in E; try discriminate.
  exists c00, c01, c10, c11. repeat split; try reflexivity;
    injection E as <-; unfold bilinear; cbn [c0 c1 c2];
    rewrite !inject_Z_plus; change (inject_Z 1) with 1; ring.
Qed.

(** The channels of a texel are within [lo] and [hi]. *)
Definition texel_between (lo hi : Z) (c : Vec3b) : Prop :=
  (lo <= ch0 c <= hi)%Z /\ (lo <= ch1 c <= hi)%Z /\ (lo <= ch2 c <= hi)%Z.

(** Inside its domain [GetRGB] returns. *)
Lemma GetRGB_inside (p : Panorama) (pixel : Vector2d) :
  image_ok p -> inside_rgb p pixel -> exists rgb, GetRGB p pixel = Ok rgb.
Proof.
  intros Himg Hi.
  set (u0 := Qfloor (px pixel)). set (v0 := Qfloor (py pixel)).
  assert (Hin : (0 <= u0 < width p)%Z /\ (0 <= v0 < height p - 1)%Z).
  { destruct Hi as [[Hx0 Hx1] [Hy0 Hy1]]. split; apply Qfloor_range; assumption. }
  destruct Hin as [Hu Hv].
  set (right := Z.rem (u0 + 1) (width p)).
  assert (Hr : (0 <= right < width p)%Z).
  { unfold right. rewrite Z.rem_mod_nonneg by lia. apply Z.mod_pos_bound. lia. }
  destruct (at_rgb_in_range p v0 u0 Himg) as [c00 H00]; [lia | lia |].
  destruct (at_rgb_in_range p v0 right Himg) as [c01 H01]; [lia | lia |].
  destruct (at_rgb_in_range p (v0 + 1) u0 Himg) as [c10 H10]; [lia | lia |].
  destruct (at_rgb_in_range p (v0 + 1) right Himg) as [c11 H11]; [lia | lia |].
  unfold GetRGB. apply IsInsideRGB_spec in Hi. rewrite Hi. cbn [negb].
  fold u0 v0. cbv zeta. fold right.
  rewrite H00, H01, H10, H11. cbn [bind]. eexists. reflexivity.
Qed.

(** X7.  Inside its domain [GetRGB] returns a color of which every channel
    lies between any two bounds of the channels of the raster: for bytes,
    between 0 and 255. *)
Theorem GetRGB_between (p : Panorama) (pixel : Vector2d) (lo hi : Z) :
  image_ok p -> inside_rgb p pixel ->
  Forall (Forall (texel_between lo hi)) (rgb_image p) ->
  exists rgb,
    GetRGB p pixel = Ok rgb /\
    (inject_Z lo <= c0 rgb <= inject_Z hi) /\
    (inject_Z lo <= c1 rgb <= inject_Z hi) /\
    (inject_Z lo <= c2 rgb <= inject_Z hi).
Proof.
  intros Himg Hi Hb.
  destruct (GetRGB_inside p pixel Himg Hi) as [rgb E].
  exists rgb. split; [exact E |]. apply GetRGB_Ok in E.
  destruct E as (_ & v0 & u0 & u1 & c00 & c01 & c10 & c11 & H00 & H01 & H10 & H11 & Hv).
  assert (T : forall v u c, at_rgb p v u = Ok c -> texel_between lo hi c).
  { intros v u c Hc. unfold at_rgb in Hc.
    destruct (zth (rgb_image p) v) as [row |] eqn:Er; cbn [of_option bind] in Hc;
      [| discriminate].
    destruct (zth row u) as [c' |] eqn:Ec; cbn [of_option] in Hc; [| discriminate].
    injection Hc as <-.
    rewrite Forall_forall in Hb. specialize (Hb row (zth_In _ _ _ Er)).
    rewrite Forall_forall in Hb. exact (Hb c' (zth_In _ _ _ Ec)). }
  apply T in H00, H01, H10, H11.
  pose proof (Qfloor_offset (px pixel)). pose proof (Qfloor_offset (py pixel)).
  assert (B : forall ch : Vec3b -> Z,
            (lo <= ch c00 <= hi)%Z -> (lo <= ch c01 <= hi)%Z ->
            (lo <= ch c10 <= hi)%Z -> (lo <= ch c11 <= hi)%Z ->
            inject_Z lo <=
            blend (px pixel - inject_Z (Qfloor (px pixel)))
                  (py pixel - inject_Z (Qfloor (py pixel)))
                  (inject_Z (ch c00)) (inject_Z (ch c01))
                  (inject_Z (ch c10)) (inject_Z (ch c11)) <= inject_Z hi).
  { intros ch B00 B01 B10 B11.
    apply blend_between; try lra; rewrite <- !Zle_Qle; assumption. }
  destruct H00 as (A0 & A1 & A2), H01 as (B0 & B1 & B2),
           H10 as (C0 & C1 & C2), H11 as (D0 & D1 & D2).
  destruct Hv as (E0 & E1 & E2). unfold bilinear in E0, E1, E2. cbn [c0 c1 c2] in E0, E1, E2.
  rewrite E0, E1, E2.
  split; [exact (B ch0 A0 B0 C0 D0) |]. split; [exact (B ch1 A1 B1 C1 D1) |].
  exact (B ch2 A2 B2 C2 D2).
Qed.

(** A depth image of three rows and two columns under a raster of two rows
    and two columns. *)
Definition three_by_two : Panorama :=
  mkPanorama [[RGB 10 20 30; RGB 40 50 60]; [RGB 70 80 90; RGB 100 110 120]]
             2 2 [1; 2; 3; 4; 5; 6] 2 3 identity identity (V4 0 0 0 0) 0 0 0 0.

Lemma depth_ok_three_by_two : depth_ok three_by_two.
Proof. reflexivity. Qed.

Lemma GetDepth_bilinear_wraps_witness :
  inside_depth three_by_two (V2 (3 # 2) (1 # 2)) /\
  ((Qfloor (3 # 2) + 1) mod 2 = 0)%Z.
Proof.
  assert (Hin : inside_depth three_by_two (V2 (3 # 2) (1 # 2))).
  { unfold inside_depth. qeval. }
  split; [exact Hin |].
  apply (proj2 (proj2 (GetDepth_bilinear_wraps three_by_two (V2 (3 # 2) (1 # 2))
                         depth_ok_three_by_two))).
  - exact Hin.
  - qeval.
Defined.

Example GetDepth_last_column :
  exists d, GetDepth three_by_two (V2 (3 # 2) (1 # 2)) = Ok d /\ d == 5 # 2.
Proof. eexists. split; reflexivity. Qed.

Lemma inside_depth_three_by_two : inside_depth three_by_two (V2 (3 # 2) (1 # 2)).
Proof. unfold inside_depth. qeval. Qed.

Lemma GetDepth_on_grid_witness :
  exists d s, GetDepth three_by_two (V2 (inject_Z 1) (inject_Z 1)) = Ok d /\
              at_depth three_by_two 1 1 = Some s /\ d == s.
Proof.
  apply (GetDepth_on_grid three_by_two 1 1 depth_ok_three_by_two).
  - cbn. lia.
  - cbn. lia.
Defined.

Lemma GetRGB_between_witness :
  exists rgb,
    GetRGB three_by_two (V2 (3 # 2) (1 # 2)) = Ok rgb /\
    (0 <= c0 rgb <= 255) /\ (0 <= c1 rgb <= 255) /\ (0 <= c2 rgb <= 255).
Proof.
  apply (GetRGB_between three_by_two (V2 (3 # 2) (1 # 2)) 0 255).
  - split; [reflexivity |]. repeat constructor.
  - unfold inside_rgb. qeval.
  - repeat constructor; cbn; lia.
Defined.

End DepthFacts.

(** ** Visibility distance *)

Module VisibilityFacts.
Import DoorDetection.

(** The equations of the loop, one for each branch of the source. *)
Lemma vd_loop_nil_nil (d : Q) : vd_loop [] [] d = d.
Proof. reflexivity. Qed.

Lemma vd_loop_nil_cons (r : Z * Q) (rhs : signature) (d : Q) :
  vd_loop [] (r :: rhs) d = vd_loop [] rhs (d + snd r).
Proof. reflexivity. Qed.

Lemma vd_loop_cons_nil (l : Z * Q) (lhs : signature) (d : Q) :
  vd_loop (l :: lhs) [] d = vd_loop lhs [] (d + snd l).
Proof. reflexivity. Qed.

Lemma vd_loop_cons_cons (l r : Z * Q) (lhs rhs : signature) (d : Q) :
  vd_loop (l :: lhs) (r :: rhs) d =
  if (fst l =? fst r)%Z then vd_loop lhs rhs d
  else if (fst l <? fst r)%Z then vd_loop lhs (r :: rhs) (d + snd l)
  else vd_loop (l :: lhs) rhs (d + snd r).
Proof. reflexivity. Qed.

(** Induction along the walk of the two signatures. *)
Lemma vd_walk_ind (P : signature -> signature -> Prop) :
  P [] [] ->
  (forall r rhs, P [] rhs -> P [] (r :: rhs)) ->
  (forall l lhs, P lhs [] -> P (l :: lhs) []) ->
  (forall l lhs r rhs,
     P lhs rhs -> P lhs (r :: rhs) -> P (l :: lhs) rhs ->
     P (l :: lhs) (r :: rhs)) ->
  forall lhs rhs, P lhs rhs.
Proof.
  intros Hnn Hnc Hcn Hcc lhs.
  induction lhs as [| l lhs IHl]; intro rhs.
  - induction rhs as [| r rhs IHr]; auto.
  - induction rhs as [| r rhs IHr]; auto.
Qed.

(** The weights of a signature and their sum. *)
Definition total (s : signature) : Q :=
  fold_right (fun e acc => snd e + acc) 0 s.

Definition has_key (s : signature) (k : Z) : bool :=
  existsb (Z.eqb k) (map fst s).

(** The entries of [a] whose boundary index does not occur in [b]. *)
Definition only_in (a b : signature) : signature :=
  filter (fun e => negb (has_key b (fst e))) a.

(** Boundary indexes strictly ascending. *)
Definition ascending (s : signature) : Prop :=
  StronglySorted (fun a b => (fst a < fst b)%Z) s.

(** Weights that are no less than 0 and sum to 1. *)
Definition normalized (s : signature) : Prop :=
  Forall (fun e => 0 <= snd e) s /\ total s == 1.

(** The weight a signature gives to a boundary index, 0 when it has none. *)
Fixpoint weight_at (s : signature) (k : Z) : Q :=
  match s with
  | [] => 0
  | e :: s' => if (fst e =? k)%Z then snd e else weight_at s' k
  end.

(** Half the L1 distance of the two signatures as sparse vectors: the sum
    runs over the boundary indexes that occur in either. *)
Definition half_l1 (lhs rhs : signature) : Q :=
  fold_right
    (fun k acc => Qabs (weight_at lhs k - weight_at rhs k) + acc) 0
    (nodup Z.eq_dec (map fst lhs ++ map fst rhs)) / 2.

Lemma vd_loop_shift (lhs rhs : signature) :
  forall d, vd_loop lhs rhs d == d + vd_loop lhs rhs 0.
Proof.
  revert lhs rhs. apply (vd_walk_ind (fun lhs rhs =>
    forall d, vd_loop lhs rhs d == d + vd_loop lhs rhs 0)).
  - intro d. rewrite !vd_loop_nil_nil. ring.
  - intros r rhs IH d. rewrite !vd_loop_nil_cons.
    rewrite (IH (d + snd r)), (IH (0 + snd r)). ring.
  - intros l lhs IH d. rewrite !vd_loop_cons_nil.
    rewrite (IH (d + snd l)), (IH (0 + snd l)). ring.
  - intros l lhs r rhs IH1 IH2 IH3 d. rewrite !vd_loop_cons_cons.
    destruct (fst l =? fst r)%Z; [apply IH1 |].
    destruct (fst l <? fst r)%Z.
    + rewrite (IH2 (d + snd l)), (IH2 (0 + snd l)). ring.
    + rewrite (IH3 (d + snd r)), (IH3 (0 + snd r)). ring.
Qed.

Lemma vd_loop_refl (s : signature) (d : Q) : vd_loop s s d = d.
Proof.
  induction s as [| e s IH]; [reflexivity |].
  rewrite vd_loop_cons_cons, Z.eqb_refl. exact IH.
Qed.

Lemma vd_loop_sym (lhs rhs : signature) :
  forall d, vd_loop lhs rhs d = vd_loop rhs lhs d.
Proof.
  revert lhs rhs. apply (vd_walk_ind (fun lhs rhs =>
    forall d, vd_loop lhs rhs d = vd_loop rhs lhs d)).
  - reflexivity.
  - intros r rhs IH d. rewrite vd_loop_nil_cons, vd_loop_cons_nil. apply IH.
  - intros l lhs IH d. rewrite vd_loop_nil_cons, vd_loop_cons_nil. apply IH.
  - intros l lhs r rhs IH1 IH2 IH3 d. rewrite !vd_loop_cons_cons.
    rewrite (Z.eqb_sym (fst r) (fst l)).
    destruct (Z.eqb_spec (fst l) (fst r)) as [E | N]; [apply IH1 |].
    destruct (Z.ltb_spec (fst l) (fst r)) as [Hlt | Hge];
      destruct (Z.ltb_spec (fst r) (fst l)) as [Hlt' | Hge']; try lia.
    + apply IH2.
    + apply IH3.
Qed.

Lemma total_nonneg (s : signature) :
  Forall (fun e => 0 <= snd e) s -> 0 <= total s.
Proof.
  induction 1 as [| e s He Hs IH]; cbn [total fold_right]; [lra |].
  fold (total s). lra.
Qed.

Lemma vd_loop_bounds (lhs rhs : signature) :
  Forall (fun e => 0 <= snd e) lhs -> Forall (fun e => 0 <= snd e) rhs ->
  0 <= vd_loop lhs rhs 0 /\ vd_loop lhs rhs 0 <= total lhs + total rhs.
Proof.
  revert lhs rhs. apply (vd_walk_ind (fun lhs rhs =>
    Forall (fun e => 0 <= snd e) lhs -> Forall (fun e => 0 <= snd e) rhs ->
    0 <= vd_loop lhs rhs 0 /\ vd_loop lhs rhs 0 <= total lhs + total rhs)).
  - intros _ _. rewrite vd_loop_nil_nil. cbn. lra.
  - intros r rhs IH Hl Hr. inversion Hr as [| ? ? Hr0 Hr']; subst.
    rewrite vd_loop_nil_cons, vd_loop_shift.
    specialize (IH Hl Hr'). cbn [total fold_right] in *. fold (total rhs) in *. lra.
  - intros l lhs IH Hl Hr. inversion Hl as [| ? ? Hl0 Hl']; subst.
    rewrite vd_loop_cons_nil, vd_loop_shift.
    specialize (IH Hl' Hr). cbn [total fold_right] in *. fold (total lhs) in *. lra.
  - intros l lhs r rhs IH1 IH2 IH3 Hl Hr.
    inversion Hl as [| ? ? Hl0 Hl']; subst.
    inversion Hr as [| ? ? Hr0 Hr']; subst.
    specialize (IH1 Hl' Hr'). specialize (IH2 Hl' Hr). specialize (IH3 Hl Hr').
    rewrite vd_loop_cons_cons.
    cbn [total fold_right] in *. fold (total lhs) in *. fold (total rhs) in *.
    destruct (fst l =? fst r)%Z; [lra |].
    destruct (fst l <? fst r)%Z; rewrite vd_loop_shift; lra.
Qed.

(** *** The distance as a sum over the unshared boundary indexes *)

Lemma has_key_cons (e : Z * Q) (s : signature) (k : Z) :
  has_key (e :: s) k = (k =? fst e)%Z || has_key s k.
Proof. reflexivity. Qed.

Lemma has_key_above (s : signature) (k : Z) :
  Forall (fun x => (k < fst x)%Z) s -> has_key s k = false.
Proof.
  induction 1 as [| x s Hx Hs IH]; [reflexivity |].
  rewrite has_key_cons, IH. destruct (Z.eqb_spec k (fst x)); [lia | reflexivity].
Qed.

Lemma only_in_drop (a b : signature) (e : Z * Q) :
  Forall (fun x => fst x <> fst e) a -> only_in a (e :: b) = only_in a b.
Proof.
  induction 1 as [| x a Hx Ha IH]; [reflexivity |].
  unfold only_in in *. cbn [filter]. rewrite IH, has_key_cons.
  destruct (Z.eqb_spec (fst x) (fst e)); [contradiction | reflexivity].
Qed.

Lemma only_in_nil_r (a : signature) : only_in a [] = a.
Proof.
  unfold only_in. induction a as [| x a IH]; [reflexivity |].
  cbn [filter]. change (has_key [] (fst x)) with false. cbn [negb].
  f_equal. exact IH.
Qed.

Lemma ascending_inv (e : Z * Q) (s : signature) :
  ascending (e :: s) -> ascending s /\ Forall (fun x => (fst e < fst x)%Z) s.
Proof. intro H. apply StronglySorted_inv in H. exact H. Qed.

Lemma vd_loop_only_in (lhs rhs : signature) :
  ascending lhs -> ascending rhs ->
  vd_loop lhs rhs 0 == total (only_in lhs rhs) + total (only_in rhs lhs).
Proof.
  revert lhs rhs. apply (vd_walk_ind (fun lhs rhs =>
    ascending lhs -> ascending rhs ->
    vd_loop lhs rhs 0 == total (only_in lhs rhs) + total (only_in rhs lhs))).
  - intros _ _. rewrite vd_loop_nil_nil. cbn. reflexivity.
  - intros r rhs IH Hl Hr. destruct (ascending_inv _ _ Hr) as [Hr' _].
    specialize (IH Hl Hr').
    rewrite vd_loop_nil_cons, vd_loop_shift, IH, !only_in_nil_r.
    cbn [only_in filter total fold_right]. fold (total rhs). ring.
  - intros l lhs IH Hl Hr. destruct (ascending_inv _ _ Hl) as [Hl' _].
    specialize (IH Hl' Hr).
    rewrite vd_loop_cons_nil, vd_loop_shift, IH, !only_in_nil_r.
    cbn [only_in filter total fold_right]. fold (total lhs). ring.
  - intros l lhs r rhs IH1 IH2 IH3 Hl Hr.
    destruct (ascending_inv _ _ Hl) as [Hl' Fl].
    destruct (ascending_inv _ _ Hr) as [Hr' Fr].
    specialize (IH1 Hl' Hr'). specialize (IH2 Hl' Hr). specialize (IH3 Hl Hr').
    rewrite vd_loop_cons_cons.
    destruct (Z.eqb_spec (fst l) (fst r)) as [E | N].
    + (* the index is shared: neither weight is counted *)
      rewrite IH1.
      assert (E1 : only_in (l :: lhs) (r :: rhs) = only_in lhs rhs).
      { unfold only_in at 1. cbn [filter]. rewrite has_key_cons, E, Z.eqb_refl.
        cbn [orb negb]. apply only_in_drop.
        eapply Forall_impl; [| exact Fl]. cbn beta. intros; lia. }
      assert (E2 : only_in (r :: rhs) (l :: lhs) = only_in rhs lhs).
      { unfold only_in at 1. cbn [filter]. rewrite has_key_cons, E, Z.eqb_refl.
        cbn [orb negb]. apply only_in_drop.
        eapply Forall_impl; [| exact Fr]. cbn beta. intros; lia. }
      rewrite E1, E2. reflexivity.
    + destruct (Z.ltb_spec (fst l) (fst r)) as [Hlt | Hge].
      * (* the index of lhs is in lhs only *)
        rewrite vd_loop_shift, IH2.
        assert (E1 : only_in (l :: lhs) (r :: rhs) = l :: only_in lhs (r :: rhs)).
        { unfold only_in at 1. cbn [filter]. rewrite has_key_above; [reflexivity |].
          constructor; [exact Hlt |].
          eapply Forall_impl; [| exact Fr]. cbn beta. intros; lia. }
        assert (E2 : only_in (r :: rhs) (l :: lhs) = only_in (r :: rhs) lhs).
        { apply only_in_drop. constructor; [lia |].
          eapply Forall_impl; [| exact Fr]. cbn beta. intros; lia. }
        rewrite E1, E2. cbn [total fold_right].
        fold (total (only_in lhs (r :: rhs))). ring.
      * (* the index of rhs is in rhs only *)
        rewrite vd_loop_shift, IH3.
        assert (E1 : only_in (r :: rhs) (l :: lhs) = r :: only_in rhs (l :: lhs)).
        { unfold only_in at 1. cbn [filter]. rewrite has_key_above; [reflexivity |].
          constructor; [lia |].
          eapply Forall_impl; [| exact Fl]. cbn beta. intros; lia. }
        assert (E2 : only_in (l :: lhs) (r :: rhs) = only_in (l :: lhs) rhs).
        { apply only_in_drop. constructor; [lia |].
          eapply Forall_impl; [| exact Fl]. cbn beta. intros; lia. }
        rewrite E1, E2. cbn [total fold_right].
        fold (total (only_in rhs (l :: lhs))). ring.
Qed.

(** C2 (as amended).  For signatures sorted by strictly ascending boundary
    index, the distance is half the sum of the weights of the entries whose
    index occurs in one signature only; an index that occurs in both adds
    nothing, whatever its two weights. *)
Theorem VisibilityDistance_unshared_weights (lhs rhs : signature) :
  ascending lhs -> ascending rhs ->
  VisibilityDistance lhs rhs ==
  (total (only_in lhs rhs) + total (only_in rhs lhs)) / 2.
Proof.
  intros Hl Hr. unfold VisibilityDistance.
  rewrite (vd_loop_only_in lhs rhs Hl Hr). reflexivity.
Qed.

Definition sig_one : signature := [(0%Z, 1)].
Definition sig_halves : signature := [(0%Z, 1 # 2); (1%Z, 1 # 2)].

Lemma ascending_sig_one : ascending sig_one.
Proof. repeat constructor. Qed.

Lemma ascending_sig_halves : ascending sig_halves.
Proof. repeat constructor. Qed.

Lemma VisibilityDistance_unshared_weights_witness :
  VisibilityDistance sig_one sig_halves ==
  (total (only_in sig_one sig_halves) + total (only_in sig_halves sig_one)) / 2.
Proof.
  exact (VisibilityDistance_unshared_weights sig_one sig_halves
           ascending_sig_one ascending_sig_halves).
Defined.

(** C2 (counterexample).  The two signatures are sorted and each has
    weights that sum to 1; they share the index 0 with the weights 1 and 1/2.
    The code returns 1/4, half the L1 distance is 1/2. *)
Lemma VisibilityDistance_is_not_half_l1 :
  ~ (forall lhs rhs : signature,
       ascending lhs -> ascending rhs ->
       VisibilityDistance lhs rhs == half_l1 lhs rhs).
Proof.
  intro H. specialize (H sig_one sig_halves ascending_sig_one ascending_sig_halves).
  vm_compute in H. discriminate.
Qed.

Example VisibilityDistance_sig_one_halves :
  normalized sig_one /\ normalized sig_halves /\
  VisibilityDistance sig_one sig_halves == 1 # 4 /\
  half_l1 sig_one sig_halves == 1 # 2.
Proof.
  repeat split; try reflexivity; repeat constructor; discriminate.
Qed.

End VisibilityFacts.

(** ** The frame: ranges and average distance *)

Module FrameFacts.
Import DoorDetection.

Definition Qsum (l : list Q) : Q := fold_right Qplus 0 l.


Lemma Qsum_cons (a : Q) (l : list Q) : Qsum (a :: l) = a + Qsum l.
Proof. reflexivity. Qed.

Lemma Qsum_app (l1 l2 : list Q) : Qsum (l1 ++ l2) == Qsum l1 + Qsum l2.
Proof.
  induction l1 as [| a l1 IH]; cbn [app].
  - change (Qsum []) with 0. ring.
  - rewrite !Qsum_cons, IH. ring.
Qed.


(** No addition of the running sum, nor the conversion of the count, nor the
    final division rounds. *)
Definition exact (q : Q) : bool := Qeq_bool (single q) q.





Section AverageDistance.

Variable sqrt : Q -> Q.






End AverageDistance.













(** *** Sorting *)

Lemma insert_sorted_perm (x : Q) (l : list Q) :
  Permutation (insert_sorted x l) (x :: l).
Proof.
  induction l as [| y l IH]; cbn [insert_sorted]; [reflexivity |].
  destruct (fleb x y); [reflexivity |].
  rewrite IH. apply perm_swap.
Qed.

Lemma sort_perm (l : list Q) : Permutation (sort l) l.
Proof.
  induction l as [| x l IH]; [reflexivity |].
  unfold sort in *. cbn [fold_right]. rewrite insert_sorted_perm. now constructor.
Qed.

Lemma insert_sorted_sorted (x : Q) (l : list Q) :
  Sorted Qle l -> Sorted Qle (insert_sorted x l).
Proof.
  induction 1 as [| y l Hs IH Hhd]; cbn [insert_sorted].
  - repeat constructor.
  - destruct (fleb x y) eqn:E.
    + apply fleb_true in E. repeat constructor; assumption.
    + apply fleb_false in E. constructor; [exact IH |].
      destruct l as [| z l]; cbn [insert_sorted].
      * constructor. lra.
      * destruct (fleb x z); constructor; [lra |].
        inversion Hhd; assumption.
Qed.

Lemma sort_sorted (l : list Q) : Sorted Qle (sort l).
Proof.
  induction l as [| x l IH]; [constructor |].
  unfold sort in *. cbn [fold_right]. now apply insert_sorted_sorted.
Qed.

Lemma zlen_sort (l : list Q) : zlen (sort l) = zlen l.
Proof. unfold zlen. now rewrite (Permutation_length (sort_perm l)). Qed.

(** *** SetRanges *)

(** The value of rank [k] percent, at the position the code gives it. *)
Definition percentile (k : Z) (h : list Q) : option Q :=
  zth (sort h) (zlen h * k / 100).

(** For every histogram that is not empty the range is built from the
    values of rank 1 and 99 percent, the margin being 5 percent of their
    difference. *)
Lemma axis_range_percentiles (h : list Q) :
  h <> [] ->
  exists p1 p99,
    percentile 1 h = Some p1 /\ percentile 99 h = Some p99 /\
    axis_range h = Ok (p1 - (p99 - p1) * 5 / 100, p99 + (p99 - p1) * 5 / 100).
Proof.
  intro Hne. unfold percentile, axis_range. rewrite zlen_sort.
  assert (Hn : (0 < zlen h)%Z).
  { destruct h; [congruence | unfold zlen; cbn; lia]. }
  destruct (zth_in_range (sort h) (zlen h * 1 / 100)) as [p1 E1].
  { rewrite zlen_sort. split; [apply Z.div_pos; lia |].
    apply Z.div_lt_upper_bound; lia. }
  destruct (zth_in_range (sort h) (zlen h * 99 / 100)) as [p99 E99].
  { rewrite zlen_sort. split; [apply Z.div_pos; lia |].
    apply Z.div_lt_upper_bound; lia. }
  exists p1, p99. rewrite E1, E99. repeat split.
Qed.

(** One sweep of a hundred points, at x = 0, 1, ..., 99. *)
Definition hundred_points : list Sweep :=
  [mkSweep (V3f 0 0 0)
           (map (fun i => mkPoint (V3f (inject_Z i) 0 0) (V3f 0 0 1) 1)
                (upto 0 100))].

Definition no_frame : Frame :=
  mkFrame (V3f 0 0 0, V3f 0 0 0, V3f 0 0 0) ((0, 0), (0, 0), (0, 0)) 0
          (0, 0, 0)%Z.

(** C3 (the code at the failing input).  The x coordinates are 0 to 99:
    their 5th and 95th percentiles are 5 and 95, but the range that
    [SetRanges] computes for the x axis is [1 - 4.9, 99 + 4.9], built from
    the values of rank 1 and 99 percent. *)
Theorem SetRanges_takes_1_and_99_percent :
  let xs := histogram hundred_points (V3f 1 0 0) in
  percentile 5 xs = Some 5 /\ percentile 95 xs = Some 95 /\
  percentile 1 xs = Some 1 /\ percentile 99 xs = Some 99 /\
  exists frame,
    ComputeFrame hundred_points 50 no_frame = Ok frame /\
    fst (fst (fst (ranges frame))) == 1 - (49 # 10) /\
    snd (fst (fst (ranges frame))) == 99 + (49 # 10).
Proof.
  cbv zeta. repeat split; try (vm_compute; reflexivity).
  eexists. split; [vm_compute; reflexivity |].
  split; vm_compute; reflexivity.
Qed.

End FrameFacts.

(** ** BlurField *)

Module BlurFacts.
Import DoorDetection.

Lemma cell_index_range (w h x y : Z) :
  (0 <= x < w)%Z -> (0 <= y < h)%Z -> (0 <= y * w + x < w * h)%Z.
Proof. intros Hx Hy. nia. Qed.

(** The position of the tap [(x, y)] in the kernel table. *)
Definition kernel_index (half_size x y : Z) : Z :=
  ((y + half_size) * (2 * half_size + 1) + (x + half_size))%Z.

Lemma kernel_index_range (hs x y : Z) :
  (- hs <= x <= hs)%Z -> (- hs <= y <= hs)%Z ->
  (0 <= kernel_index hs x y < (2 * hs + 1) * (2 * hs + 1))%Z.
Proof. unfold kernel_index. intros Hx Hy. nia. Qed.

Lemma kernel_index_inj (hs x y x' y' : Z) :
  (- hs <= x <= hs)%Z -> (- hs <= x' <= hs)%Z ->
  kernel_index hs x y = kernel_index hs x' y' -> x = x' /\ y = y'.
Proof.
  unfold kernel_index. intros Hx Hx' E.
  assert (y = y') by nia. subst y'. split; [lia | reflexivity].
Qed.

Section Blur.

Variable exp : Q -> Q.
Hypothesis exp_0 : forall q, q == 0 -> exp q == 1.
Hypothesis exp_nonneg : forall q, 0 <= exp q.

(** The weight of the tap [(x, y)], a [float]. *)
Definition tap (sigma : Q) (x y : Z) : Q :=
  single (exp (double (- inject_Z (x * x + y * y) / sigma2_of sigma))).

Lemma tap_center (sigma : Q) : tap sigma 0 0 == 1.
Proof.
  unfold tap, single, double.
  rewrite (rnd_comp binary64 _ 0) by (cbn [Z.mul Z.add]; unfold Qdiv; ring).
  rewrite rnd_0. rewrite (rnd_comp binary32 _ 1) by (apply exp_0; reflexivity).
  reflexivity.
Qed.

Lemma tap_nonneg (sigma : Q) (x y : Z) : 0 <= tap sigma x y.
Proof. unfold tap. apply rnd_nonneg, exp_nonneg. Qed.

(** A [float] sum of at least 1 is at least 1. *)
Lemma single_ge_1 (q : Q) : 1 <= q -> 1 <= single q.
Proof.
  intro H. setoid_replace 1 with (single 1) at 1 by reflexivity.
  apply rnd_mono; [reflexivity | lra | exact H].
Qed.

(** The table holds the weight of every tap of the window. *)
Definition kernel_ok (sigma : Q) (kernel : list Q) : Prop :=
  let hs := half_size_of sigma in
  forall x y, (- hs <= x <= hs)%Z -> (- hs <= y <= hs)%Z ->
              zth kernel (kernel_index hs x y) = Some (tap sigma x y).

Lemma make_kernel_spec (sigma : Q) :
  (0 <= half_size_of sigma)%Z ->
  ((2 * half_size_of sigma + 1) * (2 * half_size_of sigma + 1) <= 2147483647)%Z ->
  exists kernel, make_kernel exp sigma = Ok kernel /\ kernel_ok sigma kernel.
Proof.
  intros Hhs Hfit. unfold make_kernel, kernel_ok. cbv zeta.
  set (hs := half_size_of sigma) in *.
  set (n := ((2 * hs + 1) * (2 * hs + 1))%Z) in *.
  destruct (Z.ltb_spec 2147483647 n) as [Hover | _]; [lia |].
  loop_prefix_inv (fun pre k => zlen k = n /\
         forall x y, (- hs <= x <= hs)%Z -> In y pre ->
                     zth k (kernel_index hs x y) = Some (tap sigma x y)) Hloop.
    destruct Hloop as (k & Ek & Hlen & Hk).
  - split; [rewrite zlen_repeat; lia | intros x y _ []].
  - intros pre y post k E [Hlen Hk].
    apply upto_prefix in E. destruct E as [-> Hy].
    loop_prefix_inv (fun prex k' => zlen k' = n /\
           (forall x' y', (- hs <= x' <= hs)%Z -> In y' (upto (- hs) y) ->
                          zth k' (kernel_index hs x' y') = Some (tap sigma x' y')) /\
           (forall x', In x' prex ->
                       zth k' (kernel_index hs x' y) = Some (tap sigma x' y))) Hloop.
    destruct Hloop as (k' & Ek' & Hlen' & Hold & Hnew).
    + split; [exact Hlen |]. split; [exact Hk | intros x' []].
    + intros prex x postx k0 Ex (Hlen0 & Hold0 & Hnew0).
      apply upto_prefix in Ex. destruct Ex as [-> Hx].
      destruct (zset_spec k0 (kernel_index hs x y) (tap sigma x y))
        as (k1 & E1 & Hlen1 & Hsame & Hother).
      { rewrite Hlen0. apply kernel_index_range; lia. }
      exists k1. unfold tap in E1. fold (kernel_index hs x y). rewrite E1.
      split; [reflexivity |]. split; [lia |]. split.
      * intros x' y' Hx' Hy'. rewrite Hother; [now apply Hold0 |].
        intro Eidx. apply kernel_index_inj in Eidx; [| lia | lia].
        apply In_upto in Hy'. lia.
      * intros x' Hx'. apply in_app_or in Hx'. destruct Hx' as [Hx' | [<- | []]].
        -- rewrite Hother; [now apply Hnew0 |].
           intro Eidx. apply In_upto in Hx'.
           apply kernel_index_inj in Eidx; [| lia | lia]. lia.
        -- exact Hsame.
    + exists k'. split; [exact Ek' |]. split; [exact Hlen' |].
      intros x y' Hx Hy'. apply in_app_or in Hy'. destruct Hy' as [Hy' | [<- | []]].
      * now apply Hold.
      * apply Hnew. apply In_upto. lia.
  - exists k. split; [exact Ek |]. intros x y Hx Hy.
    apply Hk; [exact Hx | apply In_upto; lia].
Qed.

(** The denominator of a cell of the mask is at least the weight of its own
    tap. *)
Lemma cell_sums_spec (width height : Z) (mask : list bool) (sigma : Q)
  (kernel old_field : list Q) (x y : Z) :
  (0 <= half_size_of sigma)%Z ->
  kernel_ok sigma kernel ->
  zlen mask = (width * height)%Z -> zlen old_field = (width * height)%Z ->
  (0 <= x < width)%Z -> (0 <= y < height)%Z ->
  zth mask (y * width + x) = Some true ->
  exists numer denom,
    cell_sums width height mask (half_size_of sigma) kernel old_field x y
    = Ok (numer, denom) /\ 1 <= denom.
Proof.
  intros Hhs Hk Hmask Hfield Hx Hy Hcell. unfold cell_sums. cbv zeta.
  unfold kernel_ok in Hk. cbv zeta in Hk.
  set (hs := half_size_of sigma) in *.
  loop_prefix_inv (fun pre (nd : Q * Q) => 0 <= snd nd /\ (In 0%Z pre -> 1 <= snd nd)) Hloop.
    destruct Hloop as ([numer denom] & E & Hd0 & Hd1).
  - cbn [snd]. split; [lra | intros []].
  - intros pre j post nd E [Hd0 Hd1].
    apply upto_prefix in E. destruct E as [-> Hj].
    destruct ((y + j <? 0)%Z || (height <=? y + j)%Z) eqn:Eb.
    { exists nd. split; [reflexivity |]. split; [exact Hd0 |].
      intro H0. apply in_app_or in H0. destruct H0 as [H0 | [Ej | []]]; [auto |].
      exfalso. apply orb_true_iff in Eb. destruct Eb as [Eb | Eb];
        [apply Z.ltb_lt in Eb | apply Z.leb_le in Eb]; lia. }
    apply orb_false_iff in Eb. destruct Eb as [Eb1 Eb2].
    apply Z.ltb_ge in Eb1. apply Z.leb_gt in Eb2.
    loop_prefix_inv (fun prei (nd' : Q * Q) =>
           0 <= snd nd' /\ (In 0%Z (upto (- hs) j) -> 1 <= snd nd') /\
           (j = 0%Z -> In 0%Z prei -> 1 <= snd nd')) Hloop.
    destruct Hloop as (nd' & E' & Hd0' & Hd1' & Hd2').
    + split; [exact Hd0 |]. split; [exact Hd1 | intros _ []].
    + intros prei i posti nd0 Ei (H0 & H1 & H2).
      apply upto_prefix in Ei. destruct Ei as [-> Hi].
      assert (Hkeep : ~ (i = 0 /\ j = 0)%Z ->
                0 <= snd nd0 /\ (In 0%Z (upto (- hs) j) -> 1 <= snd nd0) /\
                (j = 0%Z -> In 0%Z (upto (- hs) i ++ [i]) -> 1 <= snd nd0)).
      { intro Hne. split; [exact H0 |]. split; [exact H1 |].
        intros Ej Hin. apply in_app_or in Hin.
        destruct Hin as [Hin | [Ei | []]]; [auto | exfalso; auto]. }
      destruct ((x + i <? 0)%Z || (width <=? x + i)%Z) eqn:Ec.
      { exists nd0. split; [reflexivity |]. apply Hkeep. intros [-> ->].
        apply orb_true_iff in Ec. destruct Ec as [Ec | Ec];
          [apply Z.ltb_lt in Ec | apply Z.leb_le in Ec]; lia. }
      apply orb_false_iff in Ec. destruct Ec as [Ec1 Ec2].
      apply Z.ltb_ge in Ec1. apply Z.leb_gt in Ec2.
      destruct (zth_in_range mask ((y + j) * width + (x + i))) as [m Em].
      { rewrite Hmask. apply cell_index_range; lia. }
      rewrite Em. cbn [of_option bind].
      destruct m; cbn [negb].
      2:{ exists nd0. split; [reflexivity |]. apply Hkeep. intros [-> ->].
          rewrite !Z.add_0_r in Em. congruence. }
      destruct (zth_in_range old_field ((y + j) * width + (x + i))) as [f Ef].
      { rewrite Hfield. apply cell_index_range; lia. }
      rewrite Ef. cbn [of_option bind].
      change ((j + hs) * (2 * hs + 1) + (i + hs))%Z with (kernel_index hs i j).
      rewrite (Hk i j) by lia. cbn [of_option bind].
      eexists. split; [reflexivity |]. cbn [fst snd].
      pose proof (tap_nonneg sigma i j) as Hnn.
      split; [apply rnd_nonneg; lra |].
      split; [intro Hp; specialize (H1 Hp); apply single_ge_1; lra |].
      intros Ej Hin. apply in_app_or in Hin. destruct Hin as [Hin | [Ei | []]].
      * specialize (H2 Ej Hin). apply single_ge_1. lra.
      * subst i j. pose proof (tap_center sigma). apply single_ge_1. lra.
    + exists nd'. split; [exact E' |]. split; [exact Hd0' |].
      intro Hin. apply in_app_or in Hin. destruct Hin as [Hin | [Ej | []]]; [auto |].
      apply Hd2'; [exact Ej | apply In_upto; lia].
  - exists numer, denom. split; [exact E |]. apply Hd1. apply In_upto. lia.
Qed.

(** What [BlurField] returns: a field of the same size, in which a cell
    outside the mask keeps its value and a cell of the mask holds the
    quotient of its two sums, taken over the field as it was. *)
Lemma BlurField_spec (width height : Z) (mask : list bool) (sigma : Q)
  (field : list Q) :
  zlen mask = (width * height)%Z -> zlen field = (width * height)%Z ->
  (0 <= half_size_of sigma)%Z ->
  ((2 * half_size_of sigma + 1) * (2 * half_size_of sigma + 1) <= 2147483647)%Z ->
  exists kernel blurred,
    make_kernel exp sigma = Ok kernel /\
    BlurField exp width height mask sigma field = Ok blurred /\
    zlen blurred = zlen field /\
    (forall k, zth mask k = Some false -> zth blurred k = zth field k) /\
    (forall x y, (0 <= x < width)%Z -> (0 <= y < height)%Z ->
       zth mask (y * width + x) = Some true ->
       exists numer denom,
         cell_sums width height mask (half_size_of sigma) kernel field x y
         = Ok (numer, denom) /\ 1 <= denom /\
         zth blurred (y * width + x) = Some (single (numer / denom))).
Proof.
  intros Hmask Hfield Hhs Hfit.
  destruct (make_kernel_spec sigma Hhs Hfit) as (kernel & Ek & Hk).
  exists kernel.
  unfold BlurField. rewrite Ek. cbn [bind].
  set (done := fun (f : list Q) (x y : Z) =>
         zth mask (y * width + x) = Some true ->
         exists numer denom,
           cell_sums width height mask (half_size_of sigma) kernel field x y
           = Ok (numer, denom) /\ 1 <= denom /\
           zth f (y * width + x) = Some (single (numer / denom))).
  loop_prefix_inv (fun pre (f : list Q) =>
            zlen f = (width * height)%Z /\
            (forall k, zth mask k = Some false -> zth f k = zth field k) /\
            (forall x y, (0 <= x < width)%Z -> In y pre -> done f x y) /\
            (forall x y, (0 <= x < width)%Z -> (0 <= y < height)%Z ->
                         ~ In y pre -> zth f (y * width + x) = zth field (y * width + x)))
    Hloop.
  destruct Hloop as (b & Eb & Hb & Hout & Hin & _).
  - split; [exact Hfield |]. split; [reflexivity |]. split; [intros x y _ [] |].
    reflexivity.
  - intros pre y post f E (Hf & Hout & Hin & Hrest).
    apply upto_prefix in E. destruct E as [-> Hy].
    loop_prefix_inv (fun prex (f' : list Q) =>
            zlen f' = (width * height)%Z /\
            (forall k, zth mask k = Some false -> zth f' k = zth field k) /\
            (forall x' y', (0 <= x' < width)%Z -> In y' (upto 0 y) -> done f' x' y') /\
            (forall x', In x' prex -> done f' x' y) /\
            (forall x' y', (0 <= x' < width)%Z -> (0 <= y' < height)%Z ->
                           ~ (In y' (upto 0 y) \/ (y' = y /\ In x' prex)) ->
                           zth f' (y' * width + x') = zth field (y' * width + x')))
      Hloop.
    destruct Hloop as (f' & Ef' & Hf' & Hout' & Hold' & Hnew' & Hrest').
    + split; [exact Hf |]. split; [exact Hout |]. split; [exact Hin |].
      split; [intros x' [] |].
      intros x' y' Hx' Hy' Hn. apply Hrest; [exact Hx' | exact Hy' | tauto].
    + intros prex x postx f0 Ex (Hf0 & Hout0 & Hold0 & Hnew0 & Hrest0).
      apply upto_prefix in Ex. destruct Ex as [-> Hx].
      assert (Hidx : forall x' y', (0 <= x' < width)%Z ->
                (y' * width + x' = y * width + x)%Z -> x' = x /\ y' = y).
      { intros x' y' Hx' Ei. assert (y' = y) by nia. subst y'. split; [lia | reflexivity]. }
      destruct (zth_in_range mask (y * width + x)) as [m Em].
      { rewrite Hmask. apply cell_index_range; lia. }
      rewrite Em. cbn [of_option bind].
      destruct m; cbn [negb].
      2:{ exists f0. split; [reflexivity |]. split; [exact Hf0 |].
          split; [exact Hout0 |]. split; [exact Hold0 |]. split.
          - intros x' Hx'. apply in_app_or in Hx'. destruct Hx' as [Hx' | [<- | []]].
            + now apply Hnew0.
            + intro Hm. congruence.
          - intros x' y' Hx' Hy' Hn. apply Hrest0; [exact Hx' | exact Hy' |].
            intros [H | [-> H]]; apply Hn; [now left |].
            right. split; [reflexivity | apply in_or_app; now left]. }
      destruct (cell_sums_spec width height mask sigma kernel field x y)
        as (numer & denom & Es & Hd); try assumption; try lia.
      rewrite Es. cbn [bind].
      destruct (feqb denom 0) eqn:Ez; [apply feqb_true in Ez; lra |].
      destruct (zset_spec f0 (y * width + x) (single (numer / denom)))
        as (f1 & E1 & Hl & Hsame & Hother).
      { rewrite Hf0. apply cell_index_range; lia. }
      rewrite E1. exists f1. split; [reflexivity |]. split; [lia |].
      split; [| split; [| split]].
      * intros k Hk0. rewrite Hother; [now apply Hout0 | congruence].
      * intros x' y' Hx' Hy' Hm. apply In_upto in Hy'.
        destruct (Hold0 x' y' Hx' ltac:(apply In_upto; lia) Hm)
          as (n' & d' & En & Hd' & Hz).
        exists n', d'. split; [exact En |]. split; [exact Hd' |].
        rewrite Hother; [exact Hz |].
        intro Ei. apply Hidx in Ei; [| exact Hx']. lia.
      * intros x' Hx' Hm. apply in_app_or in Hx'. destruct Hx' as [Hx' | [<- | []]].
        -- destruct (Hnew0 x' Hx' Hm) as (n' & d' & En & Hd' & Hz).
           exists n', d'. split; [exact En |]. split; [exact Hd' |].
           rewrite Hother; [exact Hz |].
           apply In_upto in Hx'.
           intro Ei. apply Hidx in Ei; [| lia]. lia.
        -- exists numer, denom. split; [exact Es |]. split; [exact Hd | exact Hsame].
      * intros x' y' Hx' Hy' Hn. rewrite Hother.
        -- apply Hrest0; [exact Hx' | exact Hy' |].
           intros [H | [-> H]]; apply Hn; [now left |].
           right. split; [reflexivity | apply in_or_app; now left].
        -- intro Ei. apply Hidx in Ei; [| exact Hx']. destruct Ei as [-> ->].
           apply Hn. right. split; [reflexivity |]. apply in_or_app. right. now left.
    + exists f'. split; [exact Ef' |]. split; [exact Hf' |]. split; [exact Hout' |].
      split.
      * intros x' y' Hx' Hy'. apply in_app_or in Hy'. destruct Hy' as [Hy' | [<- | []]].
        -- now apply Hold'.
        -- apply Hnew'. apply In_upto. lia.
      * intros x' y' Hx' Hy' Hn. apply Hrest'; [exact Hx' | exact Hy' |].
        intros [H | [-> H]]; apply Hn; apply in_or_app; [now left | right; now left].
  - exists b. split; [reflexivity |]. split; [exact Eb |]. split; [lia |].
    split; [exact Hout |].
    intros x y Hx Hy. apply Hin; [exact Hx | apply In_upto; lia].
Qed.

(** The values of [sigma] that give a kernel of numbers, [sigma2] not having
    underflowed to 0, and the sizes for which no [int] of [BlurField]
    overflows: the half size is at most 23169, and the window stays within
    [int] about every cell. *)
Definition blur_domain (width height : Z) (sigma : Q) : Prop :=
  ~ sigma2_of sigma == 0 /\
  (0 <= half_size_of sigma <= 23169)%Z /\
  (width * height <= 2147483647)%Z /\
  (width + half_size_of sigma <= 2147483647)%Z /\
  (height + half_size_of sigma <= 2147483647)%Z.

(** C10.  For every mask and field of matching size, and every [sigma] of
    the domain above, among which [kSigma = 5.0]: every cell of the mask has
    a denominator of at least 1, its own tap having the weight 1, so
    [BlurField] never reaches its exit and returns a field. *)
Theorem BlurField_denominator_positive (width height : Z) (mask : list bool)
  (sigma : Q) (field : list Q) :
  zlen mask = (width * height)%Z -> zlen field = (width * height)%Z ->
  blur_domain width height sigma ->
  tap sigma 0 0 == 1 /\
  (exists kernel, make_kernel exp sigma = Ok kernel /\
     forall x y, (0 <= x < width)%Z -> (0 <= y < height)%Z ->
       zth mask (y * width + x) = Some true ->
       exists numer denom,
         cell_sums width height mask (half_size_of sigma) kernel field x y
         = Ok (numer, denom) /\ 1 <= denom) /\
  (exists blurred, BlurField exp width height mask sigma field = Ok blurred /\
                   zlen blurred = zlen field).
Proof.
  intros Hmask Hfield (_ & Hhs & _).
  assert (Hfit : ((2 * half_size_of sigma + 1) * (2 * half_size_of sigma + 1)
                  <= 2147483647)%Z) by nia.
  destruct (BlurField_spec width height mask sigma field Hmask Hfield
              (proj1 Hhs) Hfit)
    as (kernel & blurred & Ek & Eb & Hlen & _ & Hcells).
  split; [apply tap_center |]. split.
  - exists kernel. split; [exact Ek |]. intros x y Hx Hy Hcell.
    destruct (Hcells x y Hx Hy Hcell) as (numer & denom & Es & Hd & _).
    exists numer, denom. split; assumption.
  - exists blurred. split; assumption.
Qed.

End Blur.

(** A stand-in for [exp] that has the two properties used above. *)
Definition exp_stub (q : Q) : Q := 1 / (1 + q * q).

Lemma exp_stub_0 (q : Q) : q == 0 -> exp_stub q == 1.
Proof. intro E. unfold exp_stub. rewrite E. reflexivity. Qed.

Lemma exp_stub_nonneg (q : Q) : 0 <= exp_stub q.
Proof.
  unfold exp_stub. apply Qle_shift_div_l; [| lra].
  assert (0 <= q * q) by (destruct (Qlt_le_dec q 0); nra). lra.
Qed.

(** [kSigma] of [DetectDoors], the one [sigma] that the source passes to
    [BlurField] (the call is commented out). *)
Definition kSigma : Q := 5.

Lemma blur_domain_kSigma : blur_domain 2 2 kSigma.
Proof.
  unfold blur_domain. split; [vm_compute; discriminate |].
  repeat split; vm_compute; discriminate.
Qed.

Lemma BlurField_denominator_positive_witness :
  exists blurred,
    BlurField exp_stub 2 2 [true; true; false; true] kSigma [1; 2; 3; 4] = Ok blurred /\
    zlen blurred = zlen [1; 2; 3; 4].
Proof.
  apply (proj2 (proj2 (BlurField_denominator_positive exp_stub exp_stub_0
                  exp_stub_nonneg 2 2 [true; true; false; true] kSigma [1; 2; 3; 4]
                  eq_refl eq_refl blur_domain_kSigma))).
Defined.

(** With [sigma = -1], which [DetectDoors] never passes, the half size is -2,
    no tap is visited, and the one cell of the mask reaches the exit. *)
Example BlurField_negative_sigma (exp : Q -> Q) :
  half_size_of (-1) = (-2)%Z /\
  make_kernel exp (-1) = Ok (repeat 0 9) /\
  cell_sums 1 1 [true] (-2) (repeat 0 9) [0] 0 0 = Ok (0, 0) /\
  BlurField exp 1 1 [true] (-1) [0] = Fatal.
Proof. repeat split. Qed.

End BlurFacts.

(** ** Blurring reads the field as it was *)

Module FieldFacts.
Import DoorDetection BlurFacts.

(** X10.  For a mask and a field of matching size and a [sigma] of the
    domain of [BlurField], the call returns a field of the same size.  A cell
    outside the mask keeps its value.  A cell of the mask gets the quotient
    of its two sums, and these are taken over the field as it was before the
    call, not over the cells that the call has blurred already. *)
Theorem BlurField_cells (exp : Q -> Q) (width height : Z) (mask : list bool)
  (sigma : Q) (field : list Q) :
  (forall q, q == 0 -> exp q == 1) -> (forall q, 0 <= exp q) ->
  zlen mask = (width * height)%Z -> zlen field = (width * height)%Z ->
  blur_domain width height sigma ->
  exists kernel blurred,
    make_kernel exp sigma = Ok kernel /\
    BlurField exp width height mask sigma field = Ok blurred /\
    zlen blurred = zlen field /\
    (forall k, zth mask k = Some false -> zth blurred k = zth field k) /\
    (forall x y, (0 <= x < width)%Z -> (0 <= y < height)%Z ->
       zth mask (y * width + x) = Some true ->
       exists numer denom,
         cell_sums width height mask (half_size_of sigma) kernel field x y
         = Ok (numer, denom) /\ 1 <= denom /\
         zth blurred (y * width + x) = Some (single (numer / denom))).
Proof.
  intros H0 Hnn Hmask Hfield (_ & Hhs & _).
  apply BlurField_spec; try assumption; nia.
Qed.

(** A field of 2 by 2 cells; the cell outside the mask holds 30. *)
Definition patch_mask : list bool := [true; true; false; true].
Definition patch : list Q := [1; 2; 30; 4].

Lemma BlurField_cells_witness :
  exists kernel blurred,
    make_kernel exp_stub kSigma = Ok kernel /\
    BlurField exp_stub 2 2 patch_mask kSigma patch = Ok blurred /\
    zlen blurred = zlen patch /\
    (forall k, zth patch_mask k = Some false -> zth blurred k = zth patch k) /\
    (forall x y, (0 <= x < 2)%Z -> (0 <= y < 2)%Z ->
       zth patch_mask (y * 2 + x) = Some true ->
       exists numer denom,
         cell_sums 2 2 patch_mask (half_size_of kSigma) kernel patch x y
         = Ok (numer, denom) /\ 1 <= denom /\
         zth blurred (y * 2 + x) = Some (single (numer / denom))).
Proof.
  apply (BlurField_cells exp_stub 2 2 patch_mask kSigma patch).
  - exact exp_stub_0.
  - exact exp_stub_nonneg.
  - reflexivity.
  - reflexivity.
  - exact blur_domain_kSigma.
Defined.

End FieldFacts.

(** ** Merge *)

Module MergeFacts.
Import DoorDetection.

(** *** The distance matrix *)

Definition square (n : Z) (m : matrix) : Prop :=
  zlen m = n /\ Forall (fun row => zlen row = n) m.

Lemma In_zth {A : Type} (l : list A) (a : A) :
  In a l -> exists i, zth l i = Some a.
Proof.
  intro H. apply In_nth_error in H. destruct H as [k Hk].
  exists (Z.of_nat k). unfold zth.
  destruct (Z.ltb_spec (Z.of_nat k) 0); [lia |]. now rewrite Nat2Z.id.
Qed.

Lemma mget_in_range (n : Z) (m : matrix) (i j : Z) :
  square n m -> (0 <= i < n)%Z -> (0 <= j < n)%Z -> exists v, mget m i j = Ok v.
Proof.
  intros [Hn Hrows] Hi Hj. unfold mget.
  destruct (zth_in_range m i) as [row Hrow]; [lia |].
  rewrite Hrow. cbn [of_option bind].
  rewrite Forall_forall in Hrows. specialize (Hrows row (zth_In _ _ _ Hrow)).
  destruct (zth_in_range row j) as [v Hv]; [lia |].
  rewrite Hv. cbn [of_option]. eauto.
Qed.

Lemma mset_spec (n : Z) (m : matrix) (i j : Z) (v : Q) :
  square n m -> (0 <= i < n)%Z -> (0 <= j < n)%Z ->
  exists m', mset m i j v = Ok m' /\ square n m' /\ mget m' i j = Ok v /\
             forall a b, (a <> i \/ b <> j) -> mget m' a b = mget m a b.
Proof.
  intros [Hn Hrows] Hi Hj. unfold mset.
  destruct (zth_in_range m i) as [row Hrow]; [lia |].
  rewrite Hrow. cbn [of_option bind].
  assert (Hrows' := Hrows). rewrite Forall_forall in Hrows'.
  pose proof (Hrows' row (zth_In _ _ _ Hrow)) as Hlen.
  destruct (zset_spec row j v) as (row' & Er & Hlr & Hsr & Hor); [lia |].
  rewrite Er. cbn [of_option bind].
  destruct (zset_spec m i row') as (m' & Em & Hlm & Hsm & Hom); [lia |].
  rewrite Em. cbn [of_option]. exists m'. split; [reflexivity |].
  split; [| split].
  - split; [lia |]. apply Forall_forall. intros r Hr.
    apply In_zth in Hr. destruct Hr as [k Hk].
    destruct (Z.eq_dec k i) as [-> | Hne].
    + rewrite Hsm in Hk. injection Hk as <-. lia.
    + rewrite Hom in Hk by exact Hne. apply Hrows'. eapply zth_In; eauto.
  - unfold mget. rewrite Hsm. cbn [of_option bind]. now rewrite Hsr.
  - intros a b Hab. unfold mget.
    destruct (Z.eq_dec a i) as [-> | Hne].
    + rewrite Hsm, Hrow. cbn [of_option bind].
      rewrite Hor; [reflexivity |]. destruct Hab; [contradiction | assumption].
    + now rewrite Hom.
Qed.

Lemma square_repeat (n : nat) (v : Q) :
  square (Z.of_nat n) (repeat (repeat v n) n).
Proof.
  split; [apply zlen_repeat |].
  apply Forall_forall. intros row Hrow. apply repeat_spec in Hrow. subst row.
  apply zlen_repeat.
Qed.

Lemma mget_repeat (n : nat) (v : Q) (i j : Z) :
  (0 <= i < Z.of_nat n)%Z -> (0 <= j < Z.of_nat n)%Z ->
  mget (repeat (repeat v n) n) i j = Ok v.
Proof.
  intros Hi Hj. unfold mget. rewrite zth_repeat by exact Hi.
  cbn [of_option bind]. now rewrite zth_repeat by exact Hj.
Qed.

(** The signature of the center of cluster [i]. *)
Definition center_signature (weighted_visibility : signatures)
  (centers : list Z) (i : Z) : option signature :=
  match zth centers i with
  | Some c => zth weighted_visibility c
  | None => None
  end.

(** What [center_distances] leaves in the matrix. *)
Definition distances_ok (weighted_visibility : signatures) (centers : list Z)
  (m : matrix) : Prop :=
  let n := zlen centers in
  square n m /\
  (forall i j, (0 <= i < j)%Z -> (j < n)%Z ->
     exists a b, center_signature weighted_visibility centers i = Some a /\
                 center_signature weighted_visibility centers j = Some b /\
                 mget m i j = Ok (VisibilityDistance a b)) /\
  (forall i j, (0 <= i < n)%Z -> (0 <= j <= i)%Z -> mget m i j = Ok FLT_MAX).

(** Every pair of centers has its two signatures. *)
Definition centers_readable (weighted_visibility : signatures)
  (centers : list Z) : Prop :=
  forall i j, (0 <= i < j)%Z -> (j < zlen centers)%Z ->
    exists a b, center_signature weighted_visibility centers i = Some a /\
                center_signature weighted_visibility centers j = Some b.

Lemma center_distances_total (wv : signatures) (centers : list Z) :
  centers_readable wv centers ->
  exists m, center_distances wv centers = Ok m /\ distances_ok wv centers m.
Proof.
  intro Hread. unfold center_distances, distances_ok. cbv zeta.
  set (n := zlen centers).
  loop_prefix_inv (fun (pre : list Z) (m : matrix) =>
    square n m /\
    (forall i j, In i pre -> (i < j < n)%Z ->
       exists a b, center_signature wv centers i = Some a /\
                   center_signature wv centers j = Some b /\
                   mget m i j = Ok (VisibilityDistance a b)) /\
    (forall i j, (0 <= i < n)%Z -> (0 <= j < n)%Z ->
       ~ (In i pre /\ (i < j)%Z) -> mget m i j = Ok FLT_MAX)) Hloop.
  destruct Hloop as (m & Em & Hsq & Hup & Hlow).
  - split; [apply square_repeat |]. split; [intros i j [] |].
    intros i j Hi Hj _. apply mget_repeat; assumption.
  - intros pre i post m E (Hsq & Hup & Hlow).
    apply upto_prefix in E. destruct E as [-> Hi].
    loop_prefix_inv (fun (prej : list Z) (m' : matrix) =>
      square n m' /\
      (forall i' j, (In i' (upto 0 i) \/ (i' = i /\ In j prej)) -> (i' < j < n)%Z ->
         exists a b, center_signature wv centers i' = Some a /\
                     center_signature wv centers j = Some b /\
                     mget m' i' j = Ok (VisibilityDistance a b)) /\
      (forall i' j, (0 <= i' < n)%Z -> (0 <= j < n)%Z ->
         ~ ((In i' (upto 0 i) \/ (i' = i /\ In j prej)) /\ (i' < j)%Z) ->
         mget m' i' j = Ok FLT_MAX)) Hloop.
    destruct Hloop as (m' & Em' & Hsq' & Hup' & Hlow').
    + split; [exact Hsq |]. split.
      * intros i' j [Hin | [_ []]] Hj. now apply Hup.
      * intros i' j Hi' Hj Hn. apply Hlow; try assumption.
        intros [Hin Hlt]. apply Hn. split; [left; exact Hin | exact Hlt].
    + intros prej j postj m0 Ej (Hsq0 & Hup0 & Hlow0).
      apply upto_prefix in Ej. destruct Ej as [-> Hj].
      destruct (Hread i j) as (a & b & Ha & Hb); [lia | fold n; lia |].
      unfold center_signature in Ha, Hb.
      destruct (zth centers i) as [ci |] eqn:Eci; [| discriminate].
      destruct (zth centers j) as [cj |] eqn:Ecj; [| discriminate].
      cbn [of_option bind]. rewrite Ha, Hb. cbn [of_option bind].
      destruct (mset_spec n m0 i j (VisibilityDistance a b) Hsq0)
        as (m1 & E1 & Hsq1 & Hsame & Hother); [lia | lia |].
      exists m1. split; [exact E1 |]. split; [exact Hsq1 |]. split.
      * intros i' j' Hin Hj'.
        destruct (Z.eq_dec i' i) as [-> | Hne1]; [destruct (Z.eq_dec j' j) as [-> | Hne2] |].
        -- exists a, b. unfold center_signature. rewrite Eci, Ecj. auto.
        -- rewrite Hother by (right; exact Hne2). apply Hup0; [| exact Hj'].
           destruct Hin as [Hin | [_ Hin]]; [left; exact Hin |].
           right. split; [reflexivity |].
           apply in_app_or in Hin. destruct Hin as [Hin | [Hin | []]]; [exact Hin | lia].
        -- rewrite Hother by (left; exact Hne1). apply Hup0; [| exact Hj'].
           destruct Hin as [Hin | [Hin _]]; [left; exact Hin | contradiction].
      * intros i' j' Hi' Hj' Hn.
        rewrite Hother.
        -- apply Hlow0; try assumption. intros [Hin Hlt]. apply Hn.
           split; [| exact Hlt]. destruct Hin as [Hin | [-> Hin]]; [left; exact Hin |].
           right. split; [reflexivity |]. apply in_or_app. left. exact Hin.
        -- destruct (Z.eq_dec i' i) as [-> | Hne1]; [| left; exact Hne1].
           right. intros ->. apply Hn. split; [| lia].
           right. split; [reflexivity |]. apply in_or_app. right. left. reflexivity.
    + exists m'. split; [exact Em' |]. split; [exact Hsq' |]. split.
      * intros i' j Hin Hj. apply Hup'; [| exact Hj].
        apply in_app_or in Hin. destruct Hin as [Hin | [<- | []]]; [left; exact Hin |].
        right. split; [reflexivity |]. apply In_upto. lia.
      * intros i' j Hi' Hj Hn. apply Hlow'; try assumption.
        intros [Hin Hlt]. apply Hn. split; [| exact Hlt].
        apply in_or_app. destruct Hin as [Hin | [-> _]]; [left; exact Hin |].
        right. left. reflexivity.
  - exists m. split; [exact Em |]. split; [exact Hsq |]. split.
    + intros i j Hi Hj. apply Hup; [apply In_upto; lia | lia].
    + intros i j Hi Hj. apply Hlow; [lia | lia |]. intros [_ Hlt]. lia.
Qed.

Lemma center_distances_reads (wv : signatures) (centers : list Z) (m : matrix) :
  center_distances wv centers = Ok m -> centers_readable wv centers.
Proof.
  unfold center_distances. cbv zeta. set (n := zlen centers). intro E.
  refine (_ (for_each_Ok_inv
    (fun (pre : list Z) (_ : matrix) =>
       forall i j, In i pre -> (i < j < n)%Z ->
         exists a b, center_signature wv centers i = Some a /\
                     center_signature wv centers j = Some b)
    _ _ _ _ E _ _)).
  - intros H i j Hi Hj. apply H; [apply In_upto; lia | fold n in Hj; lia].
  - intros i j [].
  - intros pre i post m0 m1 El Hp Eb i' j' Hin Hj'.
    apply upto_prefix in El. destruct El as [-> Hi].
    apply in_app_or in Hin. destruct Hin as [Hin | [<- | []]]; [now apply Hp |].
    cbv beta in Eb.
    refine (_ (for_each_Ok_inv
      (fun (prej : list Z) (_ : matrix) =>
         forall j, In j prej ->
           exists a b, center_signature wv centers i = Some a /\
                       center_signature wv centers j = Some b)
      _ _ _ _ Eb _ _)).
    + intro H. apply H. apply In_upto. lia.
    + intros j [].
    + intros prej j postj m2 m3 Elj Hpj Ebj j0 Hin0.
      apply in_app_or in Hin0. destruct Hin0 as [Hin0 | [<- | []]]; [now apply Hpj |].
      cbv beta in Ebj. unfold center_signature.
      destruct (zth centers i) as [ci |]; [| discriminate].
      destruct (zth centers j) as [cj |]; [| discriminate].
      cbn [of_option bind] in Ebj.
      destruct (zth wv ci) as [a |]; [| discriminate].
      destruct (zth wv cj) as [b |]; [| discriminate].
      eauto.
Qed.

(** *** The closest pair *)

Lemma Ok_inj {A : Type} (a b : A) : Ok a = Ok b -> a = b.
Proof. intro H. now injection H. Qed.

Lemma closest_spec (n : Z) (m : matrix) :
  square n m ->
  exists pr d,
    closest n m = Ok (pr, d) /\ d <= FLT_MAX /\
    (forall i j v, (0 <= i < j)%Z -> (j < n)%Z -> mget m i j = Ok v -> d <= v) /\
    ((pr = (0, 0)%Z /\ d = FLT_MAX) \/
     (exists i j, pr = (i, j) /\ (0 <= i < j)%Z /\ (j < n)%Z /\
                  mget m i j = Ok d /\ d < FLT_MAX)).
Proof.
  intro Hsq. unfold closest.
  set (found := fun (st : (Z * Z) * Q) =>
    snd st <= FLT_MAX /\
    ((fst st = (0, 0)%Z /\ snd st = FLT_MAX) \/
     (exists i j, fst st = (i, j) /\ (0 <= i < j)%Z /\ (j < n)%Z /\
                  mget m i j = Ok (snd st) /\ snd st < FLT_MAX))).
  loop_prefix_inv (fun (pre : list Z) (st : (Z * Z) * Q) =>
    found st /\
    (forall i j v, In i pre -> (i < j < n)%Z -> mget m i j = Ok v -> snd st <= v))
    Hloop.
  destruct Hloop as ([pr d] & E & [Hmax Hc] & Hmin).
  - split; [| intros i j v []]. split; [cbn [snd]; lra |]. left. split; reflexivity.
  - intros pre i post st E [Hf Hmin].
    apply upto_prefix in E. destruct E as [-> Hi].
    loop_prefix_inv (fun (prej : list Z) (st' : (Z * Z) * Q) =>
      found st' /\
      (forall i' j v, (In i' (upto 0 i) \/ (i' = i /\ In j prej)) ->
         (i' < j < n)%Z -> mget m i' j = Ok v -> snd st' <= v)) Hloop.
    destruct Hloop as (st' & E' & Hf' & Hmin').
    + split; [exact Hf |]. intros i' j v [Hin | [_ []]] Hj Hv. eapply Hmin; eauto.
    + intros prej j postj st0 Ej [Hf0 Hmin0].
      apply upto_prefix in Ej. destruct Ej as [-> Hj].
      destruct (mget_in_range n m i j Hsq) as [dij Edij]; [lia | lia |].
      rewrite Edij. cbn [bind].
      assert (Hprev : forall i' j' v,
                (In i' (upto 0 i) \/ (i' = i /\ In j' (upto (i + 1) j ++ [j]))) ->
                (i' < j' < n)%Z -> mget m i' j' = Ok v ->
                (i' = i /\ j' = j /\ v = dij) \/ snd st0 <= v).
      { intros i' j' v Hin Hj' Hv.
        destruct Hin as [Hin | [-> Hin]]; [right; eapply Hmin0; eauto |].
        apply in_app_or in Hin. destruct Hin as [Hin | [<- | []]].
        - right. eapply Hmin0; eauto.
        - left. rewrite Edij in Hv. apply Ok_inj in Hv. auto. }
      destruct (fltb dij (snd st0)) eqn:Eb.
      * apply fltb_true in Eb. destruct Hf0 as [Hmax0 _].
        eexists. split; [reflexivity |]. split.
        -- split; cbn [fst snd]; [lra |]. right. exists i, j.
           repeat split; try lia; [exact Edij | lra].
        -- intros i' j' v Hin Hj' Hv. cbn [snd].
           destruct (Hprev i' j' v Hin Hj' Hv) as [(_ & _ & ->) | Hle]; lra.
      * apply fltb_false in Eb.
        exists st0. split; [reflexivity |]. split; [exact Hf0 |].
        intros i' j' v Hin Hj' Hv.
        destruct (Hprev i' j' v Hin Hj' Hv) as [(_ & _ & ->) | Hle]; lra.
    + exists st'. split; [exact E' |]. split; [exact Hf' |].
      intros i' j v Hin Hj Hv. apply (Hmin' i' j v); try assumption.
      apply in_app_or in Hin. destruct Hin as [Hin | [<- | []]]; [left; exact Hin |].
      right. split; [reflexivity |]. apply In_upto. lia.
  - exists pr, d. split; [exact E |]. split; [exact Hmax |]. split.
    + intros i j v Hi Hj Hv. apply (Hmin i j v); [apply In_upto; lia | lia | exact Hv].
    + exact Hc.
Qed.

(** *** Ruling out a pair *)

Lemma mset_max (n : Z) (m : matrix) (a0 b0 : Z) :
  square n m -> (0 <= a0 < n)%Z -> (0 <= b0 < n)%Z ->
  exists m', mset m a0 b0 FLT_MAX = Ok m' /\ square n m' /\
             mget m' a0 b0 = Ok FLT_MAX /\
             (forall a b, mget m' a b = mget m a b \/ mget m' a b = Ok FLT_MAX).
Proof.
  intros Hsq Ha Hb.
  destruct (mset_spec n m a0 b0 FLT_MAX Hsq Ha Hb) as (m' & E & Hsq' & Hs & Ho).
  exists m'. split; [exact E |]. split; [exact Hsq' |]. split; [exact Hs |].
  intros a b. destruct (Z.eq_dec a a0) as [-> | Hn1];
    [destruct (Z.eq_dec b b0) as [-> | Hn2] |].
  - right. exact Hs.
  - left. apply Ho. right. exact Hn2.
  - left. apply Ho. left. exact Hn1.
Qed.

(** [m'] is [m] with some entries replaced by the greatest float. *)
Definition faded (m m' : matrix) : Prop :=
  forall a b, mget m' a b = mget m a b \/ mget m' a b = Ok FLT_MAX.

Lemma faded_refl (m : matrix) : faded m m.
Proof. intros a b. now left. Qed.

Lemma faded_trans (m1 m2 m3 : matrix) : faded m1 m2 -> faded m2 m3 -> faded m1 m3.
Proof.
  intros H12 H23 a b. destruct (H23 a b) as [E | E]; [| now right].
  rewrite E. apply H12.
Qed.

Lemma faded_max (m m' : matrix) (a b : Z) :
  faded m m' -> mget m a b = Ok FLT_MAX -> mget m' a b = Ok FLT_MAX.
Proof. intros H E. destruct (H a b) as [E' | E']; congruence. Qed.

Lemma invalidate_spec (n : Z) (m : matrix) (p q : Z) :
  square n m -> (0 <= p < n)%Z -> (0 <= q < n)%Z ->
  exists m', invalidate n (p, q) m = Ok m' /\ square n m' /\ faded m m' /\
    forall t, (0 <= t < n)%Z ->
      mget m' p t = Ok FLT_MAX /\ mget m' q t = Ok FLT_MAX /\
      mget m' t p = Ok FLT_MAX /\ mget m' t q = Ok FLT_MAX.
Proof.
  intros Hsq Hp Hq. unfold invalidate. cbn [fst snd].
  loop_prefix_inv (fun (pre : list Z) (m' : matrix) =>
    square n m' /\ faded m m' /\
    forall t, In t pre ->
      mget m' p t = Ok FLT_MAX /\ mget m' q t = Ok FLT_MAX /\
      mget m' t p = Ok FLT_MAX /\ mget m' t q = Ok FLT_MAX) Hloop.
  destruct Hloop as (m' & E & Hsq' & Hf & Hmax).
  - split; [exact Hsq |]. split; [apply faded_refl | intros t []].
  - intros pre i post m0 E (Hsq0 & Hf0 & Hmax0).
    apply upto_prefix in E. destruct E as [-> Hi].
    destruct (mset_max n m0 p i Hsq0 Hp Hi) as (m1 & E1 & Hsq1 & Hs1 & Hf1).
    destruct (mset_max n m1 q i Hsq1 Hq Hi) as (m2 & E2 & Hsq2 & Hs2 & Hf2).
    destruct (mset_max n m2 i p Hsq2 Hi Hp) as (m3 & E3 & Hsq3 & Hs3 & Hf3).
    destruct (mset_max n m3 i q Hsq3 Hi Hq) as (m4 & E4 & Hsq4 & Hs4 & Hf4).
    rewrite E1. cbn [bind]. rewrite E2. cbn [bind]. rewrite E3. cbn [bind].
    exists m4. split; [exact E4 |]. split; [exact Hsq4 |].
    assert (F04 : faded m0 m4).
    { apply faded_trans with m3; [| exact Hf4].
      apply faded_trans with m2; [| exact Hf3].
      apply faded_trans with m1; [exact Hf1 | exact Hf2]. }
    split; [apply faded_trans with m0; assumption |].
    intros t Ht. apply in_app_or in Ht. destruct Ht as [Ht | [<- | []]].
    + destruct (Hmax0 t Ht) as (H1 & H2 & H3 & H4).
      repeat split; apply (faded_max m0 m4); assumption.
    + repeat split.
      * apply (faded_max m1 m4); [| exact Hs1].
        apply faded_trans with m3; [| exact Hf4].
        apply faded_trans with m2; assumption.
      * apply (faded_max m2 m4); [| exact Hs2].
        apply faded_trans with m3; assumption.
      * apply (faded_max m3 m4); assumption.
      * exact Hs4.
  - exists m'. split; [exact E |]. split; [exact Hsq' |]. split; [exact Hf |].
    intros t Ht. apply Hmax. apply In_upto. lia.
Qed.

(** *** The loop *)

(** The centers that take part in the pairs. *)
Definition members (pairs : list (Z * Z)) : list Z :=
  flat_map (fun pr => [fst pr; snd pr]) pairs.

Lemma members_app (ps qs : list (Z * Z)) : members (ps ++ qs) = members ps ++ members qs.
Proof. unfold members. apply flat_map_app. Qed.

(** The centers of the pairs found so far cannot be picked again. *)
Definition ruled_out (n : Z) (m : matrix) (pairs : list (Z * Z)) : Prop :=
  NoDup (members pairs) /\
  (forall pr, In pr pairs -> (0 <= fst pr < snd pr)%Z /\ (snd pr < n)%Z) /\
  (forall k t, In k (members pairs) -> (0 <= t < n)%Z ->
     mget m k t = Ok FLT_MAX /\ mget m t k = Ok FLT_MAX).

Lemma members_bound (n : Z) (m : matrix) (pairs : list (Z * Z)) :
  (0 <= n)%Z -> ruled_out n m pairs -> (Z.of_nat (length (members pairs)) <= n)%Z.
Proof.
  intros Hn (Hnd & Hrange & _).
  assert (Hincl : incl (members pairs) (upto 0 n)).
  { intros k Hk. apply In_upto. unfold members in Hk. apply in_flat_map in Hk.
    destruct Hk as (pr & Hpr & Hk). specialize (Hrange pr Hpr).
    destruct Hk as [<- | [<- | []]]; lia. }
  pose proof (NoDup_incl_length Hnd Hincl) as Hlen.
  unfold upto in Hlen. rewrite length_zrange in Hlen. lia.
Qed.

Lemma merge_loop_total (n : Z) (threshold : Q) :
  (0 <= n)%Z -> threshold <= FLT_MAX ->
  forall fuel m pairs,
    square n m -> ruled_out n m pairs ->
    (n < Z.of_nat (length (members pairs)) + 2 * Z.of_nat fuel)%Z ->
    exists more,
      merge_loop fuel n threshold m pairs = Ok (pairs ++ more) /\
      NoDup (members (pairs ++ more)) /\
      forall pr, In pr (pairs ++ more) -> (0 <= fst pr < snd pr)%Z /\ (snd pr < n)%Z.
Proof.
  intros Hn Hthr. induction fuel as [| fuel IH]; intros m pairs Hsq Hro Hfuel.
  - pose proof (members_bound n m pairs Hn Hro). lia.
  - cbn [merge_loop].
    destruct (closest_spec n m Hsq) as (pr & d & Ec & Hmax & Hmin & Hc).
    rewrite Ec. cbn [bind].
    destruct (fltb d threshold) eqn:Eb.
    + apply fltb_true in Eb.
      destruct Hc as [[_ ->] | (i & j & -> & Hi & Hj & Hd & Hlt)]; [lra |].
      destruct (invalidate_spec n m i j Hsq) as (m' & Ei & Hsq' & Hf & Hrows);
        [lia | lia |].
      rewrite Ei. cbn [bind].
      destruct Hro as (Hnd & Hrange & Hdead).
      assert (Hfresh : forall k, In k (members pairs) -> k <> i /\ k <> j).
      { intros k Hk. split; intros ->.
        - destruct (Hdead i j Hk) as [E _]; [lia |].
          rewrite E in Hd. apply Ok_inj in Hd. subst d. lra.
        - destruct (Hdead j i Hk) as [_ E]; [lia |].
          rewrite E in Hd. apply Ok_inj in Hd. subst d. lra. }
      destruct (IH m' (pairs ++ [(i, j)]) Hsq') as (more & Em & Hnd' & Hrange').
      * split; [| split].
        -- rewrite members_app. cbn [members flat_map app fst snd].
           apply NoDup_app; [exact Hnd | | ].
           ++ repeat constructor; cbn [In]; intuition lia.
           ++ intros k Hk Hin. destruct (Hfresh k Hk).
              destruct Hin as [E | [E | []]]; congruence.
        -- intros pr Hpr. apply in_app_or in Hpr.
           destruct Hpr as [Hpr | [<- | []]]; [now apply Hrange |].
           cbn [fst snd]. lia.
        -- intros k t Hk Ht. rewrite members_app in Hk. apply in_app_or in Hk.
           destruct Hk as [Hk | Hk].
           ++ destruct (Hdead k t Hk Ht) as [E1 E2].
              split; apply (faded_max m m'); assumption.
           ++ destruct (Hrows t Ht) as (R1 & R2 & R3 & R4).
              cbn [members flat_map app fst snd In] in Hk.
              destruct Hk as [<- | [<- | []]]; auto.
      * rewrite members_app, length_app. cbn [members flat_map app length]. lia.
      * exists ((i, j) :: more). rewrite <- app_assoc in Em, Hnd', Hrange'.
        cbn [app] in Em, Hnd', Hrange'. auto.
    + exists []. rewrite app_nil_r. destruct Hro as (Hnd & Hrange & _). auto.
Qed.

(** Two centers closer than the threshold. *)
Definition close_pair (wv : signatures) (threshold : Q) (centers : list Z) : Prop :=
  exists i j a b, (0 <= i < j)%Z /\ (j < zlen centers)%Z /\
    center_signature wv centers i = Some a /\
    center_signature wv centers j = Some b /\
    VisibilityDistance a b < threshold.

(** No two centers are closer than the threshold. *)
Definition quiescent (wv : signatures) (threshold : Q) (centers : list Z) : Prop :=
  forall i j, (0 <= i < j)%Z -> (j < zlen centers)%Z ->
    exists a b, center_signature wv centers i = Some a /\
                center_signature wv centers j = Some b /\
                threshold <= VisibilityDistance a b.

(** The pairs are well formed, and there is none exactly when no two
    centers are closer than the threshold. *)
Lemma pairs_to_merge_spec (wv : signatures) (threshold : Q) (centers : list Z) :
  threshold <= FLT_MAX -> centers_readable wv centers ->
  exists pairs,
    pairs_to_merge wv threshold centers = Ok pairs /\
    NoDup (members pairs) /\
    (forall pr, In pr pairs -> (0 <= fst pr < snd pr)%Z /\ (snd pr < zlen centers)%Z) /\
    ((pairs = [] /\ quiescent wv threshold centers) \/
     (pairs <> [] /\ close_pair wv threshold centers)).
Proof.
  intros Hthr Hread. unfold pairs_to_merge.
  destruct (center_distances_total wv centers Hread) as (m & Em & Hsq & Hup & Hlow).
  rewrite Em. cbn [bind]. set (n := zlen centers) in *.
  assert (Hn : (0 <= n)%Z) by (unfold n, zlen; lia).
  destruct (merge_loop_total n threshold Hn Hthr (S (length centers)) m [] Hsq)
    as (pairs & Ep & Hnd & Hrange).
  { split; [constructor |]. split; [intros pr [] | intros k t []]. }
  { cbn [members flat_map length]. unfold n, zlen. lia. }
  cbn [app] in Ep, Hnd, Hrange. exists pairs.
  split; [exact Ep |]. split; [exact Hnd |]. split; [exact Hrange |].
  cbn [merge_loop] in Ep.
  destruct (closest_spec n m Hsq) as (pr & d & Ec & Hmax & Hmin & Hc).
  rewrite Ec in Ep. cbn [bind] in Ep.
  destruct (fltb d threshold) eqn:Eb.
  - apply fltb_true in Eb. right.
    destruct Hc as [[_ ->] | (i & j & -> & Hi & Hj & Hd & Hlt)]; [lra |].
    destruct (invalidate_spec n m i j Hsq) as (m' & Ei & Hsq' & _ & Hrows);
      [lia | lia |].
    rewrite Ei in Ep. cbn [bind app] in Ep.
    destruct (merge_loop_total n threshold Hn Hthr (length centers) m' [(i, j)] Hsq')
      as (more & Em' & _).
    { split; [| split].
      - cbn. repeat constructor; cbn [In]; intuition lia.
      - intros pr [<- | []]. cbn [fst snd]. lia.
      - intros k t Hk Ht. destruct (Hrows t Ht) as (R1 & R2 & R3 & R4).
        cbn [members flat_map app fst snd In] in Hk.
        destruct Hk as [<- | [<- | []]]; auto. }
    { cbn [members flat_map app length]. unfold n, zlen. lia. }
    rewrite Em' in Ep. apply Ok_inj in Ep. subst pairs.
    split; [discriminate |].
    destruct (Hup i j Hi Hj) as (a & b & Ha & Hb & Hab).
    exists i, j, a, b. rewrite Hab in Hd. apply Ok_inj in Hd. subst d.
    repeat split; try assumption; lia.
  - apply fltb_false in Eb. apply Ok_inj in Ep. subst pairs. left.
    split; [reflexivity |]. intros i j Hi Hj.
    destruct (Hup i j Hi Hj) as (a & b & Ha & Hb & Hab).
    exists a, b. split; [exact Ha |]. split; [exact Hb |].
    specialize (Hmin i j _ Hi Hj Hab). lra.
Qed.

Lemma quiescent_not_close (wv : signatures) (threshold : Q) (centers : list Z) :
  quiescent wv threshold centers -> ~ close_pair wv threshold centers.
Proof.
  intros Hq (i & j & a & b & Hi & Hj & Ha & Hb & Hlt).
  destruct (Hq i j Hi Hj) as (a' & b' & Ha' & Hb' & Hle).
  rewrite Ha in Ha'. rewrite Hb in Hb'. injection Ha' as <-. injection Hb' as <-.
  lra.
Qed.

Lemma quiescent_readable (wv : signatures) (threshold : Q) (centers : list Z) :
  quiescent wv threshold centers -> centers_readable wv centers.
Proof.
  intros Hq i j Hi Hj. destruct (Hq i j Hi Hj) as (a & b & Ha & Hb & _). eauto.
Qed.

(** *** Joining and erasing clusters *)

Lemma Forall_zset {A : Type} (P : A -> Prop) (l l' : list A) (i : Z) (a : A) :
  Forall P l -> P a -> zset l i a = Some l' -> Forall P l'.
Proof.
  intros Hl Ha E. apply zset_Some_spec in E. destruct E as (Hi & Hlen & Hs & Ho).
  apply Forall_forall. intros x Hx. apply In_zth in Hx. destruct Hx as [k Hk].
  destruct (Z.eq_dec k i) as [-> | Hne].
  - rewrite Hs in Hk. now injection Hk as <-.
  - rewrite Ho in Hk by exact Hne. rewrite Forall_forall in Hl.
    apply Hl. eapply zth_In; eauto.
Qed.

Lemma zerase_spec {A : Type} (P : A -> Prop) (l : list A) (i : Z) :
  (0 <= i < zlen l)%Z -> Forall P l ->
  exists l', zerase l i = Ok l' /\ zlen l' = (zlen l - 1)%Z /\ Forall P l'.
Proof.
  intros Hi Hl. unfold zerase.
  destruct (Z.ltb_spec i 0); [lia |]. destruct (Z.leb_spec (zlen l) i); [lia |].
  cbn [orb]. eexists. split; [reflexivity |]. split.
  - unfold zlen in *. rewrite length_app, length_firstn, length_skipn. lia.
  - apply Forall_app. split.
    + rewrite <- (firstn_skipn (Z.to_nat i) l) in Hl. apply Forall_app in Hl. tauto.
    + rewrite <- (firstn_skipn (S (Z.to_nat i)) l) in Hl. apply Forall_app in Hl. tauto.
Qed.

Lemma zerase_Ok_length {A : Type} (l l' : list A) (i : Z) :
  zerase l i = Ok l' -> zlen l' = (zlen l - 1)%Z.
Proof.
  unfold zerase. destruct (Z.ltb_spec i 0); [discriminate |].
  destruct (Z.leb_spec (zlen l) i); [discriminate |]. cbn [orb].
  intro E. apply Ok_inj in E. subst l'.
  unfold zlen in *. rewrite length_app, length_firstn, length_skipn. lia.
Qed.

(** Strictly descending *)
Definition descending (l : list Z) : Prop :=
  StronglySorted (fun a b => (b < a)%Z) l.

Lemma insert_desc_In (x y : Z) (l : list Z) :
  In y (insert_desc x l) <-> y = x \/ In y l.
Proof.
  induction l as [| z l IH]; cbn [insert_desc In]; [intuition |].
  destruct (z <? x)%Z; cbn [In]; [intuition |]. rewrite IH. intuition.
Qed.

Lemma insert_desc_length (x : Z) (l : list Z) :
  length (insert_desc x l) = S (length l).
Proof.
  induction l as [| z l IH]; cbn [insert_desc length]; [reflexivity |].
  destruct (z <? x)%Z; cbn [length]; [reflexivity | now rewrite IH].
Qed.

Lemma insert_desc_descending (x : Z) (l : list Z) :
  descending l -> ~ In x l -> descending (insert_desc x l).
Proof.
  induction 1 as [| z l Hs IH Hz]; intro Hx; cbn [insert_desc].
  - repeat constructor.
  - destruct (Z.ltb_spec z x) as [Hlt | Hge].
    + constructor; [constructor; assumption |].
      constructor; [exact Hlt |].
      eapply Forall_impl; [| exact Hz]. cbn beta. intros; lia.
    + constructor.
      * apply IH. intro Hin. apply Hx. now right.
      * apply Forall_forall. intros y Hy. apply insert_desc_In in Hy.
        destruct Hy as [-> | Hy].
        -- assert (x <> z) by (intros ->; apply Hx; now left). lia.
        -- rewrite Forall_forall in Hz. now apply Hz.
Qed.

Lemma sort_desc_In (x : Z) (l : list Z) : In x (sort_desc l) <-> In x l.
Proof.
  induction l as [| y l IH]; [reflexivity |].
  unfold sort_desc in *. cbn [fold_right]. rewrite insert_desc_In, IH.
  cbn [In]. intuition.
Qed.

Lemma sort_desc_length (l : list Z) : length (sort_desc l) = length l.
Proof.
  induction l as [| y l IH]; [reflexivity |].
  unfold sort_desc in *. cbn [fold_right]. now rewrite insert_desc_length, IH.
Qed.

Lemma sort_desc_descending (l : list Z) : NoDup l -> descending (sort_desc l).
Proof.
  induction 1 as [| y l Hy Hnd IH]; [constructor |].
  unfold sort_desc in *. cbn [fold_right]. apply insert_desc_descending; [exact IH |].
  intro Hin. apply Hy. now apply sort_desc_In.
Qed.

Lemma erase_descending {A : Type} (P : A -> Prop) (ids : list Z) :
  descending ids ->
  forall l : list A,
    (forall i, In i ids -> (0 <= i < zlen l)%Z) -> Forall P l ->
    exists l', for_each ids (fun i clusters => zerase clusters i) l = Ok l' /\
               zlen l' = (zlen l - Z.of_nat (length ids))%Z /\ Forall P l'.
Proof.
  induction 1 as [| id ids Hs IH Hid]; intros l Hrange Hl.
  - exists l. cbn. split; [reflexivity |]. split; [lia | exact Hl].
  - destruct (zerase_spec P l id) as (l1 & E1 & Hlen1 & Hl1);
      [apply Hrange; now left | exact Hl |].
    cbn [for_each]. rewrite E1. cbn [bind].
    destruct (IH l1) as (l' & E' & Hlen' & Hl'); [| exact Hl1 |].
    + intros i Hi. rewrite Forall_forall in Hid. specialize (Hid i Hi).
      assert (0 <= i < zlen l)%Z by (apply Hrange; now right).
      assert (0 <= id < zlen l)%Z by (apply Hrange; now left). lia.
    + exists l'. split; [exact E' |]. split; [cbn [length]; lia | exact Hl'].
Qed.

Lemma erase_Ok_length {A : Type} (ids : list Z) : forall l l' : list A,
  for_each ids (fun i clusters => zerase clusters i) l = Ok l' ->
  zlen l' = (zlen l - Z.of_nat (length ids))%Z.
Proof.
  induction ids as [| id ids IH]; intros l l' E; cbn [for_each] in E.
  - apply Ok_inj in E. subst. cbn. lia.
  - destruct (zerase l id) as [l1 | | |] eqn:E1; cbn [bind] in E; try discriminate.
    apply zerase_Ok_length in E1. rewrite (IH _ _ E). cbn [length]. lia.
Qed.

Lemma NoDup_seconds (pairs : list (Z * Z)) :
  NoDup (members pairs) -> NoDup (map snd pairs).
Proof.
  assert (Hin : forall ps x, In x (map snd ps) -> In x (members ps)).
  { induction ps as [| p ps IH]; intros x Hx; [contradiction |].
    cbn [members flat_map app map In] in *. fold (members ps).
    destruct Hx as [<- | Hx]; [right; now left | right; right; now apply IH]. }
  induction pairs as [| p ps IH]; intro Hnd; [constructor |].
  cbn [members flat_map app map] in *. fold (members ps) in Hnd.
  inversion Hnd as [| ? ? _ Hnd1]; subst. inversion Hnd1 as [| ? ? Hs Hnd2]; subst.
  constructor; [| apply IH; exact Hnd2].
  intro Hx. apply Hs. now apply Hin.
Qed.

(** *** New centers *)

Definition in_range (wv : signatures) (i : Z) : Prop := (0 <= i < zlen wv)%Z.

(** Every member of every cluster has a signature. *)
Definition members_ok (wv : signatures) (clusters : list (list Z)) : Prop :=
  Forall (Forall (in_range wv)) clusters.

Lemma add_at_spec (distances : list Q) (i : Z) (v : Q) :
  (0 <= i < zlen distances)%Z ->
  exists d', add_at distances i v = Ok d' /\ zlen d' = zlen distances.
Proof.
  intro Hi. unfold add_at.
  destruct (zth_in_range distances i Hi) as [old Eo]. rewrite Eo. cbn [of_option bind].
  destruct (zset_spec distances i (old + v) Hi) as (d' & E & Hlen & _).
  rewrite E. cbn [of_option]. eauto.
Qed.

Lemma squared_distance_sums_total (wv : signatures) (cluster : list Z) :
  Forall (in_range wv) cluster ->
  exists distances, squared_distance_sums wv cluster = Ok distances /\
                    zlen distances = zlen cluster.
Proof.
  intro Hc. unfold squared_distance_sums. cbv zeta. set (n := zlen cluster).
  assert (Hmem : forall i, (0 <= i < n)%Z ->
            exists ci a, zth cluster i = Some ci /\ zth wv ci = Some a).
  { intros i Hi. destruct (zth_in_range cluster i Hi) as [ci Eci].
    rewrite Forall_forall in Hc. specialize (Hc ci (zth_In _ _ _ Eci)).
    destruct (zth_in_range wv ci Hc) as [a Ea]. eauto. }
  apply for_each_inv; [apply zlen_repeat |].
  intros i d Hi Hd. apply In_upto in Hi.
  apply for_each_inv; [exact Hd |].
  intros j d0 Hj Hd0. apply In_upto in Hj.
  destruct (Hmem i) as (ci & a & Eci & Ea); [lia |].
  destruct (Hmem j) as (cj & b & Ecj & Eb); [lia |].
  rewrite Eci, Ecj. cbn [of_option bind]. rewrite Ea, Eb. cbn [of_option bind].
  destruct (add_at_spec d0 i (VisibilityDistance a b * VisibilityDistance a b))
    as (d1 & E1 & Hl1); [unfold n in *; lia |].
  rewrite E1. cbn [bind].
  destruct (add_at_spec d1 j (VisibilityDistance a b * VisibilityDistance a b))
    as (d2 & E2 & Hl2); [unfold n in *; lia |].
  exists d2. split; [exact E2 | unfold n in *; lia].
Qed.

Lemma min_index_from_range (l : list Q) : forall best best_i i,
  (0 <= best_i < i)%Z ->
  (0 <= min_index_from best best_i i l < i + zlen l)%Z.
Proof.
  induction l as [| a l IH]; intros best best_i i Hb; cbn [min_index_from].
  - unfold zlen. cbn. lia.
  - replace (i + zlen (a :: l))%Z with (i + 1 + zlen l)%Z
      by (unfold zlen; cbn [length]; lia).
    destruct (fltb a best); apply IH; lia.
Qed.

Lemma min_element_index_range (l : list Q) :
  l <> [] -> (0 <= min_element_index l < zlen l)%Z.
Proof.
  destruct l as [| a l]; [congruence |]. intros _. unfold min_element_index.
  replace (zlen (a :: l)) with (1 + zlen l)%Z by (unfold zlen; cbn [length]; lia).
  apply min_index_from_range. lia.
Qed.

Lemma UpdateCenters_total (wv : signatures) (clusters : list (list Z)) :
  members_ok wv clusters ->
  exists centers, UpdateCenters wv clusters = Ok centers /\
                  zlen centers = zlen clusters.
Proof.
  intro Hok. unfold UpdateCenters.
  loop_prefix_inv (fun (pre : list (list Z)) (cs : list Z) => zlen cs = zlen pre) Hloop.
  destruct Hloop as (cs & E & Hlen).
  - reflexivity.
  - intros pre cluster post cs E Hlen.
    assert (Hc : Forall (in_range wv) cluster).
    { unfold members_ok in Hok. rewrite Forall_forall in Hok. apply Hok.
      rewrite E. apply in_or_app. right. now left. }
    assert (Hgrow : forall c, zlen (cs ++ [c]) = zlen (pre ++ [cluster])).
    { intro c. unfold zlen in *. rewrite !length_app. cbn [length]. lia. }
    destruct cluster as [| c0 cluster']; [eexists; split; [reflexivity | apply Hgrow] |].
    destruct (squared_distance_sums_total wv (c0 :: cluster') Hc) as (ds & Eds & Hds).
    rewrite Eds. cbn [bind].
    destruct (zth_in_range (c0 :: cluster') (min_element_index ds)) as [c Ec].
    { rewrite <- Hds. apply min_element_index_range.
      intros ->. unfold zlen in Hds. cbn in Hds. lia. }
    rewrite Ec. cbn [of_option bind]. eexists. split; [reflexivity | apply Hgrow].
  - eauto.
Qed.

(** *** Merge *)

Lemma kMergeThreshold_le_max : kMergeThreshold <= FLT_MAX.
Proof. vm_compute. discriminate. Qed.

Lemma centers_in_range_readable (wv : signatures) (centers : list Z) :
  Forall (in_range wv) centers -> centers_readable wv centers.
Proof.
  intros Hc i j Hi Hj. unfold center_signature.
  assert (H : forall k, (0 <= k < zlen centers)%Z ->
            exists a, match zth centers k with
                      | Some c => zth wv c
                      | None => None
                      end = Some a).
  { intros k Hk. destruct (zth_in_range centers k Hk) as [c Ec]. rewrite Ec.
    rewrite Forall_forall in Hc. apply zth_in_range. apply Hc. eapply zth_In; eauto. }
  destruct (H i) as [a Ha]; [lia |]. destruct (H j) as [b Hb]; [lia |]. eauto.
Qed.

(** What a call that returns has done. *)
Lemma Merge_Ok (wv : signatures) (threshold : Q) (centers : list Z)
  (clusters : list (list Z)) (merged : bool) (centers' : list Z)
  (clusters' : list (list Z)) :
  Merge wv threshold centers clusters = Ok (merged, centers', clusters') ->
  exists pairs,
    pairs_to_merge wv threshold centers = Ok pairs /\
    ((pairs = [] /\ merged = false /\ centers' = centers /\ clusters' = clusters) \/
     (pairs <> [] /\ merged = true /\
      zlen clusters' = (zlen clusters - Z.of_nat (length pairs))%Z)).
Proof.
  unfold Merge. intro E.
  destruct (pairs_to_merge wv threshold centers) as [pairs | | |] eqn:Ep;
    cbn [bind] in E; try discriminate.
  exists pairs. split; [reflexivity |].
  destruct pairs as [| pr pairs].
  - left. apply Ok_inj in E. injection E as <- <- <-. auto.
  - right. split; [discriminate |].
    match type of E with
    | (x <- for_each ?l ?body ?s ;; _) = _ =>
        destruct (for_each l body s) as [cl1 | | |] eqn:E1
    end; cbn [bind] in E; try discriminate.
    match type of E with
    | (x <- for_each ?l ?body ?s ;; _) = _ =>
        destruct (for_each l body s) as [cl2 | | |] eqn:E2
    end; cbn [bind] in E; try discriminate.
    destruct (UpdateCenters wv cl2) as [cs | | |]; cbn [bind] in E; try discriminate.
    apply Ok_inj in E. injection E as <- <- <-. split; [reflexivity |].
    apply erase_Ok_length in E2. rewrite sort_desc_length, length_map in E2.
    assert (Hl1 : zlen cl1 = zlen clusters).
    { apply (for_each_Ok_inv (fun _ (cl : list (list Z)) => zlen cl = zlen clusters)
               _ _ _ _ E1); [reflexivity |].
      intros pre p post c0 c1 _ Hc0 Eb. cbv beta in Eb.
      destruct (zth c0 (fst p)) as [x0 |]; cbn [of_option bind] in Eb; try discriminate.
      destruct (zth c0 (snd p)) as [x1 |]; cbn [of_option bind] in Eb; try discriminate.
      destruct (zset c0 (fst p) (x0 ++ x1)) as [c1' |] eqn:Ez;
        cbn [of_option] in Eb; try discriminate.
      apply Ok_inj in Eb. subst c1'. apply zset_Some_spec in Ez. lia. }
    lia.
Qed.

Lemma Merge_total (wv : signatures) (threshold : Q) (centers : list Z)
  (clusters : list (list Z)) :
  threshold <= FLT_MAX ->
  Forall (in_range wv) centers -> zlen clusters = zlen centers ->
  members_ok wv clusters ->
  exists merged centers' clusters',
    Merge wv threshold centers clusters = Ok (merged, centers', clusters').
Proof.
  intros Hthr Hc Hlen Hok. unfold Merge.
  destruct (pairs_to_merge_spec wv threshold centers Hthr
              (centers_in_range_readable wv centers Hc))
    as (pairs & Ep & Hnd & Hrange & _).
  rewrite Ep. cbn [bind].
  destruct pairs as [| pr pairs]; [eauto |].
  set (ps := pr :: pairs) in *.
  loop_inv (fun cl : list (list Z) => zlen cl = zlen clusters /\ members_ok wv cl) Hloop.
  destruct Hloop as (cl1 & E1 & Hl1 & Hok1).
  - split; [reflexivity | exact Hok].
  - intros p cl Hp [Hl Hm]. specialize (Hrange p Hp).
    destruct (zth_in_range cl (fst p)) as [x0 E0]; [lia |].
    destruct (zth_in_range cl (snd p)) as [x1 E1]; [lia |].
    rewrite E0, E1. cbn [of_option bind].
    destruct (zset_spec cl (fst p) (x0 ++ x1)) as (cl' & Ez & Hl' & _); [lia |].
    rewrite Ez. cbn [of_option]. exists cl'. split; [reflexivity |].
    split; [lia |]. unfold members_ok in *.
    apply (Forall_zset _ cl cl' (fst p) (x0 ++ x1)); [exact Hm | | exact Ez].
    rewrite Forall_forall in Hm. apply Forall_app.
    split; apply Hm; eapply zth_In; eauto.
  - rewrite E1. cbn [bind].
    destruct (erase_descending (Forall (in_range wv)) (sort_desc (map snd ps))
                (sort_desc_descending _ (NoDup_seconds _ Hnd)) cl1)
      as (cl2 & E2 & _ & Hok2).
    + intros i Hi. apply sort_desc_In, in_map_iff in Hi.
      destruct Hi as (p & <- & Hp). specialize (Hrange p Hp). lia.
    + exact Hok1.
    + rewrite E2. cbn [bind].
      destruct (UpdateCenters_total wv cl2 Hok2) as (cs & Ecs & _).
      rewrite Ecs. cbn [bind]. eauto.
Qed.

(** *** The clusters once the pairs are merged *)

(** The cluster at [k], empty when there is none. *)
Definition content {A : Type} (l : list (list A)) (k : Z) : list A :=
  match zth l k with
  | Some row => row
  | None => []
  end.

(** The cluster at [k] once the pairs are merged: what it held, followed by
    what the second cluster of every pair whose first is [k] held. *)
Definition merged_cluster (pairs : list (Z * Z)) (clusters : list (list Z))
  (k : Z) : list Z :=
  content clusters k ++
  flat_map (fun p => if (fst p =? k)%Z then content clusters (snd p) else []) pairs.

(** [l] without its elements at the indexes [ids], the head of [l] being at
    the index [k]. *)
Fixpoint drop_at {A : Type} (ids : list Z) (k : Z) (l : list A) : list A :=
  match l with
  | [] => []
  | a :: l' =>
      if existsb (Z.eqb k) ids then drop_at ids (k + 1) l'
      else a :: drop_at ids (k + 1) l'
  end.

(** The clusters once the pairs are merged: the second cluster of every pair
    is gone, having been appended to the first. *)
Definition merged_clusters (pairs : list (Z * Z)) (clusters : list (list Z))
  : list (list Z) :=
  drop_at (map snd pairs) 0
    (map (merged_cluster pairs clusters) (upto 0 (zlen clusters))).

Lemma nth_error_zrange (n : nat) : forall (lo : Z) (k : nat),
  (k < n)%nat -> nth_error (zrange lo n) k = Some (lo + Z.of_nat k)%Z.
Proof.
  induction n as [| n IH]; intros lo k Hk; [lia |].
  cbn [zrange]. destruct k as [| k]; cbn [nth_error].
  - f_equal. lia.
  - rewrite IH by lia. f_equal. lia.
Qed.

(** A list of clusters is the table of its contents. *)
Lemma content_table {A : Type} (l : list (list A)) :
  map (content l) (upto 0 (zlen l)) = l.
Proof.
  apply nth_error_ext. intro k. unfold upto, zlen.
  replace (Z.to_nat (Z.of_nat (length l) - 0)) with (length l) by lia.
  destruct (Nat.ltb_spec k (length l)) as [Hk | Hk].
  - rewrite nth_error_map, nth_error_zrange by exact Hk. cbn [option_map].
    unfold content, zth. destruct (Z.ltb_spec (0 + Z.of_nat k) 0); [lia |].
    replace (Z.to_nat (0 + Z.of_nat k)) with k by lia.
    destruct (nth_error l k) eqn:E; [reflexivity |].
    apply nth_error_None in E. lia.
  - rewrite (proj2 (nth_error_None l k)) by exact Hk.
    apply nth_error_None. rewrite length_map, length_zrange. exact Hk.
Qed.

Lemma flat_map_ext_in {A B : Type} (f g : A -> list B) (l : list A) :
  (forall a, In a l -> f a = g a) -> flat_map f l = flat_map g l.
Proof.
  induction l as [| a l IH]; intro H; [reflexivity |].
  cbn [flat_map]. rewrite (H a) by now left. f_equal. apply IH.
  intros; apply H; now right.
Qed.

(** The first loop of the update: every first cluster of a pair has got the
    second one. *)
Lemma join_exact (pairs : list (Z * Z)) :
  NoDup (members pairs) ->
  forall cl0 cl1 : list (list Z),
    for_each pairs
      (fun pr clusters =>
         cluster0 <- of_option (zth clusters (fst pr)) ;;
         cluster1 <- of_option (zth clusters (snd pr)) ;;
         of_option (zset clusters (fst pr) (cluster0 ++ cluster1)))
      cl0 = Ok cl1 ->
    cl1 = map (merged_cluster pairs cl0) (upto 0 (zlen cl0)).
Proof.
  induction pairs as [| p ps IH]; intros Hnd cl0 cl1 E; cbn [for_each] in E.
  - apply Ok_inj in E. subst cl1. rewrite <- (content_table cl0) at 1.
    apply map_ext. intro k. unfold merged_cluster. cbn [flat_map].
    now rewrite app_nil_r.
  - destruct (zth cl0 (fst p)) as [r0 |] eqn:E0; cbn [of_option bind] in E;
      [| discriminate].
    destruct (zth cl0 (snd p)) as [r1 |] eqn:E1; cbn [of_option bind] in E;
      [| discriminate].
    destruct (zset cl0 (fst p) (r0 ++ r1)) as [clm |] eqn:Ez; cbn [of_option bind] in E;
      [| discriminate].
    cbn [members flat_map app] in Hnd. fold (members ps) in Hnd.
    inversion Hnd as [| ? ? Ha Hnd1]; subst. inversion Hnd1 as [| ? ? Hb Hnd2]; subst.
    rewrite (IH Hnd2 clm cl1 E).
    pose proof (zset_Some_spec _ _ _ _ Ez) as (_ & Hlen & Hsame & Hother).
    replace (zlen clm) with (zlen cl0) by lia.
    apply map_ext. intro k. unfold merged_cluster. cbn [flat_map].
    assert (Hps : flat_map (fun q => if (fst q =? k)%Z then content clm (snd q) else []) ps
                  = flat_map (fun q => if (fst q =? k)%Z then content cl0 (snd q) else []) ps).
    { apply flat_map_ext_in. intros q Hq. destruct (fst q =? k)%Z; [| reflexivity].
      unfold content. rewrite Hother; [reflexivity |].
      intro Eq. apply Ha. right. rewrite <- Eq.
      unfold members. apply in_flat_map. exists q. split; [exact Hq |].
      right. now left. }
    rewrite Hps.
    destruct (Z.eqb_spec (fst p) k) as [<- | Hne].
    + replace (content clm (fst p)) with (r0 ++ r1)
        by (unfold content; now rewrite Hsame).
      replace (content cl0 (fst p)) with r0 by (unfold content; now rewrite E0).
      replace (content cl0 (snd p)) with r1 by (unfold content; now rewrite E1).
      now rewrite <- app_assoc.
    + replace (content clm k) with (content cl0 k)
        by (unfold content; rewrite Hother by congruence; reflexivity).
      reflexivity.
Qed.

Lemma existsb_none (ids : list Z) (k : Z) :
  (forall j, In j ids -> (j < k)%Z) -> existsb (Z.eqb k) ids = false.
Proof.
  intro H. destruct (existsb (Z.eqb k) ids) eqn:E; [| reflexivity].
  apply existsb_exists in E. destruct E as (j & Hj & Ej).
  apply Z.eqb_eq in Ej. subst j. specialize (H k Hj). lia.
Qed.

Lemma drop_at_none {A : Type} (ids : list Z) (l : list A) : forall k,
  (forall j, In j ids -> (j < k)%Z) -> drop_at ids k l = l.
Proof.
  induction l as [| a l IH]; intros k H; [reflexivity |].
  cbn [drop_at]. rewrite existsb_none by exact H.
  f_equal. apply IH. intros j Hj. specialize (H j Hj). lia.
Qed.

(** Erasing the element at [i], beyond every index of [ids], and then those
    at [ids] is leaving out the elements at [i] and at [ids]. *)
Lemma drop_at_erase {A : Type} (ids : list Z) : forall (i : nat) (k : Z) (l : list A),
  (forall j, In j ids -> (j < k + Z.of_nat i)%Z) -> (i < length l)%nat ->
  drop_at ids k (firstn i l ++ skipn (S i) l)
  = drop_at ((k + Z.of_nat i)%Z :: ids) k l.
Proof.
  induction i as [| i IH]; intros k l Hids Hi;
    (destruct l as [| a l]; [cbn [length] in Hi; lia |]).
  - cbn [firstn skipn app drop_at existsb].
    replace (k =? k + Z.of_nat 0)%Z with true by (symmetry; apply Z.eqb_eq; lia).
    cbn [orb]. rewrite !drop_at_none; [reflexivity | |].
    + intros j [<- | Hj]; [lia |]. specialize (Hids j Hj). lia.
    + intros j Hj. specialize (Hids j Hj). lia.
  - rewrite firstn_cons, skipn_cons. cbn [app drop_at existsb].
    replace (k =? k + Z.of_nat (S i))%Z with false by (symmetry; apply Z.eqb_neq; lia).
    cbn [orb] in *. cbn [length] in Hi.
    replace (k + Z.of_nat (S i))%Z with (k + 1 + Z.of_nat i)%Z by lia.
    rewrite (IH (k + 1)%Z l); [reflexivity | | lia].
    intros j Hj. specialize (Hids j Hj). lia.
Qed.

Lemma drop_at_ext {A : Type} (ids ids' : list Z) (l : list A) : forall k,
  (forall j, In j ids <-> In j ids') -> drop_at ids k l = drop_at ids' k l.
Proof.
  induction l as [| a l IH]; intros k H; [reflexivity |].
  cbn [drop_at]. rewrite (IH (k + 1)%Z H).
  replace (existsb (Z.eqb k) ids') with (existsb (Z.eqb k) ids); [reflexivity |].
  destruct (existsb (Z.eqb k) ids) eqn:E.
  - symmetry. apply existsb_exists in E. destruct E as (j & Hj & Ej).
    apply existsb_exists. exists j. split; [now apply H | exact Ej].
  - destruct (existsb (Z.eqb k) ids') eqn:E'; [| reflexivity].
    apply existsb_exists in E'. destruct E' as (j & Hj & Ej).
    assert (Ht : existsb (Z.eqb k) ids = true).
    { apply existsb_exists. exists j. split; [now apply H | exact Ej]. }
    congruence.
Qed.

(** The second loop of the update: erasing from the last to the first leaves
    out the elements at the erased indexes. *)
Lemma erase_exact {A : Type} (ids : list Z) :
  descending ids ->
  forall l l' : list A,
    for_each ids (fun i clusters => zerase clusters i) l = Ok l' ->
    l' = drop_at ids 0 l.
Proof.
  induction 1 as [| id ids Hs IH Hid]; intros l l' E; cbn [for_each] in E.
  - apply Ok_inj in E. subst l'. symmetry. apply drop_at_none. intros j [].
  - destruct (zerase l id) as [l1 | | |] eqn:E1; cbn [bind] in E; try discriminate.
    rewrite (IH _ _ E). unfold zerase in E1.
    destruct (Z.ltb_spec id 0); [discriminate |].
    destruct (Z.leb_spec (zlen l) id); [discriminate |]. cbn [orb] in E1.
    apply Ok_inj in E1. subst l1.
    rewrite (drop_at_erase ids (Z.to_nat id) 0 l).
    + replace (0 + Z.of_nat (Z.to_nat id))%Z with id by lia. reflexivity.
    + intros j Hj. rewrite Forall_forall in Hid. specialize (Hid j Hj). lia.
    + unfold zlen in *. lia.
Qed.

(** *** The pairs are close *)

(** The entry of the pair in the matrix is below the threshold. *)
Definition below (threshold : Q) (m : matrix) (pr : Z * Z) : Prop :=
  exists d, mget m (fst pr) (snd pr) = Ok d /\ d < threshold.

Lemma merge_loop_close (n : Z) (threshold : Q) (m0 : matrix) :
  threshold <= FLT_MAX ->
  forall fuel m pairs result,
    square n m -> faded m0 m -> Forall (below threshold m0) pairs ->
    merge_loop fuel n threshold m pairs = Ok result ->
    Forall (below threshold m0) result.
Proof.
  intro Hthr. induction fuel as [| fuel IH]; intros m pairs result Hsq Hf Hp E;
    cbn [merge_loop] in E; [discriminate |].
  destruct (closest_spec n m Hsq) as (pr & d & Ec & Hmax & Hmin & Hc).
  rewrite Ec in E. cbn [bind] in E.
  destruct (fltb d threshold) eqn:Eb.
  - apply fltb_true in Eb.
    destruct Hc as [[_ ->] | (i & j & -> & Hi & Hj & Hd & Hlt)]; [lra |].
    destruct (invalidate_spec n m i j Hsq) as (m' & Ei & Hsq' & Hf' & _);
      [lia | lia |].
    rewrite Ei in E. cbn [bind] in E.
    apply (IH m' (pairs ++ [(i, j)]) result Hsq'); [| | exact E].
    + apply faded_trans with m; assumption.
    + apply Forall_app. split; [exact Hp |]. constructor; [| constructor].
      exists d. cbn [fst snd]. split; [| exact Eb].
      destruct (Hf i j) as [E' | E']; [congruence |].
      rewrite E' in Hd. apply Ok_inj in Hd. subst d. lra.
  - apply Ok_inj in E. now subst result.
Qed.

(** The two centers of the pair are closer than the threshold. *)
Definition close (wv : signatures) (threshold : Q) (centers : list Z)
  (pr : Z * Z) : Prop :=
  exists a b, center_signature wv centers (fst pr) = Some a /\
              center_signature wv centers (snd pr) = Some b /\
              VisibilityDistance a b < threshold.

(** What [pairs_to_merge] returns, when it returns. *)
Lemma pairs_to_merge_Ok (wv : signatures) (threshold : Q) (centers : list Z)
  (pairs : list (Z * Z)) :
  threshold <= FLT_MAX ->
  pairs_to_merge wv threshold centers = Ok pairs ->
  NoDup (members pairs) /\
  (forall pr, In pr pairs ->
     ((0 <= fst pr < snd pr)%Z /\ (snd pr < zlen centers)%Z) /\
     close wv threshold centers pr) /\
  ((pairs = [] /\ quiescent wv threshold centers) \/
   (pairs <> [] /\ close_pair wv threshold centers)).
Proof.
  intros Hthr Ep.
  assert (Hread : centers_readable wv centers).
  { unfold pairs_to_merge in Ep.
    destruct (center_distances wv centers) as [m | | |] eqn:Em;
      cbn [bind] in Ep; try discriminate.
    eapply center_distances_reads; eauto. }
  destruct (pairs_to_merge_spec wv threshold centers Hthr Hread)
    as (pairs' & Ep' & Hnd & Hrange & Hcase).
  rewrite Ep in Ep'. apply Ok_inj in Ep'. subst pairs'.
  split; [exact Hnd |]. split; [| exact Hcase].
  unfold pairs_to_merge in Ep.
  destruct (center_distances_total wv centers Hread) as (m & Em & Hsq & Hup & Hlow).
  rewrite Em in Ep. cbn [bind] in Ep.
  pose proof (merge_loop_close (zlen centers) threshold m Hthr _ m [] pairs Hsq
                (faded_refl m) (Forall_nil _) Ep) as Hclose.
  rewrite Forall_forall in Hclose.
  intros pr Hpr. split; [now apply Hrange |].
  destruct (Hrange pr Hpr) as [Hi Hj].
  destruct (Hclose pr Hpr) as (d & Hd & Hlt).
  destruct (Hup (fst pr) (snd pr) Hi Hj) as (a & b & Ha & Hb & Hab).
  exists a, b. rewrite Hab in Hd. apply Ok_inj in Hd. subst d. auto.
Qed.

(** What a call of [Merge] that returns has done. *)
Lemma Merge_Ok_exact (wv : signatures) (threshold : Q) (centers : list Z)
  (clusters : list (list Z)) (merged : bool) (centers' : list Z)
  (clusters' : list (list Z)) :
  threshold <= FLT_MAX ->
  Merge wv threshold centers clusters = Ok (merged, centers', clusters') ->
  exists pairs,
    pairs_to_merge wv threshold centers = Ok pairs /\
    ((pairs = [] /\ merged = false /\ centers' = centers /\ clusters' = clusters) \/
     (pairs <> [] /\ merged = true /\
      clusters' = merged_clusters pairs clusters /\
      zlen clusters' = (zlen clusters - zlen pairs)%Z /\
      UpdateCenters wv clusters' = Ok centers')).
Proof.
  intros Hthr E.
  destruct (Merge_Ok _ _ _ _ _ _ _ E) as (pairs & Ep & Hcase).
  exists pairs. split; [exact Ep |].
  destruct Hcase as [H | (Hne & Hm & Hlen)]; [left; exact H | right].
  split; [exact Hne |]. split; [exact Hm |].
  destruct (pairs_to_merge_Ok wv threshold centers pairs Hthr Ep) as (Hnd & _ & _).
  unfold Merge in E. rewrite Ep in E. cbn [bind] in E.
  destruct pairs as [| pr pairs]; [congruence |].
  set (ps := pr :: pairs) in *.
  match type of E with
  | (x <- for_each ?l ?body ?s ;; _) = _ =>
      destruct (for_each l body s) as [cl1 | | |] eqn:E1
  end; cbn [bind] in E; try discriminate.
  match type of E with
  | (x <- for_each ?l ?body ?s ;; _) = _ =>
      destruct (for_each l body s) as [cl2 | | |] eqn:E2
  end; cbn [bind] in E; try discriminate.
  destruct (UpdateCenters wv cl2) as [cs | | |] eqn:Eu; cbn [bind] in E;
    try discriminate.
  apply Ok_inj in E. injection E as _ <- <-.
  split; [| split; [exact Hlen | exact Eu]].
  apply erase_exact in E2; [| apply sort_desc_descending, NoDup_seconds, Hnd].
  rewrite E2, (join_exact ps Hnd clusters cl1 E1). unfold merged_clusters.
  apply drop_at_ext. intro j. apply sort_desc_In.
Qed.

(** C7.  With no two centers closer than the threshold [Merge] returns
    false and gives back the centers and the clusters as they were.  A call
    that returns says true exactly when two centers were closer than the
    threshold.  It has then merged the pairs it picked, of which there is at
    least one: the pairs share no center, the two centers of each are closer
    than the threshold, the clusters returned are those given with the second
    cluster of every pair appended to the first and taken out, and the
    centers returned are those that [UpdateCenters] gives for them.  On
    centers and clusters whose members all have a signature, one cluster to a
    center, it does return. *)
Theorem Merge_quiescent (wv : signatures) (centers : list Z)
  (clusters : list (list Z)) :
  (quiescent wv kMergeThreshold centers ->
   Merge wv kMergeThreshold centers clusters = Ok (false, centers, clusters)) /\
  (forall merged centers' clusters',
     Merge wv kMergeThreshold centers clusters = Ok (merged, centers', clusters') ->
     (merged = true <-> close_pair wv kMergeThreshold centers) /\
     (merged = false -> centers' = centers /\ clusters' = clusters) /\
     (merged = true ->
      exists pairs,
        pairs_to_merge wv kMergeThreshold centers = Ok pairs /\
        pairs <> [] /\ NoDup (members pairs) /\
        (forall pr, In pr pairs ->
           ((0 <= fst pr < snd pr)%Z /\ (snd pr < zlen centers)%Z) /\
           close wv kMergeThreshold centers pr) /\
        clusters' = merged_clusters pairs clusters /\
        zlen clusters' = (zlen clusters - zlen pairs)%Z /\
        (zlen clusters' < zlen clusters)%Z /\
        UpdateCenters wv clusters' = Ok centers')) /\
  (Forall (in_range wv) centers -> zlen clusters = zlen centers ->
   members_ok wv clusters ->
   exists merged centers' clusters',
     Merge wv kMergeThreshold centers clusters = Ok (merged, centers', clusters')).
Proof.
  split; [| split].
  - intro Hq.
    destruct (pairs_to_merge_spec wv kMergeThreshold centers kMergeThreshold_le_max
                (quiescent_readable _ _ _ Hq)) as (pairs & Ep & _ & _ & Hcase).
    unfold Merge. rewrite Ep. cbn [bind].
    destruct Hcase as [[-> _] | [_ Hclose]]; [reflexivity |].
    exfalso. exact (quiescent_not_close _ _ _ Hq Hclose).
  - intros merged centers' clusters' E.
    destruct (Merge_Ok_exact _ _ _ _ _ _ _ kMergeThreshold_le_max E)
      as (pairs & Ep & Hcase).
    destruct (pairs_to_merge_Ok wv kMergeThreshold centers pairs
                kMergeThreshold_le_max Ep) as (Hnd & Hclose & Hspec).
    destruct Hcase as [(-> & -> & -> & ->) | (Hne & -> & Hcl & Hlen & Hup)].
    + destruct Hspec as [[_ Hq] | [Hne _]]; [| congruence].
      split; [| split]; [| auto | discriminate].
      split; [discriminate |]. intro Hc.
      exfalso. exact (quiescent_not_close _ _ _ Hq Hc).
    + destruct Hspec as [[-> _] | [_ Hc]]; [congruence |].
      split; [| split]; [| discriminate |].
      * split; auto.
      * intros _. exists pairs. repeat (split; [assumption |]).
        split; [| exact Hup].
        destruct pairs; [congruence |]. unfold zlen in *. cbn [length] in *. lia.
  - apply Merge_total. exact kMergeThreshold_le_max.
Qed.

(** Three signatures over disjoint boundary points, one cluster each. *)
Definition far_apart : signatures :=
  [[(0%Z, 1)]; [(1%Z, 1)]; [(2%Z, 1 # 2); (3%Z, 1 # 2)]].

Lemma far_apart_quiescent : quiescent far_apart kMergeThreshold [0; 1; 2]%Z.
Proof.
  intros i j Hi Hj. change (zlen [0; 1; 2]%Z) with 3%Z in Hj.
  assert (Hc : (i = 0 /\ j = 1)%Z \/ (i = 0 /\ j = 2)%Z \/ (i = 1 /\ j = 2)%Z) by lia.
  destruct Hc as [[-> ->] | [[-> ->] | [-> ->]]];
    eexists; eexists; (split; [reflexivity |]); (split; [reflexivity |]);
    vm_compute; discriminate.
Qed.

(** Three signatures of which the third shares its two boundary points with
    the first and the second: it is at the distance 1/4 of each. *)
Definition close_by : signatures :=
  [[(0%Z, 1)]; [(1%Z, 1)]; [(0%Z, 1 # 2); (1%Z, 1 # 2)]].

Example Merge_joins_close_centers :
  pairs_to_merge close_by kMergeThreshold [0; 1; 2]%Z = Ok [(0, 2)%Z] /\
  merged_clusters [(0, 2)%Z] [[0]; [1]; [2]]%Z = [[0; 2]; [1]]%Z /\
  Merge close_by kMergeThreshold [0; 1; 2]%Z [[0]; [1]; [2]]%Z
  = Ok (true, [0; 1]%Z, [[0; 2]; [1]]%Z).
Proof. repeat split. Qed.

Lemma Merge_quiescent_witness :
  Merge far_apart kMergeThreshold [0; 1; 2]%Z [[0]; [1]; [2]]%Z
  = Ok (false, [0; 1; 2]%Z, [[0]; [1]; [2]]%Z) /\
  exists pairs,
    pairs_to_merge close_by kMergeThreshold [0; 1; 2]%Z = Ok pairs /\
    pairs <> [] /\ NoDup (members pairs) /\
    (forall pr, In pr pairs ->
       ((0 <= fst pr < snd pr)%Z /\ (snd pr < 3)%Z) /\
       close close_by kMergeThreshold [0; 1; 2]%Z pr) /\
    [[0; 2]; [1]]%Z = merged_clusters pairs [[0]; [1]; [2]]%Z /\
    2%Z = (3 - zlen pairs)%Z /\ (2 < 3)%Z /\
    UpdateCenters close_by [[0; 2]; [1]]%Z = Ok [0; 1]%Z.
Proof.
  split.
  - exact (proj1 (Merge_quiescent far_apart [0; 1; 2]%Z [[0]; [1]; [2]]%Z)
                 far_apart_quiescent).
  - exact (proj2 (proj2 (proj1 (proj2
             (Merge_quiescent close_by [0; 1; 2]%Z [[0]; [1]; [2]]%Z))
             true [0; 1]%Z [[0; 2]; [1]]%Z eq_refl)) eq_refl).
Defined.

End MergeFacts.

(** ** Distance to the boundary *)

Module DistanceFacts.
Import DoorDetection.

(** [INT_MAX] *)
Definition INT_MAX : Z := 2147483647.

Definition cell : Type := (Z * Z)%type.

(** [y * width + x] *)
Definition idx (width : Z) (c : cell) : Z := (snd c * width + fst c)%Z.

Definition shift (c : cell) (ij : Z * Z) : cell :=
  ((fst c + fst ij)%Z, (snd c + snd ij)%Z).

Definition in_grid (width height : Z) (c : cell) : Prop :=
  (0 <= fst c < width)%Z /\ (0 <= snd c < height)%Z.

Lemma idx_range (w h : Z) (c : cell) :
  in_grid w h c -> (0 <= idx w c < w * h)%Z.
Proof. unfold in_grid, idx. intros [Hx Hy]. nia. Qed.

Lemma idx_inj (w h : Z) (c c' : cell) :
  in_grid w h c -> in_grid w h c' -> idx w c = idx w c' -> c = c'.
Proof.
  destruct c as [x y], c' as [x' y']. unfold in_grid, idx. cbn [fst snd].
  intros [Hx Hy] [Hx' Hy'] E.
  assert (y = y') by nia. subst y'. f_equal. lia.
Qed.

Lemma cell_eq_dec (c c' : cell) : {c = c'} + {c <> c'}.
Proof. decide equality; apply Z.eq_dec. Qed.

(** All the cells of the raster, row by row. *)
Definition all_cells (width height : Z) : list cell :=
  flat_map (fun y => map (fun x => (x, y)) (upto 0 width)) (upto 0 height).

Lemma In_all_cells (w h : Z) (c : cell) : In c (all_cells w h) <-> in_grid w h c.
Proof.
  unfold all_cells, in_grid. rewrite in_flat_map. split.
  - intros (y & Hy & Hc). apply in_map_iff in Hc. destruct Hc as (x & <- & Hx).
    apply In_upto in Hx, Hy. cbn [fst snd]. lia.
  - intros [Hx Hy]. exists (snd c). split; [apply In_upto; lia |].
    apply in_map_iff. exists (fst c). split; [now destruct c | apply In_upto; lia].
Qed.

Definition on_border (width height : Z) (c : cell) : bool :=
  (fst c =? 0)%Z || (fst c =? width - 1)%Z ||
  (snd c =? 0)%Z || (snd c =? height - 1)%Z.

(** No cell of the outer border is in the mask, as [SetMask] leaves it. *)
Definition border_clear (width height : Z) (mask : list bool) : bool :=
  forallb (fun c => if on_border width height c
                    then match zth mask (idx width c) with
                         | Some false => true
                         | _ => false
                         end
                    else true)
          (all_cells width height).

(** The cells of the mask *)
Definition open (width height : Z) (mask : list bool) (c : cell) : Prop :=
  in_grid width height c /\ zth mask (idx width c) = Some true.

Definition closed (width : Z) (mask : list bool) (c : cell) : Prop :=
  zth mask (idx width c) = Some false.

(** A cell of the mask, off the border, with a 4-neighbour outside the mask *)
Definition source (width height : Z) (mask : list bool) (c : cell) : Prop :=
  ((1 <= fst c < width - 1)%Z /\ (1 <= snd c < height - 1)%Z) /\
  zth mask (idx width c) = Some true /\
  (closed width mask (shift c (-1, 0)%Z) \/ closed width mask (shift c (1, 0)%Z) \/
   closed width mask (shift c (0, -1)%Z) \/ closed width mask (shift c (0, 1)%Z)).

Lemma In_neighbour_offsets (ij : Z * Z) :
  In ij neighbour_offsets <->
  ((-1 <= fst ij <= 1)%Z /\ (-1 <= snd ij <= 1)%Z /\ ij <> (0, 0)%Z).
Proof.
  destruct ij as [i j]. cbn [fst snd]. split.
  - intro H. cbv in H.
    repeat (destruct H as [H | H]; [injection H as <- <-; repeat split; (lia || discriminate) |]).
    contradiction.
  - intros (Hi & Hj & Hne).
    assert (Hc : (i = -1 \/ i = 0 \/ i = 1)%Z) by lia.
    assert (Hd : (j = -1 \/ j = 0 \/ j = 1)%Z) by lia.
    destruct Hc as [-> | [-> | ->]]; destruct Hd as [-> | [-> | ->]];
      first [ congruence | cbv; tauto ].
Qed.

(** Entries of the queue: the score is kept negated. *)
Definition score (nd : node) : Q := - fst nd.

Lemma top_pop_None (water_front : list node) :
  top_pop water_front = None -> water_front = [].
Proof.
  destruct water_front as [| a q]; [reflexivity |]. cbn.
  destruct (top_pop q) as [[m rest'] |]; [destruct (node_lt a m) |]; discriminate.
Qed.

Lemma top_pop_spec (water_front : list node) (nd : node) (rest : list node) :
  top_pop water_front = Some (nd, rest) ->
  (exists q1 q2, water_front = q1 ++ nd :: q2 /\ rest = q1 ++ q2) /\
  (forall nd', In nd' water_front -> score nd <= score nd').
Proof.
  revert nd rest. induction water_front as [| a q IH]; intros nd rest E;
    [discriminate |].
  cbn [top_pop] in E. destruct (top_pop q) as [[m rest'] |] eqn:Eq.
  - destruct (IH m rest' eq_refl) as [(q1 & q2 & -> & ->) Hmax].
    destruct (node_lt a m) eqn:Elt; injection E as E1 E2; subst nd rest.
    + split; [exists (a :: q1), q2; split; reflexivity |].
      intros nd' [<- | Hin]; [| now apply Hmax].
      unfold node_lt in Elt. unfold score.
      destruct (fltb (fst a) (fst m)) eqn:E1.
      * apply fltb_true in E1. lra.
      * cbn [orb] in Elt. apply andb_prop in Elt. destruct Elt as [E2 _].
        apply negb_true_iff, fltb_false in E2. lra.
    + split; [exists [], (q1 ++ m :: q2); split; reflexivity |].
      unfold node_lt in Elt. apply orb_false_iff in Elt. destruct Elt as [E1 _].
      apply fltb_false in E1.
      intros nd' [<- | Hin]; [unfold score; lra |].
      specialize (Hmax nd' Hin). unfold score in *. lra.
  - injection E as E1 E2; subst nd rest.
    apply top_pop_None in Eq. subst q.
    split; [exists [], []; split; reflexivity |].
    intros nd' [<- | []]. unfold score. lra.
Qed.

(** No two entries of the queue have the same cell and the same score. *)
Fixpoint distinct_entries (q : list node) : Prop :=
  match q with
  | [] => True
  | nd :: q' =>
      (forall nd', In nd' q' -> snd nd' = snd nd -> ~ score nd' == score nd) /\
      distinct_entries q'
  end.

Lemma distinct_entries_remove (q1 q2 : list node) (nd : node) :
  distinct_entries (q1 ++ nd :: q2) ->
  distinct_entries (q1 ++ q2) /\
  forall nd', In nd' (q1 ++ q2) -> snd nd' = snd nd -> ~ score nd' == score nd.
Proof.
  induction q1 as [| a q1 IH]; cbn [app distinct_entries].
  - intros [H1 H2]. split; assumption.
  - intros [H1 H2]. destruct (IH H2) as [H3 H4]. split.
    + split; [| exact H3]. intros nd' Hin. apply H1.
      apply in_app_or in Hin. apply in_or_app.
      destruct Hin as [Hin | Hin]; [left | right; right]; assumption.
    + intros nd' [<- | Hin] Hc.
      * intro E. apply (H1 nd).
        -- apply in_or_app. right. now left.
        -- now symmetry.
        -- now symmetry.
      * now apply H4.
Qed.

Section Shortest.

Variable sqrt : Q -> Q.
Hypothesis sqrt_1 : sqrt 1 == 1.
Hypothesis sqrt_2_pos : 0 < sqrt 2.
Hypothesis sqrt_2_le : sqrt 2 <= 2.

Variables (width height : Z) (mask : list bool).
Hypothesis mask_size : zlen mask = (width * height)%Z.
Hypothesis mask_border : border_clear width height mask = true.
Hypothesis size_int : (width * height <= INT_MAX)%Z.

Local Abbreviation grid := (in_grid width height).
Local Abbreviation free := (open width height mask).
Local Abbreviation start := (source width height mask).
Local Abbreviation at_ := (idx width).

(** An axis-aligned step costs 1, a diagonal step [sqrt 2]. *)
Definition step_cost (ij : Z * Z) : Q :=
  if (fst ij =? 0)%Z || (snd ij =? 0)%Z then 1 else sqrt 2.

(** [path_cost c q]: some path of cells of the mask, each next to the one
    before it in one of the eight directions, leads from a source to [c] and
    costs [q]. *)
Inductive path_cost : cell -> Q -> Prop :=
| path_source (c : cell) : start c -> path_cost c 0
| path_step (c : cell) (q : Q) (ij : Z * Z) :
    path_cost c q -> In ij neighbour_offsets -> free (shift c ij) ->
    path_cost (shift c ij) (q + step_cost ij).

Lemma step_norm_cost (ij : Z * Z) :
  In ij neighbour_offsets -> step_norm sqrt (fst ij) (snd ij) == step_cost ij.
Proof.
  intro H. cbv in H.
  repeat (destruct H as [H | H]; [subst ij; cbn; first [exact sqrt_1 | reflexivity] |]).
  contradiction.
Qed.

Lemma step_cost_bounds (ij : Z * Z) : 0 < step_cost ij /\ step_cost ij <= 2.
Proof.
  unfold step_cost. destruct ((fst ij =? 0)%Z || (snd ij =? 0)%Z); lra.
Qed.

Lemma free_interior (c : cell) :
  free c -> (1 <= fst c < width - 1)%Z /\ (1 <= snd c < height - 1)%Z.
Proof.
  intros [Hg Hm]. unfold border_clear in mask_border.
  rewrite forallb_forall in mask_border.
  specialize (mask_border c (proj2 (In_all_cells _ _ c) Hg)).
  rewrite Hm in mask_border.
  destruct (on_border width height c) eqn:Eb; [discriminate |].
  unfold on_border in Eb. destruct Hg as [Hx Hy].
  repeat (apply orb_false_iff in Eb; destruct Eb as [Eb ?]).
  repeat match goal with H : (_ =? _)%Z = false |- _ => apply Z.eqb_neq in H end.
  lia.
Qed.

Lemma shift_in_grid (c : cell) (ij : Z * Z) :
  (1 <= fst c < width - 1)%Z /\ (1 <= snd c < height - 1)%Z ->
  In ij neighbour_offsets -> grid (shift c ij).
Proof.
  intros [Hx Hy] Hij. apply In_neighbour_offsets in Hij.
  unfold in_grid, shift. cbn [fst snd]. lia.
Qed.

Lemma shift_neq (c : cell) (ij : Z * Z) :
  In ij neighbour_offsets -> shift c ij <> c.
Proof.
  intros Hij E. apply In_neighbour_offsets in Hij. destruct Hij as (_ & _ & Hne).
  apply Hne. destruct c as [x y], ij as [i j]. unfold shift in E. cbn [fst snd] in E.
  injection E as E1 E2. f_equal; lia.
Qed.

Lemma start_free (c : cell) : start c -> free c.
Proof.
  intros ([Hx Hy] & Hm & _). split; [| exact Hm]. unfold in_grid. lia.
Qed.

Lemma path_free (c : cell) (q : Q) : path_cost c q -> free c.
Proof. induction 1; [now apply start_free | assumption]. Qed.

Lemma path_nonneg (c : cell) (q : Q) :
  path_cost c q -> 0 <= q /\ (q <= 0 -> start c).
Proof.
  induction 1 as [c Hs | c q ij Hp [IH1 IH2] Hij Hf].
  - split; [lra | intros _; exact Hs].
  - pose proof (step_cost_bounds ij). split; [lra | intro; exfalso; lra].
Qed.

(** Reading a mask whose border is clear tells whether a cell is free. *)
Lemma mask_read (c : cell) :
  grid c -> exists m, zth mask (at_ c) = Some m /\ (m = true <-> free c).
Proof.
  intro Hg. destruct (zth_in_range mask (at_ c)) as [m Hm].
  { rewrite mask_size. now apply idx_range. }
  exists m. split; [exact Hm |]. split.
  - intros ->. split; assumption.
  - intros [_ Hf]. congruence.
Qed.

(** *** The invariant of the propagation *)

(** The distances: [k] cells have been expanded so far. *)
Definition dist_ok (k : nat) (d : list Q) : Prop :=
  zlen d = (width * height)%Z /\
  (forall c v, grid c -> zth d (at_ c) = Some v ->
     0 <= v /\ v <= FLT_MAX /\
     (v = FLT_MAX \/
      exists q, path_cost c q /\ q == v /\ v <= 2 * inject_Z (Z.of_nat k))) /\
  (forall c v, start c -> zth d (at_ c) = Some v -> v <= 0).

(** The queue: every entry holds the cost of a path to its cell, no less
    than the distance recorded for the cell. *)
Definition queue_ok (d : list Q) (queue : list node) : Prop :=
  (forall nd, In nd queue ->
     (exists q, path_cost (snd nd) q /\ q == score nd) /\
     score nd < FLT_MAX /\
     exists v, zth d (at_ (snd nd)) = Some v /\ v <= score nd) /\
  distinct_entries queue.

(** An expanded cell: its distance is below every score of the queue, no
    entry of the queue would improve it, and the neighbours at the offsets
    [offs] have been relaxed from it. *)
Definition expanded (d : list Q) (queue : list node) (offs : list (Z * Z))
  (c : cell) : Prop :=
  free c /\
  exists v, zth d (at_ c) = Some v /\ v < FLT_MAX /\
    (forall nd, In nd queue -> v <= score nd) /\
    (forall nd, In nd queue -> snd nd = c -> v < score nd) /\
    (forall ij, In ij offs -> free (shift c ij) ->
       exists v', zth d (at_ (shift c ij)) = Some v' /\ v' <= v + step_cost ij).

(** A reached cell that is not expanded has its distance in the queue. *)
Definition pending (done : list cell) (d : list Q) (queue : list node) : Prop :=
  forall c v, free c -> ~ In c done -> zth d (at_ c) = Some v -> v < FLT_MAX ->
    exists nd, In nd queue /\ snd nd = c /\ score nd == v.

Definition front_ok (done : list cell) (d : list Q) (queue : list node) : Prop :=
  dist_ok (length done) d /\ queue_ok d queue /\ NoDup done /\
  (forall c, In c done -> expanded d queue neighbour_offsets c) /\
  pending done d queue.

Lemma done_bound (done : list cell) :
  NoDup done -> (forall c, In c done -> grid c) ->
  (Z.of_nat (length done) <= width * height)%Z.
Proof.
  intros Hnd Hg.
  assert (Hnd' : NoDup (map at_ done)).
  { apply NoDup_map_NoDup_ForallPairs; [| exact Hnd].
    intros a b Ha Hb E. eapply idx_inj; eauto. }
  assert (Hincl : incl (map at_ done) (upto 0 (width * height))).
  { intros k Hk. apply in_map_iff in Hk. destruct Hk as (c & <- & Hc).
    apply In_upto. apply idx_range. now apply Hg. }
  pose proof (NoDup_incl_length Hnd' Hincl) as Hlen.
  rewrite length_map in Hlen. unfold upto in Hlen. rewrite length_zrange in Hlen.
  pose proof mask_size. unfold zlen in *. lia.
Qed.

(** *** The seeds *)

Lemma at_shift (c : cell) (i j : Z) :
  at_ (shift c (i, j)) = (at_ c + j * width + i)%Z.
Proof. unfold idx, shift. cbn [fst snd]. lia. Qed.

Lemma on_boundary_spec (c : cell) :
  (1 <= fst c < width - 1)%Z /\ (1 <= snd c < height - 1)%Z ->
  exists b, on_boundary mask width (at_ c) = Ok b /\ (b = true <-> start c).
Proof.
  intro Hi.
  assert (Hg : grid c) by (unfold in_grid; lia).
  assert (Hn : forall ij, In ij neighbour_offsets ->
            exists m, zth mask (at_ (shift c ij)) = Some m).
  { intros ij Hij. apply zth_in_range. rewrite mask_size.
    apply idx_range. now apply shift_in_grid. }
  destruct (Hn (-1, 0)%Z) as [l El]; [apply In_neighbour_offsets; cbn; repeat split; (lia || discriminate) |].
  destruct (Hn (1, 0)%Z) as [r Er]; [apply In_neighbour_offsets; cbn; repeat split; (lia || discriminate) |].
  destruct (Hn (0, -1)%Z) as [u Eu]; [apply In_neighbour_offsets; cbn; repeat split; (lia || discriminate) |].
  destruct (Hn (0, 1)%Z) as [dn Ed]; [apply In_neighbour_offsets; cbn; repeat split; (lia || discriminate) |].
  destruct (zth_in_range mask (at_ c)) as [m Em].
  { rewrite mask_size. now apply idx_range. }
  unfold on_boundary, source, closed. rewrite Em. cbn [of_option bind].
  replace (at_ c - 1)%Z with (at_ (shift c (-1, 0)%Z)) by (rewrite at_shift; lia).
  replace (at_ c + 1)%Z with (at_ (shift c (1, 0)%Z)) by (rewrite at_shift; lia).
  replace (at_ c - width)%Z with (at_ (shift c (0, -1)%Z)) by (rewrite at_shift; lia).
  replace (at_ c + width)%Z with (at_ (shift c (0, 1)%Z)) by (rewrite at_shift; lia).
  rewrite El, Er, Eu, Ed.
  destruct m; cbn [negb of_option bind].
  2:{ exists false. split; [reflexivity |]. split; [discriminate |].
      intros (_ & H & _). discriminate. }
  destruct l; cbn [negb of_option bind].
  2:{ exists true. split; [reflexivity |]. split; [| reflexivity]. intros _. tauto. }
  destruct r; cbn [negb of_option bind].
  2:{ exists true. split; [reflexivity |]. split; [| reflexivity]. intros _. tauto. }
  destruct u; cbn [negb of_option bind].
  2:{ exists true. split; [reflexivity |]. split; [| reflexivity]. intros _. tauto. }
  exists (negb dn). split; [reflexivity |]. destruct dn; cbn [negb].
  - split; [discriminate |]. intros (_ & _ & [H | [H | [H | H]]]); discriminate.
  - split; [| reflexivity]. intros _. tauto.
Qed.

(** The state of the first pair of loops; [seen] tells which cells the
    loops have visited. *)
Definition seeded (seen : cell -> Prop) (st : front) : Prop :=
  zlen (fst st) = (width * height)%Z /\
  (forall c, grid c ->
     (zth (fst st) (at_ c) = Some 0 /\ start c /\ seen c) \/
     (zth (fst st) (at_ c) = Some FLT_MAX /\ ~ (start c /\ seen c))) /\
  (forall nd, In nd (snd st) -> fst nd = 0 /\ start (snd nd) /\ seen (snd nd)) /\
  (forall c, start c -> seen c -> In (0, c) (snd st)) /\
  distinct_entries (snd st).

Lemma seeded_ext (seen seen' : cell -> Prop) (st : front) :
  (forall c, start c -> (seen c <-> seen' c)) -> seeded seen st -> seeded seen' st.
Proof.
  intros Hext (Hl & Hd & Hq & Hs & Hu). split; [exact Hl |]. split; [| split; [| split]].
  - intros c Hg. destruct (Hd c Hg) as [(E & Hst & Hse) | (E & Hn)].
    + left. split; [exact E |]. split; [exact Hst |]. apply (Hext c Hst), Hse.
    + right. split; [exact E |]. intros [Hst Hse]. apply Hn. split; [exact Hst |].
      apply (Hext c Hst), Hse.
  - intros nd Hin. destruct (Hq nd Hin) as (E & Hst & Hse).
    split; [exact E |]. split; [exact Hst |]. apply (Hext _ Hst), Hse.
  - intros c Hst Hse. apply Hs; [exact Hst | apply (Hext c Hst), Hse].
  - exact Hu.
Qed.

Lemma seed_front_spec :
  exists d queue, seed_front width height mask = Ok (d, queue) /\
                  seeded (fun _ => True) (d, queue).
Proof.
  unfold seed_front.
  loop_prefix_inv (fun (pre : list Z) (st : front) =>
    seeded (fun c => In (snd c) pre) st) Hloop.
  destruct Hloop as ([d queue] & E & Hs).
  - split; [cbn [fst]; rewrite zlen_repeat; pose proof mask_size; unfold zlen in *; lia |].
    split; [| split; [| split]]; cbn [fst snd].
    + intros c Hg. right. split; [| intros [_ []]].
      apply zth_repeat. pose proof (idx_range _ _ c Hg). lia.
    + intros nd [].
    + intros c _ [].
    + exact I.
  - intros prey y posty st E Hs.
    apply upto_prefix in E. destruct E as [-> Hy].
    loop_prefix_inv (fun (prex : list Z) (st' : front) =>
      seeded (fun c => In (snd c) (upto 1 y) \/ (snd c = y /\ In (fst c) prex)) st')
      Hloop.
    destruct Hloop as (st' & E' & Hs').
    + eapply seeded_ext; [| exact Hs]. intros c _. cbn [In]. tauto.
    + intros prex x postx st0 Ex Hs0.
      apply upto_prefix in Ex. destruct Ex as [-> Hx].
      destruct (on_boundary_spec (x, y)) as (b & Eb & Hb); [cbn [fst snd]; lia |].
      change (y * width + x)%Z with (at_ (x, y)). rewrite Eb. cbn [bind].
      destruct Hs0 as (Hl0 & Hd0 & Hq0 & Hin0 & Hu0).
      assert (Hg : grid (x, y)) by (unfold in_grid; cbn [fst snd]; lia).
      assert (Hnew : forall c : cell,
                (In (snd c) (upto 1 y) \/ snd c = y /\ In (fst c) (upto 1 x ++ [x])) <->
                ((In (snd c) (upto 1 y) \/ snd c = y /\ In (fst c) (upto 1 x)) \/
                 c = (x, y))).
      { intros [cx cy]. cbn [fst snd]. rewrite in_app_iff. cbn [In].
        split; [intros [H | [H [H' | [H' | []]]]] | intros [[H | [H H']] | H]];
          try tauto; try (injection H as -> ->; tauto).
        right. f_equal; congruence. }
      assert (Hnot : ~ (In (snd (x, y)) (upto 1 y) \/
                        snd (x, y) = y /\ In (fst (x, y)) (upto 1 x))).
      { cbn [fst snd]. rewrite !In_upto. lia. }
      destruct b.
      * assert (Hst : start (x, y)) by now apply Hb.
        destruct (zset_spec (fst st0) (at_ (x, y)) 0) as (d1 & E1 & Hl1 & Hs1 & Ho1).
        { rewrite Hl0. now apply idx_range. }
        rewrite E1. cbn [of_option bind]. eexists. split; [reflexivity |].
        split; [cbn [fst]; lia |]. split; [| split; [| split]]; cbn [fst snd].
        -- intros c Hgc. destruct (cell_eq_dec c (x, y)) as [-> | Hne].
           ++ left. split; [exact Hs1 |]. split; [exact Hst |]. apply Hnew. now right.
           ++ rewrite Ho1 by (intro Ei; apply Hne; eapply idx_inj; eauto).
              destruct (Hd0 c Hgc) as [(Ec & Hsc & Hse) | (Ec & Hn)].
              ** left. split; [exact Ec |]. split; [exact Hsc |]. apply Hnew. now left.
              ** right. split; [exact Ec |]. intros [Hsc Hse]. apply Hn.
                 split; [exact Hsc |]. apply Hnew in Hse. tauto.
        -- intros nd [<- | Hin].
           ++ split; [reflexivity |]. split; [exact Hst |].
              apply (Hnew (x, y)). now right.
           ++ destruct (Hq0 nd Hin) as (Ef & Hsn & Hse).
              split; [exact Ef |]. split; [exact Hsn |]. apply Hnew. now left.
        -- intros c Hsc Hse. apply Hnew in Hse. destruct Hse as [Hse | ->].
           ++ right. now apply Hin0.
           ++ now left.
        -- split; [| exact Hu0]. intros nd' Hin' Hc.
           exfalso. apply Hnot. destruct (Hq0 nd' Hin') as (_ & _ & Hse).
           cbn [snd] in Hc. rewrite Hc in Hse. exact Hse.
      * assert (Hst : ~ start (x, y)) by (intro H; apply Hb in H; discriminate).
        exists st0. split; [reflexivity |].
        split; [exact Hl0 |]. split; [| split; [| split]].
        -- intros c Hgc. destruct (Hd0 c Hgc) as [(Ec & Hsc & Hse) | (Ec & Hn)].
           ++ left. split; [exact Ec |]. split; [exact Hsc |]. apply Hnew. now left.
           ++ right. split; [exact Ec |]. intros [Hsc Hse]. apply Hnew in Hse.
              destruct Hse as [Hse | ->]; [apply Hn; tauto | contradiction].
        -- intros nd Hin. destruct (Hq0 nd Hin) as (Ef & Hsn & Hse).
           split; [exact Ef |]. split; [exact Hsn |]. apply Hnew. now left.
        -- intros c Hsc Hse. apply Hnew in Hse.
           destruct Hse as [Hse | ->]; [now apply Hin0 | contradiction].
        -- exact Hu0.
    + exists st'. split; [exact E' |].
      eapply seeded_ext; [| exact Hs']. intros c Hsc. rewrite in_app_iff. cbn [In].
      destruct Hsc as ([Hcx Hcy] & _). rewrite !In_upto. lia.
  - exists d, queue. split; [exact E |].
    eapply seeded_ext; [| exact Hs]. intros c ([Hcx Hcy] & _). cbn beta.
    rewrite In_upto. split; [tauto | intros _; lia].
Qed.

Lemma seeded_front_ok (d : list Q) (queue : list node) :
  seeded (fun _ => True) (d, queue) -> front_ok [] d queue.
Proof.
  intros (Hl & Hd & Hq & Hin & Hu). cbn [fst snd] in *.
  split; [| split; [| split; [| split]]].
  - split; [exact Hl |]. split.
    + intros c v Hg Ev. destruct (Hd c Hg) as [(E & Hs & _) | (E & _)];
        rewrite E in Ev; injection Ev as <-.
      * split; [lra |]. split; [vm_compute; discriminate |]. right.
        exists 0. split; [now constructor |]. split; [reflexivity |].
        vm_compute. discriminate.
      * split; [vm_compute; discriminate |]. split; [lra | now left].
    + intros c v Hs Ev. destruct (Hd c (proj1 (start_free c Hs))) as [(E & _) | (_ & Hn)].
      * rewrite E in Ev. injection Ev as <-. lra.
      * exfalso. apply Hn. tauto.
  - split; [| exact Hu]. intros nd Hnd. destruct (Hq nd Hnd) as (Ef & Hs & _).
    unfold score. rewrite Ef. split; [| split].
    + exists 0. split; [now constructor | reflexivity].
    + vm_compute. reflexivity.
    + destruct (Hd (snd nd) (proj1 (start_free _ Hs))) as [(E & _) | (_ & Hn)].
      * exists 0. split; [exact E | vm_compute; discriminate].
      * exfalso. apply Hn. tauto.
  - constructor.
  - intros c [].
  - intros c v Hf _ Ev Hv. destruct (Hd c (proj1 Hf)) as [(E & Hs & _) | (E & _)];
      rewrite E in Ev; injection Ev as <-.
    + exists (0, c). split; [now apply Hin |]. split; reflexivity.
    + exfalso. lra.
Qed.

(** *** One relaxation *)

Lemma dist_ok_weaken (k : nat) (d : list Q) : dist_ok k d -> dist_ok (S k) d.
Proof.
  intros (Hl & Hd & Hs). split; [exact Hl |]. split; [| exact Hs].
  intros c v Hg Ev. destruct (Hd c v Hg Ev) as (H0 & Hm & [-> | (q & Hp & Hq & Hb)]).
  - split; [exact H0 |]. split; [exact Hm | now left].
  - split; [exact H0 |]. split; [exact Hm |]. right. exists q.
    split; [exact Hp |]. split; [exact Hq |].
    rewrite Nat2Z.inj_succ. unfold Z.succ. rewrite inject_Z_plus.
    change (inject_Z 1) with 1. lra.
Qed.

Lemma expanded_subqueue (d : list Q) (queue queue' : list node)
  (offs : list (Z * Z)) (c : cell) :
  (forall nd, In nd queue' -> In nd queue) ->
  expanded d queue offs c -> expanded d queue' offs c.
Proof.
  intros Hsub (Hf & v & Ev & Hv & H4 & H5 & H3). split; [exact Hf |].
  exists v. split; [exact Ev |]. split; [exact Hv |]. split; [| split].
  - intros nd Hin. apply H4. now apply Hsub.
  - intros nd Hin. apply H5. now apply Hsub.
  - exact H3.
Qed.

Lemma expanded_snoc (d : list Q) (queue : list node) (offs : list (Z * Z))
  (c : cell) (ij : Z * Z) :
  expanded d queue offs c ->
  (forall v, zth d (at_ c) = Some v -> free (shift c ij) ->
     exists v', zth d (at_ (shift c ij)) = Some v' /\ v' <= v + step_cost ij) ->
  expanded d queue (offs ++ [ij]) c.
Proof.
  intros (Hf & v & Ev & Hv & H4 & H5 & H3) Hnew. split; [exact Hf |].
  exists v. split; [exact Ev |]. split; [exact Hv |]. split; [exact H4 |].
  split; [exact H5 |]. intros ij' Hin Hfree. apply in_app_or in Hin.
  destruct Hin as [Hin | [<- | []]]; [now apply H3 | now apply Hnew].
Qed.

(** The distance of the cell [n] drops from [old] to [new_score], and the
    queue gets the entry for it. *)
Lemma expanded_after_update (d d1 : list Q) (queue : list node)
  (offs : list (Z * Z)) (c n : cell) (new_score old : Q) :
  grid n -> zth d (at_ n) = Some old -> new_score < old ->
  zth d1 (at_ n) = Some new_score ->
  (forall k, k <> at_ n -> zth d1 k = zth d k) ->
  c <> n ->
  (forall v, zth d (at_ c) = Some v -> v <= new_score) ->
  expanded d queue offs c ->
  expanded d1 ((- new_score, n) :: queue) offs c.
Proof.
  intros Hgn Eold Hlt Enew Hother Hne Hle (Hf & v & Ev & Hv & H4 & H5 & H3).
  assert (Hat : forall c', grid c' -> c' <> n -> zth d1 (at_ c') = zth d (at_ c')).
  { intros c' Hg' Hn'. apply Hother. intro E. apply Hn'. eapply idx_inj; eauto. }
  split; [exact Hf |]. exists v.
  split; [rewrite Hat; [exact Ev | exact (proj1 Hf) | exact Hne] |].
  split; [exact Hv |]. split; [| split].
  - intros nd [<- | Hin]; [| now apply H4].
    unfold score. cbn [fst]. specialize (Hle v Ev). lra.
  - intros nd [<- | Hin] Hc; [cbn [snd] in Hc; congruence | now apply H5].
  - intros ij Hin Hfree. destruct (H3 ij Hin Hfree) as (v' & Ev' & Hv').
    destruct (cell_eq_dec (shift c ij) n) as [E | Hn'].
    + rewrite E in *. rewrite Eold in Ev'. injection Ev' as <-.
      exists new_score. split; [exact Enew | lra].
    + exists v'. split; [| exact Hv']. rewrite Hat; [exact Ev' | exact (proj1 Hfree) | exact Hn'].
Qed.

(** A cell expanded before: nothing changes. *)
Lemma relax_stale (d : list Q) (queue rest : list node) (c : cell) (s v : Q)
  (ij : Z * Z) :
  zlen d = (width * height)%Z ->
  expanded d queue neighbour_offsets c -> zth d (at_ c) = Some v -> v < s ->
  In ij neighbour_offsets ->
  relax sqrt width mask s (fst c) (snd c) ij (d, rest) = Ok (d, rest).
Proof.
  intros Hl (Hf & v0 & Ev0 & _ & _ & _ & H3) Ev Hlt Hij.
  rewrite Ev in Ev0. injection Ev0 as <-.
  pose proof (shift_in_grid c ij (free_interior c Hf) Hij) as Hgn.
  destruct (mask_read (shift c ij) Hgn) as (m & Em & Hm).
  unfold relax. destruct ij as [i j].
  change ((snd c + j) * width + (fst c + i))%Z with (at_ (shift c (i, j))).
  rewrite Em. cbn [of_option bind].
  destruct m; cbn [negb]; [| reflexivity].
  destruct (H3 (i, j) Hij (proj1 Hm eq_refl)) as (v' & Ev' & Hv').
  rewrite Ev'. cbn [of_option bind].
  pose proof (step_norm_cost (i, j) Hij) as Hn. cbn [fst snd] in Hn.
  destruct (fltb (s + step_norm sqrt i j) v') eqn:Eb; [| reflexivity].
  apply fltb_true in Eb. lra.
Qed.

(** The state while the cell [c], popped with the score [s], relaxes its
    neighbours: those at the offsets [pre] are done. *)
Definition relaxing (done : list cell) (c : cell) (s vc : Q) (bound : nat)
  (pre : list (Z * Z)) (st : front) : Prop :=
  dist_ok (S (length done)) (fst st) /\ queue_ok (fst st) (snd st) /\
  (forall c', In c' done -> expanded (fst st) (snd st) neighbour_offsets c') /\
  expanded (fst st) (snd st) pre c /\
  pending (c :: done) (fst st) (snd st) /\
  (forall c' v, In c' done -> zth (fst st) (at_ c') = Some v -> v <= s) /\
  zth (fst st) (at_ c) = Some vc /\
  (length (snd st) <= bound + length pre)%nat.

Lemma relax_fresh (done : list cell) (c : cell) (s vc qc : Q) (bound : nat)
  (pre : list (Z * Z)) (ij : Z * Z) (st : front) :
  vc == s -> path_cost c qc -> qc == s ->
  vc <= 2 * inject_Z (Z.of_nat (length done)) ->
  In ij neighbour_offsets ->
  relaxing done c s vc bound pre st ->
  exists st', relax sqrt width mask s (fst c) (snd c) ij st = Ok st' /\
              relaxing done c s vc bound (pre ++ [ij]) st'.
Proof.
  intros Hvs Hpc Hqs Hvb Hij.
  destruct st as [d queue]. unfold relaxing. cbn [fst snd].
  intros (Hd & Hq & Hdone & Hc & Hpend & Hlow & Evc & Hlen).
  assert (Hfc : free c) by exact (proj1 Hc).
  pose proof (shift_in_grid c ij (free_interior c Hfc) Hij) as Hgn.
  pose proof (step_norm_cost ij Hij) as Hnorm.
  pose proof (step_cost_bounds ij) as [Hw0 Hw2].
  assert (Hpath : free (shift c ij) -> path_cost (shift c ij) (qc + step_cost ij))
    by (intro; now apply path_step).
  assert (Hnc : c <> shift c ij)
    by (intro E; symmetry in E; revert E; apply shift_neq; exact Hij).
  destruct ij as [i j]. cbn [fst snd] in Hnorm.
  assert (Eidx : ((snd c + j) * width + (fst c + i))%Z = at_ (shift c (i, j)))
    by reflexivity.
  remember (shift c (i, j)) as n eqn:En in *.
  destruct (mask_read n Hgn) as (m & Em & Hm).
  destruct Hd as (Hl & Hdv & Hsrc).
  destruct (zth_in_range d (at_ n)) as [old Eold].
  { rewrite Hl. now apply idx_range. }
  assert (Hlen' : (length queue <= bound + length (pre ++ [(i, j)]))%nat).
  { rewrite length_app. cbn [length]. lia. }
  (* the state is kept *)
  assert (Hkeep : (free n -> old <= vc + step_cost (i, j)) ->
            dist_ok (S (length done)) d /\ queue_ok d queue /\
            (forall c', In c' done -> expanded d queue neighbour_offsets c') /\
            expanded d queue (pre ++ [(i, j)]) c /\
            pending (c :: done) d queue /\
            (forall c' v, In c' done -> zth d (at_ c') = Some v -> v <= s) /\
            zth d (at_ c) = Some vc /\
            (length queue <= bound + length (pre ++ [(i, j)]))%nat).
  { intro Hold. split; [split; [exact Hl | split; assumption] |].
    split; [exact Hq |]. split; [exact Hdone |]. split.
    - apply expanded_snoc; [exact Hc |]. intros v Ev Hfn.
      rewrite Evc in Ev. injection Ev as <-. rewrite <- En in Hfn |- *.
      exists old. split; [exact Eold | auto].
    - repeat split; assumption. }
  unfold relax. rewrite Eidx, Em. cbn [of_option bind].
  destruct m; cbn [negb].
  2:{ exists (d, queue). split; [reflexivity |]. apply Hkeep.
      intro Hfn. apply Hm in Hfn. discriminate. }
  assert (Hfn : free n) by now apply Hm.
  rewrite Eold. cbn [of_option bind].
  set (new_score := s + step_norm sqrt i j) in *.
  destruct (fltb new_score old) eqn:Eb.
  2:{ apply fltb_false in Eb. exists (d, queue). split; [reflexivity |].
      apply Hkeep. intros _. unfold new_score in Eb. lra. }
  apply fltb_true in Eb.
  destruct (Hdv c vc (proj1 Hfc) Evc) as (Hvc0 & _ & _).
  destruct (Hdv n old Hgn Eold) as (_ & Holdmax & _).
  assert (Hnd : ~ In n done).
  { intro Hin. specialize (Hlow n old Hin Eold). unfold new_score in Eb. lra. }
  destruct (zset_spec d (at_ n) new_score) as (d1 & E1 & Hl1 & Hs1 & Ho1).
  { rewrite Hl. now apply idx_range. }
  rewrite E1. cbn [of_option bind].
  assert (Hat : forall c', grid c' -> c' <> n -> zth d1 (at_ c') = zth d (at_ c')).
  { intros c' Hg' Hn'. apply Ho1. intro E. apply Hn'. eapply idx_inj; eauto. }
  eexists. split; [reflexivity |]. cbn [fst snd].
  change ((fst c + i)%Z, (snd c + j)%Z) with (shift c (i, j)). rewrite <- En.
  split; [| split; [| split; [| split; [| split; [| split; [| split]]]]]].
  - (* distances *)
    split; [lia |]. split.
    + intros c' v Hg' Ev. destruct (cell_eq_dec c' n) as [-> | Hn'].
      * rewrite Hs1 in Ev. injection Ev as <-.
        split; [unfold new_score; lra |]. split; [lra |]. right.
        exists (qc + step_cost (i, j)). split; [exact (Hpath Hfn) |].
        split; [unfold new_score; lra |].
        rewrite Nat2Z.inj_succ. unfold Z.succ. rewrite inject_Z_plus.
        change (inject_Z 1) with 1. unfold new_score. lra.
      * rewrite Hat in Ev by assumption. now apply Hdv.
    + intros c' v Hs' Ev. destruct (cell_eq_dec c' n) as [-> | Hn'].
      * rewrite Hs1 in Ev. injection Ev as <-.
        specialize (Hsrc n old Hs' Eold). lra.
      * rewrite Hat in Ev; [now apply (Hsrc c') | exact (proj1 (start_free c' Hs')) | exact Hn'].
  - (* queue *)
    destruct Hq as [Hqe Hqd]. split.
    + intros nd [<- | Hin].
      * unfold score. cbn [fst snd]. split; [| split].
        -- exists (qc + step_cost (i, j)). split; [exact (Hpath Hfn) |].
           unfold new_score. lra.
        -- lra.
        -- exists new_score. split; [exact Hs1 | lra].
      * destruct (Hqe nd Hin) as (Hp & Hm' & v & Ev & Hv).
        split; [exact Hp |]. split; [exact Hm' |].
        destruct (cell_eq_dec (snd nd) n) as [E | Hn'].
        -- rewrite E in *. rewrite Eold in Ev. injection Ev as <-.
           exists new_score. split; [exact Hs1 | lra].
        -- exists v. split; [| exact Hv]. rewrite Hat; [exact Ev | | exact Hn'].
           destruct Hp as (q & Hp & _). exact (proj1 (path_free _ _ Hp)).
    + split; [| exact Hqd]. intros nd' Hin Hcell.
      destruct (Hqe nd' Hin) as (_ & _ & v & Ev & Hv).
      cbn [snd] in Hcell. rewrite Hcell, Eold in Ev. injection Ev as <-.
      unfold score at 2. cbn [fst]. lra.
  - (* cells expanded before *)
    intros c' Hin. apply (expanded_after_update d d1 queue _ c' n new_score old);
      try assumption.
    + intros ->. contradiction.
    + intros v Ev. specialize (Hlow c' v Hin Ev). unfold new_score. lra.
    + now apply Hdone.
  - (* the cell being expanded *)
    apply expanded_snoc.
    + apply (expanded_after_update d d1 queue _ c n new_score old); try assumption.
      intros v Ev. rewrite Evc in Ev. injection Ev as <-. unfold new_score. lra.
    + intros v Ev _. rewrite Hat in Ev by (try exact (proj1 Hfc); assumption).
      rewrite Evc in Ev. injection Ev as <-. rewrite <- En.
      exists new_score. split; [exact Hs1 | unfold new_score; lra].
  - (* cells waiting in the queue *)
    intros c' v Hf' Hnin Ev Hv. destruct (cell_eq_dec c' n) as [-> | Hn'].
    + rewrite Hs1 in Ev. injection Ev as <-.
      eexists. split; [now left |]. split; [reflexivity |].
      unfold score. cbn [fst]. lra.
    + rewrite Hat in Ev by (try exact (proj1 Hf'); assumption).
      destruct (Hpend c' v Hf' Hnin Ev Hv) as (nd & Hin & Hc' & Hs').
      exists nd. split; [now right | split; assumption].
  - intros c' v Hin Ev. rewrite Hat in Ev.
    + now apply (Hlow c').
    + exact (proj1 (proj1 (Hdone c' Hin))).
    + intros ->. contradiction.
  - rewrite Hat; [exact Evc | exact (proj1 Hfc) | exact Hnc].
  - rewrite length_app. cbn [length]. lia.
Qed.

(** *** The propagation *)

Lemma In_remove_middle {A : Type} (q1 q2 : list A) (a b : A) :
  In b (q1 ++ a :: q2) -> b <> a -> In b (q1 ++ q2).
Proof.
  intros Hin Hne. apply in_app_or in Hin. apply in_or_app.
  destruct Hin as [Hin | [E | Hin]]; [now left | congruence | now right].
Qed.

Lemma In_keep_middle {A : Type} (q1 q2 : list A) (a b : A) :
  In b (q1 ++ q2) -> In b (q1 ++ a :: q2).
Proof.
  intro Hin. apply in_app_or in Hin. apply in_or_app.
  destruct Hin as [Hin | Hin]; [now left | right; now right].
Qed.

Lemma propagate_more_fuel (fuel : nat) : forall (st : front) (d : list Q),
  propagate sqrt fuel width mask st = Ok d ->
  forall fuel', (fuel <= fuel')%nat -> propagate sqrt fuel' width mask st = Ok d.
Proof.
  induction fuel as [| fuel IH]; intros st d E fuel' Hle.
  - cbn [propagate] in E. destruct (top_pop (snd st)) as [[nd rest] |] eqn:Et;
      [discriminate |].
    destruct fuel'; cbn [propagate]; rewrite Et; exact E.
  - destruct fuel' as [| fuel']; [lia |].
    cbn [propagate] in E |- *. destruct (top_pop (snd st)) as [[nd rest] |];
      [| exact E].
    destruct (for_each neighbour_offsets _ _) as [st' | | |]; cbn [bind] in E |- *;
      try discriminate.
    apply (IH _ _ E). lia.
Qed.

Lemma front_done_grid (done : list cell) (d : list Q) (queue : list node) :
  front_ok done d queue -> forall c, In c done -> grid c.
Proof. intros (_ & _ & _ & He & _) c Hin. exact (proj1 (proj1 (He c Hin))). Qed.

Lemma propagate_spec (fuel : nat) : forall done d queue,
  front_ok done d queue ->
  (8 * (width * height - Z.of_nat (length done)) + Z.of_nat (length queue)
   <= Z.of_nat fuel)%Z ->
  exists d' done', propagate sqrt fuel width mask (d, queue) = Ok d' /\
                   front_ok done' d' [].
Proof.
  induction fuel as [| fuel IH]; intros done d queue Hok Hfuel.
  - (* no fuel: the queue is empty *)
    pose proof (done_bound done (proj1 (proj2 (proj2 Hok))) (front_done_grid _ _ _ Hok)).
    destruct queue as [| nd queue]; [| cbn [length] in Hfuel; lia].
    exists d, done. split; [reflexivity | exact Hok].
  - cbn [propagate fst snd].
    destruct (top_pop queue) as [[nd rest] |] eqn:Et.
    2:{ apply top_pop_None in Et. subst queue. exists d, done. split; [reflexivity | exact Hok]. }
    destruct (top_pop_spec _ _ _ Et) as [(q1 & q2 & -> & ->) Hmin].
    destruct Hok as (Hd & [Hqe Hqd] & Hnd & Hexp & Hpend).
    assert (Hnd_in : In nd (q1 ++ nd :: q2)) by (apply in_or_app; right; now left).
    destruct (Hqe nd Hnd_in) as ((qc & Hpc & Hqc) & Hsmax & vc & Evc & Hvc).
    destruct (distinct_entries_remove _ _ _ Hqd) as [Hqd' Hother].
    set (c := snd nd) in *. set (s := score nd) in *.
    assert (Hfc : free c) by exact (path_free _ _ Hpc).
    assert (Hsub : forall nd', In nd' (q1 ++ q2) -> In nd' (q1 ++ nd :: q2))
      by (intros; now apply In_keep_middle).
    assert (Hq' : queue_ok d (q1 ++ q2)).
    { split; [intros nd' Hin; apply Hqe; now apply Hsub | exact Hqd']. }
    change (- fst nd) with s. change (fst (snd nd)) with (fst c).
    change (snd (snd nd)) with (snd c).
    destruct (in_dec cell_eq_dec c done) as [Hin | Hnin].
    + (* the cell was expanded before: the entry is dropped *)
      assert (Hlt : vc < s).
      { destruct (Hexp c Hin) as (_ & v & Ev & _ & _ & H5 & _).
        rewrite Evc in Ev. injection Ev as <-. now apply (H5 nd). }
      loop_inv (fun st : front => st = (d, q1 ++ q2)) Hloop.
      destruct Hloop as (st' & E' & ->); [reflexivity | |].
      { intros ij st0 Hij ->. eexists. split; [| reflexivity].
        eapply relax_stale; eauto. exact (proj1 Hd). }
      rewrite E'. cbn [bind].
      apply (IH done).
      * split; [exact Hd |]. split; [exact Hq' |]. split; [exact Hnd |]. split.
        -- intros c' Hc'. eapply expanded_subqueue; [exact Hsub | now apply Hexp].
        -- intros c' v Hf' Hn' Ev Hv.
           destruct (Hpend c' v Hf' Hn' Ev Hv) as (nd' & Hin' & Hc' & Hs').
           exists nd'. split; [| split; assumption].
           apply (In_remove_middle _ _ nd); [exact Hin' |].
           intros ->. apply Hn'. rewrite <- Hc'. exact Hin.
      * rewrite length_app in *. cbn [length] in Hfuel. lia.
    + (* the cell is expanded now *)
      assert (Hvmax : vc < FLT_MAX) by lra.
      destruct (Hpend c vc Hfc Hnin Evc Hvmax) as (ndf & Hinf & Hcf & Hsf).
      pose proof (Hmin ndf Hinf) as Hle. fold s in Hle.
      assert (Hvs : vc == s) by lra.
      assert (Hvb : vc <= 2 * inject_Z (Z.of_nat (length done))).
      { destruct Hd as (_ & Hdv & _).
        destruct (Hdv c vc (proj1 Hfc) Evc) as (_ & _ & [-> | (q & _ & _ & Hb)]);
          [exfalso; lra | exact Hb]. }
      loop_prefix_inv (fun pre (st : front) =>
        relaxing done c s vc (length (q1 ++ q2)) pre st) Hloop.
      destruct Hloop as ([d' queue'] & E' & Hrel).
      * unfold relaxing. cbn [fst snd length].
        split; [now apply dist_ok_weaken |]. split; [exact Hq' |].
        split; [| split; [| split; [| split; [| split]]]].
        -- intros c' Hc'. eapply expanded_subqueue; [exact Hsub | now apply Hexp].
        -- split; [exact Hfc |]. exists vc. split; [exact Evc |].
           split; [exact Hvmax |]. split; [| split].
           ++ intros nd' Hin'. specialize (Hmin nd' (Hsub nd' Hin')). fold s in Hmin. lra.
           ++ intros nd' Hin' Hc'. specialize (Hmin nd' (Hsub nd' Hin')). fold s in Hmin.
              specialize (Hother nd' Hin' Hc'). fold s in Hother.
              destruct (Qlt_le_dec s (score nd')) as [Hl | Hg]; [lra |].
              exfalso. apply Hother. lra.
           ++ intros ij [].
        -- intros c' v Hf' Hn' Ev Hv.
           assert (Hn'' : ~ In c' done) by (intro; apply Hn'; now right).
           destruct (Hpend c' v Hf' Hn'' Ev Hv) as (nd' & Hin' & Hc' & Hs').
           exists nd'. split; [| split; assumption].
           apply (In_remove_middle _ _ nd); [exact Hin' |].
           intros ->. apply Hn'. left. exact Hc'.
        -- intros c' v Hc' Ev. destruct (Hexp c' Hc') as (_ & v' & Ev' & _ & H4 & _).
           rewrite Ev in Ev'. injection Ev' as <-. now apply (H4 nd).
        -- exact Evc.
        -- lia.
      * intros pre ij post st0 El Hrel0.
        eapply relax_fresh; eauto.
        rewrite El. apply in_or_app. right. now left.
      * rewrite E'. cbn [bind].
        destruct Hrel as (Hd' & Hq'' & Hexp' & Hc' & Hpend' & _ & _ & Hlen').
        cbn [fst snd] in *.
        apply (IH (c :: done)).
        -- split; [exact Hd' |]. split; [exact Hq'' |].
           split; [constructor; assumption |]. split; [| exact Hpend'].
           intros c' [<- | Hc'']; [exact Hc' | now apply Hexp'].
        -- assert (length neighbour_offsets = 8%nat) by reflexivity.
           rewrite length_app in *. cbn [length] in Hfuel |- *. lia.
Qed.

(** *** The distance field *)

Lemma FLT_MAX_room : 2 * inject_Z INT_MAX + 2 < FLT_MAX.
Proof. vm_compute. reflexivity. Qed.

(** With the queue empty, every path has been accounted for. *)
Lemma front_final (done : list cell) (d : list Q) :
  front_ok done d [] ->
  forall c q, path_cost c q ->
    exists v, zth d (at_ c) = Some v /\ v <= q /\ v < FLT_MAX.
Proof.
  intros Hok. pose proof (front_done_grid _ _ _ Hok) as Hgrid.
  destruct Hok as (Hd & _ & Hnd & Hexp & Hpend).
  pose proof (done_bound done Hnd Hgrid) as Hcount.
  destruct Hd as (Hl & Hdv & Hsrc).
  assert (Hroom : 2 * inject_Z (Z.of_nat (length done)) + 2 < FLT_MAX).
  { pose proof FLT_MAX_room.
    assert (inject_Z (Z.of_nat (length done)) <= inject_Z INT_MAX)
      by (rewrite <- Zle_Qle; lia).
    lra. }
  induction 1 as [c Hs | c q ij Hp (vc & Evc & Hvq & Hvm) Hij Hf].
  - destruct (zth_in_range d (at_ c)) as [v Ev].
    { rewrite Hl. apply idx_range. exact (proj1 (start_free c Hs)). }
    exists v. split; [exact Ev |]. specialize (Hsrc c v Hs Ev).
    pose proof FLT_MAX_room. assert (0 <= inject_Z INT_MAX) by (vm_compute; discriminate).
    split; lra.
  - pose proof (path_free _ _ Hp) as Hfc.
    assert (Hin : In c done).
    { destruct (in_dec cell_eq_dec c done) as [Hin | Hnin]; [exact Hin |].
      destruct (Hpend c vc Hfc Hnin Evc Hvm) as (nd & [] & _). }
    destruct (Hexp c Hin) as (_ & v0 & Ev0 & _ & _ & _ & H3).
    rewrite Evc in Ev0. injection Ev0 as <-.
    destruct (H3 ij Hij Hf) as (v' & Ev' & Hv').
    exists v'. split; [exact Ev' |]. split; [lra |].
    destruct (Hdv c vc (proj1 Hfc) Evc) as (_ & _ & [-> | (_ & _ & _ & Hb)]);
      [exfalso; lra |].
    pose proof (step_cost_bounds ij). lra.
Qed.

(** What the claim says of the field [d]: it is 0 on the sources and
    nowhere else, the least cost of a path on every cell some path reaches,
    and [numeric_limits<float>::max()] on every other cell. *)
Definition shortest (d : list Q) : Prop :=
  forall c, grid c ->
    exists v, zth d (at_ c) = Some v /\
      (v == 0 <-> start c) /\
      (forall q, path_cost c q -> v <= q) /\
      ((exists q, path_cost c q) -> exists q, path_cost c q /\ v == q) /\
      (closed width mask c \/ ~ (exists q, path_cost c q) -> v = FLT_MAX).

Lemma front_shortest (done : list cell) (d : list Q) :
  front_ok done d [] -> shortest d.
Proof.
  intros Hok c Hg. pose proof (front_final done d Hok) as Hfinal.
  destruct Hok as ((Hl & Hdv & Hsrc) & _).
  destruct (zth_in_range d (at_ c)) as [v Ev].
  { rewrite Hl. now apply idx_range. }
  exists v. split; [exact Ev |].
  destruct (Hdv c v Hg Ev) as (Hv0 & Hvm & Hcase).
  assert (Hmin : forall q, path_cost c q -> v <= q /\ v < FLT_MAX).
  { intros q Hp. destruct (Hfinal c q Hp) as (v' & Ev' & H1 & H2).
    rewrite Ev in Ev'. injection Ev' as <-. now split. }
  split; [| split; [| split]].
  - split.
    + intro Hz. destruct Hcase as [-> | (q & Hp & Hq & _)].
      * exfalso. revert Hz. vm_compute. discriminate.
      * apply (proj2 (path_nonneg c q Hp)). lra.
    + intro Hs. specialize (Hsrc c v Hs Ev). lra.
  - intros q Hp. exact (proj1 (Hmin q Hp)).
  - intros (q & Hp). destruct Hcase as [-> | (q' & Hp' & Hq' & _)].
    + exfalso. destruct (Hmin q Hp). lra.
    + exists q'. split; [exact Hp' | lra].
  - intros Hout. destruct Hcase as [-> | (q & Hp & _)]; [reflexivity |].
    exfalso. destruct Hout as [Hcl | Hno].
    + destruct (path_free _ _ Hp) as [_ Hm]. unfold closed in Hcl. congruence.
    + apply Hno. now exists q.
Qed.

Lemma distance_field :
  exists d, shortest d /\
    exists fuel0, forall fuel, (fuel0 <= fuel)%nat ->
      (st <- seed_front width height mask ;; propagate sqrt fuel width mask st) = Ok d.
Proof.
  destruct seed_front_spec as (d0 & queue0 & E0 & Hseed).
  pose proof (seeded_front_ok d0 queue0 Hseed) as Hok.
  set (fuel0 := Z.to_nat (8 * (width * height) + Z.of_nat (length queue0))).
  destruct (propagate_spec fuel0 [] d0 queue0 Hok) as (d & done & E & Hfinal).
  { cbn [length]. unfold fuel0. pose proof mask_size. unfold zlen in *. lia. }
  exists d. split; [exact (front_shortest done d Hfinal) |].
  exists fuel0. intros fuel Hfuel. rewrite E0. cbn [bind].
  exact (propagate_more_fuel fuel0 _ _ E fuel Hfuel).
Qed.

End Shortest.

(** C4.  On a mask of the size of the frame whose border is clear, with
    [width * height] an [int], the propagation ends (every amount of fuel
    from some amount on gives the same field), and in the field a cell holds
    0 exactly when it is a source, the least cost of an 8-connected path of
    cells of the mask from a source when there is such a path, and
    [numeric_limits<float>::max()] when it is outside the mask or no path
    reaches it. *)
Theorem SetDistanceToBoundary_shortest (sqrt : Q -> Q) (frame : Frame)
  (mask : list bool) :
  sqrt 1 == 1 -> 0 < sqrt 2 -> sqrt 2 <= 2 ->
  zlen mask = (size0 frame * size1 frame)%Z ->
  border_clear (size0 frame) (size1 frame) mask = true ->
  (size0 frame * size1 frame <= INT_MAX)%Z ->
  exists d,
    (forall c, in_grid (size0 frame) (size1 frame) c ->
       exists v, zth d (idx (size0 frame) c) = Some v /\
         (v == 0 <-> source (size0 frame) (size1 frame) mask c) /\
         (forall q, path_cost sqrt (size0 frame) (size1 frame) mask c q -> v <= q) /\
         ((exists q, path_cost sqrt (size0 frame) (size1 frame) mask c q) ->
          exists q, path_cost sqrt (size0 frame) (size1 frame) mask c q /\ v == q) /\
         (closed (size0 frame) mask c \/
          ~ (exists q, path_cost sqrt (size0 frame) (size1 frame) mask c q) ->
          v = FLT_MAX)) /\
    exists fuel0, forall fuel, (fuel0 <= fuel)%nat ->
      SetDistanceToBoundary sqrt fuel frame mask = Ok d.
Proof.
  intros H1 H2 H3 Hsize Hborder Hint.
  destruct (distance_field sqrt H1 H2 H3 (size0 frame) (size1 frame) mask
              Hsize Hborder Hint) as (d & Hshort & fuel0 & Hrun).
  exists d. split; [exact Hshort |]. exists fuel0. exact Hrun.
Qed.

(** [sqrt] at the two arguments the propagation gives it: 1, and the double
    nearest to the square root of 2. *)
Definition sqrt_1_2 (q : Q) : Q :=
  if Qeq_bool q 1 then 1 else 6369051672525773 # 4503599627370496.

(** A raster of 9 by 9 cells, all in the mask but the border and (5, 5). *)
Definition room : list bool :=
  flat_map
    (fun y => map (fun x => (1 <=? x)%Z && (x <=? 7)%Z && (1 <=? y)%Z && (y <=? 7)%Z &&
                            negb ((x =? 5)%Z && (y =? 5)%Z))
                  (upto 0 9))
    (upto 0 9).

Definition room_frame : Frame :=
  mkFrame (V3f 1 0 0, V3f 0 1 0, V3f 0 0 1) ((0, 9), (0, 9), (0, 0)) 1 (9, 9, 0)%Z.

(** The cell (4, 5) is a source, next to (5, 5); (3, 4) is reached from it
    by a diagonal step, which is shorter than the two steps from (1, 4). *)
Example room_distances :
  match SetDistanceToBoundary sqrt_1_2 200 room_frame room with
  | Ok d =>
      option_map Qred (zth d (idx 9 (4, 5)%Z)) = Some 0 /\
      option_map Qred (zth d (idx 9 (3, 4)%Z)) = Some (Qred (sqrt_1_2 2)) /\
      option_map Qred (zth d (idx 9 (2, 4)%Z)) = Some 1 /\
      zth d (idx 9 (5, 5)%Z) = Some FLT_MAX /\
      zth d (idx 9 (0, 0)%Z) = Some FLT_MAX
  | _ => False
  end.
Proof. vm_compute. repeat split. Qed.

Lemma SetDistanceToBoundary_shortest_witness :
  exists d,
    (forall c, in_grid 9 9 c ->
       exists v, zth d (idx 9 c) = Some v /\
         (v == 0 <-> source 9 9 room c) /\
         (forall q, path_cost sqrt_1_2 9 9 room c q -> v <= q) /\
         ((exists q, path_cost sqrt_1_2 9 9 room c q) ->
          exists q, path_cost sqrt_1_2 9 9 room c q /\ v == q) /\
         (closed 9 room c \/ ~ (exists q, path_cost sqrt_1_2 9 9 room c q) ->
          v = FLT_MAX)) /\
    exists fuel0, forall fuel, (fuel0 <= fuel)%nat ->
      SetDistanceToBoundary sqrt_1_2 fuel room_frame room = Ok d.
Proof.
  apply (SetDistanceToBoundary_shortest sqrt_1_2 room_frame room).
  - reflexivity.
  - reflexivity.
  - vm_compute. discriminate.
  - reflexivity.
  - reflexivity.
  - vm_compute. discriminate.
Defined.

End DistanceFacts.

(** ** Loops over a raster *)

Lemma for_each_map {A B S : Type} (f : A -> B) (l : list A)
  (body : B -> S -> outcome S) (s : S) :
  for_each (map f l) body s = for_each l (fun a => body (f a)) s.
Proof.
  revert s. induction l as [| a l IH]; intro s; [reflexivity |].
  cbn [map for_each]. destruct (body (f a) s); cbn [bind]; auto.
Qed.

Lemma for_each_flat_map {A B S : Type} (g : A -> list B) (l : list A)
  (body : B -> S -> outcome S) (s : S) :
  for_each (flat_map g l) body s = for_each l (fun a s => for_each (g a) body s) s.
Proof.
  revert s. induction l as [| a l IH]; intro s; [reflexivity |].
  cbn [flat_map for_each]. rewrite for_each_app.
  destruct (for_each (g a) body s); cbn [bind]; auto.
Qed.

(** The cells [(x, y)] with [xlo <= x < xhi] and [ylo <= y < yhi], row by
    row: the order in which two nested loops, [y] outside, visit them. *)
Definition raster (xlo xhi ylo yhi : Z) : list (Z * Z) :=
  flat_map (fun y => map (fun x => (x, y)) (upto xlo xhi)) (upto ylo yhi).

Lemma for_each_ext {A S : Type} (l : list A) (f g : A -> S -> outcome S) (s : S) :
  (forall a s, In a l -> f a s = g a s) -> for_each l f s = for_each l g s.
Proof.
  revert s. induction l as [| a l IH]; intros s H; [reflexivity |].
  cbn [for_each]. rewrite (H a s) by now left.
  destruct (g a s); cbn [bind]; auto. apply IH. intros; apply H; now right.
Qed.

Lemma raster_loop {S : Type} (xlo xhi ylo yhi : Z)
  (body : Z -> Z -> S -> outcome S) (s : S) :
  for_each (upto ylo yhi)
    (fun y s => for_each (upto xlo xhi) (fun x s => body x y s) s) s =
  for_each (raster xlo xhi ylo yhi) (fun c s => body (fst c) (snd c) s) s.
Proof.
  unfold raster. rewrite for_each_flat_map.
  apply for_each_ext. intros y s' _. now rewrite for_each_map.
Qed.

Lemma In_raster (xlo xhi ylo yhi : Z) (c : Z * Z) :
  In c (raster xlo xhi ylo yhi) <->
  (xlo <= fst c < xhi)%Z /\ (ylo <= snd c < yhi)%Z.
Proof.
  unfold raster. rewrite in_flat_map. split.
  - intros (y & Hy & Hc). apply in_map_iff in Hc. destruct Hc as (x & <- & Hx).
    apply In_upto in Hx, Hy. cbn [fst snd]. lia.
  - intros [Hx Hy]. exists (snd c). split; [apply In_upto; lia |].
    apply in_map_iff. exists (fst c). split; [now destruct c | apply In_upto; lia].
Qed.

(** Row by row, and column by column in a row. *)
Definition row_major (a b : Z * Z) : Prop :=
  (snd a < snd b)%Z \/ (snd a = snd b /\ (fst a < fst b)%Z).

Lemma zrange_sorted (n : nat) : forall lo, StronglySorted Z.lt (zrange lo n).
Proof.
  induction n as [| n IH]; intro lo; cbn [zrange]; constructor; [apply IH |].
  apply Forall_forall. intros x Hx. apply In_zrange in Hx. lia.
Qed.

Lemma StronglySorted_app {A : Type} (R : A -> A -> Prop) (l1 l2 : list A) :
  StronglySorted R l1 -> StronglySorted R l2 ->
  (forall a b, In a l1 -> In b l2 -> R a b) ->
  StronglySorted R (l1 ++ l2).
Proof.
  induction 1 as [| a l1 Hs IH Ha]; intros H2 Hc; [exact H2 |].
  cbn [app]. constructor.
  - apply IH; [exact H2 |]. intros; apply Hc; [now right | assumption].
  - apply Forall_app. split; [exact Ha |].
    apply Forall_forall. intros b Hb. apply Hc; [now left | exact Hb].
Qed.

Lemma StronglySorted_app_inv {A : Type} (R : A -> A -> Prop) (l1 l2 : list A) :
  StronglySorted R (l1 ++ l2) ->
  StronglySorted R l1 /\ StronglySorted R l2 /\
  forall a b, In a l1 -> In b l2 -> R a b.
Proof.
  induction l1 as [| a l1 IH]; cbn [app]; intro H.
  - split; [constructor |]. split; [exact H |]. intros a b [].
  - apply StronglySorted_inv in H. destruct H as [Hs Ha].
    destruct (IH Hs) as (H1 & H2 & Hc). apply Forall_app in Ha. destruct Ha as [Ha1 Ha2].
    split; [now constructor |]. split; [exact H2 |].
    intros x b [<- | Hx] Hb; [| now apply Hc].
    rewrite Forall_forall in Ha2. now apply Ha2.
Qed.

Lemma row_sorted (y : Z) (m : nat) : forall xlo,
  StronglySorted row_major (map (fun x => (x, y)) (zrange xlo m)).
Proof.
  induction m as [| m IHm]; intro xlo; cbn [zrange map]; constructor; [apply IHm |].
  apply Forall_forall. intros b Hb. apply in_map_iff in Hb.
  destruct Hb as (x & <- & Hx). apply In_zrange in Hx. right. cbn [fst snd]. lia.
Qed.

Lemma raster_sorted (xlo xhi ylo yhi : Z) :
  StronglySorted row_major (raster xlo xhi ylo yhi).
Proof.
  unfold raster, upto at 2. generalize (Z.to_nat (yhi - ylo)) as n. intro n.
  revert ylo. induction n as [| n IH]; intro ylo; cbn [zrange flat_map]; [constructor |].
  apply StronglySorted_app.
  - apply row_sorted.
  - apply IH.
  - intros a b Ha Hb. apply in_map_iff in Ha. destruct Ha as (x & <- & _).
    apply in_flat_map in Hb. destruct Hb as (y & Hy & Hb).
    apply in_map_iff in Hb. destruct Hb as (x' & <- & _).
    apply In_zrange in Hy. left. cbn [snd]. lia.
Qed.

(** What the cells already visited are, when the loops are at [c]. *)
Lemma raster_prefix (xlo xhi ylo yhi : Z) (pre post : list (Z * Z)) (c : Z * Z) :
  raster xlo xhi ylo yhi = pre ++ c :: post ->
  ((xlo <= fst c < xhi)%Z /\ (ylo <= snd c < yhi)%Z) /\
  (forall a, In a pre <->
     ((xlo <= fst a < xhi)%Z /\ (ylo <= snd a < yhi)%Z) /\ row_major a c) /\
  ~ In c pre.
Proof.
  intro E. pose proof (raster_sorted xlo xhi ylo yhi) as Hs. rewrite E in Hs.
  apply StronglySorted_app_inv in Hs. destruct Hs as (_ & Hs2 & Hc).
  apply StronglySorted_inv in Hs2. destruct Hs2 as [_ Hpost].
  assert (Hin : forall a, In a (pre ++ c :: post) <->
            (xlo <= fst a < xhi)%Z /\ (ylo <= snd a < yhi)%Z).
  { intro a. rewrite <- E. apply In_raster. }
  assert (Hirr : forall a, ~ row_major a a) by (unfold row_major; intros a; lia).
  assert (Hasym : forall a b, row_major a b -> ~ row_major b a)
    by (unfold row_major; intros a b; lia).
  split; [apply Hin, in_or_app; right; now left |]. split.
  - intro a. split.
    + intro Ha. split; [apply Hin, in_or_app; now left |].
      apply Hc; [exact Ha | now left].
    + intros [Hr Hlt]. apply Hin in Hr. apply in_app_or in Hr.
      destruct Hr as [Hr | [<- | Hr]]; [exact Hr | now apply Hirr in Hlt |].
      rewrite Forall_forall in Hpost. apply Hpost in Hr. now apply Hasym in Hr.
  - intro Hin'. apply (Hirr c). apply Hc; [exact Hin' | now left].
Qed.

Lemma zrange_shift (k : Z) (m : nat) : forall a,
  map (fun x => (k + x)%Z) (zrange a m) = zrange (k + a) m.
Proof.
  induction m as [| m IH]; intro a; [reflexivity |].
  cbn [zrange map]. rewrite IH. do 2 f_equal. lia.
Qed.

Lemma raster_indexes (m n : nat) : forall y0,
  map (fun c => (snd c * Z.of_nat m + fst c)%Z)
      (flat_map (fun y => map (fun x => (x, y)) (zrange 0 m)) (zrange y0 n)) =
  zrange (y0 * Z.of_nat m) (n * m).
Proof.
  induction n as [| n IH]; intro y0; [reflexivity |].
  cbn [zrange flat_map]. rewrite map_app, IH, map_map. cbn [fst snd].
  rewrite (zrange_shift (y0 * Z.of_nat m) m 0).
  cbn [Nat.mul]. rewrite zrange_app. do 2 f_equal; lia.
Qed.

(** The loops reach the cell [(x, y)] of a raster of width [w] after
    [y * w + x] other cells. *)
Lemma raster_index (w h : Z) (pre post : list (Z * Z)) (c : Z * Z) :
  raster 0 w 0 h = pre ++ c :: post -> zlen pre = (snd c * w + fst c)%Z.
Proof.
  intro E.
  assert (Hc : In c (raster 0 w 0 h)) by (rewrite E; apply in_or_app; right; now left).
  apply In_raster in Hc.
  apply (f_equal (map (fun c => (snd c * w + fst c)%Z))) in E.
  unfold raster, upto in E. rewrite !Z.sub_0_r in E.
  pose proof (raster_indexes (Z.to_nat w) (Z.to_nat h) 0) as R.
  rewrite Z2Nat.id in R by lia. rewrite R in E. clear R.
  rewrite map_app in E. cbn [map] in E.
  apply zrange_prefix in E. destruct E as [E _].
  rewrite length_map in E. unfold zlen. lia.
Qed.

(** ** The mask and its boundary *)

Module MaskFacts.
Import DoorDetection DistanceFacts.

Lemma all_cells_raster (w h : Z) : all_cells w h = raster 0 w 0 h.
Proof. reflexivity. Qed.

Lemma in_grid_raster (w h : Z) (c : cell) : In c (raster 0 w 0 h) <-> in_grid w h c.
Proof. rewrite In_raster. unfold in_grid. tauto. Qed.

(** What [SetMask] tests of a cell before it reads the evidence. *)
Lemma SetMask_border_test (w h x y : Z) :
  (y =? 0)%Z || (y =? h - 1)%Z || (x =? 0)%Z || (x =? w - 1)%Z = on_border w h (x, y).
Proof.
  unfold on_border. cbn [fst snd].
  destruct (y =? 0)%Z, (y =? h - 1)%Z, (x =? 0)%Z, (x =? w - 1)%Z; reflexivity.
Qed.

(** X11.  The mask has the size of the evidence; a cell of the raster is in it
    exactly when it is off the border and its evidence is more than
    [kGoodFreeSpaceEvidence], so that the border is clear. *)
Theorem SetMask_spec (frame : Frame) (free_space_evidence : list Q) :
  zlen free_space_evidence = (size0 frame * size1 frame)%Z ->
  exists mask,
    SetMask frame free_space_evidence = Ok mask /\
    zlen mask = zlen free_space_evidence /\
    border_clear (size0 frame) (size1 frame) mask = true /\
    forall c, in_grid (size0 frame) (size1 frame) c ->
      exists e m,
        zth free_space_evidence (idx (size0 frame) c) = Some e /\
        zth mask (idx (size0 frame) c) = Some m /\
        (m = true <->
         on_border (size0 frame) (size1 frame) c = false /\
         kGoodFreeSpaceEvidence < e).
Proof.
  intro Hsize. set (w := size0 frame) in *. set (h := size1 frame) in *.
  unfold SetMask. fold w h. rewrite raster_loop.
  loop_prefix_inv (fun (pre : list (Z * Z)) (mask : list bool) =>
    zlen mask = zlen free_space_evidence /\
    forall c, in_grid w h c ->
      exists e m,
        zth free_space_evidence (idx w c) = Some e /\
        zth mask (idx w c) = Some m /\
        (m = true <-> In c pre /\ on_border w h c = false /\
                      kGoodFreeSpaceEvidence < e)) Hloop.
  destruct Hloop as (mask & E & Hlen & Hcells).
  - split; [apply zlen_repeat |]. intros c Hg.
    pose proof (idx_range w h c Hg) as Hi.
    destruct (zth_in_range free_space_evidence (idx w c)) as [e Ee]; [lia |].
    exists e, false. split; [exact Ee |]. split.
    + apply zth_repeat. unfold zlen in *. lia.
    + split; [discriminate | intros [[] _]].
  - intros pre c post mask E [Hlen Hcells].
    apply raster_prefix in E. destruct E as (Hc & _ & Hfresh).
    assert (Hg : in_grid w h c) by (unfold in_grid; lia).
    destruct c as [x y]. cbn [fst snd] in *.
    rewrite SetMask_border_test.
    assert (Hstep : forall mask' : list bool,
              zlen mask' = zlen free_space_evidence ->
              (forall c', in_grid w h c' -> c' <> (x, y) ->
                 zth mask' (idx w c') = zth mask (idx w c')) ->
              (forall e, zth free_space_evidence (idx w (x, y)) = Some e ->
                 exists m, zth mask' (idx w (x, y)) = Some m /\
                   (m = true <-> on_border w h (x, y) = false /\
                                 kGoodFreeSpaceEvidence < e)) ->
              zlen mask' = zlen free_space_evidence /\
              forall c, in_grid w h c ->
                exists e m,
                  zth free_space_evidence (idx w c) = Some e /\
                  zth mask' (idx w c) = Some m /\
                  (m = true <-> In c (pre ++ [(x, y)]) /\ on_border w h c = false /\
                                kGoodFreeSpaceEvidence < e)).
    { intros mask' Hl' Hother Hthis. split; [exact Hl' |]. intros c Hgc.
      destruct (Hcells c Hgc) as (e & m & Ee & Em & Hm).
      destruct (cell_eq_dec c (x, y)) as [-> | Hne].
      - destruct (Hthis e Ee) as (m' & Em' & Hm'). exists e, m'.
        split; [exact Ee |]. split; [exact Em' |]. rewrite Hm', in_app_iff.
        cbn [In]. tauto.
      - exists e, m. split; [exact Ee |]. split; [now rewrite Hother |].
        rewrite Hm, in_app_iff. cbn [In]. split; [tauto |].
        intros ([H | [H | []]] & H'); [tauto | congruence]. }
    destruct (Hcells (x, y) Hg) as (e & m & Ee & Em & Hm).
    assert (Hm0 : m = false).
    { destruct m; [| reflexivity]. exfalso. apply Hfresh. now apply Hm. }
    subst m.
    destruct (on_border w h (x, y)) eqn:Eb.
    + exists mask. split; [reflexivity |]. apply Hstep; [exact Hlen | reflexivity |].
      intros e' Ee'. exists false. split; [exact Em |].
      split; [discriminate | intros [H _]; discriminate].
    + change (y * w + x)%Z with (idx w (x, y)). rewrite Ee. cbn [of_option bind].
      destruct (fltb kGoodFreeSpaceEvidence e) eqn:Ef.
      * destruct (zset_spec mask (idx w (x, y)) true) as (mask' & Ez & Hl' & Hs' & Ho').
        { rewrite Hlen, Hsize. now apply (idx_range w h). }
        rewrite Ez. cbn [of_option]. exists mask'. split; [reflexivity |].
        apply Hstep; [lia | |].
        -- intros c' Hgc' Hne. apply Ho'. intro Ei. apply Hne.
           now apply (idx_inj w h).
        -- intros e' Ee'. rewrite Ee in Ee'. injection Ee' as <-.
           exists true. split; [exact Hs' |]. apply fltb_true in Ef. tauto.
      * exists mask. split; [reflexivity |]. apply Hstep; [exact Hlen | reflexivity |].
        intros e' Ee'. rewrite Ee in Ee'. injection Ee' as <-.
        exists false. split; [exact Em |]. apply fltb_false in Ef.
        split; [discriminate | intros [_ H]; lra].
  - exists mask. split; [exact E |]. split; [exact Hlen |].
    assert (Hfinal : forall c, in_grid w h c ->
              exists e m,
                zth free_space_evidence (idx w c) = Some e /\
                zth mask (idx w c) = Some m /\
                (m = true <-> on_border w h c = false /\ kGoodFreeSpaceEvidence < e)).
    { intros c Hg. destruct (Hcells c Hg) as (e & m & Ee & Em & Hm).
      exists e, m. split; [exact Ee |]. split; [exact Em |]. rewrite Hm.
      apply in_grid_raster in Hg. tauto. }
    split; [| exact Hfinal].
    unfold border_clear. apply forallb_forall. intros c Hc.
    rewrite all_cells_raster in Hc. apply in_grid_raster in Hc.
    destruct (on_border w h c) eqn:Eb; [| reflexivity].
    destruct (Hfinal c Hc) as (e & m & _ & Em & Hm). rewrite Em.
    destruct m; [| reflexivity]. destruct (proj1 Hm eq_refl). congruence.
Qed.

(** *** The boundary *)

Lemma raster_interior (w h : Z) (c : cell) :
  In c (raster 1 (w - 1) 1 (h - 1)) <->
  (1 <= fst c < w - 1)%Z /\ (1 <= snd c < h - 1)%Z.
Proof. apply In_raster. Qed.

Lemma FindBoundary_lists_sources (width height : Z) (mask : list bool) :
  zlen mask = (width * height)%Z ->
  exists boundary,
    FindBoundary width height mask = Ok boundary /\
    (forall c, In c boundary <-> source width height mask c) /\
    StronglySorted row_major boundary.
Proof.
  intro Hsize. unfold FindBoundary. rewrite raster_loop.
  loop_prefix_inv (fun (pre : list (Z * Z)) (boundary : list (Z * Z)) =>
    (forall c, In c boundary <-> source width height mask c /\ In c pre) /\
    StronglySorted row_major boundary) Hloop.
  destruct Hloop as (boundary & E & Hin & Hsorted).
  - split; [| constructor]. intro c. cbn [In]. tauto.
  - intros pre c post boundary E [Hin Hsorted].
    apply raster_prefix in E. destruct E as (Hc & Hpre & Hfresh).
    destruct (on_boundary_spec width height mask Hsize c) as (b & Eb & Hb); [lia |].
    destruct c as [x y]. cbn [fst snd] in *.
    change (y * width + x)%Z with (idx width (x, y)). rewrite Eb. cbn [bind].
    destruct b.
    + eexists. split; [reflexivity |]. split.
      * intro c. rewrite !in_app_iff, Hin. cbn [In]. split.
        -- intros [[Hs Hp] | [<- | []]]; [tauto |]. split; [now apply Hb | tauto].
        -- intros [Hs [Hp | [<- | []]]]; tauto.
      * apply StronglySorted_app; [exact Hsorted | repeat constructor |].
        intros a b Ha [<- | []]. apply Hin in Ha. destruct Ha as [_ Ha].
        now apply Hpre in Ha.
    + exists boundary. split; [reflexivity |]. split; [| exact Hsorted].
      intro c. rewrite Hin, in_app_iff. cbn [In]. split; [tauto |].
      intros [Hs [Hp | [<- | []]]]; [tauto |].
      apply Hb in Hs. discriminate.
  - exists boundary. split; [exact E |]. split; [| exact Hsorted].
    intro c. rewrite Hin, raster_interior. split; [tauto |].
    intro Hs. split; [exact Hs |]. destruct Hs as (Hi & _). exact Hi.
Qed.

(** X12.  [FindBoundary] lists, row by row and each once, the cells off the
    border that are in the mask and have one of their four neighbours outside
    of it: the cells at which [SetDistanceToBoundary] starts. *)
Theorem FindBoundary_sources (width height : Z) (mask : list bool) :
  zlen mask = (width * height)%Z ->
  exists boundary,
    FindBoundary width height mask = Ok boundary /\
    (forall c, In c boundary <-> source width height mask c) /\
    StronglySorted row_major boundary /\ NoDup boundary.
Proof.
  intro Hsize.
  destruct (FindBoundary_lists_sources width height mask Hsize)
    as (boundary & E & Hin & Hsorted).
  exists boundary. split; [exact E |]. split; [exact Hin |]. split; [exact Hsorted |].
  clear E Hin. induction Hsorted as [| a l Hs IH Ha]; constructor; [| exact IH].
  intro Hin. rewrite Forall_forall in Ha. specialize (Ha a Hin).
  unfold row_major in Ha. lia.
Qed.

(** *** The distance field *)

Section Field.

Variable sqrt : Q -> Q.
Hypothesis sqrt_1 : sqrt 1 == 1.
Hypothesis sqrt_2_pos : 0 < sqrt 2.
Hypothesis sqrt_2_le : sqrt 2 <= 2.

Variables (width height : Z) (mask : list bool).
Hypothesis mask_size : zlen mask = (width * height)%Z.
Hypothesis mask_border : border_clear width height mask = true.
Hypothesis size_int : (width * height <= INT_MAX)%Z.

(** The propagation ends with its invariant and an empty queue. *)
Lemma distance_front :
  exists d done,
    front_ok sqrt width height mask done d [] /\
    exists fuel0, forall fuel, (fuel0 <= fuel)%nat ->
      (st <- seed_front width height mask ;; propagate sqrt fuel width mask st) = Ok d.
Proof.
  destruct (seed_front_spec width height mask mask_size) as (d0 & queue0 & E0 & Hseed).
  pose proof (seeded_front_ok sqrt width height mask d0 queue0 Hseed) as Hok.
  set (fuel0 := Z.to_nat (8 * (width * height) + Z.of_nat (length queue0))).
  destruct (propagate_spec sqrt sqrt_1 sqrt_2_pos sqrt_2_le width height mask
              mask_size mask_border fuel0 [] d0 queue0 Hok)
    as (d & done & E & Hfinal).
  { cbn [length]. unfold fuel0. pose proof mask_size. unfold zlen in *. lia. }
  exists d, done. split; [exact Hfinal |].
  exists fuel0. intros fuel Hfuel. rewrite E0. cbn [bind].
  exact (propagate_more_fuel sqrt width mask fuel0 _ _ E fuel Hfuel).
Qed.

(** In the final field the distances of two neighbours of the mask differ
    by no more than the length of the step between them. *)
Lemma front_steps (done : list cell) (d : list Q) :
  front_ok sqrt width height mask done d [] ->
  forall c ij v,
    open width height mask c -> In ij neighbour_offsets ->
    open width height mask (shift c ij) ->
    zth d (idx width c) = Some v ->
    exists v', zth d (idx width (shift c ij)) = Some v' /\
               v' <= v + step_cost sqrt ij.
Proof.
  intros Hok c ij v Hc Hij Hn Ev.
  destruct Hok as ((Hl & Hdv & _) & _ & _ & Hexp & Hpend).
  pose proof (step_cost_bounds sqrt sqrt_2_pos sqrt_2_le ij) as Hstep.
  destruct (Hdv c v (proj1 Hc) Ev) as (Hv0 & Hvm & Hcase).
  destruct (Qlt_le_dec v FLT_MAX) as [Hlt | Hge].
  - assert (Hin : In c done).
    { destruct (in_dec cell_eq_dec c done) as [Hin | Hnin]; [exact Hin |].
      destruct (Hpend c v Hc Hnin Ev Hlt) as (nd & [] & _). }
    destruct (Hexp c Hin) as (_ & v0 & Ev0 & _ & _ & _ & H3).
    rewrite Ev in Ev0. injection Ev0 as <-. exact (H3 ij Hij Hn).
  - destruct (zth_in_range d (idx width (shift c ij))) as [v' Ev'].
    { rewrite Hl. apply idx_range. exact (proj1 Hn). }
    exists v'. split; [exact Ev' |].
    destruct (Hdv _ v' (proj1 Hn) Ev') as (_ & Hvm' & _). lra.
Qed.

End Field.

(** X13.  The distances of two neighbours of the mask, in any of the eight
    directions, differ by no more than the length of the step between them: 1
    along an axis and [sqrt 2] along a diagonal. *)
Theorem SetDistanceToBoundary_steps (sqrt : Q -> Q) (frame : Frame)
  (mask : list bool) :
  sqrt 1 == 1 -> 0 < sqrt 2 -> sqrt 2 <= 2 ->
  zlen mask = (size0 frame * size1 frame)%Z ->
  border_clear (size0 frame) (size1 frame) mask = true ->
  (size0 frame * size1 frame <= INT_MAX)%Z ->
  exists d,
    (exists fuel0, forall fuel, (fuel0 <= fuel)%nat ->
       SetDistanceToBoundary sqrt fuel frame mask = Ok d) /\
    forall c ij v,
      open (size0 frame) (size1 frame) mask c -> In ij neighbour_offsets ->
      open (size0 frame) (size1 frame) mask (shift c ij) ->
      zth d (idx (size0 frame) c) = Some v ->
      exists v', zth d (idx (size0 frame) (shift c ij)) = Some v' /\
                 v' <= v + step_cost sqrt ij.
Proof.
  intros H1 H2 H3 Hsize Hborder Hint.
  destruct (distance_front sqrt H1 H2 H3 (size0 frame) (size1 frame) mask Hsize Hborder)
    as (d & done & Hok & Hrun).
  exists d. split; [exact Hrun |].
  exact (front_steps sqrt H2 H3 (size0 frame) (size1 frame) mask done d Hok).
Qed.

(** X14.  The cells that [FindBoundary] lists are the cells of the raster at
    which [SetDistanceToBoundary] records the distance 0. *)
Theorem FindBoundary_at_distance_zero (sqrt : Q -> Q) (frame : Frame)
  (mask : list bool) :
  sqrt 1 == 1 -> 0 < sqrt 2 -> sqrt 2 <= 2 ->
  zlen mask = (size0 frame * size1 frame)%Z ->
  border_clear (size0 frame) (size1 frame) mask = true ->
  (size0 frame * size1 frame <= INT_MAX)%Z ->
  exists boundary d,
    FindBoundary (size0 frame) (size1 frame) mask = Ok boundary /\
    (exists fuel0, forall fuel, (fuel0 <= fuel)%nat ->
       SetDistanceToBoundary sqrt fuel frame mask = Ok d) /\
    forall c, in_grid (size0 frame) (size1 frame) c ->
      (In c boundary <-> exists v, zth d (idx (size0 frame) c) = Some v /\ v == 0).
Proof.
  intros H1 H2 H3 Hsize Hborder Hint.
  destruct (FindBoundary_lists_sources _ _ mask Hsize) as (boundary & Eb & Hin & _).
  destruct (distance_field sqrt H1 H2 H3 (size0 frame) (size1 frame) mask
              Hsize Hborder Hint) as (d & Hshort & Hrun).
  exists boundary, d. split; [exact Eb |]. split; [exact Hrun |].
  intros c Hg. destruct (Hshort c Hg) as (v & Ev & Hz & _).
  rewrite Hin. split.
  - intro Hs. exists v. split; [exact Ev | now apply Hz].
  - intros (v' & Ev' & Hz'). rewrite Ev in Ev'. injection Ev' as <-. now apply Hz.
Qed.

(** Evidence on a raster of 4 by 3 cells: of the two cells off the border
    only (1, 1) has more than [kGoodFreeSpaceEvidence]. *)
Definition evidence_frame : Frame :=
  mkFrame (V3f 1 0 0, V3f 0 1 0, V3f 0 0 1) ((0, 4), (0, 3), (0, 0)) 1 (4, 3, 0)%Z.

Definition evidence : list Q :=
  [200; 200; 200; 200;
   200; 101; 100; 200;
   200; 200; 200; 200].

Example SetMask_evidence :
  SetMask evidence_frame evidence =
  Ok [false; false; false; false;
      false; true; false; false;
      false; false; false; false].
Proof. reflexivity. Qed.

Lemma SetMask_spec_witness :
  exists mask,
    SetMask evidence_frame evidence = Ok mask /\
    zlen mask = zlen evidence /\
    border_clear 4 3 mask = true /\
    forall c, in_grid 4 3 c ->
      exists e m,
        zth evidence (idx 4 c) = Some e /\
        zth mask (idx 4 c) = Some m /\
        (m = true <-> on_border 4 3 c = false /\ kGoodFreeSpaceEvidence < e).
Proof.
  apply (SetMask_spec evidence_frame evidence). reflexivity.
Defined.

Lemma FindBoundary_sources_witness :
  exists boundary,
    FindBoundary 9 9 room = Ok boundary /\
    (forall c, In c boundary <-> source 9 9 room c) /\
    StronglySorted row_major boundary /\ NoDup boundary.
Proof.
  apply (FindBoundary_sources 9 9 room). reflexivity.
Defined.

Lemma SetDistanceToBoundary_steps_witness :
  exists d,
    (exists fuel0, forall fuel, (fuel0 <= fuel)%nat ->
       SetDistanceToBoundary sqrt_1_2 fuel room_frame room = Ok d) /\
    forall c ij v,
      open 9 9 room c -> In ij neighbour_offsets ->
      open 9 9 room (shift c ij) ->
      zth d (idx 9 c) = Some v ->
      exists v', zth d (idx 9 (shift c ij)) = Some v' /\
                 v' <= v + step_cost sqrt_1_2 ij.
Proof.
  apply (SetDistanceToBoundary_steps sqrt_1_2 room_frame room).
  - reflexivity.
  - reflexivity.
  - vm_compute. discriminate.
  - reflexivity.
  - reflexivity.
  - vm_compute. discriminate.
Defined.

Lemma FindBoundary_at_distance_zero_witness :
  exists boundary d,
    FindBoundary 9 9 room = Ok boundary /\
    (exists fuel0, forall fuel, (fuel0 <= fuel)%nat ->
       SetDistanceToBoundary sqrt_1_2 fuel room_frame room = Ok d) /\
    forall c, in_grid 9 9 c ->
      (In c boundary <-> exists v, zth d (idx 9 c) = Some v /\ v == 0).
Proof.
  apply (FindBoundary_at_distance_zero sqrt_1_2 room_frame room).
  - reflexivity.
  - reflexivity.
  - vm_compute. discriminate.
  - reflexivity.
  - reflexivity.
  - vm_compute. discriminate.
Defined.

End MaskFacts.

(** ** Visibility of the boundary *)

Module SightFacts.
Import DoorDetection DistanceFacts VisibilityFacts.

(** *** Rounding *)

Lemma Qfloor_unique (x : Q) (k : Z) :
  inject_Z k <= x -> x < inject_Z (k + 1) -> Qfloor x = k.
Proof.
  intros H1 H2. pose proof (Qfloor_le x) as F1. pose proof (Qlt_floor x) as F2.
  assert (A : (Qfloor x < k + 1)%Z) by (rewrite Zlt_Qlt; lra).
  assert (B : (k < Qfloor x + 1)%Z) by (rewrite Zlt_Qlt; lra).
  lia.
Qed.

Lemma round_Z (z : Z) : round (inject_Z z) = z.
Proof.
  unfold round. destruct (fltb (inject_Z z) 0) eqn:E.
  - unfold Qceiling. replace (Qfloor (- (inject_Z z - (1 # 2)))) with (- z)%Z; [lia |].
    symmetry. apply Qfloor_unique.
    + rewrite inject_Z_opp. lra.
    + rewrite inject_Z_plus, inject_Z_opp. change (inject_Z 1) with 1. lra.
  - apply Qfloor_unique.
    + lra.
    + rewrite inject_Z_plus. change (inject_Z 1) with 1. lra.
Qed.

Lemma round_mono (a b : Q) : a <= b -> (round a <= round b)%Z.
Proof.
  intro H. unfold round.
  destruct (fltb a 0) eqn:Ea; destruct (fltb b 0) eqn:Eb.
  - apply Qceiling_resp_le. lra.
  - apply fltb_true in Ea. apply fltb_false in Eb.
    apply Z.le_trans with 0%Z.
    + change 0%Z with (Qceiling 0). apply Qceiling_resp_le. lra.
    + change 0%Z with (Qfloor 0). apply Qfloor_resp_le. lra.
  - apply fltb_false in Ea. apply fltb_true in Eb. lra.
  - apply Qfloor_resp_le. lra.
Qed.

(** A point of the segment between two whole numbers rounds to a whole
    number between them. *)
Lemma round_between (a b i n : Z) :
  (0 <= i <= n)%Z -> (0 < n)%Z ->
  let x := round (inject_Z a + inject_Z i * ((inject_Z b - inject_Z a) / inject_Z n)) in
  (Z.min a b <= x <= Z.max a b)%Z.
Proof.
  intros Hi Hn. cbv zeta.
  set (t := inject_Z i / inject_Z n).
  assert (Hn' : 0 < inject_Z n) by (change 0 with (inject_Z 0); now rewrite <- Zlt_Qlt).
  assert (Ht : 0 <= t /\ t <= 1).
  { unfold t. split.
    - apply Qle_shift_div_l; [exact Hn' |]. rewrite Qmult_0_l.
      change 0 with (inject_Z 0). rewrite <- Zle_Qle. lia.
    - apply Qle_shift_div_r; [exact Hn' |]. rewrite Qmult_1_l.
      rewrite <- Zle_Qle. lia. }
  assert (E : inject_Z a + inject_Z i * ((inject_Z b - inject_Z a) / inject_Z n)
              == inject_Z a + t * (inject_Z b - inject_Z a)).
  { unfold t. field. lra. }
  assert (Hab : (a <= b)%Z \/ (b <= a)%Z) by lia.
  assert (P : forall u v : Q, 0 <= u -> 0 <= v -> 0 <= u * v)
    by (intros; now apply Qmult_le_0_compat).
  destruct Hab as [Hab | Hab].
  - assert (D : 0 <= inject_Z b - inject_Z a) by (rewrite Zle_Qle in Hab; lra).
    pose proof (P _ _ (proj1 Ht) D). 
    assert (0 <= (1 - t) * (inject_Z b - inject_Z a)) by (apply P; lra).
    rewrite Z.min_l, Z.max_r by lia. split.
    + apply Z.le_trans with (round (inject_Z a)); [rewrite round_Z; lia |].
      apply round_mono. rewrite E. lra.
    + apply Z.le_trans with (round (inject_Z b)); [| rewrite round_Z; lia].
      apply round_mono. rewrite E. lra.
  - assert (D : 0 <= inject_Z a - inject_Z b) by (rewrite Zle_Qle in Hab; lra).
    pose proof (P _ _ (proj1 Ht) D).
    assert (0 <= (1 - t) * (inject_Z a - inject_Z b)) by (apply P; lra).
    rewrite Z.min_r, Z.max_l by lia. split.
    + apply Z.le_trans with (round (inject_Z b)); [rewrite round_Z; lia |].
      apply round_mono. rewrite E. lra.
    + apply Z.le_trans with (round (inject_Z a)); [| rewrite round_Z; lia].
      apply round_mono. rewrite E. lra.
Qed.

(** *** IsVisible *)

Section Sight.

Variable sqrt : Q -> Q.

(** The number of steps between two pixels: twice the whole part of their
    distance, plus one. *)
Definition steps_between (source target : Z * Z) : Z :=
  (Qfloor (norm2 sqrt (sub2 (of_pixel target) (of_pixel source))) * 2 + 1)%Z.

(** The cell in which the step [i] from [source] to [target] falls. *)
Definition sample (source target : Z * Z) (i : Z) : cell :=
  let n := inject_Z (steps_between source target) in
  (round (inject_Z (fst source) +
          inject_Z i * ((inject_Z (fst target) - inject_Z (fst source)) / n)),
   round (inject_Z (snd source) +
          inject_Z i * ((inject_Z (snd target) - inject_Z (snd source)) / n))).

Lemma sample_in_grid (width height : Z) (source target : Z * Z) (i : Z) :
  in_grid width height source -> in_grid width height target ->
  (0 <= i < steps_between source target)%Z ->
  in_grid width height (sample source target i).
Proof.
  intros [Hsx Hsy] [Htx Hty] Hi. unfold sample, in_grid. cbn [fst snd].
  pose proof (round_between (fst source) (fst target) i (steps_between source target)).
  pose proof (round_between (snd source) (snd target) i (steps_between source target)).
  cbv zeta in *. lia.
Qed.

Lemma sight_spec (width height : Z) (mask : list bool) (source target : Z * Z) :
  zlen mask = (width * height)%Z ->
  forall steps,
    (forall i, In i steps -> in_grid width height (sample source target i)) ->
    exists b,
      sight width height mask (of_pixel source)
            (div2 (sub2 (of_pixel target) (of_pixel source))
                  (inject_Z (steps_between source target)))
            steps = Ok b /\
      (b = true <->
       forall i, In i steps -> open width height mask (sample source target i)).
Proof.
  intros Hsize. induction steps as [| i steps IH]; intro Hg.
  - exists true. split; [reflexivity |]. split; [intros _ i [] | reflexivity].
  - cbn [sight]. cbv zeta.
    change (round (ux (add2 (of_pixel source)
              (scale2 (inject_Z i)
                 (div2 (sub2 (of_pixel target) (of_pixel source))
                       (inject_Z (steps_between source target)))))))
      with (fst (sample source target i)).
    change (round (uy (add2 (of_pixel source)
              (scale2 (inject_Z i)
                 (div2 (sub2 (of_pixel target) (of_pixel source))
                       (inject_Z (steps_between source target)))))))
      with (snd (sample source target i)).
    pose proof (Hg i (or_introl eq_refl)) as Hgi.
    destruct Hgi as [Hx Hy].
    destruct (Z.ltb_spec (fst (sample source target i)) 0); [lia |].
    destruct (Z.leb_spec width (fst (sample source target i))); [lia |].
    destruct (Z.ltb_spec (snd (sample source target i)) 0); [lia |].
    destruct (Z.leb_spec height (snd (sample source target i))); [lia |].
    cbn [orb].
    change (snd (sample source target i) * width + fst (sample source target i))%Z
      with (idx width (sample source target i)).
    destruct (zth_in_range mask (idx width (sample source target i))) as [m Em].
    { rewrite Hsize. apply idx_range. split; assumption. }
    rewrite Em. cbn [of_option bind].
    destruct m; cbn [negb].
    + destruct IH as (b & Eb & Hb); [intros j Hj; apply Hg; now right |].
      exists b. split; [exact Eb |]. rewrite Hb. split.
      * intros Hall j [<- | Hj]; [split; [split; assumption | exact Em] | now apply Hall].
      * intros Hall j Hj. apply Hall. now right.
    + exists false. split; [reflexivity |]. split; [discriminate |].
      intro Hall. destruct (Hall i (or_introl eq_refl)) as [_ Ho]. congruence.
Qed.

Lemma IsVisible_samples_lemma (width height : Z) (mask : list bool)
  (source target : Z * Z) :
  zlen mask = (width * height)%Z ->
  in_grid width height source -> in_grid width height target ->
  exists b,
    IsVisible sqrt width height mask source target = Ok b /\
    (b = true <->
     forall i, (kVisibilityMargin <= i < steps_between source target)%Z ->
       open width height mask (sample source target i)).
Proof.
  intros Hsize Hs Ht. unfold IsVisible. cbv zeta. fold (steps_between source target).
  destruct (sight_spec width height mask source target Hsize
              (upto kVisibilityMargin (steps_between source target))) as (b & Eb & Hb).
  { intros i Hi. apply In_upto in Hi. apply sample_in_grid; try assumption.
    unfold kVisibilityMargin in Hi. lia. }
  exists b. split; [exact Eb |]. rewrite Hb. split.
  - intros H i Hi. apply H. now apply In_upto.
  - intros H i Hi. apply H. now apply In_upto in Hi.
Qed.

End Sight.

(** X15.  Between two pixels of the raster [IsVisible] never exits: every
    sample falls in the raster.  It says true exactly when every sample from
    the step [kVisibilityMargin] on is in the mask. *)
Theorem IsVisible_samples (sqrt : Q -> Q) (width height : Z) (mask : list bool)
  (source target : Z * Z) :
  zlen mask = (width * height)%Z ->
  in_grid width height source -> in_grid width height target ->
  exists b,
    IsVisible sqrt width height mask source target = Ok b /\
    (b = true <->
     forall i, (kVisibilityMargin <= i < steps_between sqrt source target)%Z ->
       open width height mask (sample sqrt source target i)).
Proof. apply IsVisible_samples_lemma. Qed.

(** X16.  A target less than 5 pixels away is visible whatever the mask: the
    samples start at the step [kVisibilityMargin], and there are at most 9
    steps. *)
Theorem IsVisible_near (sqrt : Q -> Q) (width height : Z) (mask : list bool)
  (source target : Z * Z) :
  norm2 sqrt (sub2 (of_pixel target) (of_pixel source)) < 5 ->
  IsVisible sqrt width height mask source target = Ok true.
Proof.
  intro Hd. unfold IsVisible. cbv zeta.
  set (n := Qfloor _).
  assert (Hn : (n < 5)%Z).
  { rewrite Zlt_Qlt. apply Qle_lt_trans with (2 := Hd). apply Qfloor_le. }
  unfold upto, kVisibilityMargin.
  replace (Z.to_nat (n * 2 + 1 - 10)) with O by lia. reflexivity.
Qed.

(** *** ComputeVisibility *)

Lemma StronglySorted_snoc (l : list Z) (b : Z) :
  StronglySorted Z.lt l -> (forall a, In a l -> (a < b)%Z) ->
  StronglySorted Z.lt (l ++ [b]).
Proof.
  intros Hs Hb. apply StronglySorted_app; [exact Hs | repeat constructor |].
  intros a b' Ha [<- | []]. now apply Hb.
Qed.

(** A pixel that the subsampling keeps is a pixel of the raster. *)
Lemma subsampled_in_grid (width height subsample : Z) (c : Z * Z) :
  (0 < subsample)%Z -> (0 <= width)%Z -> (0 <= height)%Z ->
  In c (raster 0 (Z.quot width subsample) 0 (Z.quot height subsample)) ->
  in_grid width height ((fst c * subsample)%Z, (snd c * subsample)%Z).
Proof.
  intros Hs Hw Hh Hc. apply In_raster in Hc.
  rewrite !Z.quot_div_nonneg in Hc by lia.
  pose proof (Z.mul_div_le width subsample Hs).
  pose proof (Z.mul_div_le height subsample Hs).
  unfold in_grid. cbn [fst snd]. nia.
Qed.

Section Visible.

Variable sqrt : Q -> Q.
Variables (width height subsample : Z).
Variables (boundary : list (Z * Z)) (mask : list bool) (distance_to_boundary : list Q).

Hypothesis subsample_pos : (0 < subsample)%Z.
Hypothesis width_nonneg : (0 <= width)%Z.
Hypothesis height_nonneg : (0 <= height)%Z.
Hypothesis mask_size : zlen mask = (width * height)%Z.
Hypothesis distance_size : zlen distance_to_boundary = (width * height)%Z.
Hypothesis boundary_in_grid : Forall (in_grid width height) boundary.

(** The boundary point [b] is visible from the pixel [c]. *)
Definition visible (c : cell) (b : Z) : Prop :=
  exists target, zth boundary b = Some target /\
                 IsVisible sqrt width height mask c target = Ok true.

(** [ComputeVisibility] records the boundary point [b] for the pixel [c]. *)
Definition sees (c : cell) (b : Z) : Prop :=
  zth mask (idx width c) = Some true /\
  (exists d, zth distance_to_boundary (idx width c) = Some d /\
             kMarginFromBoundaryForVisibility <= d) /\
  visible c b.

(** The loop over the boundary points, for the pixel [c] whose list is at
    [vi]. *)
Lemma boundary_loop (c : cell) (visibility : list (list Z)) (vi : Z) :
  in_grid width height c ->
  zth visibility vi = Some [] ->
  exists visibility' vis,
    for_each (upto 0 (zlen boundary))
      (fun b visibility =>
         target <- of_option (zth boundary b) ;;
         visible <- IsVisible sqrt width height mask c target ;;
         if visible then
           seen <- of_option (zth visibility vi) ;;
           of_option (zset visibility vi (seen ++ [b]))
         else Ok visibility)
      visibility = Ok visibility' /\
    zlen visibility' = zlen visibility /\
    (forall k, k <> vi -> zth visibility' k = zth visibility k) /\
    zth visibility' vi = Some vis /\
    StronglySorted Z.lt vis /\
    forall b, In b vis <-> visible c b.
Proof.
  intros Hc Hvi.
  loop_prefix_inv (fun (pre : list Z) (v : list (list Z)) =>
    zlen v = zlen visibility /\
    (forall k, k <> vi -> zth v k = zth visibility k) /\
    exists vis, zth v vi = Some vis /\ StronglySorted Z.lt vis /\
      forall b, In b vis <-> In b pre /\ visible c b) Hloop.
  destruct Hloop as (v & E & Hlen & Hother & vis & Evis & Hsorted & Hin).
  - split; [reflexivity |]. split; [reflexivity |].
    exists []. split; [exact Hvi |]. split; [constructor |].
    intro b. cbn [In]. tauto.
  - intros pre b post v E (Hlen & Hother & vis & Evis & Hsorted & Hin).
    apply upto_prefix in E. destruct E as [-> Hb].
    destruct (zth_in_range boundary b Hb) as [target Et].
    rewrite Et. cbn [of_option bind].
    assert (Htg : in_grid width height target).
    { rewrite Forall_forall in boundary_in_grid. apply boundary_in_grid.
      eapply zth_In; eauto. }
    destruct (IsVisible_samples_lemma sqrt width height mask c target mask_size Hc Htg)
      as (vb & Evb & _).
    rewrite Evb. cbn [bind].
    assert (Hnew : forall b', In b' (upto 0 b ++ [b]) <-> In b' (upto 0 b) \/ b' = b).
    { intro b'. rewrite in_app_iff. cbn [In]. intuition. }
    destruct vb.
    + rewrite Evis. cbn [of_option bind].
      destruct (zset_spec v vi (vis ++ [b])) as (v' & Ez & Hl' & Hs' & Ho').
      { eapply zth_Some_range; eauto. }
      rewrite Ez. cbn [of_option]. exists v'. split; [reflexivity |].
      split; [lia |]. split; [intros k Hk; rewrite Ho' by exact Hk; now apply Hother |].
      exists (vis ++ [b]). split; [exact Hs' |]. split.
      * apply StronglySorted_snoc; [exact Hsorted |].
        intros a Ha. apply Hin in Ha. destruct Ha as [Ha _]. apply In_upto in Ha. lia.
      * intro b'. rewrite in_app_iff, Hin, Hnew. cbn [In]. split.
        -- intros [[H1 H2] | [<- | []]]; [tauto |]. split; [now right |].
           exists target. split; assumption.
        -- intros [[H1 | ->] H2]; [left; tauto | right; now left].
    + exists v. split; [reflexivity |]. split; [exact Hlen |]. split; [exact Hother |].
      exists vis. split; [exact Evis |]. split; [exact Hsorted |].
      intro b'. rewrite Hin, Hnew. split; [tauto |].
      intros [[H1 | ->] H2]; [tauto |]. exfalso.
      destruct H2 as (t' & Et' & Ev'). rewrite Et in Et'. injection Et' as <-. congruence.
  - exists v, vis. split; [exact E |]. split; [exact Hlen |]. split; [exact Hother |].
    split; [exact Evis |]. split; [exact Hsorted |].
    intro b. rewrite Hin. split; [tauto |]. intro Hv. split; [| exact Hv].
    destruct Hv as (t & Et & _). apply zth_Some_range in Et. apply In_upto. lia.
Qed.

Local Abbreviation sw := (Z.quot width subsample).
Local Abbreviation sh := (Z.quot height subsample).

(** The pixel of the subsampled cell [c]. *)
Definition pixel_of (c : cell) : cell :=
  ((fst c * subsample)%Z, (snd c * subsample)%Z).

Lemma ComputeVisibility_lemma :
  exists visibility,
    ComputeVisibility sqrt width height subsample boundary mask distance_to_boundary
    = Ok visibility /\
    zlen visibility = (sw * sh)%Z /\
    forall c, In c (raster 0 sw 0 sh) ->
      exists vis, zth visibility (idx sw c) = Some vis /\
        StronglySorted Z.lt vis /\
        forall b, In b vis <-> sees (pixel_of c) b.
Proof.
  unfold ComputeVisibility, idiv, resized.
  destruct (Z.eqb_spec subsample 0) as [| _]; [lia |]. cbn [bind].
  assert (Hsw : (0 <= sw)%Z) by (apply Z.quot_pos; lia).
  assert (Hsh : (0 <= sh)%Z) by (apply Z.quot_pos; lia).
  destruct (Z.ltb_spec (sw * sh) 0) as [| _]; [nia |]. cbn [bind].
  rewrite raster_loop.
  loop_prefix_inv (fun (pre : list (Z * Z)) (st : list (list Z) * Z) =>
    snd st = zlen pre /\ zlen (fst st) = (sw * sh)%Z /\
    forall c, In c (raster 0 sw 0 sh) ->
      exists vis, zth (fst st) (idx sw c) = Some vis /\
        (In c pre -> StronglySorted Z.lt vis /\
                     forall b, In b vis <-> sees (pixel_of c) b) /\
        (~ In c pre -> vis = [])) Hloop.
  destruct Hloop as ([visibility vi] & E & _ & Hlen & Hcells).
  - cbn [fst snd]. split; [reflexivity |]. split; [rewrite zlen_repeat; lia |].
    intros c Hc. exists []. split.
    + apply zth_repeat. apply In_raster in Hc.
      pose proof (idx_range sw sh c). unfold in_grid in *. lia.
    + split; [intros [] | reflexivity].
  - intros pre c post [visibility vi] E (Hvi & Hlen & Hcells). cbn [fst snd] in *.
    pose proof (raster_index _ _ _ _ _ E) as Hidx.
    assert (Hc : In c (raster 0 sw 0 sh)) by (rewrite E; apply in_or_app; right; now left).
    apply raster_prefix in E. destruct E as (Hrange & _ & Hfresh).
    change (snd c * sw + fst c)%Z with (idx sw c) in Hidx.
    subst vi. rewrite !Hidx.
    pose proof (subsampled_in_grid width height subsample c
                  subsample_pos width_nonneg height_nonneg Hc) as Hpix.
    fold (pixel_of c) in Hpix.
    change (snd c * subsample * width + fst c * subsample)%Z with (idx width (pixel_of c)).
    destruct (Hcells c Hc) as (vis0 & Evis0 & _ & Hempty).
    specialize (Hempty Hfresh). subst vis0.
    (* what is left to show once the list of the cell [c] is known *)
    assert (Hstep : forall (v' : list (list Z)) (vis : list Z),
              zlen v' = zlen visibility ->
              (forall k, k <> idx sw c -> zth v' k = zth visibility k) ->
              zth v' (idx sw c) = Some vis ->
              StronglySorted Z.lt vis ->
              (forall b, In b vis <-> sees (pixel_of c) b) ->
              (idx sw c + 1)%Z = zlen (pre ++ [c]) /\ zlen v' = (sw * sh)%Z /\
              forall c', In c' (raster 0 sw 0 sh) ->
                exists vis', zth v' (idx sw c') = Some vis' /\
                  (In c' (pre ++ [c]) -> StronglySorted Z.lt vis' /\
                     forall b, In b vis' <-> sees (pixel_of c') b) /\
                  (~ In c' (pre ++ [c]) -> vis' = [])).
    { intros v' vis Hl' Ho' Hs' Hsort Hsees.
      split; [unfold zlen in *; rewrite length_app; cbn [length]; lia |].
      split; [lia |]. intros c' Hc'.
      destruct (cell_eq_dec c' c) as [-> | Hne].
      - exists vis. split; [exact Hs' |]. split; [intros _; now split |].
        intro Hn. exfalso. apply Hn. apply in_or_app. right. now left.
      - destruct (Hcells c' Hc') as (vis' & Evis' & Hdone & Hnot).
        exists vis'. split.
        + rewrite Ho'; [exact Evis' |]. intro Ei. apply Hne.
          apply (idx_inj sw sh); [| | exact Ei]; apply In_raster; assumption.
        + split.
          * intro Hin. apply in_app_or in Hin.
            destruct Hin as [Hin | [Hin | []]]; [now apply Hdone | congruence].
          * intro Hn. apply Hnot. intro Hin. apply Hn. apply in_or_app. now left. }
    destruct (zth_in_range mask (idx width (pixel_of c))) as [m Em].
    { rewrite mask_size. now apply idx_range. }
    rewrite Em. cbn [of_option bind].
    destruct m; cbn [negb].
    2:{ eexists. split; [reflexivity |]. cbn [fst snd].
        apply (Hstep visibility []); auto; [constructor |].
        intro b. cbn [In]. split; [intros [] | intros (Hm & _); congruence]. }
    destruct (zth_in_range distance_to_boundary (idx width (pixel_of c))) as [d Ed].
    { rewrite distance_size. now apply idx_range. }
    rewrite Ed. cbn [of_option bind].
    destruct (fltb d kMarginFromBoundaryForVisibility) eqn:Ef.
    { apply fltb_true in Ef. eexists. split; [reflexivity |]. cbn [fst snd].
      apply (Hstep visibility []); auto; [constructor |].
      intro b. cbn [In]. split; [intros [] |].
      intros (_ & (d' & Ed' & Hd') & _). rewrite Ed in Ed'. injection Ed' as <-. lra. }
    apply fltb_false in Ef.
    destruct (boundary_loop (pixel_of c) visibility (idx sw c) Hpix Evis0)
      as (v' & vis & Ev' & Hl' & Ho' & Hs' & Hsort & Hvis).
    unfold pixel_of in Ev' at 1. rewrite Ev'. cbn [bind].
    eexists. split; [reflexivity |]. cbn [fst snd].
    apply (Hstep v' vis); auto.
    intro b. rewrite Hvis. unfold sees. split; [| tauto].
    intro Hv. split; [exact Em |]. split; [| exact Hv]. exists d. now split.
  - exists visibility. cbn [fst snd] in *. split; [rewrite E; reflexivity |].
    split; [exact Hlen |]. intros c Hc.
    destruct (Hcells c Hc) as (vis & Evis & Hdone & _).
    exists vis. split; [exact Evis |]. exact (Hdone Hc).
Qed.

End Visible.

(** *** AssociateWeightToVisibility *)

Lemma length_raster (w h : Z) :
  (0 <= w)%Z -> (0 <= h)%Z -> zlen (raster 0 w 0 h) = (w * h)%Z.
Proof.
  intros Hw Hh.
  pose proof (raster_indexes (Z.to_nat w) (Z.to_nat h) 0) as R.
  apply (f_equal (@length Z)) in R. rewrite length_map, length_zrange in R.
  unfold raster, upto, zlen. rewrite !Z.sub_0_r, R. lia.
Qed.

Lemma total_app (a b : signature) : total (a ++ b) == total a + total b.
Proof.
  unfold total. induction a as [| e a IH]; cbn [app fold_right]; [ring |].
  rewrite IH. ring.
Qed.

Lemma weight_sum_total (l : signature) : forall acc,
  fold_left (fun acc e => acc + snd e) l acc == acc + total l.
Proof.
  unfold total. induction l as [| e l IH]; intro acc; cbn [fold_left fold_right];
    [ring |].
  rewrite IH. ring.
Qed.

Lemma total_scaled (l : signature) (s : Q) :
  total (map (fun e => (fst e, snd e / s)) l) == total l / s.
Proof.
  unfold total. induction l as [| e l IH]; cbn [map fold_right fst snd].
  - unfold Qdiv. ring.
  - rewrite IH. unfold Qdiv. ring.
Qed.

Lemma total_pos (l : signature) :
  l <> [] -> Forall (fun e => 0 < snd e) l -> 0 < total l.
Proof.
  intros Hne H. destruct H as [| e l He Hl]; [congruence |].
  cbn [total fold_right]. fold (total l).
  assert (0 <= total l); [| lra].
  apply total_nonneg. eapply Forall_impl; [| exact Hl]. cbn beta. intros; lra.
Qed.

(** Distances no less than 0 become weights above 0; in exact arithmetic
    they sum to 1, as [float]s only up to rounding (see [RoundedFacts]). *)
Lemma normalize_weights_spec (entries : signature) :
  Forall (fun e => 0 <= snd e) entries ->
  map fst (normalize_weights entries) = map fst entries /\
  Forall (fun e => 0 < snd e) (normalize_weights entries) /\
  (entries <> [] -> total (normalize_weights entries) == 1).
Proof.
  intro Hd. unfold normalize_weights.
  set (weighted := map (fun e => (fst e, 1 / (snd e + 1))) entries).
  set (weight_sum := fold_left (fun acc e => acc + snd e) weighted 0).
  assert (Hw : Forall (fun e => 0 < snd e) weighted).
  { unfold weighted. apply Forall_map. eapply Forall_impl; [| exact Hd].
    cbn beta. intros e He. cbn [snd]. unfold Qdiv. rewrite Qmult_1_l.
    apply Qinv_lt_0_compat. lra. }
  assert (Hsum : weight_sum == total weighted).
  { unfold weight_sum. rewrite weight_sum_total. ring. }
  assert (Hpos : entries <> [] -> 0 < weight_sum).
  { intro Hne. rewrite Hsum. apply total_pos; [| exact Hw].
    unfold weighted. destruct entries; [congruence | discriminate]. }
  split; [| split].
  - unfold weighted. rewrite !map_map. cbn [fst]. reflexivity.
  - destruct entries as [| e0 entries']; [constructor |].
    specialize (Hpos ltac:(discriminate)).
    apply Forall_map. eapply Forall_impl; [| exact Hw].
    cbn beta. intros e He. cbn [snd]. apply Qlt_shift_div_l; [exact Hpos | lra].
  - intro Hne. specialize (Hpos Hne). rewrite total_scaled, <- Hsum.
    field. lra.
Qed.

(** The weight of an entry times its distance plus 1 is the same for all
    the entries. *)
Lemma normalize_weights_scale (entries : signature) :
  Forall (fun e => 0 <= snd e) entries ->
  exists scale, 0 < scale /\
    forall b w, In (b, w) (normalize_weights entries) ->
      exists d, In (b, d) entries /\ w * (d + 1) == scale.
Proof.
  intro Hd. destruct entries as [| e0 entries'].
  { exists 1. split; [reflexivity | intros b w []]. }
  set (entries := e0 :: entries') in *.
  unfold normalize_weights.
  set (weighted := map (fun e => (fst e, 1 / (snd e + 1))) entries).
  set (weight_sum := fold_left (fun acc e => acc + snd e) weighted 0).
  assert (Hw : Forall (fun e => 0 < snd e) weighted).
  { unfold weighted. apply Forall_map. eapply Forall_impl; [| exact Hd].
    cbn beta. intros e He. cbn [snd]. unfold Qdiv. rewrite Qmult_1_l.
    apply Qinv_lt_0_compat. lra. }
  assert (Hpos : 0 < weight_sum).
  { unfold weight_sum. rewrite weight_sum_total.
    assert (0 < total weighted); [| lra].
    apply total_pos; [discriminate | exact Hw]. }
  exists (1 / weight_sum). split; [apply Qlt_shift_div_l; lra |].
  intros b w Hin. apply in_map_iff in Hin. destruct Hin as (e' & Ee' & Hin).
  apply in_map_iff in Hin. destruct Hin as (e & <- & Hin).
  cbn [fst snd] in Ee'. injection Ee' as <- <-.
  exists (snd e). split; [destruct e; exact Hin |].
  rewrite Forall_forall in Hd. specialize (Hd e Hin). cbv beta in Hd.
  field. split; lra.
Qed.

Section Weights.

Variable sqrt : Q -> Q.
Hypothesis sqrt_nonneg : forall q, 0 <= sqrt q.

Variables (width height subsample : Z).
Variables (boundary : list (Z * Z)) (visibility : list (list Z)).

Hypothesis subsample_pos : (0 < subsample)%Z.
Hypothesis width_nonneg : (0 <= width)%Z.
Hypothesis height_nonneg : (0 <= height)%Z.
Hypothesis visibility_size :
  zlen visibility = (Z.quot width subsample * Z.quot height subsample)%Z.
Hypothesis visibility_in_range :
  Forall (Forall (fun b => (0 <= b < zlen boundary)%Z)) visibility.

(** The signature of a pixel: its boundary indexes are the visible ones, in
    their order, its weights are above 0 and, when there are any, sum to 1 in
    exact arithmetic. *)
Definition weighs (vis : list Z) (s : signature) : Prop :=
  map fst s = vis /\ Forall (fun e => 0 < snd e) s /\ (vis <> [] -> total s == 1).

(** The distance from the pixel [c] to the boundary point [b]. *)
Definition distance_from (c : cell) (b : Z) : option Q :=
  option_map (fun target => norm2 sqrt (sub2 (of_pixel c) (of_pixel target)))
             (zth boundary b).

(** The weights of the signature are inversely proportional to the
    distances from the pixel [c], plus 1. *)
Definition proportional (c : cell) (s : signature) : Prop :=
  exists scale, 0 < scale /\
    forall b w, In (b, w) s ->
      exists d, distance_from c b = Some d /\ w * (d + 1) == scale.

Lemma weigh_pixel_spec (x y : Z) (vis : list Z) :
  Forall (fun b => (0 <= b < zlen boundary)%Z) vis ->
  exists s, weigh_pixel sqrt boundary x y vis = Ok s /\ weighs vis s /\
            proportional (x, y) s.
Proof.
  intro Hvis. unfold weigh_pixel. cbv zeta.
  loop_prefix_inv (fun (pre : list Z) (entries : list (Z * Q)) =>
    map fst entries = pre /\ Forall (fun e => 0 <= snd e) entries /\
    forall b d, In (b, d) entries -> distance_from (x, y) b = Some d) Hloop.
  destruct Hloop as (entries & E & Hkeys & Hd & Hdist).
  - split; [reflexivity |]. split; [constructor | intros b d []].
  - intros pre b post entries E (Hkeys & Hd & Hdist).
    assert (Hb : (0 <= b < zlen boundary)%Z).
    { rewrite Forall_forall in Hvis. apply Hvis. rewrite E.
      apply in_or_app. right. now left. }
    destruct (zth_in_range boundary b Hb) as [target Et].
    rewrite Et. cbn [of_option bind]. eexists. split; [reflexivity |].
    split; [| split].
    + rewrite map_app, Hkeys. reflexivity.
    + apply Forall_app. split; [exact Hd |]. repeat constructor. cbn [snd].
      apply sqrt_nonneg.
    + intros b' d Hin. apply in_app_or in Hin.
      destruct Hin as [Hin | [Hin | []]]; [now apply Hdist |].
      injection Hin as <- <-. unfold distance_from. rewrite Et. reflexivity.
  - rewrite E. cbn [bind]. eexists. split; [reflexivity |].
    destruct (normalize_weights_spec entries Hd) as (H1 & H2 & H3).
    split.
    + unfold weighs. rewrite H1, Hkeys. split; [reflexivity |]. split; [exact H2 |].
      intro Hne. apply H3. intros ->. cbn in Hkeys. congruence.
    + destruct (normalize_weights_scale entries Hd) as (scale & Hpos & Hscale).
      exists scale. split; [exact Hpos |]. intros b w Hin.
      destruct (Hscale b w Hin) as (d & Hd' & Hw).
      exists d. split; [now apply Hdist | exact Hw].
Qed.

Lemma AssociateWeightToVisibility_lemma :
  exists weighted_visibility,
    AssociateWeightToVisibility sqrt width height subsample boundary visibility
    = Ok weighted_visibility /\
    zlen weighted_visibility = zlen visibility /\
    forall k vis, zth visibility k = Some vis ->
      exists s, zth weighted_visibility k = Some s /\ weighs vis s /\
        forall c, In c (raster 0 (Z.quot width subsample) 0 (Z.quot height subsample)) ->
          idx (Z.quot width subsample) c = k -> proportional (pixel_of subsample c) s.
Proof.
  unfold AssociateWeightToVisibility, idiv. cbv zeta.
  destruct (Z.eqb_spec subsample 0) as [| _]; [lia |]. cbn [bind].
  set (sw := Z.quot width subsample) in *. set (sh := Z.quot height subsample) in *.
  assert (Hsw : (0 <= sw)%Z) by (apply Z.quot_pos; lia).
  assert (Hsh : (0 <= sh)%Z) by (apply Z.quot_pos; lia).
  set (good := fun (k : Z) (vis : list Z) (s : signature) =>
                 weighs vis s /\
                 forall c, In c (raster 0 sw 0 sh) -> idx sw c = k ->
                           proportional (pixel_of subsample c) s).
  assert (Hnil : forall k, good k [] []).
  { intro k. split; [repeat split; [constructor | congruence] |].
    intros c _ _. exists 1. split; [reflexivity | intros b w []]. }
  rewrite raster_loop.
  loop_prefix_inv (fun (pre : list (Z * Z)) (st : signatures * Z) =>
    snd st = zlen pre /\ zlen (fst st) = zlen visibility /\
    forall k vis, zth visibility k = Some vis ->
      exists s, zth (fst st) k = Some s /\
        ((k < zlen pre)%Z -> good k vis s) /\ ((zlen pre <= k)%Z -> s = [])) Hloop.
  destruct Hloop as ([wv vi] & E & _ & Hlen & Hcells).
  - cbn [fst snd]. split; [reflexivity |]. split; [apply zlen_repeat |].
    intros k vis Hk. exists []. split.
    + apply zth_repeat. apply zth_Some_range in Hk. exact Hk.
    + split; [unfold zlen; cbn; intro; apply zth_Some_range in Hk; lia | reflexivity].
  - intros pre c post [wv vi] E (Hvi & Hlen & Hcells). cbn [fst snd] in *. subst vi.
    assert (Hpre : (zlen pre < sw * sh)%Z).
    { rewrite <- (length_raster sw sh Hsw Hsh), E. unfold zlen.
      rewrite length_app. cbn [length]. lia. }
    assert (Hgrow : zlen (pre ++ [c]) = (zlen pre + 1)%Z).
    { unfold zlen. rewrite length_app. cbn [length]. lia. }
    assert (Hidx : zlen pre = idx sw c) by exact (raster_index sw sh pre post c E).
    assert (Hc : In c (raster 0 sw 0 sh)).
    { rewrite E. apply in_or_app. right. now left. }
    assert (Honly : forall c', In c' (raster 0 sw 0 sh) -> idx sw c' = zlen pre ->
                               c' = c).
    { intros c' Hc' Ec'. apply (idx_inj sw sh);
        [now apply MaskFacts.in_grid_raster | now apply MaskFacts.in_grid_raster |
         congruence]. }
    destruct (zth_in_range visibility (zlen pre)) as [vis Evis];
      [unfold zlen at 1; lia |].
    rewrite Evis. cbn [of_option bind].
    destruct (Hcells _ _ Evis) as (s0 & Es0 & _ & Hs0). specialize (Hs0 ltac:(lia)).
    subst s0.
    assert (Hstep : forall (wv' : signatures) (s : signature),
              zlen wv' = zlen wv ->
              (forall k, k <> zlen pre -> zth wv' k = zth wv k) ->
              zth wv' (zlen pre) = Some s -> good (zlen pre) vis s ->
              (zlen pre + 1)%Z = zlen (pre ++ [c]) /\ zlen wv' = zlen visibility /\
              forall k vis, zth visibility k = Some vis ->
                exists s, zth wv' k = Some s /\
                  ((k < zlen (pre ++ [c]))%Z -> good k vis s) /\
                  ((zlen (pre ++ [c]) <= k)%Z -> s = [])).
    { intros wv' s Hl' Ho' Hs' Hw. split; [lia |]. split; [lia |].
      intros k vis' Hk. destruct (Z.eq_dec k (zlen pre)) as [-> | Hne].
      - rewrite Evis in Hk. injection Hk as <-. exists s. split; [exact Hs' |].
        split; [intros _; exact Hw | lia].
      - destruct (Hcells k vis' Hk) as (s' & Es' & Hlt & Hge).
        exists s'. split; [rewrite Ho' by exact Hne; exact Es' |].
        split; [intro; apply Hlt; lia | intro; apply Hge; lia]. }
    destruct vis as [| b vis'].
    + eexists. split; [reflexivity |]. cbn [fst snd].
      apply (Hstep wv []); auto.
    + destruct (weigh_pixel_spec (fst c * subsample) (snd c * subsample) (b :: vis'))
        as (s & Es & Hs & Hprop).
      { rewrite Forall_forall in visibility_in_range. apply visibility_in_range.
        eapply zth_In; eauto. }
      rewrite Es. cbn [bind].
      destruct (zset_spec wv (zlen pre) s) as (wv' & Ez & Hl' & Hs' & Ho').
      { eapply zth_Some_range; eauto. }
      rewrite Ez. cbn [of_option bind]. eexists. split; [reflexivity |]. cbn [fst snd].
      apply (Hstep wv' s); auto.
      split; [exact Hs |]. intros c' Hc' Ec'.
      rewrite (Honly c' Hc' Ec'). exact Hprop.
  - exists wv. cbn [fst snd] in *. split; [rewrite E; reflexivity |].
    split; [exact Hlen |]. intros k vis Hk.
    destruct (Hcells k vis Hk) as (s & Es & Hlt & _). exists s. split; [exact Es |].
    apply Hlt. rewrite (length_raster sw sh Hsw Hsh), <- visibility_size.
    apply zth_Some_range in Hk. lia.
Qed.

End Weights.

(** X17.  For every pixel it keeps, [ComputeVisibility] lists in ascending
    order the indexes of the boundary points that [IsVisible] accepts from it,
    when the pixel is in the mask and no nearer to the boundary than
    [kMarginFromBoundaryForVisibility]; for any other pixel the list is empty.
    No call of [IsVisible] exits. *)
Theorem ComputeVisibility_spec (sqrt : Q -> Q) (width height subsample : Z)
  (boundary : list (Z * Z)) (mask : list bool) (distance_to_boundary : list Q) :
  (0 < subsample)%Z -> (0 <= width)%Z -> (0 <= height)%Z ->
  zlen mask = (width * height)%Z ->
  zlen distance_to_boundary = (width * height)%Z ->
  Forall (in_grid width height) boundary ->
  let sw := Z.quot width subsample in
  let sh := Z.quot height subsample in
  exists visibility,
    ComputeVisibility sqrt width height subsample boundary mask distance_to_boundary
    = Ok visibility /\
    zlen visibility = (sw * sh)%Z /\
    forall c, In c (raster 0 sw 0 sh) ->
      exists vis, zth visibility (idx sw c) = Some vis /\
        StronglySorted Z.lt vis /\
        forall b, In b vis <->
          sees sqrt width height boundary mask distance_to_boundary
               (pixel_of subsample c) b.
Proof. intros. now apply ComputeVisibility_lemma. Qed.

(** X18.  Every list of visible boundary points becomes a signature with the
    same boundary indexes in the same order and weights above 0; an empty
    list stays an empty signature. *)
Theorem AssociateWeightToVisibility_spec (sqrt : Q -> Q)
  (width height subsample : Z) (boundary : list (Z * Z))
  (visibility : list (list Z)) :
  (forall q, 0 <= sqrt q) ->
  (0 < subsample)%Z -> (0 <= width)%Z -> (0 <= height)%Z ->
  zlen visibility = (Z.quot width subsample * Z.quot height subsample)%Z ->
  Forall (Forall (fun b => (0 <= b < zlen boundary)%Z)) visibility ->
  exists weighted_visibility,
    AssociateWeightToVisibility sqrt width height subsample boundary visibility
    = Ok weighted_visibility /\
    zlen weighted_visibility = zlen visibility /\
    forall k vis, zth visibility k = Some vis ->
      exists s, zth weighted_visibility k = Some s /\
        map fst s = vis /\ Forall (fun e => 0 < snd e) s.
Proof.
  intros Hsqrt Hs Hw Hh Hlen Hrange.
  destruct (AssociateWeightToVisibility_lemma sqrt Hsqrt width height subsample
              boundary visibility Hs Hw Hh Hlen Hrange) as (wv & Ew & Hlw & Hsig).
  exists wv. split; [exact Ew |]. split; [exact Hlw |].
  intros k vis Hk. destruct (Hsig k vis Hk) as (s & Es & (Hkeys & Hpos & _) & _).
  exists s. split; [exact Es |]. split; [exact Hkeys | exact Hpos].
Qed.

(** X19.  In the signature of a pixel the weight of a boundary point times its
    distance from the pixel plus 1 is the same for all the boundary points of
    the signature: the weights are inversely proportional to the distance plus
    1. *)
Theorem AssociateWeightToVisibility_inverse_distance (sqrt : Q -> Q)
  (width height subsample : Z) (boundary : list (Z * Z))
  (visibility : list (list Z)) :
  (forall q, 0 <= sqrt q) ->
  (0 < subsample)%Z -> (0 <= width)%Z -> (0 <= height)%Z ->
  zlen visibility = (Z.quot width subsample * Z.quot height subsample)%Z ->
  Forall (Forall (fun b => (0 <= b < zlen boundary)%Z)) visibility ->
  let sw := Z.quot width subsample in
  let sh := Z.quot height subsample in
  exists weighted_visibility,
    AssociateWeightToVisibility sqrt width height subsample boundary visibility
    = Ok weighted_visibility /\
    forall c, In c (raster 0 sw 0 sh) ->
      exists s scale,
        zth weighted_visibility (idx sw c) = Some s /\ 0 < scale /\
        forall b w, In (b, w) s ->
          exists d, distance_from sqrt boundary (pixel_of subsample c) b = Some d /\
                    w * (d + 1) == scale.
Proof.
  intros Hsqrt Hs Hw Hh Hlen Hrange sw sh.
  destruct (AssociateWeightToVisibility_lemma sqrt Hsqrt width height subsample
              boundary visibility Hs Hw Hh Hlen Hrange) as (wv & Ew & Hlw & Hsig).
  exists wv. split; [exact Ew |]. intros c Hc.
  destruct (zth_in_range visibility (idx sw c)) as [vis Evis].
  { rewrite Hlen. apply idx_range. now apply MaskFacts.in_grid_raster. }
  destruct (Hsig _ vis Evis) as (s & Es & _ & Hprop).
  destruct (Hprop c Hc eq_refl) as (scale & Hpos & Hscale).
  exists s, scale. split; [exact Es |]. split; [exact Hpos | exact Hscale].
Qed.

(** *** The two together *)

Lemma ascending_keys (s : signature) :
  StronglySorted Z.lt (map fst s) -> ascending s.
Proof.
  unfold ascending. induction s as [| e s IH]; cbn [map]; intro H; [constructor |].
  apply StronglySorted_inv in H. destruct H as [Hs He].
  constructor; [now apply IH |].
  rewrite Forall_map in He. exact He.
Qed.

(** A signature as [DetectDoors] makes them: ascending boundary indexes and
    weights above 0. *)
Definition well_formed (s : signature) : Prop :=
  ascending s /\ Forall (fun e => 0 < snd e) s.

Lemma raster_cell (w h k : Z) :
  (0 <= w)%Z -> (0 <= h)%Z ->
  (0 <= k < w * h)%Z -> exists c, In c (raster 0 w 0 h) /\ idx w c = k.
Proof.
  intros Hw0 Hh0 Hk. assert (Hw : (0 < w)%Z) by nia.
  exists ((k mod w)%Z, (k / w)%Z). split.
  - apply In_raster. cbn [fst snd].
    pose proof (Z.mod_pos_bound k w Hw).
    assert (0 <= k / w)%Z by (apply Z.div_pos; lia).
    assert (k / w < h)%Z by (apply Z.div_lt_upper_bound; lia).
    lia.
  - unfold idx. cbn [fst snd]. rewrite (Z.div_mod k w) at 3 by lia. ring.
Qed.

(** X20.  The signatures that [ComputeVisibility] and
    [AssociateWeightToVisibility] produce one after the other are all well
    formed: what the clustering compares with [VisibilityDistance] has
    strictly ascending boundary indexes, as the walk of [VisibilityDistance]
    takes for granted, and weights above 0. *)
Theorem weighted_visibility_well_formed (sqrt : Q -> Q)
  (width height subsample : Z) (boundary : list (Z * Z)) (mask : list bool)
  (distance_to_boundary : list Q) :
  (forall q, 0 <= sqrt q) ->
  (0 < subsample)%Z -> (0 <= width)%Z -> (0 <= height)%Z ->
  zlen mask = (width * height)%Z ->
  zlen distance_to_boundary = (width * height)%Z ->
  Forall (in_grid width height) boundary ->
  exists visibility weighted_visibility,
    ComputeVisibility sqrt width height subsample boundary mask distance_to_boundary
    = Ok visibility /\
    AssociateWeightToVisibility sqrt width height subsample boundary visibility
    = Ok weighted_visibility /\
    zlen weighted_visibility = (Z.quot width subsample * Z.quot height subsample)%Z /\
    Forall well_formed weighted_visibility.
Proof.
  intros Hsqrt Hs Hw Hh Hmask Hdist Hb.
  destruct (ComputeVisibility_lemma sqrt width height subsample boundary mask
              distance_to_boundary Hs Hw Hh Hmask Hdist Hb)
    as (visibility & Ev & Hlen & Hcells).
  assert (Hvis : forall k vis, zth visibility k = Some vis ->
            StronglySorted Z.lt vis /\
            Forall (fun b => (0 <= b < zlen boundary)%Z) vis).
  { intros k vis Hk. pose proof (zth_Some_range _ _ _ Hk) as Hr. rewrite Hlen in Hr.
    destruct (raster_cell (Z.quot width subsample) (Z.quot height subsample) k)
      as (c & Hc & <-);
      [apply Z.quot_pos; lia | apply Z.quot_pos; lia | exact Hr |].
    destruct (Hcells c Hc) as (vis' & Evis' & Hsorted & Hin).
    rewrite Hk in Evis'. injection Evis' as <-. split; [exact Hsorted |].
    apply Forall_forall. intros b Hbin. apply Hin in Hbin.
    destruct Hbin as (_ & _ & target & Et & _).
    eapply zth_Some_range; eauto. }
  assert (Hrange : Forall (Forall (fun b => (0 <= b < zlen boundary)%Z)) visibility).
  { apply Forall_forall. intros vis Hin. apply MergeFacts.In_zth in Hin.
    destruct Hin as [k Hk]. exact (proj2 (Hvis k vis Hk)). }
  destruct (AssociateWeightToVisibility_lemma sqrt Hsqrt width height subsample boundary
              visibility Hs Hw Hh Hlen Hrange) as (wv & Ew & Hlw & Hsig).
  exists visibility, wv. split; [exact Ev |]. split; [exact Ew |].
  split; [lia |]. apply Forall_forall. intros s Hin.
  apply MergeFacts.In_zth in Hin. destruct Hin as [k Hk].
  destruct (zth_in_range visibility k) as [vis Evis].
  { apply zth_Some_range in Hk. lia. }
  destruct (Hsig k vis Evis) as (s' & Es' & (Hkeys & Hpos & Hsum) & _).
  rewrite Hk in Es'. injection Es' as <-.
  destruct (Hvis k vis Evis) as [Hsorted _].
  split; [apply ascending_keys; now rewrite Hkeys | exact Hpos].
Qed.

(** *** On the room *)

(** A square root that is exact on the squares of whole numbers. *)
Definition sqrt_whole (q : Q) : Q := inject_Z (Z.sqrt (Qfloor q)).

Lemma sqrt_whole_nonneg (q : Q) : 0 <= sqrt_whole q.
Proof.
  unfold sqrt_whole. change 0 with (inject_Z 0). rewrite <- Zle_Qle.
  apply Z.sqrt_nonneg.
Qed.

(** Two points of the boundary of [room], and a field that keeps every
    pixel away from it. *)
Definition room_boundary : list (Z * Z) := [(1, 1); (7, 1)]%Z.

Definition room_field : list Q := repeat 10 81.

(** From (1, 1) the point (7, 1) is seen along the row 1; from (0, 5) the
    cell (5, 5) hides (7, 5); a sample outside the raster is an exit. *)
Example IsVisible_room :
  IsVisible sqrt_whole 9 9 room (1, 1)%Z (7, 1)%Z = Ok true /\
  IsVisible sqrt_whole 9 9 room (0, 5)%Z (7, 5)%Z = Ok false /\
  IsVisible sqrt_whole 9 9 (repeat true 81) (1, 1)%Z (12, 1)%Z = Fatal.
Proof. repeat split. Qed.

Lemma IsVisible_samples_witness :
  exists b,
    IsVisible sqrt_whole 9 9 room (0, 5)%Z (7, 5)%Z = Ok b /\
    (b = true <->
     forall i, (kVisibilityMargin <= i < steps_between sqrt_whole (0, 5) (7, 5))%Z ->
       open 9 9 room (sample sqrt_whole (0, 5)%Z (7, 5)%Z i)).
Proof.
  apply (IsVisible_samples sqrt_whole 9 9 room (0, 5)%Z (7, 5)%Z).
  - reflexivity.
  - vm_compute. repeat split; discriminate.
  - vm_compute. repeat split; discriminate.
Defined.

Lemma IsVisible_near_witness :
  IsVisible sqrt_whole 9 9 room (1, 5)%Z (5, 5)%Z = Ok true.
Proof.
  apply (IsVisible_near sqrt_whole 9 9 room (1, 5)%Z (5, 5)%Z). reflexivity.
Defined.

Lemma room_boundary_in_grid : Forall (in_grid 9 9) room_boundary.
Proof. repeat constructor; cbn; lia. Qed.

Lemma ComputeVisibility_spec_witness :
  exists visibility,
    ComputeVisibility sqrt_whole 9 9 2 room_boundary room room_field
    = Ok visibility /\
    zlen visibility = 16%Z /\
    forall c, In c (raster 0 4 0 4) ->
      exists vis, zth visibility (idx 4 c) = Some vis /\
        StronglySorted Z.lt vis /\
        forall b, In b vis <->
          sees sqrt_whole 9 9 room_boundary room room_field (pixel_of 2 c) b.
Proof.
  apply (ComputeVisibility_spec sqrt_whole 9 9 2 room_boundary room room_field).
  - reflexivity.
  - discriminate.
  - discriminate.
  - reflexivity.
  - reflexivity.
  - exact room_boundary_in_grid.
Defined.

(** The lists of a raster of 2 by 1 pixels: both boundary points for the
    first pixel, none for the second. *)
Definition seen : list (list Z) := [[0; 1]; []]%Z.

Example AssociateWeightToVisibility_seen :
  match AssociateWeightToVisibility sqrt_whole 2 1 1 room_boundary seen with
  | Ok [[(0%Z, w0); (1%Z, w1)]; []] => w0 == 4 # 5 /\ w1 == 1 # 5
  | _ => False
  end.
Proof. vm_compute. split; reflexivity. Qed.

Lemma AssociateWeightToVisibility_spec_witness :
  exists weighted_visibility,
    AssociateWeightToVisibility sqrt_whole 2 1 1 room_boundary seen
    = Ok weighted_visibility /\
    zlen weighted_visibility = zlen seen /\
    forall k vis, zth seen k = Some vis ->
      exists s, zth weighted_visibility k = Some s /\
        map fst s = vis /\ Forall (fun e => 0 < snd e) s.
Proof.
  apply (AssociateWeightToVisibility_spec sqrt_whole 2 1 1 room_boundary seen).
  - exact sqrt_whole_nonneg.
  - reflexivity.
  - discriminate.
  - discriminate.
  - reflexivity.
  - repeat constructor; unfold zlen; cbn; lia.
Defined.

Lemma AssociateWeightToVisibility_inverse_distance_witness :
  exists weighted_visibility,
    AssociateWeightToVisibility sqrt_whole 2 1 1 room_boundary seen
    = Ok weighted_visibility /\
    forall c, In c (raster 0 2 0 1) ->
      exists s scale,
        zth weighted_visibility (idx 2 c) = Some s /\ 0 < scale /\
        forall b w, In (b, w) s ->
          exists d, distance_from sqrt_whole room_boundary (pixel_of 1 c) b = Some d /\
                    w * (d + 1) == scale.
Proof.
  apply (AssociateWeightToVisibility_inverse_distance sqrt_whole 2 1 1 room_boundary
           seen).
  - exact sqrt_whole_nonneg.
  - reflexivity.
  - discriminate.
  - discriminate.
  - reflexivity.
  - repeat constructor; unfold zlen; cbn; lia.
Defined.

Lemma weighted_visibility_well_formed_witness :
  exists visibility weighted_visibility,
    ComputeVisibility sqrt_whole 9 9 2 room_boundary room room_field
    = Ok visibility /\
    AssociateWeightToVisibility sqrt_whole 9 9 2 room_boundary visibility
    = Ok weighted_visibility /\
    zlen weighted_visibility = 16%Z /\
    Forall well_formed weighted_visibility.
Proof.
  apply (weighted_visibility_well_formed sqrt_whole 9 9 2 room_boundary room
           room_field).
  - exact sqrt_whole_nonneg.
  - reflexivity.
  - discriminate.
  - discriminate.
  - reflexivity.
  - reflexivity.
  - exact room_boundary_in_grid.
Defined.

End SightFacts.

(** ** Signatures at the distance 0 *)

Module SignatureFacts.
Import DoorDetection VisibilityFacts SightFacts.

Lemma has_key_In (s : signature) (k : Z) : has_key s k = true <-> In k (map fst s).
Proof.
  unfold has_key. rewrite existsb_exists. split.
  - intros (x & Hx & E). apply Z.eqb_eq in E. now subst.
  - intro H. exists k. split; [exact H | apply Z.eqb_refl].
Qed.

Lemma total_zero_nil (s : signature) :
  Forall (fun e => 0 < snd e) s -> total s == 0 -> s = [].
Proof.
  intros Hp Hz. destruct s as [| e s]; [reflexivity |].
  exfalso. pose proof (total_pos (e :: s) ltac:(discriminate) Hp). lra.
Qed.

Lemma Forall_filter {A : Type} (P : A -> Prop) (f : A -> bool) (l : list A) :
  Forall P l -> Forall P (filter f l).
Proof.
  intro H. apply Forall_forall. intros x Hx. apply filter_In in Hx.
  rewrite Forall_forall in H. now apply H.
Qed.

Lemma filter_none {A : Type} (f : A -> bool) (l : list A) :
  filter f l = [] <-> forall x, In x l -> f x = false.
Proof.
  induction l as [| a l IH]; cbn [filter In]; [tauto |].
  destruct (f a) eqn:E.
  - split; [discriminate |]. intro H. specialize (H a (or_introl eq_refl)). congruence.
  - rewrite IH. split; [intros H x [<- | Hx]; auto | intros H x Hx; apply H; now right].
Qed.

(** Two strictly ascending lists with the same elements are the same. *)
Lemma sorted_unique (l1 : list Z) : forall l2,
  StronglySorted Z.lt l1 -> StronglySorted Z.lt l2 ->
  (forall x, In x l1 <-> In x l2) -> l1 = l2.
Proof.
  induction l1 as [| a l1 IH]; intros l2 H1 H2 Hin.
  - destruct l2 as [| b l2]; [reflexivity |].
    exfalso. apply (proj2 (Hin b)). now left.
  - destruct l2 as [| b l2]; [exfalso; apply (proj1 (Hin a)); now left |].
    apply StronglySorted_inv in H1, H2. destruct H1 as [S1 F1], H2 as [S2 F2].
    rewrite Forall_forall in F1, F2.
    assert (a = b).
    { destruct (proj1 (Hin a) (or_introl eq_refl)) as [-> | Ha]; [reflexivity |].
      destruct (proj2 (Hin b) (or_introl eq_refl)) as [-> | Hb]; [reflexivity |].
      specialize (F1 b Hb). specialize (F2 a Ha). lia. }
    subst b. f_equal. apply IH; [exact S1 | exact S2 |].
    intro x. split; intro Hx.
    + destruct (proj1 (Hin x) (or_intror Hx)) as [<- | H]; [| exact H].
      specialize (F1 a Hx). lia.
    + destruct (proj2 (Hin x) (or_intror Hx)) as [<- | H]; [| exact H].
      specialize (F2 a Hx). lia.
Qed.

Lemma keys_ascending (s : signature) :
  ascending s -> StronglySorted Z.lt (map fst s).
Proof.
  unfold ascending. induction 1 as [| e s Hs IH He]; cbn [map]; constructor;
    [exact IH |].
  rewrite Forall_map. exact He.
Qed.

Lemma only_in_nil (a b : signature) :
  only_in a b = [] <-> forall k, In k (map fst a) -> In k (map fst b).
Proof.
  unfold only_in. split.
  - intros H k Hk. pose proof (proj1 (filter_none _ _) H) as H'.
    apply in_map_iff in Hk. destruct Hk as (e & <- & He).
    apply has_key_In. specialize (H' e He). cbv beta in H'.
    now destruct (has_key b (fst e)).
  - intros H. apply filter_none. intros e He.
    assert (Hk : has_key b (fst e) = true).
    { apply has_key_In, H, in_map, He. }
    now rewrite Hk.
Qed.

(** X21.  Between signatures as [DetectDoors] makes them, with ascending
    boundary indexes and weights above 0, the distance is 0 exactly when the
    two see the same boundary points, whatever the weights. *)
Theorem VisibilityDistance_zero (a b : signature) :
  ascending a -> ascending b ->
  Forall (fun e => 0 < snd e) a -> Forall (fun e => 0 < snd e) b ->
  (VisibilityDistance a b == 0 <-> map fst a = map fst b).
Proof.
  intros Ha Hb Pa Pb.
  pose proof (vd_loop_only_in a b Ha Hb) as Hvd.
  assert (Pab : Forall (fun e => 0 < snd e) (only_in a b)) by now apply Forall_filter.
  assert (Pba : Forall (fun e => 0 < snd e) (only_in b a)) by now apply Forall_filter.
  assert (N : forall s, Forall (fun e => 0 < snd e) s -> 0 <= total s).
  { intros s Hs. apply total_nonneg. eapply Forall_impl; [| exact Hs].
    cbn beta. intros; lra. }
  pose proof (N _ Pab). pose proof (N _ Pba).
  unfold VisibilityDistance. split.
  - intro Hz.
    assert (Hz' : vd_loop a b 0 == 0).
    { setoid_replace (vd_loop a b 0) with (vd_loop a b 0 / 2 * 2) by field.
      rewrite Hz. ring. }
    rewrite Hvd in Hz'.
    assert (E1 : only_in a b = []) by (apply total_zero_nil; [exact Pab | lra]).
    assert (E2 : only_in b a = []) by (apply total_zero_nil; [exact Pba | lra]).
    apply sorted_unique; [now apply keys_ascending | now apply keys_ascending |].
    intro k. split; [now apply only_in_nil | now apply only_in_nil].
  - intro E. rewrite Hvd.
    assert (E1 : only_in a b = []) by (apply only_in_nil; intro k; now rewrite E).
    assert (E2 : only_in b a = []) by (apply only_in_nil; intro k; now rewrite E).
    rewrite E1, E2. reflexivity.
Qed.

Lemma VisibilityDistance_zero_witness :
  VisibilityDistance sig_one sig_halves == 0 <->
  map fst sig_one = map fst sig_halves.
Proof.
  apply (VisibilityDistance_zero sig_one sig_halves
           ascending_sig_one ascending_sig_halves); repeat constructor.
Defined.

End SignatureFacts.

(** ** The distance in single precision *)

Module RoundedFacts.
Import DoorDetection VisibilityFacts SightFacts.









End RoundedFacts.

(** ** Clustering *)

Module ClusterFacts.
Import DoorDetection VisibilityFacts SightFacts SignatureFacts MergeFacts.

(** Weights no less than 0 that sum to no more than 1: an empty signature or
    a normalized one. *)
Definition bounded (s : signature) : Prop :=
  Forall (fun e => 0 <= snd e) s /\ total s <= 1.

Lemma bounded_distance (a b : signature) :
  bounded a -> bounded b ->
  0 <= VisibilityDistance a b /\ VisibilityDistance a b <= 1.
Proof.
  intros [Ha Ta] [Hb Tb]. destruct (vd_loop_bounds a b Ha Hb) as [H0 H1].
  unfold VisibilityDistance. split.
  - apply Qle_shift_div_l; lra.
  - apply Qle_shift_div_r; lra.
Qed.

Lemma one_lt_FLT_MAX : 1 < FLT_MAX.
Proof. vm_compute. reflexivity. Qed.

(** *** The nearest center *)

Lemma combine_zrange_prefix {A : Type} (pre : list (Z * A)) :
  forall (k : Z) (l : list A) (i : Z) (c : A) (post : list (Z * A)),
    combine (zrange k (length l)) l = pre ++ (i, c) :: post ->
    i = (k + zlen pre)%Z /\ nth_error l (length pre) = Some c.
Proof.
  induction pre as [| p pre IH]; intros k l i c post E.
  - destruct l as [| x l]; [discriminate |]. cbn in E. injection E as -> -> _.
    split; [unfold zlen; cbn; lia | reflexivity].
  - destruct l as [| x l]; [discriminate |]. cbn in E. injection E as _ E.
    destruct (IH _ _ _ _ _ E) as [-> Hn]. split; [| exact Hn].
    unfold zlen. cbn [length]. lia.
Qed.

Lemma combine_upto_prefix {A : Type} (l : list A) (pre post : list (Z * A))
  (i : Z) (c : A) :
  combine (upto 0 (zlen l)) l = pre ++ (i, c) :: post ->
  i = zlen pre /\ zth l i = Some c.
Proof.
  unfold upto. rewrite Z.sub_0_r. unfold zlen at 1. rewrite Nat2Z.id. intro E.
  destruct (combine_zrange_prefix pre 0 l i c post E) as [-> Hn].
  split; [lia |]. unfold zth. destruct (Z.ltb_spec (0 + zlen pre) 0).
  - unfold zlen in *. lia.
  - unfold zlen. rewrite Z.add_0_l, Nat2Z.id. exact Hn.
Qed.

Lemma length_combine_upto {A : Type} (l : list A) :
  zlen (combine (upto 0 (zlen l)) l) = zlen l.
Proof.
  unfold zlen, upto. rewrite length_combine, length_zrange. lia.
Qed.

(** The distance of the element [index] to the element [c]. *)
Definition distance_to (wv : signatures) (index c : Z) : option Q :=
  match zth wv index, zth wv c with
  | Some a, Some b => Some (VisibilityDistance a b)
  | _, _ => None
  end.

(** The center at [i] is the first of the nearest centers of [index]. *)
Definition nearest (wv : signatures) (index : Z) (centers : list Z) (i : Z) : Prop :=
  exists ci di,
    zth centers i = Some ci /\ distance_to wv index ci = Some di /\
    forall j cj dj,
      zth centers j = Some cj -> distance_to wv index cj = Some dj ->
      di <= dj /\ ((j < i)%Z -> di < dj).

Lemma IdentifyClosestCenterIndex_spec (wv : signatures) (index : Z)
  (centers : list Z) :
  Forall bounded wv -> in_range wv index -> Forall (in_range wv) centers ->
  centers <> [] ->
  exists i, IdentifyClosestCenterIndex wv index centers = Ok i /\
            nearest wv index centers i.
Proof.
  intros Hwv Hindex Hcenters Hne. unfold IdentifyClosestCenterIndex. cbv zeta.
  destruct (zth_in_range wv index Hindex) as [a Ea].
  assert (Ha : bounded a).
  { rewrite Forall_forall in Hwv. apply Hwv. eapply zth_In; eauto. }
  assert (Hread : forall j cj, zth centers j = Some cj ->
            exists b, zth wv cj = Some b /\ bounded b /\
                      distance_to wv index cj = Some (VisibilityDistance a b)).
  { intros j cj Hj. rewrite Forall_forall in Hcenters.
    destruct (zth_in_range wv cj (Hcenters cj (zth_In _ _ _ Hj))) as [b Eb].
    exists b. split; [exact Eb |]. split.
    - rewrite Forall_forall in Hwv. apply Hwv. eapply zth_In; eauto.
    - unfold distance_to. now rewrite Ea, Eb. }
  loop_prefix_inv (fun (pre : list (Z * Z)) (st : Z * Q) =>
    (pre = [] /\ st = ((-1)%Z, FLT_MAX)) \/
    (pre <> [] /\ (0 <= fst st < zlen pre)%Z /\
     exists ci, zth centers (fst st) = Some ci /\
       distance_to wv index ci = Some (snd st) /\
       forall j cj dj, (j < zlen pre)%Z ->
         zth centers j = Some cj -> distance_to wv index cj = Some dj ->
         snd st <= dj /\ ((j < fst st)%Z -> snd st < dj))) Hloop.
  destruct Hloop as ([i d] & E & Hinv).
  - now left.
  - intros pre [i c] post [ci cd] E Hinv.
    apply combine_upto_prefix in E. destruct E as [-> Ec]. cbn [fst snd].
    destruct (Hread _ _ Ec) as (b & Eb & Hb & Hd).
    rewrite Ea, Eb. cbn [of_option bind].
    destruct (bounded_distance a b Ha Hb) as [Hd0 Hd1].
    pose proof one_lt_FLT_MAX as Hmax.
    assert (Hgrow : zlen (pre ++ [(zlen pre, c)]) = (zlen pre + 1)%Z).
    { unfold zlen. rewrite length_app. cbn [length]. lia. }
    assert (Hnn : pre ++ [(zlen pre, c)] <> []) by (destruct pre; discriminate).
    assert (Hpos : (0 <= zlen pre)%Z) by (unfold zlen; lia).
    destruct (fltb (VisibilityDistance a b) cd) eqn:Ef.
    + apply fltb_true in Ef. eexists. split; [reflexivity |]. right.
      split; [exact Hnn |]. cbn [fst snd]. split; [lia |].
      exists c. split; [exact Ec |]. split; [exact Hd |].
      intros j cj dj Hj Ecj Edj. rewrite Hgrow in Hj.
      destruct (Z.eq_dec j (zlen pre)) as [-> | Hnj].
      * rewrite Ec in Ecj. injection Ecj as <-. rewrite Hd in Edj.
        injection Edj as <-. split; [lra | lia].
      * destruct Hinv as [[-> _] | (_ & _ & ci' & _ & _ & Hmin)].
        -- apply zth_Some_range in Ecj. unfold zlen in Hj, Hnj. cbn in Hj, Hnj. lia.
        -- cbn [fst snd] in Hmin. destruct (Hmin j cj dj ltac:(lia) Ecj Edj) as [Hle _].
           split; [lra | intros _; lra].
    + apply fltb_false in Ef. eexists. split; [reflexivity |]. right.
      split; [exact Hnn |].
      destruct Hinv as [[_ Est] | (_ & Hr & ci' & Eci' & Edi' & Hmin)].
      { injection Est as _ ->. lra. }
      cbn [fst snd] in *. split; [lia |].
      exists ci'. split; [exact Eci' |]. split; [exact Edi' |].
      intros j cj dj Hj Ecj Edj. rewrite Hgrow in Hj.
      destruct (Z.eq_dec j (zlen pre)) as [-> | Hnj].
      * rewrite Ec in Ecj. injection Ecj as <-. rewrite Hd in Edj.
        injection Edj as <-. split; [exact Ef | lia].
      * apply (Hmin j cj dj); [lia | exact Ecj | exact Edj].
  - rewrite E. cbn [bind fst].
    destruct Hinv as [[Hnil _] | (_ & Hr & ci & Eci & Edi & Hmin)].
    { exfalso. pose proof (length_combine_upto centers) as Hl.
      rewrite Hnil in Hl. destruct centers; [congruence | discriminate Hl]. }
    cbn [fst snd] in *.
    destruct (Z.eqb_spec i (-1)); [lia |].
    exists i. split; [reflexivity |]. exists ci, d. split; [exact Eci |].
    split; [exact Edi |]. intros j cj dj Ecj Edj.
    apply (Hmin j cj dj); [| exact Ecj | exact Edj].
    rewrite length_combine_upto. apply zth_Some_range in Ecj. lia.
Qed.

(** X22.  Without centers [IdentifyClosestCenterIndex] exits.  With centers,
    among signatures of weights that sum to no more than 1, it returns the
    position of a center at the least distance, the first of them. *)
Theorem IdentifyClosestCenterIndex_nearest (wv : signatures) (index : Z)
  (centers : list Z) :
  IdentifyClosestCenterIndex wv index [] = Fatal /\
  (Forall bounded wv -> in_range wv index -> Forall (in_range wv) centers ->
   centers <> [] ->
   exists i, IdentifyClosestCenterIndex wv index centers = Ok i /\
             nearest wv index centers i).
Proof.
  split; [reflexivity |]. apply IdentifyClosestCenterIndex_spec.
Qed.

(** *** The center of a cluster *)

Import FrameFacts.

Lemma zlen_upto (lo hi : Z) : (lo <= hi)%Z -> zlen (upto lo hi) = (hi - lo)%Z.
Proof. intro H. unfold zlen, upto. rewrite length_zrange. lia. Qed.

Lemma zlen_snoc {A : Type} (l : list A) (a : A) : zlen (l ++ [a]) = (zlen l + 1)%Z.
Proof. unfold zlen. rewrite length_app. cbn [length]. lia. Qed.

Lemma zth_cons {A : Type} (a : A) (l : list A) (j : Z) :
  (0 <= j)%Z -> zth (a :: l) j = if (j =? 0)%Z then Some a else zth l (j - 1).
Proof.
  intro Hj. unfold zth. destruct (Z.ltb_spec j 0); [lia |].
  destruct (Z.eqb_spec j 0) as [-> | Hne]; [reflexivity |].
  destruct (Z.ltb_spec (j - 1) 0); [lia |].
  replace (Z.to_nat j) with (S (Z.to_nat (j - 1))) by lia. reflexivity.
Qed.

(** The sum of [g u] for [u] from 0 below [n]. *)
Definition isum (n : Z) (g : Z -> Q) : Q := Qsum (map g (upto 0 n)).

Lemma Qsum_map_ext (g g' : Z -> Q) (l : list Z) :
  (forall u, In u l -> g u == g' u) -> Qsum (map g l) == Qsum (map g' l).
Proof.
  induction l as [| a l IH]; intro H; [reflexivity |].
  cbn [map]. rewrite !Qsum_cons, IH, (H a); [reflexivity | now left |].
  intros; apply H; now right.
Qed.

Lemma isum_ext (n : Z) (g g' : Z -> Q) :
  (forall u, (0 <= u < n)%Z -> g u == g' u) -> isum n g == isum n g'.
Proof.
  intro H. apply Qsum_map_ext. intros u Hu. apply H. now apply In_upto in Hu.
Qed.

Lemma isum_update (n j : Z) (g g' : Z -> Q) (delta : Q) :
  (0 <= j < n)%Z ->
  (forall u, (0 <= u < n)%Z -> u <> j -> g' u == g u) ->
  g' j == g j + delta ->
  isum n g' == isum n g + delta.
Proof.
  intros Hj Hother Hthis. unfold isum. rewrite (upto_split 0 n j Hj), !map_app.
  cbn [map]. rewrite !Qsum_app, !Qsum_cons, Hthis.
  rewrite (Qsum_map_ext g' g (upto 0 j)), (Qsum_map_ext g' g (upto (j + 1) n)).
  - ring.
  - intros u Hu. apply In_upto in Hu. apply Hother; lia.
  - intros u Hu. apply In_upto in Hu. apply Hother; lia.
Qed.

Lemma isum_zero (n : Z) (g : Z -> Q) :
  (forall u, (0 <= u < n)%Z -> g u == 0) -> isum n g == 0.
Proof.
  intro H. unfold isum.
  assert (G : forall l, (forall u, In u l -> g u == 0) -> Qsum (map g l) == 0).
  { induction l as [| a l IH]; intro Hl; [reflexivity |].
    cbn [map]. rewrite Qsum_cons, IH, (Hl a); [ring | now left |].
    intros; apply Hl; now right. }
  apply G. intros u Hu. apply H. now apply In_upto in Hu.
Qed.

(** The squared distance of the members at [t] and [u] of a cluster. *)
Definition sqdist (wv : signatures) (cluster : list Z) (t u : Z) : Q :=
  match zth cluster t, zth cluster u with
  | Some ct, Some cu =>
      match zth wv ct, zth wv cu with
      | Some a, Some b => VisibilityDistance a b * VisibilityDistance a b
      | _, _ => 0
      end
  | _, _ => 0
  end.

(** The sum of the squared distances of the member at [t] to the others. *)
Definition spread (wv : signatures) (cluster : list Z) (t : Z) : Q :=
  isum (zlen cluster) (fun u => if (t =? u)%Z then 0 else sqdist wv cluster t u).

Lemma VisibilityDistance_sym (a b : signature) :
  VisibilityDistance a b = VisibilityDistance b a.
Proof. unfold VisibilityDistance. now rewrite vd_loop_sym. Qed.

Lemma sqdist_sym (wv : signatures) (cluster : list Z) (t u : Z) :
  sqdist wv cluster t u = sqdist wv cluster u t.
Proof.
  unfold sqdist. destruct (zth cluster t) as [ct |], (zth cluster u) as [cu |];
    try reflexivity.
  destruct (zth wv ct) as [a |], (zth wv cu) as [b |]; try reflexivity.
  now rewrite (VisibilityDistance_sym a b).
Qed.

(** The pair of [t] and [u] has been added when the loops are at [(i, j)]. *)
Definition added (i j t u : Z) : bool :=
  negb (t =? u)%Z &&
  ((Z.min t u <? i)%Z || ((Z.min t u =? i)%Z && (Z.max t u <? j)%Z)).

Ltac added_cases :=
  unfold added;
  repeat match goal with
         | |- context [(?a =? ?b)%Z] => destruct (Z.eqb_spec a b)
         | |- context [(?a <? ?b)%Z] => destruct (Z.ltb_spec a b)
         end; cbn [negb andb orb]; try reflexivity; try lia.

Lemma add_at_value (distances : list Q) (i : Z) (v : Q) :
  (0 <= i < zlen distances)%Z ->
  exists old d', zth distances i = Some old /\ add_at distances i v = Ok d' /\
    zlen d' = zlen distances /\ zth d' i = Some (old + v) /\
    forall k, k <> i -> zth d' k = zth distances k.
Proof.
  intro Hi. unfold add_at.
  destruct (zth_in_range distances i Hi) as [old Eo]. rewrite Eo. cbn [of_option bind].
  destruct (zset_spec distances i (old + v) Hi) as (d' & E & Hlen & Hs & Ho).
  rewrite E. cbn [of_option]. exists old, d'. auto.
Qed.

Lemma squared_distance_sums_spec (wv : signatures) (cluster : list Z) :
  Forall (in_range wv) cluster ->
  exists distances,
    squared_distance_sums wv cluster = Ok distances /\
    zlen distances = zlen cluster /\
    forall t, (0 <= t < zlen cluster)%Z ->
      exists v, zth distances t = Some v /\ v == spread wv cluster t.
Proof.
  intro Hc. unfold squared_distance_sums. cbv zeta. set (n := zlen cluster).
  assert (Hn : (0 <= n)%Z) by (unfold n, zlen; lia).
  assert (Hmem : forall i, (0 <= i < n)%Z ->
            exists ci a, zth cluster i = Some ci /\ zth wv ci = Some a).
  { intros i Hi. destruct (zth_in_range cluster i Hi) as [ci Eci].
    rewrite Forall_forall in Hc. specialize (Hc ci (zth_In _ _ _ Eci)).
    destruct (zth_in_range wv ci Hc) as [a Ea]. eauto. }
  pose (inv := fun (i j : Z) (ds : list Q) =>
    zlen ds = n /\
    forall t, (0 <= t < n)%Z ->
      exists v, zth ds t = Some v /\
        v == isum n (fun u => if added i j t u then sqdist wv cluster t u else 0)).
  assert (Hext : forall i j i' j' ds,
            (forall t u, (0 <= t < n)%Z -> (0 <= u < n)%Z ->
               added i j t u = added i' j' t u) ->
            inv i j ds -> inv i' j' ds).
  { intros i j i' j' ds He [Hl Hv]. split; [exact Hl |]. intros t Ht.
    destruct (Hv t Ht) as (v & Ev & Hsum). exists v. split; [exact Ev |].
    rewrite Hsum. apply isum_ext. intros u Hu. now rewrite (He t u Ht Hu). }
  loop_prefix_inv (fun (pre : list Z) (ds : list Q) =>
    inv (zlen pre) (zlen pre + 1)%Z ds) Hloop.
  destruct Hloop as (ds & E & Hinv).
  - split; [unfold n; apply zlen_repeat |]. intros t Ht. exists 0. split.
    + apply zth_repeat. unfold n, zlen in Ht. exact Ht.
    + symmetry. apply isum_zero. intros u Hu.
      replace (added (zlen (@nil Z)) (zlen (@nil Z) + 1) t u) with false;
        [reflexivity |].
      change (zlen (@nil Z)) with 0%Z. symmetry. added_cases.
  - intros pre i post ds E Hinv.
    apply upto_prefix in E. destruct E as [-> Hi].
    rewrite zlen_upto in Hinv by lia. rewrite Z.sub_0_r in Hinv.
    loop_prefix_inv (fun (prej : list Z) (ds' : list Q) =>
      inv i (i + 1 + zlen prej)%Z ds') Hloop.
    destruct Hloop as (ds' & E' & Hinv').
    + change (zlen (@nil Z)) with 0%Z. now rewrite Z.add_0_r.
    + intros prej j postj ds0 Ej [Hl0 Hv0].
      apply upto_prefix in Ej. destruct Ej as [-> Hj].
      rewrite zlen_upto in Hv0 by lia.
      replace (i + 1 + (j - (i + 1)))%Z with j in Hv0 by lia.
      destruct (Hmem i) as (ci & a & Eci & Ea); [lia |].
      destruct (Hmem j) as (cj & b & Ecj & Eb); [lia |].
      rewrite Eci, Ecj. cbn [of_option bind]. rewrite Ea, Eb. cbn [of_option bind].
      set (dd := VisibilityDistance a b * VisibilityDistance a b).
      assert (Hdd : sqdist wv cluster i j = dd).
      { unfold sqdist. now rewrite Eci, Ecj, Ea, Eb. }
      destruct (add_at_value ds0 i dd) as (vi & d1 & Evi & E1 & Hl1 & Hs1 & Ho1); [lia |].
      rewrite E1. cbn [bind].
      destruct (add_at_value d1 j dd) as (vj & d2 & Evj & E2 & Hl2 & Hs2 & Ho2); [lia |].
      rewrite Ho1 in Evj by lia.
      exists d2. split; [exact E2 |]. split; [lia |].
      rewrite zlen_snoc, zlen_upto by lia.
      replace (i + 1 + (j - (i + 1) + 1))%Z with (j + 1)%Z by lia.
      intros t Ht. destruct (Hv0 t Ht) as (v & Ev & Hsum).
      destruct (Z.eq_dec t j) as [-> | Htj]; [| destruct (Z.eq_dec t i) as [-> | Hti]].
      * exists (vj + dd). split; [exact Hs2 |].
        rewrite Evj in Ev. injection Ev as <-. rewrite Hsum. symmetry.
        apply (isum_update n i); [lia | |].
        -- intros u Hu Hne. replace (added i (j + 1) j u) with (added i j j u);
             [reflexivity | added_cases].
        -- replace (added i (j + 1) j i) with true by (symmetry; added_cases).
           replace (added i j j i) with false by (symmetry; added_cases).
           rewrite sqdist_sym, Hdd. ring.
      * exists (vi + dd). split; [rewrite Ho2 by lia; exact Hs1 |].
        rewrite Evi in Ev. injection Ev as <-. rewrite Hsum. symmetry.
        apply (isum_update n j); [lia | |].
        -- intros u Hu Hne. replace (added i (j + 1) i u) with (added i j i u);
             [reflexivity | added_cases].
        -- replace (added i (j + 1) i j) with true by (symmetry; added_cases).
           replace (added i j i j) with false by (symmetry; added_cases).
           rewrite Hdd. ring.
      * exists v. split; [rewrite Ho2, Ho1 by lia; exact Ev |].
        rewrite Hsum. apply isum_ext. intros u Hu.
        replace (added i (j + 1) t u) with (added i j t u); [reflexivity | added_cases].
    + exists ds'. split; [exact E' |].
      rewrite zlen_upto in Hinv' by lia. rewrite zlen_snoc, zlen_upto by lia.
      apply (Hext i (i + 1 + (n - (i + 1)))%Z); [| exact Hinv'].
      intros t u Ht Hu. added_cases.
  - exists ds. split; [exact E |]. rewrite zlen_upto in Hinv by lia.
    destruct Hinv as [Hl Hv]. split; [exact Hl |]. intros t Ht.
    destruct (Hv t Ht) as (v & Ev & Hsum). exists v. split; [exact Ev |].
    rewrite Hsum. unfold spread. fold n. apply isum_ext. intros u Hu.
    replace (added (n - 0) (n - 0 + 1) t u) with (negb (t =? u)%Z) by added_cases.
    destruct (t =? u)%Z; reflexivity.
Qed.

(** [min_element] finds the first of the least elements. *)
Lemma min_index_from_spec (l : list Q) : forall best best_i i,
  (best_i < i)%Z ->
  let k := min_index_from best best_i i l in
  exists v,
    ((k = best_i /\ v = best) \/ ((i <= k)%Z /\ zth l (k - i) = Some v)) /\
    v <= best /\ (k <> best_i -> v < best) /\
    forall j w, zth l j = Some w -> v <= w /\ ((i + j < k)%Z -> v < w).
Proof.
  induction l as [| a l IH]; intros best best_i i Hb; cbn [min_index_from]; cbv zeta.
  - exists best. split; [now left |]. split; [lra |]. split; [congruence |].
    intros j w Hj. apply zth_Some_range in Hj. unfold zlen in Hj. cbn in Hj. lia.
  - destruct (fltb a best) eqn:Ef.
    + apply fltb_true in Ef.
      destruct (IH a i (i + 1)%Z ltac:(lia)) as (v & Hk & Hle & Hlt & Hall).
      cbv zeta in *. set (k := min_index_from a i (i + 1) l) in *.
      exists v. split; [| split; [lra | split; [intros _; lra |]]].
      * right. destruct Hk as [[Ek ->] | [Hik Ev]].
        -- split; [lia |]. rewrite Ek, Z.sub_diag. reflexivity.
        -- split; [lia |]. rewrite zth_cons by lia.
           destruct (Z.eqb_spec (k - i) 0); [lia |].
           now replace (k - i - 1)%Z with (k - (i + 1))%Z by lia.
      * intros j w Hj. pose proof (zth_Some_range _ _ _ Hj) as Hr.
        rewrite zth_cons in Hj by lia. destruct (Z.eqb_spec j 0) as [-> | Hne].
        -- injection Hj as <-. split; [exact Hle |]. intro Hlt'. apply Hlt. lia.
        -- destruct (Hall _ _ Hj) as [H1 H2]. split; [exact H1 |]. intro. apply H2. lia.
    + apply fltb_false in Ef.
      destruct (IH best best_i (i + 1)%Z ltac:(lia)) as (v & Hk & Hle & Hlt & Hall).
      cbv zeta in *. set (k := min_index_from best best_i (i + 1) l) in *.
      exists v. split; [| split; [exact Hle | split; [exact Hlt |]]].
      * destruct Hk as [Hk | [Hik Ev]]; [now left | right].
        split; [lia |]. rewrite zth_cons by lia.
        destruct (Z.eqb_spec (k - i) 0); [lia |].
        now replace (k - i - 1)%Z with (k - (i + 1))%Z by lia.
      * intros j w Hj. pose proof (zth_Some_range _ _ _ Hj) as Hr.
        rewrite zth_cons in Hj by lia. destruct (Z.eqb_spec j 0) as [-> | Hne].
        -- injection Hj as <-. split; [lra |]. intro Hlt'.
           assert (k <> best_i) by lia. specialize (Hlt H). lra.
        -- destruct (Hall _ _ Hj) as [H1 H2]. split; [exact H1 |]. intro. apply H2. lia.
Qed.

Lemma min_element_index_spec (l : list Q) :
  l <> [] ->
  exists v, zth l (min_element_index l) = Some v /\
    forall j w, zth l j = Some w ->
      v <= w /\ ((j < min_element_index l)%Z -> v < w).
Proof.
  destruct l as [| a l]; [congruence |]. intros _. unfold min_element_index.
  destruct (min_index_from_spec l a 0 1 ltac:(lia)) as (v & Hk & Hle & Hlt & Hall).
  cbv zeta in *. set (k := min_index_from a 0 1 l) in *.
  exists v. split.
  - destruct Hk as [[-> ->] | [Hk Ev]]; [reflexivity |].
    rewrite zth_cons by lia. destruct (Z.eqb_spec k 0); [lia | exact Ev].
  - intros j w Hj. pose proof (zth_Some_range _ _ _ Hj) as Hr.
    rewrite zth_cons in Hj by lia. destruct (Z.eqb_spec j 0) as [-> | Hne].
    + injection Hj as <-. split; [exact Hle |]. intro. apply Hlt. lia.
    + destruct (Hall _ _ Hj) as [H1 H2]. split; [exact H1 |]. intro. apply H2. lia.
Qed.

(** The member [c] of the cluster is its center: the sum of the squared
    distances from it to the other members is the least, and it is the
    first of the members for which it is. *)
Definition medoid (wv : signatures) (cluster : list Z) (c : Z) : Prop :=
  exists i, zth cluster i = Some c /\
    forall t, (0 <= t < zlen cluster)%Z ->
      spread wv cluster i <= spread wv cluster t /\
      ((t < i)%Z -> spread wv cluster i < spread wv cluster t).

(** The center that [UpdateCenters] gives a cluster. *)
Definition center_of (wv : signatures) (cluster : list Z) (c : Z) : Prop :=
  (cluster = [] /\ c = 0%Z) \/ (cluster <> [] /\ medoid wv cluster c).

Lemma UpdateCenters_spec (wv : signatures) (clusters : list (list Z)) :
  members_ok wv clusters ->
  exists centers,
    UpdateCenters wv clusters = Ok centers /\
    zlen centers = zlen clusters /\
    forall k cluster, zth clusters k = Some cluster ->
      exists c, zth centers k = Some c /\ center_of wv cluster c.
Proof.
  intro Hok. unfold UpdateCenters.
  loop_prefix_inv (fun (pre : list (list Z)) (cs : list Z) =>
    zlen cs = zlen pre /\
    forall k cluster, zth pre k = Some cluster ->
      exists c, zth cs k = Some c /\ center_of wv cluster c) Hloop.
  destruct Hloop as (cs & E & Hlen & Hcs).
  - split; [reflexivity |]. intros k cluster Hk.
    apply zth_Some_range in Hk. unfold zlen in Hk. cbn in Hk. lia.
  - intros pre cluster post cs E [Hlen Hcs].
    assert (Hc : Forall (in_range wv) cluster).
    { unfold members_ok in Hok. rewrite Forall_forall in Hok. apply Hok.
      rewrite E. apply in_or_app. right. now left. }
    assert (Hstep : forall c, center_of wv cluster c ->
              zlen (cs ++ [c]) = zlen (pre ++ [cluster]) /\
              forall k cluster', zth (pre ++ [cluster]) k = Some cluster' ->
                exists c', zth (cs ++ [c]) k = Some c' /\ center_of wv cluster' c').
    { intros c Hcen. split; [rewrite !zlen_snoc; lia |].
      intros k cluster' Hk. pose proof (zth_Some_range _ _ _ Hk) as Hr.
      rewrite zlen_snoc in Hr. unfold zth in *.
      destruct (Z.ltb_spec k 0); [lia |].
      destruct (Z.eq_dec k (zlen pre)) as [-> | Hne].
      - unfold zlen in Hk. rewrite Nat2Z.id, nth_error_app2, Nat.sub_diag in Hk by lia.
        injection Hk as <-. exists c. split; [| exact Hcen].
        rewrite <- Hlen. unfold zlen.
        rewrite Nat2Z.id, nth_error_app2, Nat.sub_diag by lia. reflexivity.
      - unfold zlen in *. rewrite nth_error_app1 in Hk by lia.
        destruct (Hcs k cluster') as (c' & Ec' & Hc').
        { destruct (Z.ltb_spec k 0); [lia | exact Hk]. }
        exists c'. split; [| exact Hc'].
        destruct (Z.ltb_spec k 0); [lia |]. rewrite nth_error_app1 by lia. exact Ec'. }
    destruct cluster as [| c0 cluster'].
    + eexists. split; [reflexivity |]. apply Hstep. now left.
    + destruct (squared_distance_sums_spec wv (c0 :: cluster') Hc)
        as (ds & Eds & Hds & Hval).
      rewrite Eds. cbn [bind].
      assert (Hne : ds <> []).
      { intros ->. unfold zlen in Hds. cbn in Hds. lia. }
      destruct (min_element_index_spec ds Hne) as (v & Ev & Hmin).
      pose proof (zth_Some_range _ _ _ Ev) as Hr. rewrite Hds in Hr.
      destruct (zth_in_range (c0 :: cluster') (min_element_index ds) Hr) as [c Ec].
      rewrite Ec. cbn [of_option bind]. eexists. split; [reflexivity |].
      apply Hstep. right. split; [discriminate |].
      exists (min_element_index ds). split; [exact Ec |]. intros t Ht.
      destruct (Hval t Ht) as (w & Ew & Hw).
      destruct (Hval _ Hr) as (v' & Ev' & Hv').
      rewrite Ev in Ev'. injection Ev' as <-.
      destruct (Hmin t w Ew) as [H1 H2]. rewrite <- Hv', <- Hw.
      split; [exact H1 | exact H2].
  - exists cs. split; [exact E |]. split; [exact Hlen | exact Hcs].
Qed.

(** X23.  [UpdateCenters] gives every cluster that is not empty the first of
    its members from which the sum of the squared distances to the other
    members is the least, and an empty cluster the element 0. *)
Theorem UpdateCenters_medoids (wv : signatures) (clusters : list (list Z)) :
  members_ok wv clusters ->
  exists centers,
    UpdateCenters wv clusters = Ok centers /\
    zlen centers = zlen clusters /\
    forall k cluster, zth clusters k = Some cluster ->
      exists c, zth centers k = Some c /\ center_of wv cluster c.
Proof. apply UpdateCenters_spec. Qed.

(** *** Clusters *)

Definition has_signature (iw : Z * signature) : bool :=
  match snd iw with
  | [] => false
  | _ => true
  end.

(** The elements that have a signature, in ascending order. *)
Definition elements (wv : signatures) : list Z :=
  map fst (filter has_signature (combine (upto 0 (zlen wv)) wv)).

Lemma elements_in_range (wv : signatures) (i : Z) :
  In i (elements wv) -> in_range wv i.
Proof.
  unfold elements. intro H. apply in_map_iff in H. destruct H as ([i' s] & <- & H).
  apply filter_In in H. destruct H as [H _]. apply in_combine_l in H.
  apply In_upto in H. exact H.
Qed.

Lemma list_set_concat {A : Type} (x : list A) (l : list (list A)) :
  forall (n : nat) (row : list A) (l' : list (list A)),
    nth_error l n = Some row -> list_set l n (row ++ x) = Some l' ->
    Permutation (concat l') (concat l ++ x).
Proof.
  induction l as [| r l IH]; intros n row l' Hn Hs; [destruct n; discriminate |].
  destruct n as [| n]; cbn in Hn, Hs.
  - injection Hn as ->. injection Hs as <-. cbn [concat].
    rewrite <- !app_assoc. apply Permutation_app_head, Permutation_app_comm.
  - destruct (list_set l n (row ++ x)) as [l1 |] eqn:E1; [| discriminate].
    injection Hs as <-. cbn [concat]. rewrite <- app_assoc.
    apply Permutation_app_head. eapply IH; eauto.
Qed.

(** Appending to one cluster appends to the members of all. *)
Lemma zset_concat {A : Type} (x : list A) (l l' : list (list A)) (c : Z)
  (row : list A) :
  zth l c = Some row -> zset l c (row ++ x) = Some l' ->
  Permutation (concat l') (concat l ++ x).
Proof.
  unfold zth, zset. destruct (c <? 0)%Z; [discriminate |]. apply list_set_concat.
Qed.

Lemma assign_spec (wv : signatures) (centers : list Z) :
  Forall bounded wv -> Forall (in_range wv) centers -> centers <> [] ->
  exists clusters,
    assign wv centers = Ok clusters /\
    zlen clusters = zlen centers /\
    Permutation (concat clusters) (elements wv).
Proof.
  intros Hwv Hcenters Hne. unfold assign, elements.
  loop_prefix_inv (fun (pre : list (Z * signature)) (clusters : list (list Z)) =>
    zlen clusters = zlen centers /\
    Permutation (concat clusters) (map fst (filter has_signature pre))) Hloop.
  destruct Hloop as (clusters & E & Hlen & Hperm); [| | eauto].
  - split; [apply zlen_repeat |].
    assert (G : forall n, concat (repeat (@nil Z) n) = []).
    { induction n as [| n IH]; [reflexivity | exact IH]. }
    rewrite G. constructor.
  - intros pre [i s] post clusters E [Hlen Hperm].
    apply combine_upto_prefix in E. destruct E as [-> Es]. cbn [fst snd].
    rewrite filter_app, map_app. cbn [filter has_signature snd].
    destruct s as [| e s'].
    + exists clusters. split; [reflexivity |]. split; [exact Hlen |].
      cbn [map]. now rewrite app_nil_r.
    + destruct (IdentifyClosestCenterIndex_spec wv (zlen pre) centers Hwv)
        as (c & Ec & ci & di & Eci & _); [eapply zth_Some_range; eauto | auto | auto |].
      rewrite Ec. cbn [bind].
      apply zth_Some_range in Eci. rewrite <- Hlen in Eci.
      destruct (zth_in_range clusters c Eci) as [members Em].
      rewrite Em. cbn [of_option bind].
      destruct (zset_spec clusters c (members ++ [zlen pre]) Eci)
        as (clusters' & Ez & Hl' & _).
      rewrite Ez. cbn [of_option]. exists clusters'. split; [reflexivity |].
      split; [lia |]. cbn [map fst].
      rewrite (zset_concat _ _ _ _ _ Em Ez). now apply Permutation_app_tail.
Qed.

(** Without centers the first element that has a signature makes the
    assignment exit. *)
Lemma assign_no_centers (wv : signatures) :
  elements wv <> [] -> assign wv [] = Fatal.
Proof.
  unfold elements, assign. cbn [length repeat].
  generalize (combine (upto 0 (zlen wv)) wv) as l. intros l.
  generalize (@nil (list Z)) as clusters.
  induction l as [| [i s] l IH]; intros clusters Hne; [now cbn in Hne |].
  cbn [for_each snd fst]. destruct s as [| e s'].
  - cbn [bind]. apply IH. exact Hne.
  - reflexivity.
Qed.

Lemma members_of_elements (wv : signatures) (clusters : list (list Z)) :
  Permutation (concat clusters) (elements wv) -> members_ok wv clusters.
Proof.
  intro Hp. unfold members_ok. apply Forall_forall. intros cluster Hc.
  apply Forall_forall. intros i Hi. apply elements_in_range.
  apply (Permutation_in _ Hp). apply in_concat. eauto.
Qed.

Lemma members_perm (wv : signatures) (clusters clusters' : list (list Z)) :
  Permutation (concat clusters') (concat clusters) ->
  members_ok wv clusters -> members_ok wv clusters'.
Proof.
  intros Hp Hok. unfold members_ok in *. apply Forall_forall. intros cluster Hc.
  apply Forall_forall. intros i Hi.
  assert (Hin : In i (concat clusters)).
  { apply (Permutation_in _ Hp). apply in_concat. eauto. }
  apply in_concat in Hin. destruct Hin as (cl & Hcl & Hi').
  rewrite Forall_forall in Hok. specialize (Hok cl Hcl).
  rewrite Forall_forall in Hok. now apply Hok.
Qed.

(** The centers that [UpdateCenters] gives are elements. *)
Lemma centers_in_range (wv : signatures) (clusters : list (list Z))
  (centers : list Z) :
  wv <> [] -> members_ok wv clusters ->
  UpdateCenters wv clusters = Ok centers ->
  zlen centers = zlen clusters /\ Forall (in_range wv) centers.
Proof.
  intros Hwv Hok E.
  destruct (UpdateCenters_spec wv clusters Hok) as (cs & E' & Hlen & Hcs).
  rewrite E in E'. apply Ok_inj in E'. subst cs. split; [exact Hlen |].
  apply Forall_forall. intros c Hc. apply In_zth in Hc. destruct Hc as [k Hk].
  destruct (zth_in_range clusters k) as [cluster Ecl].
  { apply zth_Some_range in Hk. lia. }
  destruct (Hcs k cluster Ecl) as (c' & Ec' & Hcen).
  rewrite Hk in Ec'. injection Ec' as <-.
  destruct Hcen as [[_ ->] | [_ (i & Ei & _)]].
  - unfold in_range, zlen. destruct wv; [congruence | cbn [length]; lia].
  - unfold members_ok in Hok. rewrite Forall_forall in Hok.
    specialize (Hok cluster (zth_In _ _ _ Ecl)). rewrite Forall_forall in Hok.
    apply Hok. eapply zth_In; eauto.
Qed.

Lemma centers_nonempty_wv (wv : signatures) (centers : list Z) :
  centers <> [] -> Forall (in_range wv) centers -> wv <> [].
Proof.
  intros Hne Hc ->. destruct centers as [| c cs]; [congruence |].
  inversion Hc as [| ? ? H _]; subst. unfold in_range, zlen in H. cbn in H. lia.
Qed.

(** One round of [Cluster]. *)
Lemma Cluster_round (wv : signatures) (centers : list Z) :
  Forall bounded wv -> Forall (in_range wv) centers -> centers <> [] ->
  exists centers' clusters',
    assign wv centers = Ok clusters' /\
    UpdateCenters wv clusters' = Ok centers' /\
    zlen centers' = zlen centers /\ zlen clusters' = zlen centers /\
    Forall (in_range wv) centers' /\ centers' <> [] /\
    Permutation (concat clusters') (elements wv).
Proof.
  intros Hwv Hc Hne.
  destruct (assign_spec wv centers Hwv Hc Hne) as (clusters' & Ea & Hl & Hp).
  pose proof (members_of_elements wv clusters' Hp) as Hok.
  destruct (UpdateCenters_spec wv clusters' Hok) as (centers' & Eu & Hlc & _).
  destruct (centers_in_range wv clusters' centers'
              (centers_nonempty_wv wv centers Hne Hc) Hok Eu) as [_ Hr].
  exists centers', clusters'. repeat split; try assumption; try lia.
  intros ->. destruct centers; [congruence |]. unfold zlen in *. cbn in *. lia.
Qed.

Lemma Cluster_spec (wv : signatures) (centers : list Z) (clusters : list (list Z)) :
  Forall bounded wv -> Forall (in_range wv) centers -> centers <> [] ->
  exists centers' clusters',
    Cluster wv centers clusters = Ok (centers', clusters') /\
    zlen centers' = zlen centers /\ zlen clusters' = zlen centers /\
    Forall (in_range wv) centers' /\ centers' <> [] /\
    Permutation (concat clusters') (elements wv) /\
    UpdateCenters wv clusters' = Ok centers'.
Proof.
  intros Hwv Hc Hne. unfold Cluster. cbv zeta.
  loop_prefix_inv (fun (pre : list Datatypes.unit) (st : list Z * list (list Z)) =>
    (zlen (fst st) = zlen centers /\ Forall (in_range wv) (fst st) /\ fst st <> []) /\
    (pre <> [] ->
     zlen (snd st) = zlen centers /\
     Permutation (concat (snd st)) (elements wv) /\
     UpdateCenters wv (snd st) = Ok (fst st))) Hloop.
  destruct Hloop as ([centers' clusters'] & E & (Hl & Hr & Hn) & Hrest).
  - cbn [fst snd]. split; [auto | congruence].
  - intros pre [] post [cs cls] _ [(Hl & Hr & Hn) _]. cbn [fst snd] in *.
    destruct (Cluster_round wv cs Hwv Hr Hn)
      as (cs' & cls' & Ea & Eu & Hl1 & Hl2 & Hr' & Hn' & Hp).
    rewrite Ea. cbn [bind]. rewrite Eu. cbn [bind].
    eexists. split; [reflexivity |]. cbn [fst snd].
    split; [repeat split; try assumption; lia |].
    intros _. repeat split; try assumption; lia.
  - cbn [fst snd] in *. destruct Hrest as (Hl2 & Hp & Eu); [discriminate |].
    exists centers', clusters'. repeat split; assumption.
Qed.

(** X24.  [Cluster] ignores the clusters it is given.  With centers, it
    returns as many centers and as many clusters, the clusters hold every
    element that has a signature once and nothing else, and the centers are
    those that [UpdateCenters] gives the clusters.  Without centers it exits
    as soon as an element has a signature. *)
Theorem Cluster_partitions (wv : signatures) (centers : list Z)
  (clusters : list (list Z)) :
  (elements wv <> [] -> Cluster wv [] clusters = Fatal) /\
  (Forall bounded wv -> Forall (in_range wv) centers -> centers <> [] ->
   exists centers' clusters',
     Cluster wv centers clusters = Ok (centers', clusters') /\
     zlen centers' = zlen centers /\ zlen clusters' = zlen centers /\
     Forall (in_range wv) centers' /\
     Permutation (concat clusters') (elements wv) /\
     UpdateCenters wv clusters' = Ok centers').
Proof.
  split.
  - intro Hne. unfold Cluster. cbv zeta. cbn [repeat for_each fst].
    rewrite (assign_no_centers wv Hne). reflexivity.
  - intros Hwv Hc Hne.
    destruct (Cluster_spec wv centers clusters Hwv Hc Hne)
      as (centers' & clusters' & E & H1 & H2 & H3 & _ & H4 & H5).
    exists centers', clusters'. repeat split; assumption.
Qed.

(** *** Merging keeps the members *)

Lemma nth_error_split_at {A : Type} (l : list A) : forall (n : nat) (x : A),
  nth_error l n = Some x -> l = firstn n l ++ x :: skipn (S n) l.
Proof.
  induction l as [| a l IH]; intros n x H; [destruct n; discriminate |].
  destruct n as [| n]; cbn in *.
  - now injection H as ->.
  - f_equal. now apply IH.
Qed.

Lemma zerase_concat {A : Type} (l l' : list (list A)) (b : Z) :
  zerase l b = Ok l' ->
  Permutation (concat l) (concat l' ++ content l b) /\
  forall k, (k < b)%Z -> zth l' k = zth l k.
Proof.
  unfold zerase, content. destruct (Z.ltb_spec b 0); [discriminate |].
  destruct (Z.leb_spec (zlen l) b); [discriminate |]. cbn [orb].
  intro E. apply Ok_inj in E. subst l'.
  destruct (zth_in_range l b ltac:(lia)) as [row Er]. rewrite Er.
  pose proof Er as En. unfold zth in En. destruct (Z.ltb_spec b 0); [lia |].
  split.
  - rewrite (nth_error_split_at l _ _ En) at 1.
    rewrite !concat_app. cbn [concat]. rewrite <- app_assoc.
    apply Permutation_app_head, Permutation_app_comm.
  - intros k Hk. unfold zth. destruct (Z.ltb_spec k 0); [reflexivity |].
    rewrite nth_error_app1 by (rewrite length_firstn; unfold zlen in *; lia).
    rewrite nth_error_firstn.
    destruct (Nat.ltb_spec (Z.to_nat k) (Z.to_nat b)); [reflexivity | lia].
Qed.

(** Erasing clusters from the last to the first takes away what they held
    before any was erased. *)
Lemma erase_concat {A : Type} (ids : list Z) :
  descending ids ->
  forall l l' : list (list A),
    for_each ids (fun i clusters => zerase clusters i) l = Ok l' ->
    Permutation (concat l) (concat l' ++ flat_map (content l) ids).
Proof.
  induction 1 as [| id ids Hs IH Hid]; intros l l' E; cbn [for_each] in E.
  - apply Ok_inj in E. subst l'. cbn [flat_map]. now rewrite app_nil_r.
  - destruct (zerase l id) as [l1 | | |] eqn:E1; cbn [bind] in E; try discriminate.
    destruct (zerase_concat _ _ _ E1) as [Hp Hlow].
    specialize (IH _ _ E). cbn [flat_map].
    rewrite Hp, IH.
    rewrite (flat_map_ext_in (content l1) (content l) ids).
    + rewrite <- !app_assoc. apply Permutation_app_head, Permutation_app_comm.
    + intros b Hb. unfold content. rewrite Hlow; [reflexivity |].
      rewrite Forall_forall in Hid. now apply Hid.
Qed.

Lemma firsts_members (pairs : list (Z * Z)) (x : Z) :
  In x (map fst pairs) -> In x (members pairs).
Proof.
  induction pairs as [| p ps IH]; intro H; [contradiction |].
  cbn [members flat_map app map In] in *. fold (members ps).
  destruct H as [<- | H]; [now left | right; right; now apply IH].
Qed.

Lemma seconds_members (pairs : list (Z * Z)) (x : Z) :
  In x (map snd pairs) -> In x (members pairs).
Proof.
  induction pairs as [| p ps IH]; intro H; [contradiction |].
  cbn [members flat_map app map In] in *. fold (members ps).
  destruct H as [<- | H]; [right; now left | right; right; now apply IH].
Qed.

Lemma seconds_not_firsts (pairs : list (Z * Z)) (x : Z) :
  NoDup (members pairs) -> In x (map snd pairs) -> ~ In x (map fst pairs).
Proof.
  induction pairs as [| p ps IH]; intros Hnd Hs; [contradiction |].
  cbn [members flat_map app map In] in *. fold (members ps) in Hnd.
  inversion Hnd as [| ? ? Ha Hnd1]; subst. inversion Hnd1 as [| ? ? Hb Hnd2]; subst.
  cbn [In] in Ha. intros [Hf | Hf].
  - destruct Hs as [Hs | Hs]; [apply Ha; left; congruence |].
    apply Ha. right. rewrite Hf. now apply seconds_members.
  - destruct Hs as [<- | Hs]; [apply Hb; now apply firsts_members |].
    exact (IH Hnd2 Hs Hf).
Qed.

(** Joining the clusters of every pair adds the second cluster of every
    pair to the members, and changes no cluster but the first of a pair. *)
Lemma join_concat (pairs : list (Z * Z)) :
  NoDup (members pairs) ->
  forall cl0 cl1 : list (list Z),
    for_each pairs
      (fun pr clusters =>
         cluster0 <- of_option (zth clusters (fst pr)) ;;
         cluster1 <- of_option (zth clusters (snd pr)) ;;
         of_option (zset clusters (fst pr) (cluster0 ++ cluster1)))
      cl0 = Ok cl1 ->
    Permutation (concat cl1)
                (concat cl0 ++ flat_map (fun p => content cl0 (snd p)) pairs) /\
    forall k, ~ In k (map fst pairs) -> zth cl1 k = zth cl0 k.
Proof.
  induction pairs as [| p ps IH]; intros Hnd cl0 cl1 E; cbn [for_each] in E.
  - apply Ok_inj in E. subst cl1. cbn [flat_map]. rewrite app_nil_r. split; auto.
  - destruct (zth cl0 (fst p)) as [r0 |] eqn:E0; cbn [of_option bind] in E;
      [| discriminate].
    destruct (zth cl0 (snd p)) as [r1 |] eqn:E1; cbn [of_option bind] in E;
      [| discriminate].
    destruct (zset cl0 (fst p) (r0 ++ r1)) as [clm |] eqn:Ez; cbn [of_option bind] in E;
      [| discriminate].
    cbn [members flat_map app] in Hnd. fold (members ps) in Hnd.
    inversion Hnd as [| ? ? Ha Hnd1]; subst. inversion Hnd1 as [| ? ? Hb Hnd2]; subst.
    destruct (IH Hnd2 clm cl1 E) as [Hp Hsame].
    pose proof (zset_Some_spec _ _ _ _ Ez) as (_ & _ & _ & Hother).
    split.
    + rewrite Hp, (zset_concat _ _ _ _ _ E0 Ez). cbn [flat_map].
      replace (content cl0 (snd p)) with r1 by (unfold content; now rewrite E1).
      rewrite <- !app_assoc.
      do 2 apply Permutation_app_head.
      rewrite (flat_map_ext_in (fun p0 => content clm (snd p0))
                               (fun p0 => content cl0 (snd p0))); [reflexivity |].
      intros q Hq. unfold content. rewrite Hother; [reflexivity |].
      intro Eq. apply Ha. right. rewrite <- Eq. apply seconds_members.
      now apply in_map.
    + intros k Hk. cbn [map In] in Hk. rewrite Hsame by tauto.
      apply Hother. intro. apply Hk. now left.
Qed.

Lemma insert_desc_perm (x : Z) (l : list Z) : Permutation (insert_desc x l) (x :: l).
Proof.
  induction l as [| y l IH]; cbn [insert_desc]; [reflexivity |].
  destruct (y <? x)%Z; [reflexivity |]. rewrite IH. apply perm_swap.
Qed.

Lemma sort_desc_perm (l : list Z) : Permutation (sort_desc l) l.
Proof.
  induction l as [| y l IH]; [reflexivity |].
  unfold sort_desc in *. cbn [fold_right]. rewrite insert_desc_perm. now constructor.
Qed.

Lemma pairs_count (n : Z) (pairs : list (Z * Z)) :
  NoDup (members pairs) ->
  (forall pr, In pr pairs -> (0 <= fst pr < snd pr)%Z /\ (snd pr < n)%Z) ->
  (2 * Z.of_nat (length pairs) <= Z.max 0 n)%Z.
Proof.
  intros Hnd Hrange.
  assert (Hincl : incl (members pairs) (upto 0 n)).
  { intros k Hk. apply In_upto. unfold members in Hk. apply in_flat_map in Hk.
    destruct Hk as (pr & Hpr & Hk). specialize (Hrange pr Hpr).
    destruct Hk as [<- | [<- | []]]; lia. }
  pose proof (NoDup_incl_length Hnd Hincl) as Hlen.
  unfold upto in Hlen. rewrite length_zrange in Hlen.
  assert (Hm : length (members pairs) = (2 * length pairs)%nat).
  { clear. induction pairs as [| p ps IH]; [reflexivity |].
    cbn [members flat_map app length]. fold (members ps). lia. }
  lia.
Qed.

Lemma Merge_spec (wv : signatures) (threshold : Q) (centers : list Z)
  (clusters : list (list Z)) :
  threshold <= FLT_MAX ->
  Forall (in_range wv) centers -> zlen clusters = zlen centers ->
  members_ok wv clusters ->
  exists merged centers' clusters',
    Merge wv threshold centers clusters = Ok (merged, centers', clusters') /\
    Permutation (concat clusters') (concat clusters) /\
    zlen centers' = zlen clusters' /\
    (zlen clusters <= 2 * zlen clusters')%Z /\ (zlen clusters' <= zlen clusters)%Z /\
    (merged = true -> UpdateCenters wv clusters' = Ok centers') /\
    (merged = false -> centers' = centers /\ clusters' = clusters).
Proof.
  intros Hthr Hc Hlen Hok. unfold Merge.
  destruct (pairs_to_merge_spec wv threshold centers Hthr
              (centers_in_range_readable wv centers Hc))
    as (pairs & Ep & Hnd & Hrange & _).
  rewrite Ep. cbn [bind].
  pose proof (pairs_count (zlen centers) pairs Hnd Hrange) as Hcount.
  destruct pairs as [| pr pairs].
  { exists false, centers, clusters. split; [reflexivity |].
    split; [reflexivity |]. split; [lia |]. unfold zlen in *.
    split; [lia |]. split; [lia |]. split; [discriminate | auto]. }
  set (ps := pr :: pairs) in *.
  loop_inv (fun cl : list (list Z) => zlen cl = zlen clusters /\ members_ok wv cl) Hloop.
  destruct Hloop as (cl1 & E1 & Hl1 & Hok1).
  - split; [reflexivity | exact Hok].
  - intros p cl Hp [Hl Hm]. specialize (Hrange p Hp).
    destruct (zth_in_range cl (fst p)) as [x0 E0]; [lia |].
    destruct (zth_in_range cl (snd p)) as [x1 E1]; [lia |].
    rewrite E0, E1. cbn [of_option bind].
    destruct (zset_spec cl (fst p) (x0 ++ x1)) as (cl' & Ez & Hl' & _); [lia |].
    rewrite Ez. cbn [of_option]. exists cl'. split; [reflexivity |].
    split; [lia |]. unfold members_ok in *.
    apply (Forall_zset _ cl cl' (fst p) (x0 ++ x1)); [exact Hm | | exact Ez].
    rewrite Forall_forall in Hm. apply Forall_app.
    split; apply Hm; eapply zth_In; eauto.
  - rewrite E1. cbn [bind].
    pose proof (sort_desc_descending _ (NoDup_seconds _ Hnd)) as Hdesc.
    destruct (erase_descending (Forall (in_range wv)) (sort_desc (map snd ps))
                Hdesc cl1) as (cl2 & E2 & Hl2 & Hok2).
    + intros i Hi. apply sort_desc_In, in_map_iff in Hi.
      destruct Hi as (p & <- & Hp). specialize (Hrange p Hp). lia.
    + exact Hok1.
    + rewrite E2. cbn [bind].
      destruct (UpdateCenters_total wv cl2 Hok2) as (cs & Ecs & Hlcs).
      rewrite Ecs. cbn [bind]. exists true, cs, cl2. split; [reflexivity |].
      rewrite sort_desc_length, length_map in Hl2.
      split; [| split; [exact Hlcs | split; [| split; [| split]]]].
      * destruct (join_concat ps Hnd clusters cl1 E1) as [Hj Hsame].
        pose proof (erase_concat _ Hdesc cl1 cl2 E2) as He.
        set (Y := flat_map (content clusters) (map snd ps)).
        assert (HY1 : flat_map (fun p => content clusters (snd p)) ps = Y).
        { unfold Y. rewrite !flat_map_concat_map, map_map. reflexivity. }
        assert (HY2 : Permutation (flat_map (content cl1) (sort_desc (map snd ps))) Y).
        { rewrite (flat_map_ext_in (content cl1) (content clusters)).
          - unfold Y. apply Permutation_flat_map, sort_desc_perm.
          - intros b Hb. apply (proj1 (sort_desc_In _ _)) in Hb. unfold content.
            rewrite Hsame; [reflexivity |]. exact (seconds_not_firsts ps b Hnd Hb). }
        rewrite HY1 in Hj.
        apply Permutation_app_inv_r with (l := Y).
        apply Permutation_trans with (concat cl1); [| exact Hj].
        apply Permutation_sym. apply Permutation_trans with (1 := He).
        now apply Permutation_app_head.
      * unfold zlen in *. lia.
      * unfold zlen in *. lia.
      * auto.
      * discriminate.
Qed.

(** X25.  [Merge] loses no member and repeats none: the clusters it returns
    hold what the clusters it was given held.  There is one center to a
    cluster again, and no fewer than half as many clusters as before. *)
Theorem Merge_keeps_members (wv : signatures) (threshold : Q) (centers : list Z)
  (clusters : list (list Z)) :
  threshold <= FLT_MAX ->
  Forall (in_range wv) centers -> zlen clusters = zlen centers ->
  members_ok wv clusters ->
  exists merged centers' clusters',
    Merge wv threshold centers clusters = Ok (merged, centers', clusters') /\
    Permutation (concat clusters') (concat clusters) /\
    zlen centers' = zlen clusters' /\
    (zlen clusters <= 2 * zlen clusters')%Z /\ (zlen clusters' <= zlen clusters)%Z.
Proof.
  intros Hthr Hc Hlen Hok.
  destruct (Merge_spec wv threshold centers clusters Hthr Hc Hlen Hok)
    as (merged & centers' & clusters' & E & Hp & H1 & H2 & H3 & _).
  exists merged, centers', clusters'. repeat split; assumption.
Qed.

(** *** ClusterMerge *)

(** What [ClusterMerge] and its rounds return. *)
Definition clustered (wv : signatures) (n : Z) (centers : list Z)
  (clusters : list (list Z)) : Prop :=
  (1 <= zlen centers <= n)%Z /\ zlen clusters = zlen centers /\
  Forall (in_range wv) centers /\
  Permutation (concat clusters) (elements wv).

(** The rounds of [ClusterMerge]: [t] are left. *)
Fixpoint merge_rounds (wv : signatures) (t : nat) (centers : list Z)
  (clusters : list (list Z)) : outcome (list Z * list (list Z)) :=
  match t with
  | O => Ok (centers, clusters)
  | S t' =>
      cc <- Cluster wv centers clusters ;;
      m <- Merge wv kMergeThreshold (fst cc) (snd cc) ;;
      let '(merged, centers, clusters) := m in
      if negb merged then Ok (centers, clusters)
      else merge_rounds wv t' centers clusters
  end.

Lemma ClusterMerge_rounds (wv : signatures) (centers : list Z)
  (clusters : list (list Z)) :
  ClusterMerge wv centers clusters =
  (cc <- merge_rounds wv 5 centers clusters ;; Cluster wv (fst cc) (snd cc)).
Proof. reflexivity. Qed.

Lemma ClusterMerge_spec (wv : signatures) (centers : list Z)
  (clusters : list (list Z)) :
  Forall bounded wv -> Forall (in_range wv) centers -> centers <> [] ->
  exists centers' clusters',
    ClusterMerge wv centers clusters = Ok (centers', clusters') /\
    clustered wv (zlen centers) centers' clusters' /\
    UpdateCenters wv clusters' = Ok centers'.
Proof.
  intros Hwv Hc Hne. rewrite ClusterMerge_rounds. set (rounds := merge_rounds wv).
  assert (Hpos : forall cs : list Z, cs <> [] -> (1 <= zlen cs)%Z).
  { intros [| c cs] H; [congruence |]. unfold zlen. cbn [length]. lia. }
  assert (Hrounds : forall t cs cls,
            Forall (in_range wv) cs -> cs <> [] ->
            exists cs' cls', rounds t cs cls = Ok (cs', cls') /\
              Forall (in_range wv) cs' /\ cs' <> [] /\ (zlen cs' <= zlen cs)%Z).
  { induction t as [| t IH]; intros cs cls Hr Hn.
    - exists cs, cls. repeat split; auto. lia.
    - unfold rounds. cbn [merge_rounds]. fold rounds.
      destruct (Cluster_spec wv cs cls Hwv Hr Hn)
        as (c1 & cl1 & E1 & Hl1 & Hl1' & Hr1 & Hn1 & Hp1 & _).
      rewrite E1. cbn [bind fst snd].
      destruct (Merge_spec wv kMergeThreshold c1 cl1 kMergeThreshold_le_max Hr1
                  ltac:(lia) (members_of_elements wv cl1 Hp1))
        as (merged & c2 & cl2 & E2 & Hp2 & Hl2 & Hhalf & Hless & Hup & Hsame).
      rewrite E2. cbn [bind].
      destruct merged; cbn [negb].
      + assert (Hok2 : members_ok wv cl2).
        { apply (members_perm wv cl1 cl2 Hp2). now apply members_of_elements. }
        destruct (centers_in_range wv cl2 c2 (centers_nonempty_wv wv cs Hn Hr)
                    Hok2 (Hup eq_refl)) as [_ Hr2].
        assert (Hn2 : c2 <> []).
        { intros ->. specialize (Hpos c1 Hn1). unfold zlen in *.
          cbn [length] in *. lia. }
        destruct (IH c2 cl2 Hr2 Hn2) as (cs' & cls' & E' & Hr' & Hn' & Hl').
        exists cs', cls'. split; [exact E' |]. repeat split; auto.
        unfold zlen in *. lia.
      + destruct (Hsame eq_refl) as [-> ->].
        exists c1, cl1. repeat split; auto. lia. }
  destruct (Hrounds 5%nat centers clusters Hc Hne) as (cs & cls & E & Hr & Hn & Hl).
  rewrite E. cbn [bind fst snd].
  destruct (Cluster_spec wv cs cls Hwv Hr Hn)
    as (centers' & clusters' & E' & Hl1 & Hl2 & Hr' & Hn' & Hp & Hu).
  exists centers', clusters'. split; [exact E' |]. split; [| exact Hu].
  specialize (Hpos centers' Hn'). repeat split; auto; lia.
Qed.

(** X26.  Given centers, [ClusterMerge] returns.  It leaves at least one
    center and no more than it was given, one cluster to a center; the
    clusters hold every element that has a signature once and nothing else;
    and the centers are those that [UpdateCenters] gives the clusters. *)
Theorem ClusterMerge_partitions (wv : signatures) (centers : list Z)
  (clusters : list (list Z)) :
  Forall bounded wv -> Forall (in_range wv) centers -> centers <> [] ->
  exists centers' clusters',
    ClusterMerge wv centers clusters = Ok (centers', clusters') /\
    (1 <= zlen centers' <= zlen centers)%Z /\ zlen clusters' = zlen centers' /\
    Forall (in_range wv) centers' /\
    Permutation (concat clusters') (elements wv) /\
    UpdateCenters wv clusters' = Ok centers'.
Proof.
  intros Hwv Hc Hne.
  destruct (ClusterMerge_spec wv centers clusters Hwv Hc Hne)
    as (centers' & clusters' & E & (H1 & H2 & H3 & H4) & H5).
  exists centers', clusters'. repeat split; try assumption; lia.
Qed.

(** *** On three elements *)

Lemma close_by_bounded : Forall bounded close_by.
Proof. repeat constructor; vm_compute; discriminate. Qed.

Lemma in_range_3 (wv : signatures) (l : list Z) :
  zlen wv = 3%Z -> forallb (fun i => (0 <=? i)%Z && (i <? 3)%Z) l = true ->
  Forall (in_range wv) l.
Proof.
  intros Hl H. rewrite forallb_forall in H. apply Forall_forall. intros i Hi.
  specialize (H i Hi). unfold in_range. lia.
Qed.

Example ClusterMerge_close_by :
  ClusterMerge close_by [0; 1; 2]%Z [] = Ok ([0; 1]%Z, [[0; 2]; [1]]%Z) /\
  ClusterMerge far_apart [0; 1; 2]%Z [] = Ok ([0; 1; 2]%Z, [[0]; [1]; [2]]%Z).
Proof. split; reflexivity. Qed.

Lemma IdentifyClosestCenterIndex_nearest_witness :
  exists i, IdentifyClosestCenterIndex close_by 2 [0; 1]%Z = Ok i /\
            nearest close_by 2 [0; 1]%Z i.
Proof.
  apply (proj2 (IdentifyClosestCenterIndex_nearest close_by 2 [0; 1]%Z)).
  - exact close_by_bounded.
  - unfold in_range, zlen. cbn. lia.
  - apply in_range_3; reflexivity.
  - discriminate.
Defined.

Lemma UpdateCenters_medoids_witness :
  exists centers,
    UpdateCenters close_by [[0; 2]; [1]]%Z = Ok centers /\
    zlen centers = zlen [[0; 2]; [1]]%Z /\
    forall k cluster, zth [[0; 2]; [1]]%Z k = Some cluster ->
      exists c, zth centers k = Some c /\ center_of close_by cluster c.
Proof.
  apply (UpdateCenters_medoids close_by [[0; 2]; [1]]%Z).
  repeat constructor; unfold zlen; cbn; lia.
Defined.

Lemma Cluster_partitions_witness :
  exists centers' clusters',
    Cluster close_by [0; 1]%Z [] = Ok (centers', clusters') /\
    zlen centers' = zlen [0; 1]%Z /\ zlen clusters' = zlen [0; 1]%Z /\
    Forall (in_range close_by) centers' /\
    Permutation (concat clusters') (elements close_by) /\
    UpdateCenters close_by clusters' = Ok centers'.
Proof.
  apply (proj2 (Cluster_partitions close_by [0; 1]%Z [])).
  - exact close_by_bounded.
  - apply in_range_3; reflexivity.
  - discriminate.
Defined.

Lemma Merge_keeps_members_witness :
  exists merged centers' clusters',
    Merge close_by kMergeThreshold [0; 1; 2]%Z [[0]; [1]; [2]]%Z
    = Ok (merged, centers', clusters') /\
    Permutation (concat clusters') (concat [[0]; [1]; [2]]%Z) /\
    zlen centers' = zlen clusters' /\
    (zlen [[0]; [1]; [2]]%Z <= 2 * zlen clusters')%Z /\
    (zlen clusters' <= zlen [[0]; [1]; [2]]%Z)%Z.
Proof.
  apply (Merge_keeps_members close_by kMergeThreshold [0; 1; 2]%Z
           [[0]; [1]; [2]]%Z).
  - vm_compute. discriminate.
  - apply in_range_3; reflexivity.
  - reflexivity.
  - repeat constructor; unfold zlen; cbn; lia.
Defined.

Lemma ClusterMerge_partitions_witness :
  exists centers' clusters',
    ClusterMerge close_by [0; 1; 2]%Z [] = Ok (centers', clusters') /\
    (1 <= zlen centers' <= zlen [0; 1; 2]%Z)%Z /\
    zlen clusters' = zlen centers' /\
    Forall (in_range close_by) centers' /\
    Permutation (concat clusters') (elements close_by) /\
    UpdateCenters close_by clusters' = Ok centers'.
Proof.
  apply (ClusterMerge_partitions close_by [0; 1; 2]%Z []).
  - exact close_by_bounded.
  - apply in_range_3; reflexivity.
  - discriminate.
Defined.

End ClusterFacts.
